(** * Titan market-data engine: a shallow embedding and its verified properties

    The development follows the C++ sources of the repository:

    - [core/fixed_point.hpp]          -> module [FixedPoint]
    - [orderbook/price_level.hpp],
      [orderbook/order_book.cpp]      -> module [Book]
    - [engine/market_data_engine.cpp] -> module [Engine]
    - [binance/feed_handler.cpp]      -> module [Feed]
    - [trade/vwap_calculator.cpp],
      [trade/trade_flow.cpp]          -> modules [Vwap], [Flow]
    - [queue/spsc_queue.hpp]          -> module [Spsc]
    - [output/websocket_server.cpp]   -> module [WsServer]

    Conventions.  [std::uint64_t]/[std::size_t] values are integers of [Z] in
    [0, 2^64) and every addition is followed by its wrap-around; [std::int64_t]
    values are integers in [-2^63, 2^63) and arithmetic wraps in two's
    complement (what the compiled code does where the C++ standard leaves the
    overflow undefined).  [double] is the kernel's binary64 type [float].
    Exceptions are values of a sum type. *)

From Stdlib Require Import ZArith List Bool String Ascii Lia Floats.
From Stdlib Require QArith.
From Stdlib Require Import Sorted.
From stdpp Require Import base list gmap.
Import ListNotations.

Local Open Scope Z_scope.

(** ** Machine integers *)

Module U64.
Definition modulus : Z := 2 ^ 64.
Definition max : Z := modulus - 1.
Definition wrap (z : Z) : Z := z mod modulus.
Definition add (a b : Z) : Z := wrap (a + b).
Definition sub (a b : Z) : Z := wrap (a - b).
Definition in_range (z : Z) : Prop := 0 <= z < modulus.
End U64.

Module I64.
Definition min : Z := - 2 ^ 63.
Definition max : Z := 2 ^ 63 - 1.
Definition wrap (z : Z) : Z := (z + 2 ^ 63) mod 2 ^ 64 - 2 ^ 63.
Definition add (a b : Z) : Z := wrap (a + b).
Definition sub (a b : Z) : Z := wrap (a - b).
Definition mul (a b : Z) : Z := wrap (a * b).
Definition neg (a : Z) : Z := wrap (- a).
Definition in_range (z : Z) : Prop := min <= z <= max.
End I64.

(** ** Conversions between [std::int64_t] and [double] *)

Module Dbl.
(** [static_cast<double>(z)]: the integer rounded to the nearest binary64
  value, ties to even. *)
Definition of_Z (z : Z) : float :=
SF2Prim (binary_normalize prec emax z 0 false).

(** [std::round]: nearest integer, halfway cases away from zero.  The
  result is the integer value of the rounded double; [None] for
  infinities and NaN. *)
Definition round_half_away (m : positive) (e : Z) : Z :=
if 0 <=? e then Z.pos m * 2 ^ e
else
  let d := 2 ^ (- e) in
  let q := Z.pos m / d in
  let r := Z.pos m mod d in
  if d <=? 2 * r then q + 1 else q.

Definition round (x : float) : option Z :=
match Prim2SF x with
| S754_zero _ => Some 0
| S754_finite s m e =>
    let v := round_half_away m e in Some (if s then - v else v)
| S754_infinity _ | S754_nan => None
end.

(** [static_cast<std::int64_t>(std::round(x))].  The conversion is
  undefined in C++ when the value does not fit; x86-64 yields [INT64_MIN]
  (the "integer indefinite" value), which is what is modelled. *)
Definition to_i64 (x : float) : Z :=
match round x with
| Some v => if (I64.min <=? v) && (v <=? I64.max) then v else I64.min
| None => I64.min
end.
End Dbl.

(** ** The exactly rounded quotient *)

(** Modelled from the spec: the exact quotient [n / d] rounded to the
    nearest integer, halfway cases away from zero (the rounding of
    [std::round]); this is the "round(a.raw * b.raw / 10^D)" of the
    specification, computed without any intermediate rounding. *)
Definition round_div (n d : Z) : Z :=
  let q := Z.quot n d in
  let r := Z.rem n d in
  if Z.abs d <=? 2 * Z.abs r then q + Z.sgn n * Z.sgn d else q.

(** ** [core/fixed_point.hpp]: [FixedPoint<Decimals>] *)

Module FixedPoint.

(** The exceptions [parse] throws, one constructor per [throw] site:
  [std::invalid_argument] for the first four, [std::overflow_error] for
  the last two. *)
Inductive ParseError : Set :=
| SignOnly          (* "Invalid number format: sign only" *)
| MultiplePoints    (* "Multiple decimal points" *)
| InvalidChar       (* "Invalid character in number" *)
| NoDigits          (* "No digits found in number" *)
| IntegerOverflow   (* "Integer part overflow during parse" *)
| ValueTooLarge.    (* "Value too large for fixed-point representation" *)

Inductive result (A : Type) : Type :=
| Ok (a : A)
| Throw (e : ParseError).
Arguments Ok {A} a.
Arguments Throw {A} e.

(** [scale = 10^Decimals], computed by the constexpr loop [s *= 10]. *)
Fixpoint scale_loop (n : nat) (s : Z) : Z :=
match n with
| O => s
| S n' => scale_loop n' (I64.mul s 10)
end.
Definition scale (Decimals : Z) : Z := scale_loop (Z.to_nat Decimals) 1.

Definition is_digit (c : ascii) : bool :=
let n := Z.of_nat (nat_of_ascii c) in (48 <=? n) && (n <=? 57).
Definition digit_of (c : ascii) : Z := Z.of_nat (nat_of_ascii c) - 48.
Definition is_point (c : ascii) : bool := Ascii.eqb c "."%char.

(** The local variables of [parse]'s scanning loop. *)
Record scan_state : Set := mkScan {
integer_part : Z;
frac_part : Z;
frac_digits : Z;
in_fraction : bool;
has_digits : bool
}.

Definition scan_init : scan_state := mkScan 0 0 0 false false.

Definition max_safe_int : Z := I64.max / 10.

(** One iteration of [for (; pos < str.length(); ++pos)]. *)
Definition scan_char (Decimals : Z) (c : ascii) (st : scan_state)
: result scan_state :=
if is_point c then
  if in_fraction st then Throw MultiplePoints
  else Ok (mkScan (integer_part st) (frac_part st) (frac_digits st)
                  true (has_digits st))
else if negb (is_digit c) then Throw InvalidChar
else
  let digit := digit_of c in
  if in_fraction st then
    if frac_digits st <? Decimals then
      Ok (mkScan (integer_part st)
                 (I64.add (I64.mul (frac_part st) 10) digit)
                 (frac_digits st + 1) true true)
    else
      Ok (mkScan (integer_part st) (frac_part st) (frac_digits st)
                 true true)
  else
    if integer_part st >? max_safe_int then Throw IntegerOverflow
    else
      Ok (mkScan (I64.add (I64.mul (integer_part st) 10) digit)
                 (frac_part st) (frac_digits st) false true).

Fixpoint scan (Decimals : Z) (s : string) (st : scan_state)
: result scan_state :=
match s with
| EmptyString => Ok st
| String c rest =>
    match scan_char Decimals c st with
    | Ok st' => scan Decimals rest st'
    | Throw e => Throw e
    end
end.

(** [while (frac_digits < Decimals) { frac_part *= 10; ++frac_digits; }];
  the loop runs [Decimals - frac_digits] times. *)
Fixpoint pad_loop (n : nat) (frac : Z) : Z :=
match n with
| O => frac
| S n' => pad_loop n' (I64.mul frac 10)
end.
Definition pad_frac (Decimals : Z) (st : scan_state) : Z :=
pad_loop (Z.to_nat (Decimals - frac_digits st)) (frac_part st).

Definition max_integer_part (Decimals : Z) : Z := I64.max / scale Decimals.

(** What follows the scanning loop. *)
Definition finish (Decimals : Z) (negative : bool) (st : scan_state)
: result Z :=
if negb (has_digits st) then Throw NoDigits
else
  let frac := pad_frac Decimals st in
  if integer_part st >? max_integer_part Decimals then Throw ValueTooLarge
  else
    let r := I64.add (I64.mul (integer_part st) (scale Decimals)) frac in
    Ok (if negative then I64.neg r else r).

(** [FixedPoint::parse]; the value returned is the raw [int64_t]. *)
Definition parse (Decimals : Z) (str : string) : result Z :=
match str with
| EmptyString => Ok 0
| String c0 rest =>
    let negative := Ascii.eqb c0 "-"%char in
    let signed := negative || Ascii.eqb c0 "+"%char in
    let body := if signed then rest else str in
    match body with
    | EmptyString => Throw SignOnly
    | _ =>
        match scan Decimals body scan_init with
        | Throw e => Throw e
        | Ok st => finish Decimals negative st
        end
    end
end.

(** [detail::mul_div] and [detail::mul_scale] (the same body). *)
Definition mul_div (a b divisor : Z) : Z :=
Dbl.to_i64 (PrimFloat.div (PrimFloat.mul (Dbl.of_Z a) (Dbl.of_Z b))
                          (Dbl.of_Z divisor)).
Definition mul_scale (a s divisor : Z) : Z :=
Dbl.to_i64 (PrimFloat.div (PrimFloat.mul (Dbl.of_Z a) (Dbl.of_Z s))
                          (Dbl.of_Z divisor)).

(** [operator*] and [operator/] on raw values. *)
Definition mul (Decimals : Z) (a b : Z) : Z := mul_div a b (scale Decimals).
Definition div (Decimals : Z) (a b : Z) : Z :=
if b =? 0 then 0 else mul_scale a (scale Decimals) b.

(** Modelled from the spec: [try_divide] is declared in the CHANGELOG and
  exercised by [tests/unit/test_fixed_point.cpp], but its body is not in
  [core/fixed_point.hpp] as given.  The spec's words are
  "try_divide(a,b) = None if b==0 else round(a.raw * 10^D / b.raw)": the
  quotient of the raw values, rounded once. *)
Definition try_divide (Decimals : Z) (a b : Z) : option Z :=
if b =? 0 then None else Some (round_div (a * 10 ^ Decimals) b).

(** [to_double]. *)
Definition to_double (Decimals : Z) (raw : Z) : float :=
PrimFloat.div (Dbl.of_Z raw) (Dbl.of_Z (scale Decimals)).

(** The comparison operators are those of the raw value. *)
Definition eqb (a b : Z) : bool := a =? b.
Definition ltb (a b : Z) : bool := a <? b.
Definition gtb (a b : Z) : bool := a >? b.

End FixedPoint.

(** [core/types.hpp] *)
Definition kPriceDecimals : Z := 8.
Abbreviation FixedPrice := Z (only parsing).
Abbreviation Quantity := float (only parsing).
Abbreviation SequenceId := Z (only parsing).

(** ** [binance/types.hpp]

    Only the fields the engine reads are kept; the string fields
    ([event_type], [symbol]) and the event times are carried along unchanged
    by the C++ code and take part in no decision. *)

Definition PriceLevel : Type := (FixedPrice * Quantity)%type.

Record DepthUpdate : Type := mkDepthUpdate {
  first_update_id : SequenceId;        (* U *)
  final_update_id : SequenceId;        (* u *)
  prev_final_update_id : SequenceId;   (* pu *)
  du_bids : list PriceLevel;
  du_asks : list PriceLevel
}.

Record AggTrade : Type := mkAggTrade {
  agg_trade_id : Z;
  price : float;
  quantity : float;
  is_buyer_maker : bool
}.

Record DepthSnapshot : Type := mkDepthSnapshot {
  last_update_id : SequenceId;
  ds_bids : list PriceLevel;
  ds_asks : list PriceLevel
}.

(** ** [orderbook/price_level.hpp], [orderbook/order_book.cpp]

    [BidSide = std::map<FixedPrice, Quantity, std::greater<FixedPrice>>] and
    [AskSide = std::map<FixedPrice, Quantity>]: a [std::map] is the list of
    its entries in iteration order, and the operations below keep that list
    strictly ordered by the map's comparator.  The sources hold two
    revisions of the key type.  This module follows the [FixedPrice] keys of
    [binance::PriceLevel] and of the [price_level.hpp] that declares the
    [legacy] namespace; [apply_bid_update] and [apply_ask_update] with the
    parameter [Price = double] that [order_book.hpp] declares, on the
    [double]-keyed sides of [orderbook/price_level.hpp], are in [DoubleBook]
    below. *)

Module Book.

Section Side.
(** [before a b]: the comparator, "a is ordered before b". *)
Variable before : FixedPrice -> FixedPrice -> bool.

(** [m[k] = v] *)
Fixpoint assign (k : FixedPrice) (v : Quantity) (m : list PriceLevel)
: list PriceLevel :=
match m with
| [] => [(k, v)]
| (k', v') :: tl =>
  if before k k' then (k, v) :: m
  else if before k' k then (k', v') :: assign k v tl
  else (k', v) :: tl
end.

(** [m.find(k)], as the entry found *)
Fixpoint find (k : FixedPrice) (m : list PriceLevel) : option Quantity :=
match m with
| [] => None
| (k', v') :: tl =>
  if before k k' then None
  else if before k' k then find k tl
  else Some v'
end.

(** [m.erase(m.find(k))] when the key is present *)
Fixpoint erase (k : FixedPrice) (m : list PriceLevel) : list PriceLevel :=
match m with
| [] => []
| (k', v') :: tl =>
  if before k k' then m
  else if before k' k then (k', v') :: erase k tl
  else tl
end.
End Side.

Definition bid_before (a b : FixedPrice) : bool := FixedPoint.gtb a b.
Definition ask_before (a b : FixedPrice) : bool := FixedPoint.ltb a b.

(** The cached iterators are positions in the entry list ([begin()] is
  position 0). *)
Record OrderBook : Type := mkBook {
bids_ : list PriceLevel;
asks_ : list PriceLevel;
last_update_id_ : SequenceId;
imbalance_levels_ : nat;
best_bid_it_ : nat;
best_ask_it_ : nat;
best_bid_valid_ : bool;
best_ask_valid_ : bool
}.

Definition create (imbalance_levels : nat) : OrderBook :=
mkBook [] [] 0 imbalance_levels 0 0 false false.

Definition set_bids (b : OrderBook) (m : list PriceLevel) : OrderBook :=
mkBook m (asks_ b) (last_update_id_ b) (imbalance_levels_ b)
       (best_bid_it_ b) (best_ask_it_ b)
       (best_bid_valid_ b) (best_ask_valid_ b).
Definition set_asks (b : OrderBook) (m : list PriceLevel) : OrderBook :=
mkBook (bids_ b) m (last_update_id_ b) (imbalance_levels_ b)
       (best_bid_it_ b) (best_ask_it_ b)
       (best_bid_valid_ b) (best_ask_valid_ b).
Definition set_last_update_id (b : OrderBook) (id : SequenceId) : OrderBook :=
mkBook (bids_ b) (asks_ b) id (imbalance_levels_ b)
       (best_bid_it_ b) (best_ask_it_ b)
       (best_bid_valid_ b) (best_ask_valid_ b).
Definition set_bid_cache (b : OrderBook) (it : nat) (valid : bool) : OrderBook :=
mkBook (bids_ b) (asks_ b) (last_update_id_ b) (imbalance_levels_ b)
       it (best_ask_it_ b) valid (best_ask_valid_ b).
Definition set_ask_cache (b : OrderBook) (it : nat) (valid : bool) : OrderBook :=
mkBook (bids_ b) (asks_ b) (last_update_id_ b) (imbalance_levels_ b)
       (best_bid_it_ b) it (best_bid_valid_ b) valid.

Definition invalidate_best_cache (b : OrderBook) : OrderBook :=
set_ask_cache (set_bid_cache b (best_bid_it_ b) false) (best_ask_it_ b) false.

Definition positive_qty (q : Quantity) : bool := PrimFloat.ltb 0%float q.

(** [apply_bid_update]: both branches end in [best_bid_valid_ = false].
  The body is that of [order_book.cpp], applied to the [FixedPrice] key of
  the [binance::PriceLevel] that [apply_update] iterates over;
  [order_book.hpp] declares the parameter as [Price = double], and
  [DoubleBook.apply_bid_update] is the function with that parameter. *)
Definition apply_bid_update (b : OrderBook) (p : FixedPrice) (q : Quantity)
: OrderBook :=
let b1 :=
  if positive_qty q then set_bids b (assign bid_before p q (bids_ b))
  else
    match find bid_before p (bids_ b) with
    | Some _ => set_bids b (erase bid_before p (bids_ b))
    | None => b
    end in
set_bid_cache b1 (best_bid_it_ b1) false.

Definition apply_ask_update (b : OrderBook) (p : FixedPrice) (q : Quantity)
: OrderBook :=
let b1 :=
  if positive_qty q then set_asks b (assign ask_before p q (asks_ b))
  else
    match find ask_before p (asks_ b) with
    | Some _ => set_asks b (erase ask_before p (asks_ b))
    | None => b
    end in
set_ask_cache b1 (best_ask_it_ b1) false.

(** The insertion loops of [apply_snapshot]. *)
Definition insert_positive (before : FixedPrice -> FixedPrice -> bool)
  (m : list PriceLevel) (lv : PriceLevel) : list PriceLevel :=
if positive_qty (snd lv) then assign before (fst lv) (snd lv) m else m.

(** [calculate_imbalance]: the two loops add the quantities of the first
  [imbalance_levels_] entries of each side, front to back. *)
Definition sum_top (n : nat) (m : list PriceLevel) : Quantity :=
fold_left (fun acc lv => PrimFloat.add acc (snd lv)) (firstn n m) 0%float.

Definition is_empty {A} (l : list A) : bool :=
match l with [] => true | _ => false end.

Definition calculate_imbalance (b : OrderBook) : float :=
if is_empty (bids_ b) && is_empty (asks_ b) then 0%float
else
  let bid_volume := sum_top (imbalance_levels_ b) (bids_ b) in
  let ask_volume := sum_top (imbalance_levels_ b) (asks_ b) in
  let total := PrimFloat.add bid_volume ask_volume in
  if PrimFloat.leb total 0%float then 0%float
  else PrimFloat.div (PrimFloat.sub bid_volume ask_volume) total.

Record BookSnapshot : Type := mkSnap {
best_bid : float;
best_ask : float;
best_bid_qty : Quantity;
best_ask_qty : Quantity;
spread : float;
spread_bps : float;
mid_price : float;
imbalance : float;
snap_last_update_id : SequenceId
}.

Definition update_best_bid_cache (b : OrderBook) : OrderBook :=
if best_bid_valid_ b then b else set_bid_cache b 0%nat true.
Definition update_best_ask_cache (b : OrderBook) : OrderBook :=
if best_ask_valid_ b then b else set_ask_cache b 0%nat true.

Definition level_at (m : list PriceLevel) (it : nat) : PriceLevel :=
nth it m (0, 0%float).
(** [best_bid_it_->first] assigned to the [Price] field of the snapshot:
  [order_book.cpp] writes the assignment with no conversion, as for a
  [double] key; from a [FixedPrice] key the only conversion the sources
  give is [to_double]. *)
Definition to_price (k : FixedPrice) : float :=
FixedPoint.to_double kPriceDecimals k.

(** [build_snapshot]; it is [const] in C++ but refreshes the [mutable]
  cache, so the book is returned with the snapshot. *)
Definition build_snapshot (b : OrderBook) : BookSnapshot * OrderBook :=
if is_empty (bids_ b) || is_empty (asks_ b) then
  let b1 := if is_empty (bids_ b) then b else update_best_bid_cache b in
  let b2 := if is_empty (asks_ b) then b1 else update_best_ask_cache b1 in
  let bb := if is_empty (bids_ b) then (0%float, 0%float)
            else let lv := level_at (bids_ b2) (best_bid_it_ b2) in
                 (to_price (fst lv), snd lv) in
  let ba := if is_empty (asks_ b) then (0%float, 0%float)
            else let lv := level_at (asks_ b2) (best_ask_it_ b2) in
                 (to_price (fst lv), snd lv) in
  (mkSnap (fst bb) (fst ba) (snd bb) (snd ba) 0%float 0%float 0%float
          (calculate_imbalance b2) (last_update_id_ b2), b2)
else
  let b2 := update_best_ask_cache (update_best_bid_cache b) in
  let lb := level_at (bids_ b2) (best_bid_it_ b2) in
  let la := level_at (asks_ b2) (best_ask_it_ b2) in
  let bid := to_price (fst lb) in
  let ask := to_price (fst la) in
  let spr := PrimFloat.sub ask bid in
  let mid := PrimFloat.div (PrimFloat.add bid ask) 2%float in
  let bps := if PrimFloat.ltb 0%float mid
             then PrimFloat.mul (PrimFloat.div spr mid) 10000%float
             else 0%float in
  (mkSnap bid ask (snd lb) (snd la) spr bps mid
          (calculate_imbalance b2) (last_update_id_ b2), b2).

Definition apply_snapshot (b : OrderBook) (s : DepthSnapshot)
: BookSnapshot * OrderBook :=
let b0 := invalidate_best_cache (set_asks (set_bids b []) []) in
let b1 := set_bids b0 (fold_left (insert_positive bid_before) (ds_bids s) (bids_ b0)) in
let b2 := set_asks b1 (fold_left (insert_positive ask_before) (ds_asks s) (asks_ b1)) in
build_snapshot (set_last_update_id b2 (last_update_id s)).

Definition apply_update (b : OrderBook) (u : DepthUpdate)
: BookSnapshot * OrderBook :=
let b1 := fold_left (fun bk lv => apply_bid_update bk (fst lv) (snd lv)) (du_bids u) b in
let b2 := fold_left (fun bk lv => apply_ask_update bk (fst lv) (snd lv)) (du_asks u) b1 in
build_snapshot (set_last_update_id b2 (final_update_id u)).

Definition snapshot (b : OrderBook) : BookSnapshot * OrderBook :=
build_snapshot b.

Definition has_sequence_gap (b : OrderBook)
  (first_update_id prev_final_update_id : SequenceId) : bool :=
negb (prev_final_update_id =? last_update_id_ b).

Definition clear (b : OrderBook) : OrderBook :=
invalidate_best_cache (set_last_update_id (set_asks (set_bids b []) []) 0).

End Book.

(** ** [trade/vwap_calculator.cpp] *)

Module Vwap.

Record Trade : Type := mkTrade { t_price : float; t_quantity : float }.

Record VwapCalculator : Type := mkVwap {
trades_ : list Trade;          (* std::deque, front first *)
window_size_ : nat;
sum_pv_ : float;
sum_v_ : float;
mean_ : float;
m2_ : float;
count_ : nat
}.

Definition create (window_size : nat) : VwapCalculator :=
mkVwap [] window_size 0%float 0%float 0%float 0%float 0%nat.

Definition of_count (n : nat) : float := Dbl.of_Z (Z.of_nat n).

Definition vwap (c : VwapCalculator) : float :=
if PrimFloat.leb (sum_v_ c) 0%float then 0%float
else PrimFloat.div (sum_pv_ c) (sum_v_ c).

(** The removal branch of [add_trade], entered with the new trade already
  appended and the Welford update already done. *)
Definition evict (c : VwapCalculator) : VwapCalculator :=
match trades_ c with
| [] => c
| old_trade :: rest =>
    let sum_pv := PrimFloat.sub (sum_pv_ c)
                    (PrimFloat.mul (t_price old_trade) (t_quantity old_trade)) in
    let sum_v := PrimFloat.sub (sum_v_ c) (t_quantity old_trade) in
    let old_qty := t_quantity old_trade in
    let old_delta := PrimFloat.sub old_qty (mean_ c) in
    let count := Nat.pred (count_ c) in
    if (0 <? count)%nat then
      let mean := PrimFloat.div
                    (PrimFloat.sub
                       (PrimFloat.mul (mean_ c)
                          (PrimFloat.add (of_count count) 1%float))
                       old_qty)
                    (of_count count) in
      let old_delta2 := PrimFloat.sub old_qty mean in
      let m2 := PrimFloat.sub (m2_ c) (PrimFloat.mul old_delta old_delta2) in
      let m2' := if PrimFloat.ltb m2 0%float then 0%float else m2 in
      mkVwap rest (window_size_ c) sum_pv sum_v mean m2' count
    else
      mkVwap rest (window_size_ c) sum_pv sum_v 0%float 0%float count
end.

(** [add_trade]; the VWAP it returns is [vwap] of the new state. *)
Definition add_trade (c : VwapCalculator) (p q : float) : VwapCalculator :=
let trades := trades_ c ++ [mkTrade p q] in
let sum_pv := PrimFloat.add (sum_pv_ c) (PrimFloat.mul p q) in
let sum_v := PrimFloat.add (sum_v_ c) q in
let count := S (count_ c) in
let delta := PrimFloat.sub q (mean_ c) in
let mean := PrimFloat.add (mean_ c) (PrimFloat.div delta (of_count count)) in
let delta2 := PrimFloat.sub q mean in
let m2 := PrimFloat.add (m2_ c) (PrimFloat.mul delta delta2) in
let c1 := mkVwap trades (window_size_ c) sum_pv sum_v mean m2 count in
if (window_size_ c <? length trades)%nat then evict c1 else c1.

Definition total_volume (c : VwapCalculator) : float := sum_v_ c.
Definition trade_count (c : VwapCalculator) : nat := length (trades_ c).

Definition rolling_avg_size (c : VwapCalculator) : float :=
if (count_ c =? 0)%nat then 0%float else mean_ c.

Definition rolling_std_dev (c : VwapCalculator) : float :=
if (count_ c <? 2)%nat then 0%float
else PrimFloat.sqrt (PrimFloat.div (m2_ c) (of_count (count_ c))).

Definition clear (c : VwapCalculator) : VwapCalculator :=
mkVwap [] (window_size_ c) 0%float 0%float 0%float 0%float 0%nat.

End Vwap.

(** ** [trade/alert_detector.cpp] *)

Module Alert.

(** The [timestamp] field (a clock reading) is left out. *)
Record TradeAlert : Type := mkAlert {
a_price : float;
a_quantity : float;
a_is_buy : bool;
a_deviation : float
}.

Definition check_trade (threshold p q : float) (is_buy : bool)
  (rolling_avg rolling_std_dev : float) : option TradeAlert :=
if PrimFloat.leb rolling_std_dev 0%float then None
else
  let deviation := PrimFloat.div (PrimFloat.sub q rolling_avg) rolling_std_dev in
  if PrimFloat.ltb threshold deviation
  then Some (mkAlert p q is_buy deviation)
  else None.

End Alert.

(** ** [trade/trade_flow.cpp] *)

Module Flow.

Record TradeFlowMetrics : Type := mkMetrics {
m_vwap : float;
m_total_buy_volume : float;
m_total_sell_volume : float;
m_net_flow : float;
m_trade_count : nat;
m_last_alert : option Alert.TradeAlert
}.

Record TradeFlow : Type := mkFlow {
vwap_ : Vwap.VwapCalculator;
threshold_ : float;                 (* alert_detector_ *)
total_buy_volume_ : float;
total_sell_volume_ : float;
last_alert_ : option Alert.TradeAlert
}.

(** [TradeFlow(config)]: [vwap_(config.vwap_window)],
  [alert_detector_(config.large_trade_std_devs)]. *)
Definition create (vwap_window : nat) (large_trade_std_devs : float) : TradeFlow :=
mkFlow (Vwap.create vwap_window) large_trade_std_devs 0%float 0%float None.

Definition current_metrics (f : TradeFlow) : TradeFlowMetrics :=
mkMetrics (Vwap.vwap (vwap_ f))
          (total_buy_volume_ f)
          (total_sell_volume_ f)
          (PrimFloat.sub (total_buy_volume_ f) (total_sell_volume_ f))
          (Vwap.trade_count (vwap_ f))
          (last_alert_ f).

Definition process_trade (f : TradeFlow) (t : AggTrade)
: TradeFlowMetrics * TradeFlow :=
let v := Vwap.add_trade (vwap_ f) (price t) (quantity t) in
let is_buy := negb (is_buyer_maker t) in
let buy := if is_buy then PrimFloat.add (total_buy_volume_ f) (quantity t)
           else total_buy_volume_ f in
let sell := if is_buy then total_sell_volume_ f
            else PrimFloat.add (total_sell_volume_ f) (quantity t) in
let alert := Alert.check_trade (threshold_ f) (price t) (quantity t) is_buy
               (Vwap.rolling_avg_size v) (Vwap.rolling_std_dev v) in
let last := match alert with Some a => Some a | None => last_alert_ f end in
let f' := mkFlow v (threshold_ f) buy sell last in
(current_metrics f', f').

Definition reset (f : TradeFlow) : TradeFlow :=
mkFlow (Vwap.clear (vwap_ f)) (threshold_ f) 0%float 0%float None.

End Flow.

(** ** [core/messages.hpp]: [EngineMessage]

    The receive timestamps are left out: no handler reads them. *)

Inductive EngineMessage : Type :=
| DepthUpdateMsg (data : DepthUpdate)
| AggTradeMsg (data : AggTrade)
| SnapshotMsg (data : DepthSnapshot)
| ConnectionLost
| ConnectionRestored
| SequenceGap (expected received : SequenceId)
| Shutdown.

(** ** [engine/market_data_engine.cpp]: the message handlers of the compute
    thread *)

Module Engine.

Inductive SyncState : Set := Initializing | WaitingSnapshot | Synced.

Definition SyncState_eqb (a b : SyncState) : bool :=
match a, b with
| Initializing, Initializing | WaitingSnapshot, WaitingSnapshot
| Synced, Synced => true
| _, _ => false
end.

(** What a handler does to the other components: the call
  [feed_handler_->request_snapshot()] and the broadcasts handed to the
  WebSocket server (console logging is left out). *)
Inductive Effect : Type :=
| RequestSnapshot
| BroadcastAlert (a : Alert.TradeAlert)
| BroadcastStatus (connected : bool).

Record MarketDataEngine : Type := mkEngine {
order_book_ : Book.OrderBook;
trade_flow_ : Flow.TradeFlow;
sync_state_ : SyncState;
last_processed_id_ : SequenceId;
pending_alert_ : option Alert.TradeAlert
}.

Definition create (imbalance_levels vwap_window : nat) (std_devs : float)
: MarketDataEngine :=
mkEngine (Book.create imbalance_levels) (Flow.create vwap_window std_devs)
         Initializing 0 None.

Definition handle_depth_update (e : MarketDataEngine) (update : DepthUpdate)
: MarketDataEngine * list Effect :=
if negb (SyncState_eqb (sync_state_ e) Synced) then (e, [])
else if (0 <? last_processed_id_ e)
        && Book.has_sequence_gap (order_book_ e)
             (first_update_id update) (prev_final_update_id update)
then (mkEngine (Book.clear (order_book_ e)) (trade_flow_ e)
               WaitingSnapshot (last_processed_id_ e) (pending_alert_ e),
      [RequestSnapshot])
else (mkEngine (snd (Book.apply_update (order_book_ e) update))
               (trade_flow_ e) (sync_state_ e)
               (final_update_id update) (pending_alert_ e),
      []).

Definition handle_agg_trade (e : MarketDataEngine) (t : AggTrade)
: MarketDataEngine * list Effect :=
let '(metrics, flow) := Flow.process_trade (trade_flow_ e) t in
match Flow.m_last_alert metrics with
| Some a =>
    (mkEngine (order_book_ e) flow (sync_state_ e)
              (last_processed_id_ e) (Some a),
     [BroadcastAlert a])
| None =>
    (mkEngine (order_book_ e) flow (sync_state_ e)
              (last_processed_id_ e) (pending_alert_ e),
     [])
end.

Definition handle_snapshot (e : MarketDataEngine) (s : DepthSnapshot)
: MarketDataEngine * list Effect :=
(mkEngine (snd (Book.apply_snapshot (order_book_ e) s)) (trade_flow_ e)
          Synced (last_update_id s) (pending_alert_ e),
 []).

Definition set_sync (e : MarketDataEngine) (s : SyncState) : MarketDataEngine :=
mkEngine (order_book_ e) (trade_flow_ e) s
         (last_processed_id_ e) (pending_alert_ e).

Definition handle_connection_lost (e : MarketDataEngine)
: MarketDataEngine * list Effect :=
(set_sync e WaitingSnapshot, [BroadcastStatus false]).

Definition handle_connection_restored (e : MarketDataEngine)
: MarketDataEngine * list Effect :=
(set_sync e WaitingSnapshot, [BroadcastStatus true]).

Definition handle_sequence_gap (e : MarketDataEngine)
: MarketDataEngine * list Effect :=
(mkEngine (Book.clear (order_book_ e)) (trade_flow_ e) WaitingSnapshot
          (last_processed_id_ e) (pending_alert_ e),
 [RequestSnapshot]).

Definition process_message (e : MarketDataEngine) (m : EngineMessage)
: MarketDataEngine * list Effect :=
match m with
| DepthUpdateMsg u => handle_depth_update e u
| AggTradeMsg t => handle_agg_trade e t
| SnapshotMsg s => handle_snapshot e s
| ConnectionLost => handle_connection_lost e
| ConnectionRestored => handle_connection_restored e
| SequenceGap _ _ => handle_sequence_gap e
| Shutdown => (e, [])
end.

(** The engine after a sequence of messages, with the effects in order. *)
Fixpoint run (e : MarketDataEngine) (ms : list EngineMessage)
: MarketDataEngine * list Effect :=
match ms with
| [] => (e, [])
| m :: rest =>
    let '(e1, out1) := process_message e m in
    let '(e2, out2) := run e1 rest in
    (e2, out1 ++ out2)
end.

End Engine.

(** ** [binance/feed_state.hpp], [binance/feed_handler.cpp] *)

Module Feed.

Inductive FeedState : Set :=
| Disconnected | Connecting | WaitingSnapshot | Syncing | Live | Reconnecting.

Definition FeedState_eqb (a b : FeedState) : bool :=
match a, b with
| Disconnected, Disconnected | Connecting, Connecting
| WaitingSnapshot, WaitingSnapshot | Syncing, Syncing
| Live, Live | Reconnecting, Reconnecting => true
| _, _ => false
end.

(** What the handler does to the outside, in order: [emit_message] hands a
  message to the engine queue, [fetch_snapshot] issues the REST request. *)
Inductive Action : Type :=
| Emit (m : EngineMessage)
| RestGet.

Record FeedHandler : Type := mkFeed {
state_ : FeedState;
buffered_updates_ : list DepthUpdate;
snapshot_requested_ : bool
}.

Definition set_state (h : FeedHandler) (s : FeedState) : FeedHandler :=
mkFeed s (buffered_updates_ h) (snapshot_requested_ h).

Definition fetch_snapshot (h : FeedHandler) : FeedHandler * list Action :=
(mkFeed (state_ h) (buffered_updates_ h) true, [RestGet]).

Definition request_snapshot (h : FeedHandler) : FeedHandler * list Action :=
if snapshot_requested_ h then (h, [])
else
  let h1 := set_state h WaitingSnapshot in
  fetch_snapshot (mkFeed (state_ h1) [] (snapshot_requested_ h1)).

Definition process_depth_update (h : FeedHandler) (update : DepthUpdate)
: FeedHandler * list Action :=
if FeedState_eqb (state_ h) WaitingSnapshot then
  (mkFeed (state_ h) (buffered_updates_ h ++ [update]) (snapshot_requested_ h), [])
else if FeedState_eqb (state_ h) Live then
  (h, [Emit (DepthUpdateMsg update)])
else (h, []).

(** The bridging test of [apply_snapshot]:
  [U <= lastUpdateId + 1 && u >= lastUpdateId + 1], on [uint64_t]. *)
Definition is_bridging (snapshot : DepthSnapshot) (update : DepthUpdate) : bool :=
(first_update_id update <=? U64.add (last_update_id snapshot) 1)
&& (final_update_id update >=? U64.add (last_update_id snapshot) 1).

Definition is_stale (snapshot : DepthSnapshot) (update : DepthUpdate) : bool :=
final_update_id update <=? last_update_id snapshot.

(** The [for] loop over [buffered_updates_].  Its state is the flag
  [found_first_valid] and the messages emitted so far; it ends either by
  the [return] of the gap branch or by exhausting the buffer. *)
Inductive walk_result : Type :=
| WalkGap (out : list Action)
| WalkEnd (found_first_valid : bool) (out : list Action).

Fixpoint walk (snapshot : DepthSnapshot) (found_first_valid : bool)
  (out : list Action) (buffer : list DepthUpdate) : walk_result :=
match buffer with
| [] => WalkEnd found_first_valid out
| update :: rest =>
    if negb found_first_valid then
      if is_bridging snapshot update then
        walk snapshot true (out ++ [Emit (DepthUpdateMsg update)]) rest
      else if is_stale snapshot update then
        walk snapshot false out rest
      else WalkGap out
    else
      walk snapshot true (out ++ [Emit (DepthUpdateMsg update)]) rest
end.

Definition apply_snapshot (h : FeedHandler) (snapshot : DepthSnapshot)
: FeedHandler * list Action :=
let h1 := set_state h Syncing in
let out1 := [Emit (SnapshotMsg snapshot)] in
match walk snapshot false out1 (buffered_updates_ h1) with
| WalkGap out =>
    let '(h2, out2) := request_snapshot h1 in
    (h2, out ++ out2)
| WalkEnd found out =>
    let h2 := mkFeed (state_ h1) [] (snapshot_requested_ h1) in
    if negb found && negb (Book.is_empty (buffered_updates_ h2)) then
      let '(h3, out3) := request_snapshot h2 in
      (h3, out ++ out3)
    else
      (set_state h2 Live, out)
end.

(** [on_snapshot_response] for a response that was received and parsed:
  the flag is reset, then the snapshot is applied.  (On a transport or
  parse error the handler schedules a reconnect instead.) *)
Definition on_snapshot_response (h : FeedHandler) (snapshot : DepthSnapshot)
: FeedHandler * list Action :=
apply_snapshot (mkFeed (state_ h) (buffered_updates_ h) false) snapshot.

(** [on_ws_connected], without the reconnect-strategy reset. *)
Definition on_ws_connected (h : FeedHandler) : FeedHandler * list Action :=
let h1 := set_state h WaitingSnapshot in
let '(h2, out) := fetch_snapshot (mkFeed (state_ h1) [] (snapshot_requested_ h1)) in
(h2, Emit ConnectionRestored :: out).

End Feed.

(** ** [queue/spsc_queue.hpp]

    The queue is modelled at the granularity of whole [try_push]/[try_pop]
    calls (each call takes effect at once); the slot array is a list indexed
    by [pos & kMask], and the indices and sequence numbers are [size_t]
    values that wrap at [2^64]. *)

Module Spsc.

Section Queue.
Context {T : Type}.

Record Slot : Type := mkSlot {
sequence : Z;
storage : option T        (* [None]: no live object in the slot *)
}.

Record SpscQueue : Type := mkQueue {
Capacity : Z;
head_ : Z;
tail_ : Z;
slots_ : list Slot
}.

Definition kMask (q : SpscQueue) : Z := Capacity q - 1.

(** The two [static_assert]s on the template parameter. *)
Definition valid_capacity (c : Z) : Prop :=
Z.land c (c - 1) = 0 /\ 0 < c /\ c < U64.modulus.

(** The constructor: [slots_[i].sequence = i]. *)
Definition create (capacity : Z) : SpscQueue :=
mkQueue capacity 0 0
(map (fun i => mkSlot (Z.of_nat i) None) (seq 0 (Z.to_nat capacity))).

Definition slot_index (q : SpscQueue) (pos : Z) : nat :=
Z.to_nat (Z.land pos (kMask q)).

Definition try_push (q : SpscQueue) (value : T) : bool * SpscQueue :=
let pos := tail_ q in
match slots_ q !! slot_index q pos with
| None => (false, q)
| Some slot =>
  if negb (sequence slot =? pos) then (false, q)
  else
    (true,
     mkQueue (Capacity q) (head_ q) (U64.add pos 1)
       (<[slot_index q pos := mkSlot (U64.add pos 1) (Some value)]>
          (slots_ q)))
end.

Definition try_pop (q : SpscQueue) : option T * SpscQueue :=
let pos := head_ q in
match slots_ q !! slot_index q pos with
| None => (None, q)
| Some slot =>
  if negb (sequence slot =? U64.add pos 1) then (None, q)
  else
    (storage slot,
     mkQueue (Capacity q) (U64.add pos 1) (tail_ q)
       (<[slot_index q pos := mkSlot (U64.add pos (Capacity q)) None]>
          (slots_ q)))
end.

Definition size_approx (q : SpscQueue) : Z := U64.sub (tail_ q) (head_ q).

(** A schedule of producer and consumer calls, and what each returned. *)
Inductive Op : Type := Push (v : T) | Pop.
Inductive Ret : Type := Pushed (ok : bool) | Popped (r : option T).

Definition step (q : SpscQueue) (o : Op) : Ret * SpscQueue :=
match o with
| Push v => let '(ok, q') := try_push q v in (Pushed ok, q')
| Pop => let '(r, q') := try_pop q in (Popped r, q')
end.

Fixpoint run (q : SpscQueue) (ops : list Op) : list Ret * SpscQueue :=
match ops with
| [] => ([], q)
| o :: rest =>
  let '(r, q1) := step q o in
  let '(rs, q2) := run q1 rest in
  (r :: rs, q2)
end.

(** The reference behaviour: a FIFO list of at most [n] elements. *)
Definition fifo_step (n : Z) (l : list T) (o : Op) : Ret * list T :=
match o with
| Push v =>
  if Z.of_nat (length l) <? n then (Pushed true, l ++ [v])
  else (Pushed false, l)
| Pop =>
  match l with
  | [] => (Popped None, [])
  | x :: l' => (Popped (Some x), l')
  end
end.

Fixpoint fifo_run (n : Z) (l : list T) (ops : list Op) : list Ret * list T :=
match ops with
| [] => ([], l)
| o :: rest =>
  let '(r, l1) := fifo_step n l o in
  let '(rs, l2) := fifo_run n l1 rest in
  (r :: rs, l2)
end.
End Queue.

Arguments Slot : clear implicits.
Arguments SpscQueue : clear implicits.
Arguments Op : clear implicits.
Arguments Ret : clear implicits.

End Spsc.

(** ** [output/websocket_server.cpp]

    The server's session set is a finite map from session identities (the
    [shared_ptr] values) to session states.  A session's asynchronous write
    is the message held in [in_flight_] until its completion handler
    [on_write] runs.  This module holds the data and the code that runs
    outside of [send]; [send] and the calls it makes while it holds
    [write_mutex_] are in [WsLocks] below. *)

Module WsServer.

Record WebSocketSession : Type := mkSession {
write_queue_ : list string;
writing_ : bool;
in_flight_ : option string
}.

Definition new_session : WebSocketSession := mkSession [] false None.

Record WebSocketServer : Type := mkServer {
sessions_ : gmap nat WebSocketSession
}.

(** The body of [do_write]: the guarded block, then the [async_write]. *)
Definition do_write (s : WebSocketSession) : WebSocketSession :=
match write_queue_ s with
| [] => mkSession [] false (in_flight_ s)
| msg :: rest => mkSession rest (writing_ s) (Some msg)
end.

Definition add_session (srv : WebSocketServer) (id : nat) : WebSocketServer :=
mkServer (<[id := new_session]> (sessions_ srv)).

Definition remove_session (srv : WebSocketServer) (id : nat) : WebSocketServer :=
mkServer (delete id (sessions_ srv)).

(** [on_write], the completion of session [id]'s write; [ec] tells
whether it failed. *)
Definition on_write (srv : WebSocketServer) (id : nat) (ec : bool)
: WebSocketServer :=
if ec then remove_session srv id
else
mkServer (alter (fun s => do_write (mkSession (write_queue_ s) (writing_ s) None))
                id (sessions_ srv)).

(** [on_read], the completion of session [id]'s read. *)
Definition on_read (srv : WebSocketServer) (id : nat) (ec : bool)
: WebSocketServer :=
if ec then remove_session srv id else srv.

Definition client_count (srv : WebSocketServer) : nat := size (sessions_ srv).

End WsServer.

(** * Verified properties *)

(** ** The compute core's depth-update handler *)

Section EngineFacts.
Import Engine.

Lemma has_sequence_gap_iff (b : Book.OrderBook) (U pu : SequenceId) :
Book.has_sequence_gap b U pu = true <-> pu <> Book.last_update_id_ b.
Proof.
unfold Book.has_sequence_gap.
rewrite negb_true_iff, Z.eqb_neq. reflexivity.
Qed.

Lemma SyncState_eqb_eq (a b : SyncState) : SyncState_eqb a b = true <-> a = b.
Proof. destruct a, b; simpl; split; congruence. Qed.

Lemma build_snapshot_sides (b : Book.OrderBook) :
Book.bids_ (snd (Book.build_snapshot b)) = Book.bids_ b /\
Book.asks_ (snd (Book.build_snapshot b)) = Book.asks_ b /\
Book.last_update_id_ (snd (Book.build_snapshot b)) = Book.last_update_id_ b /\
Book.imbalance_levels_ (snd (Book.build_snapshot b)) = Book.imbalance_levels_ b.
Proof.
unfold Book.build_snapshot, Book.update_best_bid_cache, Book.update_best_ask_cache.
destruct (Book.is_empty (Book.bids_ b)), (Book.is_empty (Book.asks_ b)),
  (Book.best_bid_valid_ b) eqn:E1, (Book.best_ask_valid_ b) eqn:E2; simpl;
  rewrite ?E1, ?E2; simpl; repeat split; reflexivity.
Qed.

Lemma apply_update_last_id (b : Book.OrderBook) (u : DepthUpdate) :
Book.last_update_id_ (snd (Book.apply_update b u)) = final_update_id u.
Proof.
unfold Book.apply_update.
destruct (build_snapshot_sides
  (Book.set_last_update_id
     (fold_left (fun bk lv => Book.apply_ask_update bk (fst lv) (snd lv)) (du_asks u)
        (fold_left (fun bk lv => Book.apply_bid_update bk (fst lv) (snd lv)) (du_bids u) b))
     (final_update_id u))) as (_ & _ & H & _).
rewrite H. reflexivity.
Qed.

Lemma apply_snapshot_last_id (b : Book.OrderBook) (s : DepthSnapshot) :
Book.last_update_id_ (snd (Book.apply_snapshot b s)) = last_update_id s.
Proof.
unfold Book.apply_snapshot.
match goal with |- context [Book.build_snapshot ?x] =>
  destruct (build_snapshot_sides x) as (_ & _ & H & _) end.
rewrite H. reflexivity.
Qed.

(** An engine that has just been synchronised by a snapshot whose
  [lastUpdateId] is 0, and a depth update that does not follow it. *)
Definition fresh_engine : MarketDataEngine :=
fst (run (create 10 100 2%float) [SnapshotMsg (mkDepthSnapshot 0 [] [])]).
Definition stray_update : DepthUpdate :=
mkDepthUpdate 8 9 7 [(4215000000000, 1.5%float)] [].

(** C3 as stated does not hold.  Right after a snapshot with
  [lastUpdateId = 0] the engine is [Synced]; the update [stray_update] has
  [pu = 7 <> 0 = book.last_update_id], so [has_sequence_gap] is true, yet
  the handler neither leaves [Synced] nor asks for a snapshot: it applies
  the update. *)
Lemma gap_ignored_when_last_processed_is_zero :
sync_state_ fresh_engine = Synced /\
Book.has_sequence_gap (order_book_ fresh_engine)
  (first_update_id stray_update) (prev_final_update_id stray_update) = true /\
sync_state_ (fst (handle_depth_update fresh_engine stray_update)) = Synced /\
snd (handle_depth_update fresh_engine stray_update) = [] /\
Book.bids_ (order_book_ (fst (handle_depth_update fresh_engine stray_update)))
  = [(4215000000000, 1.5%float)] /\
last_processed_id_ (fst (handle_depth_update fresh_engine stray_update)) = 9.
Proof. vm_compute. repeat split; reflexivity. Qed.

(** C3 (amended).  A depth update is dropped with the engine unchanged
  unless the engine is [Synced].  When it is [Synced], the gap branch is
  taken exactly when [last_processed_id > 0] and
  [pu <> book.last_update_id] (which is when [has_sequence_gap] holds):
  the engine goes to [WaitingSnapshot], the book is cleared, the feed
  handler is asked for a snapshot and the update is not applied.
  Otherwise, in particular whenever [last_processed_id = 0], the update is
  applied to the book and [last_processed_id] becomes [u]. *)
Theorem handle_depth_update_cases (e : MarketDataEngine) (u : DepthUpdate) :
(Book.has_sequence_gap (order_book_ e) (first_update_id u)
   (prev_final_update_id u) = true
 <-> prev_final_update_id u <> Book.last_update_id_ (order_book_ e)) /\
(sync_state_ e <> Synced -> handle_depth_update e u = (e, [])) /\
(sync_state_ e = Synced ->
 0 < last_processed_id_ e ->
 prev_final_update_id u <> Book.last_update_id_ (order_book_ e) ->
 let '(e', out) := handle_depth_update e u in
 sync_state_ e' = WaitingSnapshot /\
 order_book_ e' = Book.clear (order_book_ e) /\
 Book.bids_ (order_book_ e') = [] /\
 Book.asks_ (order_book_ e') = [] /\
 Book.last_update_id_ (order_book_ e') = 0 /\
 last_processed_id_ e' = last_processed_id_ e /\
 out = [RequestSnapshot]) /\
(sync_state_ e = Synced ->
 last_processed_id_ e = 0 \/
 prev_final_update_id u = Book.last_update_id_ (order_book_ e) ->
 let '(e', out) := handle_depth_update e u in
 sync_state_ e' = Synced /\
 order_book_ e' = snd (Book.apply_update (order_book_ e) u) /\
 Book.last_update_id_ (order_book_ e') = final_update_id u /\
 last_processed_id_ e' = final_update_id u /\
 out = []).
Proof.
split; [apply has_sequence_gap_iff|].
unfold handle_depth_update.
split; [|split].
- intros Hs.
  destruct (SyncState_eqb (sync_state_ e) Synced) eqn:E; [|reflexivity].
  apply SyncState_eqb_eq in E. contradiction.
- intros Hs Hpos Hgap.
  apply has_sequence_gap_iff with (U := first_update_id u) in Hgap.
  rewrite Hs, Hgap. simpl.
  apply Z.ltb_lt in Hpos. rewrite Hpos. simpl.
  repeat split; reflexivity.
- intros Hs Hcase. rewrite Hs. simpl.
  assert (G : (0 <? last_processed_id_ e)
              && Book.has_sequence_gap (order_book_ e) (first_update_id u)
                   (prev_final_update_id u) = false).
  { destruct Hcase as [H0 | Heq].
    - rewrite H0. reflexivity.
    - unfold Book.has_sequence_gap. rewrite Heq, Z.eqb_refl.
      apply andb_false_r. }
  rewrite G. simpl.
  repeat split; try reflexivity. apply apply_update_last_id.
Qed.

Lemma handle_depth_update_cases_witness :
sync_state_ fresh_engine = Synced /\
last_processed_id_ (fst (handle_depth_update fresh_engine stray_update)) = 9.
Proof.
split; [reflexivity|].
pose proof (handle_depth_update_cases fresh_engine stray_update)
  as (_ & _ & _ & H).
specialize (H eq_refl (or_introl eq_refl)).
destruct (handle_depth_update fresh_engine stray_update) as [e' out].
destruct H as (_ & _ & _ & H & _). exact H.
Defined.
End EngineFacts.

(** ** The feed handler's snapshot bridging *)

Section FeedFacts.
Import Feed.

Definition emit_update (u : DepthUpdate) : Action := Emit (DepthUpdateMsg u).

(** Once the bridging update has been found, the loop emits every further
  update and runs to the end of the buffer. *)
Lemma walk_found (s : DepthSnapshot) (buffer : list DepthUpdate) :
forall out, walk s true out buffer = WalkEnd true (out ++ map emit_update buffer).
Proof.
induction buffer as [|u rest IH]; intros out; simpl.
- rewrite app_nil_r. reflexivity.
- rewrite IH, <- app_assoc. reflexivity.
Qed.

(** With [lastUpdateId + 1] not wrapping, an update that lies entirely in
  the past is not a bridging update. *)
Lemma stale_not_bridging (s : DepthSnapshot) (u : DepthUpdate) :
0 <= last_update_id s < U64.max ->
final_update_id u <= last_update_id s ->
is_bridging s u = false.
Proof.
intros Hr Hu. unfold is_bridging, U64.add, U64.wrap.
rewrite Z.mod_small by (unfold U64.max in Hr; lia).
apply andb_false_iff. right. rewrite Z.geb_leb. apply Z.leb_gt. lia.
Qed.

Lemma walk_skip_stale (s : DepthSnapshot) (pre rest : list DepthUpdate) :
0 <= last_update_id s < U64.max ->
Forall (fun u => final_update_id u <= last_update_id s) pre ->
forall out, walk s false out (pre ++ rest) = walk s false out rest.
Proof.
intros Hr Hpre. induction Hpre as [|u pre Hu _ IH]; intros out; simpl.
- reflexivity.
- rewrite (stale_not_bridging s u Hr Hu).
  unfold is_stale. apply Z.leb_le in Hu. rewrite Hu. apply IH.
Qed.

(** Every buffer splits into its longest prefix of stale updates and the
  rest, so the case analysis of the theorem below covers all buffers. *)
Lemma stale_prefix_exists (s : DepthSnapshot) (buffer : list DepthUpdate) :
exists pre rest,
  buffer = pre ++ rest /\
  Forall (fun u => final_update_id u <= last_update_id s) pre /\
  match rest with
  | [] => True
  | b :: _ => last_update_id s < final_update_id b
  end.
Proof.
induction buffer as [|u buffer (pre & rest & -> & Hpre & Hrest)].
- exists [], []. repeat split; constructor.
- destruct (Z_le_gt_dec (final_update_id u) (last_update_id s)) as [Hu|Hu].
  + exists (u :: pre), rest. repeat split; [constructor; assumption|assumption].
  + exists [], (u :: pre ++ rest). repeat split; [constructor|lia].
Qed.

(** C2.  When the snapshot response arrives, the buffered updates that lie
  entirely in the past ([u <= lastUpdateId], the prefix [pre]) are
  dropped.  If nothing remains the handler goes [Live] having emitted the
  snapshot only.  If the first remaining update [b] bridges the snapshot
  ([U <= lastUpdateId + 1 <= u]) it and every later buffered update are
  emitted in arrival order after the snapshot, and the handler goes
  [Live].  If instead [U > lastUpdateId + 1], the handler re-enters
  [WaitingSnapshot], drops the buffer and issues a new REST request. *)
Theorem snapshot_bridging (h : FeedHandler) (s : DepthSnapshot)
  (pre rest : list DepthUpdate) :
0 <= last_update_id s < U64.max ->
buffered_updates_ h = pre ++ rest ->
Forall (fun u => final_update_id u <= last_update_id s) pre ->
match rest with
| [] => True
| b :: _ => last_update_id s < final_update_id b
end ->
on_snapshot_response h s =
  match rest with
  | [] => (mkFeed Live [] false, [Emit (SnapshotMsg s)])
  | b :: _ =>
      if first_update_id b <=? last_update_id s + 1
      then (mkFeed Live [] false,
            Emit (SnapshotMsg s) :: map emit_update rest)
      else (mkFeed WaitingSnapshot [] true,
            [Emit (SnapshotMsg s); RestGet])
  end.
Proof.
intros Hr Hbuf Hpre Hrest.
unfold on_snapshot_response, apply_snapshot. simpl.
rewrite Hbuf, (walk_skip_stale s pre rest Hr Hpre).
destruct rest as [|b tl]; simpl.
- reflexivity.
- unfold is_bridging, is_stale, U64.add, U64.wrap.
  rewrite Z.mod_small by (unfold U64.max in Hr; lia).
  assert (Hge : (final_update_id b >=? last_update_id s + 1) = true)
    by (rewrite Z.geb_leb; apply Z.leb_le; lia).
  rewrite Hge, andb_true_r.
  destruct (first_update_id b <=? last_update_id s + 1) eqn:HU.
  + rewrite walk_found. simpl. reflexivity.
  + assert (Hst : (final_update_id b <=? last_update_id s) = false)
      by (apply Z.leb_gt; lia).
    rewrite Hst. reflexivity.
Qed.

(** Scenario 3 of the specification: buffered [(995,999)], [(1000,1002)],
  [(1003,1004)] and a snapshot with [lastUpdateId = 1001]. *)
Definition upd (U u pu : Z) : DepthUpdate := mkDepthUpdate U u pu [] [].

Lemma snapshot_bridging_witness :
on_snapshot_response
  (mkFeed WaitingSnapshot
     [upd 995 999 994; upd 1000 1002 999; upd 1003 1004 1002] true)
  (mkDepthSnapshot 1001 [] [])
= (mkFeed Live [] false,
   [Emit (SnapshotMsg (mkDepthSnapshot 1001 [] []));
    emit_update (upd 1000 1002 999); emit_update (upd 1003 1004 1002)]).
Proof.
apply (snapshot_bridging
         (mkFeed WaitingSnapshot
            [upd 995 999 994; upd 1000 1002 999; upd 1003 1004 1002] true)
         (mkDepthSnapshot 1001 [] [])
         [upd 995 999 994] [upd 1000 1002 999; upd 1003 1004 1002]).
- vm_compute. split; [discriminate | reflexivity].
- reflexivity.
- constructor; [simpl; lia | constructor].
- simpl. lia.
Defined.
End FeedFacts.

(** ** Rolling VWAP *)

Section VwapFacts.
Import Vwap.

(** The calculator after a sequence of [add_trade] calls. *)
Definition add_trades (c : VwapCalculator) (ts : list Trade) : VwapCalculator :=
fold_left (fun c t => add_trade c (t_price t) (t_quantity t)) ts c.

(** The sums of the specification, accumulated in arrival order in
  binary64 as the code accumulates them. *)
Definition sum_pq (from : float) (ts : list Trade) : float :=
fold_left (fun acc t => PrimFloat.add acc (PrimFloat.mul (t_price t) (t_quantity t)))
          ts from.
Definition sum_q (from : float) (ts : list Trade) : float :=
fold_left (fun acc t => PrimFloat.add acc (t_quantity t)) ts from.

Lemma evict_fields (c : VwapCalculator) (old : Trade) (rest : list Trade) :
trades_ c = old :: rest ->
trades_ (evict c) = rest /\
window_size_ (evict c) = window_size_ c /\
sum_pv_ (evict c)
  = PrimFloat.sub (sum_pv_ c) (PrimFloat.mul (t_price old) (t_quantity old)) /\
sum_v_ (evict c) = PrimFloat.sub (sum_v_ c) (t_quantity old).
Proof.
intros H. unfold evict. rewrite H.
destruct (0 <? Nat.pred (count_ c))%nat; simpl; repeat split; reflexivity.
Qed.

(** While the window is not exceeded, [add_trade] only appends and adds. *)
Lemma add_trade_within (c : VwapCalculator) (p q : float) :
(length (trades_ c) < window_size_ c)%nat ->
trades_ (add_trade c p q) = trades_ c ++ [mkTrade p q] /\
window_size_ (add_trade c p q) = window_size_ c /\
sum_pv_ (add_trade c p q) = PrimFloat.add (sum_pv_ c) (PrimFloat.mul p q) /\
sum_v_ (add_trade c p q) = PrimFloat.add (sum_v_ c) q.
Proof.
intros H. unfold add_trade.
rewrite length_app. simpl length.
replace (window_size_ c <? length (trades_ c) + 1)%nat with false
  by (symmetry; apply Nat.ltb_ge; lia).
simpl. repeat split; reflexivity.
Qed.

(** When the window is exceeded, the front trade of the deque leaves and
  its contribution is subtracted from both sums. *)
Lemma add_trade_exceeding (c : VwapCalculator) (p q : float)
  (old : Trade) (rest : list Trade) :
(window_size_ c <= length (trades_ c))%nat ->
trades_ c ++ [mkTrade p q] = old :: rest ->
trades_ (add_trade c p q) = rest /\
window_size_ (add_trade c p q) = window_size_ c /\
sum_pv_ (add_trade c p q)
  = PrimFloat.sub (PrimFloat.add (sum_pv_ c) (PrimFloat.mul p q))
                  (PrimFloat.mul (t_price old) (t_quantity old)) /\
sum_v_ (add_trade c p q)
  = PrimFloat.sub (PrimFloat.add (sum_v_ c) q) (t_quantity old).
Proof.
intros H Hd. unfold add_trade.
rewrite length_app. simpl length.
replace (window_size_ c <? length (trades_ c) + 1)%nat with true
  by (symmetry; apply Nat.ltb_lt; lia).
match goal with |- context [evict ?x] =>
  destruct (evict_fields x old rest Hd) as (E1 & E2 & E3 & E4) end.
rewrite E1, E2, E3, E4. repeat split; reflexivity.
Qed.

Lemma add_trades_within (ts : list Trade) :
forall c,
  (length (trades_ c) + length ts <= window_size_ c)%nat ->
  trades_ (add_trades c ts) = trades_ c ++ ts /\
  window_size_ (add_trades c ts) = window_size_ c /\
  sum_pv_ (add_trades c ts) = sum_pq (sum_pv_ c) ts /\
  sum_v_ (add_trades c ts) = sum_q (sum_v_ c) ts.
Proof.
induction ts as [|t ts IH]; intros c H; simpl in *.
- rewrite app_nil_r. repeat split; reflexivity.
- destruct (add_trade_within c (t_price t) (t_quantity t)) as (E1 & E2 & E3 & E4);
    [lia|].
  destruct (IH (add_trade c (t_price t) (t_quantity t))) as (F1 & F2 & F3 & F4).
  { rewrite E1, E2, length_app. simpl. lia. }
  unfold add_trades in *. rewrite F1, F2, F3, F4, E1, E2, E3, E4.
  rewrite <- app_assoc. destruct t; repeat split; reflexivity.
Qed.

(** The number of trades held never exceeds the window. *)
Lemma add_trade_count (c : VwapCalculator) (p q : float) :
(length (trades_ c) <= window_size_ c)%nat ->
trade_count (add_trade c p q)
  = Nat.min (S (length (trades_ c))) (window_size_ c) /\
window_size_ (add_trade c p q) = window_size_ c.
Proof.
intros H. unfold trade_count.
destruct (Nat.lt_ge_cases (length (trades_ c)) (window_size_ c)) as [Hlt|Hge].
- destruct (add_trade_within c p q Hlt) as (E1 & E2 & _).
  rewrite E1, E2, length_app. change (length [mkTrade p q]) with 1%nat. split; lia.
- destruct (trades_ c ++ [mkTrade p q]) as [|old rest] eqn:Hd.
  { apply (f_equal (@length _)) in Hd. rewrite length_app in Hd. simpl in Hd. lia. }
  destruct (add_trade_exceeding c p q old rest Hge Hd) as (E1 & E2 & _).
  rewrite E1, E2. apply (f_equal (@length _)) in Hd.
  rewrite length_app in Hd. simpl in Hd. split; lia.
Qed.

Lemma add_trades_count (ts : list Trade) :
forall c,
  (length (trades_ c) <= window_size_ c)%nat ->
  trade_count (add_trades c ts)
    = Nat.min (length (trades_ c) + length ts) (window_size_ c) /\
  window_size_ (add_trades c ts) = window_size_ c.
Proof.
induction ts as [|t ts IH]; intros c H; simpl.
- unfold trade_count. split; [lia | reflexivity].
- destruct (add_trade_count c (t_price t) (t_quantity t) H) as (E1 & E2).
  unfold trade_count in E1.
  destruct (IH (add_trade c (t_price t) (t_quantity t))) as (F1 & F2).
  { rewrite E1, E2. lia. }
  unfold add_trades in *. rewrite F1, F2, E2. split; [|reflexivity].
  unfold trade_count in *. lia.
Qed.

(** C4.  While at most [W] trades have been added, the sums are those of
  all the trades and [vwap] is their quotient, 0 when the quantity sum
  is not positive; a trade that exceeds the window evicts the oldest
  trade and subtracts its contribution from both sums; with [W = 3] the
  trades (100,1), (200,1), (300,1) give 200 and a further (400,1) gives
  300 with three trades in the window. *)
Theorem vwap_window (W : nat) (ts : list Trade) :
((length ts <= W)%nat ->
   sum_pv_ (add_trades (create W) ts) = sum_pq 0%float ts /\
   sum_v_ (add_trades (create W) ts) = sum_q 0%float ts /\
   vwap (add_trades (create W) ts)
     = if PrimFloat.leb (sum_q 0%float ts) 0%float then 0%float
       else PrimFloat.div (sum_pq 0%float ts) (sum_q 0%float ts)) /\
(forall c, PrimFloat.leb (sum_v_ c) 0%float = true -> vwap c = 0%float) /\
(forall c p q old rest,
   (window_size_ c <= length (trades_ c))%nat ->
   trades_ c ++ [mkTrade p q] = old :: rest ->
   trades_ (add_trade c p q) = rest /\
   sum_pv_ (add_trade c p q)
     = PrimFloat.sub (PrimFloat.add (sum_pv_ c) (PrimFloat.mul p q))
                     (PrimFloat.mul (t_price old) (t_quantity old)) /\
   sum_v_ (add_trade c p q)
     = PrimFloat.sub (PrimFloat.add (sum_v_ c) q) (t_quantity old)) /\
(let c3 := add_trades (create 3)
             [mkTrade 100 1; mkTrade 200 1; mkTrade 300 1] in
 vwap c3 = 200%float /\
 vwap (add_trade c3 400 1) = 300%float /\
 trade_count (add_trade c3 400 1) = 3%nat).
Proof.
split; [|split; [|split]].
- intros H.
  destruct (add_trades_within ts (create W)) as (_ & _ & E3 & E4);
    [simpl; lia|].
  unfold vwap. rewrite E3, E4. simpl. repeat split; reflexivity.
- intros c H. unfold vwap. rewrite H. reflexivity.
- intros c p q old rest H Hd.
  destruct (add_trade_exceeding c p q old rest H Hd) as (E1 & _ & E3 & E4).
  repeat split; assumption.
- vm_compute. repeat split; reflexivity.
Qed.

Lemma vwap_window_witness :
vwap (add_trades (create 3) [mkTrade 100 1; mkTrade 200 1; mkTrade 300 1])
= 200%float.
Proof.
pose proof (vwap_window 3 [mkTrade 100 1; mkTrade 200 1; mkTrade 300 1])
  as (H & _).
destruct (H ltac:(simpl; lia)) as (_ & _ & Hv).
rewrite Hv. vm_compute. reflexivity.
Defined.
End VwapFacts.

(** ** Trade-flow totals *)

Section FlowFacts.
Import Flow.

(** The flow after a sequence of [process_trade] calls. *)
Definition process_trades (f : TradeFlow) (ts : list AggTrade) : TradeFlow :=
fold_left (fun f t => snd (process_trade f t)) ts f.

(** Quantities of the buys (taker bought: [is_buyer_maker = false]) and of
  the sells, added up in arrival order. *)
Definition buy_volume (from : float) (ts : list AggTrade) : float :=
fold_left (fun acc t => if is_buyer_maker t then acc
                        else PrimFloat.add acc (quantity t)) ts from.
Definition sell_volume (from : float) (ts : list AggTrade) : float :=
fold_left (fun acc t => if is_buyer_maker t
                        then PrimFloat.add acc (quantity t) else acc) ts from.

Lemma reset_is_create (f : TradeFlow) :
reset f = create (Vwap.window_size_ (vwap_ f)) (threshold_ f).
Proof. reflexivity. Qed.

Lemma process_trade_fields (f : TradeFlow) (t : AggTrade) :
let f' := snd (process_trade f t) in
vwap_ f' = Vwap.add_trade (vwap_ f) (price t) (quantity t) /\
threshold_ f' = threshold_ f /\
total_buy_volume_ f'
  = (if is_buyer_maker t then total_buy_volume_ f
     else PrimFloat.add (total_buy_volume_ f) (quantity t)) /\
total_sell_volume_ f'
  = (if is_buyer_maker t then PrimFloat.add (total_sell_volume_ f) (quantity t)
     else total_sell_volume_ f).
Proof.
unfold process_trade; simpl.
destruct (is_buyer_maker t); simpl; repeat split; reflexivity.
Qed.

Lemma process_trades_fields (ts : list AggTrade) :
forall f,
  total_buy_volume_ (process_trades f ts) = buy_volume (total_buy_volume_ f) ts /\
  total_sell_volume_ (process_trades f ts) = sell_volume (total_sell_volume_ f) ts /\
  vwap_ (process_trades f ts)
    = fold_left (fun c t => Vwap.add_trade c (price t) (quantity t)) ts (vwap_ f).
Proof.
induction ts as [|t ts IH]; intros f.
- repeat split; reflexivity.
- destruct (process_trade_fields f t) as (E1 & _ & E3 & E4).
  destruct (IH (snd (process_trade f t))) as (F1 & F2 & F3).
  unfold process_trades, buy_volume, sell_volume in *. cbn [fold_left].
  rewrite F1, F2, F3, E1, E3, E4.
  repeat split; reflexivity.
Qed.

Lemma flow_trade_count (ts : list AggTrade) :
forall c,
  (length (Vwap.trades_ c) <= Vwap.window_size_ c)%nat ->
  Vwap.trade_count
    (fold_left (fun c t => Vwap.add_trade c (price t) (quantity t)) ts c)
  = Nat.min (length (Vwap.trades_ c) + length ts) (Vwap.window_size_ c).
Proof.
intros c H.
pose proof (add_trades_count (map (fun t => Vwap.mkTrade (price t) (quantity t)) ts) c H)
  as (E & _).
unfold add_trades in E. rewrite length_map in E. rewrite <- E. clear E H.
f_equal. revert c. induction ts as [|t ts IH]; intros c; simpl; [reflexivity|].
apply IH.
Qed.

(** C10.  From construction (and from [reset], which restores the
  constructed state) the buy and sell totals are the sums of the
  quantities of all trades processed, a trade counting as a buy exactly
  when [is_buyer_maker] is false; [net_flow] is their difference; the
  totals do not depend on the window size, so eviction never reduces
  them; the reported [trade_count] is the number of trades in the window,
  [min (number processed) W], hence at most [W]. *)
Theorem trade_flow_totals (W : nat) (threshold : float) (ts : list AggTrade) :
let m := current_metrics (process_trades (create W threshold) ts) in
m_total_buy_volume m = buy_volume 0%float ts /\
m_total_sell_volume m = sell_volume 0%float ts /\
m_net_flow m = PrimFloat.sub (buy_volume 0%float ts) (sell_volume 0%float ts) /\
m_trade_count m = Nat.min (length ts) W /\
(m_trade_count m <= W)%nat /\
(forall f, reset f = create (Vwap.window_size_ (vwap_ f)) (threshold_ f)) /\
(forall f t, fst (process_trade f t) = current_metrics (snd (process_trade f t))).
Proof.
intros m. subst m. unfold current_metrics; simpl.
destruct (process_trades_fields ts (create W threshold)) as (E1 & E2 & E3).
rewrite E1, E2, E3. simpl.
pose proof (flow_trade_count ts (Vwap.create W) ltac:(simpl; lia)) as Hc.
simpl in Hc. rewrite Hc.
repeat split; try reflexivity. lia.
Qed.
End FlowFacts.

(** ** The SPSC ring *)

Section SpscArith.

(** The capacities the [static_assert]s accept are the powers of two
  below [2^64]. *)
Lemma valid_capacity_pow2 (n : Z) :
Spsc.valid_capacity n -> exists k, 0 <= k < 64 /\ n = 2 ^ k.
Proof.
intros (Hland & Hpos & Hlt).
exists (Z.log2 n).
pose proof (Z.log2_nonneg n) as Hk0.
destruct (Z.log2_spec n Hpos) as [Hlo Hhi].
split.
- split; [assumption|].
  apply Z.log2_lt_pow2; [assumption|exact Hlt].
- destruct (Z.eq_dec n (2 ^ Z.log2 n)) as [E|NE]; [exact E|exfalso].
  assert (Hc : 0 < n - 1) by lia.
  assert (Hl : Z.log2 (n - 1) = Z.log2 n).
  { apply Z.log2_unique; [assumption|].
    replace (Z.succ (Z.log2 n)) with (Z.log2 n + 1) in * by lia. lia. }
  pose proof (Z.bit_log2 n Hpos) as B1.
  pose proof (Z.bit_log2 (n - 1) Hc) as B2. rewrite Hl in B2.
  assert (B : Z.testbit (Z.land n (n - 1)) (Z.log2 n) = true)
    by (rewrite Z.land_spec, B1, B2; reflexivity).
  rewrite Hland, Z.bits_0 in B. discriminate.
Qed.

Lemma mask_is_mod (n pos : Z) :
Spsc.valid_capacity n -> Z.land pos (n - 1) = pos mod n.
Proof.
intros Hv. destruct (valid_capacity_pow2 n Hv) as (k & Hk & ->).
replace (2 ^ k - 1) with (Z.ones k) by (rewrite Z.ones_equiv; lia).
apply Z.land_ones. lia.
Qed.

Lemma capacity_divides_modulus (n : Z) :
Spsc.valid_capacity n -> exists c, U64.modulus = c * n /\ 0 < c.
Proof.
intros Hv. destruct (valid_capacity_pow2 n Hv) as (k & Hk & ->).
exists (2 ^ (64 - k)). split.
- unfold U64.modulus. rewrite <- Z.pow_add_r by lia. f_equal. lia.
- apply Z.pow_pos_nonneg; lia.
Qed.

Lemma wrap_mod_capacity (n i : Z) :
Spsc.valid_capacity n -> (i mod U64.modulus) mod n = i mod n.
Proof.
intros Hv. destruct (capacity_divides_modulus n Hv) as (c & Hc & Hc0).
destruct Hv as (_ & Hn & _).
rewrite Hc.
pose proof (Z.div_mod i (c * n) ltac:(nia)) as E.
rewrite E at 2.
replace (c * n * (i / (c * n)) + i mod (c * n))
  with (i mod (c * n) + c * (i / (c * n)) * n) by ring.
rewrite Z.mod_add by lia. reflexivity.
Qed.

Lemma mod_neq_of_small_gap (m i j : Z) :
0 < m -> i < j < i + m -> i mod m <> j mod m.
Proof.
intros Hm Hij E.
assert (H : (j - i) mod m = 0).
{ rewrite Zminus_mod, E, Z.sub_diag. apply Z.mod_0_l. lia. }
rewrite Z.mod_small in H by lia. lia.
Qed.

Lemma slot_index_eq (n i : Z) :
Spsc.valid_capacity n ->
Z.to_nat (Z.land (i mod U64.modulus) (n - 1)) = Z.to_nat (i mod n).
Proof.
intros Hv. rewrite mask_is_mod by assumption.
rewrite wrap_mod_capacity by assumption. reflexivity.
Qed.

Lemma to_nat_mod_neq (n i j : Z) :
0 < n -> i < j < i + n -> Z.to_nat (i mod n) <> Z.to_nat (j mod n).
Proof.
intros Hn Hij E.
apply (mod_neq_of_small_gap n i j Hn Hij).
pose proof (Z.mod_pos_bound i n Hn). pose proof (Z.mod_pos_bound j n Hn).
lia.
Qed.
End SpscArith.

Section SpscFacts.
Context {T : Type}.
Import Spsc.

(** The representation invariant: the queue [q] of capacity [n] holds the
  elements [l], oldest first; [H] is the number of elements popped so far
  (the head index before wrapping).  Occupied slots carry the sequence
  number [pos + 1] of the push that filled them, free slots the position
  of the push that will fill them next. *)
Record Inv (n : Z) (q : SpscQueue T) (l : list T) (H : Z) : Prop := mkInv {
inv_cap : Capacity q = n;
inv_head : head_ q = H mod U64.modulus;
inv_tail : tail_ q = (H + Z.of_nat (length l)) mod U64.modulus;
inv_H : 0 <= H;
inv_bound : Z.of_nat (length l) <= n;
inv_full : forall (i : nat) (x : T),
  l !! i = Some x ->
  slots_ q !! Z.to_nat ((H + Z.of_nat i) mod n)
  = Some (mkSlot ((H + Z.of_nat i + 1) mod U64.modulus) (Some x));
inv_free : forall j : Z,
  H + Z.of_nat (length l) <= j < H + n ->
  slots_ q !! Z.to_nat (j mod n) = Some (mkSlot (j mod U64.modulus) None)
}.

Lemma inv_create (n : Z) :
valid_capacity n -> Inv n (create n) [] 0.
Proof.
intros Hv. pose proof Hv as (_ & Hn & Hlt).
constructor; simpl; try reflexivity; try lia.
- intros i x Hi. rewrite lookup_nil in Hi. discriminate.
- intros j Hj.
  rewrite !Z.mod_small by (unfold U64.modulus in *; lia).
  rewrite list_lookup_fmap, lookup_seq_lt by lia.
  simpl. rewrite Z2Nat.id by lia. reflexivity.
Qed.

Lemma wrap_succ (a : Z) :
U64.add (a mod U64.modulus) 1 = (a + 1) mod U64.modulus.
Proof.
unfold U64.add, U64.wrap. apply Zplus_mod_idemp_l.
Qed.

Lemma wrap_plus (a n : Z) :
U64.add (a mod U64.modulus) n = (a + n) mod U64.modulus.
Proof.
unfold U64.add, U64.wrap. apply Zplus_mod_idemp_l.
Qed.

Lemma wrap_neq (a b : Z) :
a < b < a + U64.modulus -> a mod U64.modulus <> b mod U64.modulus.
Proof.
intros H. apply mod_neq_of_small_gap; [reflexivity | exact H].
Qed.

(** A push into a queue that is not full succeeds and appends. *)
Lemma try_push_not_full (n : Z) (q : SpscQueue T) (l : list T) (H : Z) (v : T) :
valid_capacity n -> Inv n q l H -> Z.of_nat (length l) < n ->
exists q', try_push q v = (true, q') /\ Inv n q' (l ++ [v]) H.
Proof.
intros Hv I Hlen. pose proof Hv as (_ & Hn & Hlt).
destruct I as [Hcap Hhd Htl HH Hb Hfull Hfree].
unfold try_push, slot_index, kMask. rewrite Htl, Hcap.
rewrite slot_index_eq by assumption.
rewrite (Hfree (H + Z.of_nat (length l))) by lia.
cbn [sequence]. rewrite Z.eqb_refl. cbn [negb].
eexists; split; [reflexivity|].
assert (Hidx : (Z.to_nat ((H + Z.of_nat (length l)) mod n) < length (slots_ q))%nat).
{ eapply lookup_lt_Some. apply (Hfree (H + Z.of_nat (length l))). lia. }
constructor; cbn [Capacity head_ tail_ slots_]; try assumption; try reflexivity.
- rewrite wrap_succ, length_app. cbn [length]. f_equal. lia.
- rewrite length_app. cbn [length]. lia.
- intros i x Hi.
  destruct (decide (i = length l)) as [->|Hne].
  + rewrite list_lookup_insert_eq by assumption.
    rewrite lookup_app_r, Nat.sub_diag in Hi by lia.
    injection Hi as <-. rewrite wrap_succ. reflexivity.
  + assert (Hil : (i < length l)%nat).
    { apply lookup_lt_Some in Hi. rewrite length_app in Hi. simpl in Hi. lia. }
    rewrite lookup_app_l in Hi by assumption.
    rewrite list_lookup_insert_ne; [apply Hfull; assumption|].
    apply not_eq_sym, to_nat_mod_neq; lia.
- intros j Hj. rewrite length_app in Hj. cbn [length] in Hj.
  rewrite list_lookup_insert_ne; [apply Hfree; lia|].
  apply to_nat_mod_neq; lia.
Qed.

(** A push into a full queue of capacity at least 2 is refused. *)
Lemma try_push_full (n : Z) (q : SpscQueue T) (l : list T) (H : Z) (v : T) :
valid_capacity n -> 2 <= n -> Inv n q l H -> Z.of_nat (length l) = n ->
try_push q v = (false, q).
Proof.
intros Hv H2 I Hlen. pose proof Hv as (_ & Hn & Hlt).
destruct I as [Hcap Hhd Htl HH Hb Hfull Hfree].
destruct l as [|x l']; [simpl in Hlen; lia|].
unfold try_push, slot_index, kMask. rewrite Htl, Hcap.
rewrite slot_index_eq by assumption.
rewrite Hlen.
replace ((H + n) mod n) with ((H + Z.of_nat 0) mod n)
  by (rewrite <- (Z.mul_1_l n) at 2; rewrite Z.mod_add by lia; f_equal; lia).
rewrite (Hfull 0%nat x eq_refl). cbn [sequence].
replace (H + Z.of_nat 0 + 1) with (H + 1) by lia.
destruct ((H + 1) mod U64.modulus =? (H + n) mod U64.modulus) eqn:E;
  [|reflexivity].
apply Z.eqb_eq in E. exfalso. revert E. apply wrap_neq. lia.
Qed.

(** A pop from a non-empty queue returns the oldest element. *)
Lemma try_pop_some (n : Z) (q : SpscQueue T) (x : T) (l : list T) (H : Z) :
valid_capacity n -> Inv n q (x :: l) H ->
exists q', try_pop q = (Some x, q') /\ Inv n q' l (H + 1).
Proof.
intros Hv I. pose proof Hv as (_ & Hn & Hlt).
destruct I as [Hcap Hhd Htl HH Hb Hfull Hfree].
cbn [length] in *.
unfold try_pop, slot_index, kMask. rewrite Hhd, Hcap.
rewrite slot_index_eq by assumption.
pose proof (Hfull 0%nat x eq_refl) as H0.
replace (H + Z.of_nat 0) with H in H0 by lia.
rewrite H0. cbn [sequence storage].
rewrite wrap_succ, Z.eqb_refl. cbn [negb].
eexists; split; [reflexivity|].
assert (Hidx : (Z.to_nat (H mod n) < length (slots_ q))%nat)
  by (eapply lookup_lt_Some; exact H0).
constructor; cbn [Capacity head_ tail_ slots_];
  try assumption; try lia; try apply wrap_succ.
- rewrite Htl. f_equal. lia.
- intros i y Hi.
  rewrite list_lookup_insert_ne.
  + replace (H + 1 + Z.of_nat i) with (H + Z.of_nat (S i)) by lia.
    apply Hfull. exact Hi.
  + apply lookup_lt_Some in Hi. apply to_nat_mod_neq; lia.
- intros j Hj.
  destruct (Z.eq_dec j (H + n)) as [->|Hne].
  + replace ((H + n) mod n) with (H mod n)
      by (rewrite <- (Z.mul_1_l n) at 2; rewrite Z.mod_add by lia; reflexivity).
    rewrite list_lookup_insert_eq by assumption.
    rewrite wrap_plus. reflexivity.
  + rewrite list_lookup_insert_ne; [apply Hfree; lia|].
    apply to_nat_mod_neq; lia.
Qed.

(** A pop from an empty queue returns nothing and changes nothing. *)
Lemma try_pop_none (n : Z) (q : SpscQueue T) (H : Z) :
valid_capacity n -> Inv n q [] H -> try_pop q = (None, q).
Proof.
intros Hv I. pose proof Hv as (_ & Hn & Hlt).
destruct I as [Hcap Hhd Htl HH Hb Hfull Hfree].
cbn [length] in *.
unfold try_pop, slot_index, kMask. rewrite Hhd, Hcap.
rewrite slot_index_eq by assumption.
rewrite (Hfree H) by lia. cbn [sequence].
rewrite wrap_succ.
destruct (H mod U64.modulus =? (H + 1) mod U64.modulus) eqn:E; [|reflexivity].
apply Z.eqb_eq in E. exfalso. revert E. apply wrap_neq.
unfold U64.modulus. lia.
Qed.

(** One call of either side is matched by the bounded FIFO. *)
Lemma step_refines_fifo (n : Z) (q : SpscQueue T) (l : list T) (H : Z) (o : Op T) :
valid_capacity n -> 2 <= n -> Inv n q l H ->
exists r q' l' H',
  step q o = (r, q') /\ fifo_step n l o = (r, l') /\ Inv n q' l' H'.
Proof.
intros Hv H2 I. destruct o as [v|]; unfold step, fifo_step.
- destruct (Z.of_nat (length l) <? n) eqn:E.
  + apply Z.ltb_lt in E.
    destruct (try_push_not_full n q l H v Hv I E) as (q' & Eq & I').
    rewrite Eq. exists (Pushed true), q', (l ++ [v]), H. auto.
  + apply Z.ltb_ge in E.
    assert (Hlen : Z.of_nat (length l) = n) by (destruct I; lia).
    rewrite (try_push_full n q l H v Hv H2 I Hlen).
    exists (Pushed false), q, l, H. auto.
- destruct l as [|x l].
  + rewrite (try_pop_none n q H Hv I).
    exists (Popped None), q, [], H. auto.
  + destruct (try_pop_some n q x l H Hv I) as (q' & Eq & I').
    rewrite Eq. exists (Popped (Some x)), q', l, (H + 1). auto.
Qed.

(** Every schedule of producer and consumer calls returns what the
  bounded FIFO returns, for every capacity [n >= 2]. *)
Lemma run_refines_fifo (n : Z) :
valid_capacity n -> 2 <= n ->
forall (ops : list (Op T)) (q : SpscQueue T) (l : list T) (H : Z),
  Inv n q l H ->
  fst (run q ops) = fst (fifo_run n l ops).
Proof.
intros Hv H2. induction ops as [|o ops IH]; intros q l H I; [reflexivity|].
destruct (step_refines_fifo n q l H o Hv H2 I)
  as (r & q' & l' & H' & E1 & E2 & I').
cbn [run fifo_run]. rewrite E1, E2.
specialize (IH q' l' H' I').
destruct (run q' ops), (fifo_run n l' ops). simpl in *. congruence.
Qed.

Theorem spsc_is_bounded_fifo (n : Z) (ops : list (Op T)) :
valid_capacity n -> 2 <= n ->
fst (run (create n) ops) = fst (fifo_run n [] ops).
Proof.
intros Hv H2. apply (run_refines_fifo n Hv H2 ops (create n) [] 0).
apply inv_create. exact Hv.
Qed.
End SpscFacts.

(** C7 at capacity 1 (a power of two, accepted by both [static_assert]s):
    the second push finds [sequence = 1 = pos] in the only slot, so it is
    accepted on a full queue and overwrites the stored element, and the pop
    that follows finds [sequence = 2 <> head + 1] and returns nothing.  The
    bounded FIFO refuses the second push and pops the first value. *)
Lemma spsc_capacity_one_overwrites :
  Spsc.valid_capacity 1 /\
  fst (Spsc.run (Spsc.create 1) [Spsc.Push 10; Spsc.Push 20; Spsc.Pop])
    = [Spsc.Pushed true; Spsc.Pushed true; Spsc.Popped None] /\
  fst (Spsc.fifo_run 1 [] [Spsc.Push 10; Spsc.Push 20; Spsc.Pop])
    = [Spsc.Pushed true; Spsc.Pushed false; Spsc.Popped (Some 10)].
Proof. vm_compute. repeat split; reflexivity. Qed.

(** ** Fixed-point parsing *)

Section ParseFacts.
Import FixedPoint.
Local Open Scope string_scope.

Lemma I64_wrap_small (z : Z) : I64.min <= z <= I64.max -> I64.wrap z = z.
Proof.
unfold I64.min, I64.max, I64.wrap. intros H.
rewrite Z.mod_small by lia. lia.
Qed.

Lemma scale_loop_pow (n : nat) :
forall s, 0 < s -> s * 10 ^ Z.of_nat n <= 10 ^ 18 ->
scale_loop n s = s * 10 ^ Z.of_nat n.
Proof.
induction n as [|n IH]; intros s Hs Hb.
- simpl. lia.
- rewrite Nat2Z.inj_succ, Z.pow_succ_r in * by lia.
  cbn [scale_loop]. unfold I64.mul.
  assert (0 < 10 ^ Z.of_nat n) by (apply Z.pow_pos_nonneg; lia).
  rewrite I64_wrap_small by (unfold I64.min, I64.max; nia).
  rewrite IH by nia. ring.
Qed.

Lemma scale_pow (D : Z) : 0 <= D <= 18 -> scale D = 10 ^ D.
Proof.
intros H. unfold scale.
rewrite scale_loop_pow; rewrite ?Z2Nat.id by lia; try lia.
rewrite Z.mul_1_l. apply Z.pow_le_mono_r; lia.
Qed.

Lemma pad_loop_pow (n : nat) :
forall f, 0 <= f -> f * 10 ^ Z.of_nat n <= 10 ^ 18 ->
pad_loop n f = f * 10 ^ Z.of_nat n.
Proof.
induction n as [|n IH]; intros f Hf Hb.
- simpl. lia.
- rewrite Nat2Z.inj_succ, Z.pow_succ_r in * by lia.
  cbn [pad_loop]. unfold I64.mul.
  assert (0 < 10 ^ Z.of_nat n) by (apply Z.pow_pos_nonneg; lia).
  rewrite I64_wrap_small by (unfold I64.min, I64.max; nia).
  rewrite IH by nia. ring.
Qed.

(** *** Numerals *)

Fixpoint all_digits (s : string) : bool :=
match s with
| EmptyString => true
| String c r => is_digit c && all_digits r
end.

(** The number a digit string denotes after the digits already read. *)
Fixpoint digits_value_from (a : Z) (s : string) : Z :=
match s with
| EmptyString => a
| String c r => digits_value_from (a * 10 + digit_of c) r
end.
Definition digits_value (s : string) : Z := digits_value_from 0 s.

Fixpoint take_str (n : nat) (s : string) : string :=
match n, s with
| O, _ => EmptyString
| S n', EmptyString => EmptyString
| S n', String c r => String c (take_str n' r)
end.

Definition strlen (s : string) : Z := Z.of_nat (String.length s).

Lemma is_digit_range (c : ascii) :
is_digit c = true -> 0 <= digit_of c <= 9 /\ is_point c = false.
Proof.
unfold is_digit, digit_of, is_point. intros H.
apply andb_true_iff in H. destruct H as [H1 H2].
apply Z.leb_le in H1, H2. split; [lia|].
apply Ascii.eqb_neq. intros ->. cbv in H1. apply H1. reflexivity.
Qed.

Lemma digits_value_from_ge (s : string) :
forall a, 0 <= a -> all_digits s = true -> a <= digits_value_from a s.
Proof.
induction s as [|c r IH]; intros a Ha Hd; simpl in *; [lia|].
apply andb_true_iff in Hd. destruct Hd as [Hc Hr].
destruct (is_digit_range c Hc) as [Hrange _].
specialize (IH (a * 10 + digit_of c) ltac:(lia) Hr). lia.
Qed.

Lemma digits_value_from_shift (s : string) :
forall a, digits_value_from a s = a * 10 ^ strlen s + digits_value s.
Proof.
unfold digits_value, strlen.
induction s as [|c r IH]; intros a.
- simpl. lia.
- cbn [digits_value_from String.length]. rewrite IH, (IH (0 * 10 + digit_of c)).
  rewrite Nat2Z.inj_succ, Z.pow_succ_r by lia. ring.
Qed.

Lemma digits_value_bound (s : string) :
all_digits s = true -> 0 <= digits_value s < 10 ^ strlen s.
Proof.
unfold strlen. induction s as [|c r IH]; intros Hd.
- simpl. unfold digits_value. simpl. lia.
- simpl in Hd. apply andb_true_iff in Hd. destruct Hd as [Hc Hr].
  destruct (is_digit_range c Hc) as [Hrange _].
  unfold digits_value in *. cbn [digits_value_from String.length].
  rewrite digits_value_from_shift. fold (digits_value r).
  specialize (IH Hr). unfold digits_value, strlen in *.
  rewrite Nat2Z.inj_succ, Z.pow_succ_r by lia. nia.
Qed.

Lemma append_cons (c : ascii) (r rest : string) :
String c r ++ rest = String c (r ++ rest).
Proof. reflexivity. Qed.

Lemma append_nil (rest : string) : "" ++ rest = rest.
Proof. reflexivity. Qed.

Definition is_empty_str (s : string) : bool :=
match s with EmptyString => true | _ => false end.

Lemma max_safe_int_bound (a d : Z) :
0 <= d -> a * 10 + d <= I64.max -> (a >? max_safe_int)%Z = false.
Proof.
intros Hd H. unfold max_safe_int.
destruct (a >? I64.max / 10)%Z eqn:E; [|reflexivity].
rewrite Z.gtb_ltb in E. apply Z.ltb_lt in E.
assert (a <= I64.max / 10) by (apply Z.div_le_lower_bound; lia). lia.
Qed.

(** The integer digits: as long as the number read fits in [int64_t], no
  overflow is reported and [integer_part] is that number. *)
Lemma scan_int_digits (D : Z) (ip : string) :
forall rest st,
  all_digits ip = true ->
  in_fraction st = false ->
  0 <= integer_part st ->
  digits_value_from (integer_part st) ip <= I64.max ->
  scan D (ip ++ rest) st
  = scan D rest
      (mkScan (digits_value_from (integer_part st) ip)
              (frac_part st) (frac_digits st) false
              (has_digits st || negb (is_empty_str ip))).
Proof.
induction ip as [|c r IH]; intros rest st Hd Hf H0 Hmax.
- rewrite append_nil. destruct st; simpl in *; subst. rewrite orb_false_r. reflexivity.
- simpl in Hd. apply andb_true_iff in Hd. destruct Hd as [Hc Hr].
  destruct (is_digit_range c Hc) as [Hrange Hpt].
  rewrite append_cons. cbn [scan digits_value_from] in *. unfold scan_char.
  rewrite Hpt, Hc, Hf. cbn [negb].
  pose proof (digits_value_from_ge r (integer_part st * 10 + digit_of c)
                ltac:(lia) Hr) as Hge.
  rewrite (max_safe_int_bound (integer_part st) (digit_of c)) by lia.
  unfold I64.add, I64.mul.
  rewrite (I64_wrap_small (integer_part st * 10))
    by (unfold I64.min, I64.max in *; lia).
  rewrite I64_wrap_small by (unfold I64.min, I64.max in *; lia).
  rewrite IH; cbn [integer_part frac_part frac_digits in_fraction has_digits];
    try assumption; try lia.
  rewrite orb_true_r. reflexivity.
Qed.

Lemma take_str_succ (n : Z) (c : ascii) (r : string) :
0 < n ->
take_str (Z.to_nat n) (String c r) = String c (take_str (Z.to_nat (n - 1)) r).
Proof.
intros H. replace (Z.to_nat n) with (S (Z.to_nat (n - 1))) by lia. reflexivity.
Qed.

(** The fractional digits: the first [Decimals] of them are accumulated, the
  others are skipped. *)
Lemma scan_frac_digits (D : Z) (fp : string) :
forall rest st,
  all_digits fp = true ->
  in_fraction st = true ->
  0 <= frac_digits st <= D -> D <= 18 ->
  0 <= frac_part st < 10 ^ frac_digits st ->
  scan D (fp ++ rest) st
  = scan D rest
      (mkScan (integer_part st)
              (digits_value_from (frac_part st)
                 (take_str (Z.to_nat (D - frac_digits st)) fp))
              (frac_digits st
               + strlen (take_str (Z.to_nat (D - frac_digits st)) fp))
              true
              (has_digits st || negb (is_empty_str fp))).
Proof.
induction fp as [|c r IH]; intros rest st Hd Hf Hk HD Hfp.
- rewrite append_nil. destruct st; simpl in *; subst.
  destruct (Z.to_nat (D - frac_digits0)); simpl; unfold strlen; simpl;
    rewrite orb_false_r, Z.add_0_r; reflexivity.
- simpl in Hd. apply andb_true_iff in Hd. destruct Hd as [Hc Hr].
  destruct (is_digit_range c Hc) as [Hrange Hpt].
  rewrite append_cons. cbn [scan]. unfold scan_char.
  rewrite Hpt, Hc, Hf. cbn [negb].
  destruct (frac_digits st <? D)%Z eqn:E.
  + apply Z.ltb_lt in E.
    assert (Hpow : 10 ^ (frac_digits st + 1) <= 10 ^ 18)
      by (apply Z.pow_le_mono_r; lia).
    assert (Hs : 10 ^ (frac_digits st + 1) = 10 * 10 ^ frac_digits st)
      by (rewrite Z.pow_add_r by lia; lia).
    unfold I64.add, I64.mul.
    rewrite (I64_wrap_small (frac_part st * 10))
      by (unfold I64.min, I64.max; lia).
    rewrite I64_wrap_small by (unfold I64.min, I64.max; lia).
    rewrite IH; cbn [integer_part frac_part frac_digits in_fraction has_digits];
      try assumption; try lia.
    rewrite (take_str_succ (D - frac_digits st)) by lia.
    replace (D - (frac_digits st + 1)) with (D - frac_digits st - 1) by lia.
    cbn [digits_value_from]. unfold strlen. cbn [String.length].
    rewrite orb_true_r, Nat2Z.inj_succ. f_equal. f_equal. lia.
  + apply Z.ltb_ge in E.
    rewrite IH; cbn [integer_part frac_part frac_digits in_fraction has_digits];
      try assumption; try lia.
    replace (Z.to_nat (D - frac_digits st)) with 0%nat by lia.
    cbn [take_str]. rewrite orb_true_r.
    destruct r; reflexivity.
Qed.

(** A numeral: an optional sign, the digits before the point and, when
  there is a point, the digits after it. *)
Inductive Sign : Set := NoSign | PlusSign | MinusSign.

Record numeral : Set := mkNumeral {
n_sign : Sign;
n_int : string;
n_frac : option string
}.

Definition sign_str (s : Sign) : string :=
match s with NoSign => "" | PlusSign => "+" | MinusSign => "-" end.
Definition is_minus (s : Sign) : bool :=
match s with MinusSign => true | _ => false end.
Definition frac_of (n : numeral) : string :=
match n_frac n with Some fp => fp | None => "" end.
Definition frac_str (n : numeral) : string :=
match n_frac n with Some fp => String "." fp | None => "" end.
Definition render (n : numeral) : string :=
sign_str (n_sign n) ++ n_int n ++ frac_str n.

(** Digits only, and at least one of them. *)
Definition well_formed (n : numeral) : bool :=
all_digits (n_int n) && all_digits (frac_of n)
&& negb (is_empty_str (n_int n) && is_empty_str (frac_of n)).

(** The magnitude scaled by [10^D], the fractional digits beyond the
  [D]-th dropped. *)
Definition scaled_trunc (D : Z) (n : numeral) : Z :=
let kept := take_str (Z.to_nat D) (frac_of n) in
digits_value (n_int n) * 10 ^ D + digits_value kept * 10 ^ (D - strlen kept).
Definition signed (n : numeral) (v : Z) : Z :=
if is_minus (n_sign n) then - v else v.

(** [parse] after the sign has been dealt with. *)
Definition parse_body (D : Z) (negative : bool) (body : string) : result Z :=
match scan D body scan_init with
| Throw e => Throw e
| Ok st => finish D negative st
end.

Lemma take_str_digits (n : nat) :
forall s, all_digits s = true ->
  all_digits (take_str n s) = true /\ strlen (take_str n s) <= Z.of_nat n.
Proof.
unfold strlen. induction n as [|n IH]; intros s Hs.
- simpl. split; [reflexivity | lia].
- destruct s as [|c r]; [simpl; split; [reflexivity | lia]|].
  simpl in Hs. apply andb_true_iff in Hs. destruct Hs as [Hc Hr].
  destruct (IH r Hr) as [H1 H2].
  cbn [take_str all_digits String.length]. rewrite Hc, H1.
  split; [reflexivity | lia].
Qed.

Lemma scaled_trunc_parts (D : Z) (n : numeral) :
0 <= D <= 18 -> well_formed n = true ->
let kept := take_str (Z.to_nat D) (frac_of n) in
0 <= digits_value (n_int n) /\
0 <= strlen kept <= D /\
0 <= digits_value kept < 10 ^ strlen kept /\
0 <= digits_value kept * 10 ^ (D - strlen kept) < 10 ^ D.
Proof.
intros HD Hwf kept. unfold well_formed in Hwf.
apply andb_true_iff in Hwf. destruct Hwf as [Hwf _].
apply andb_true_iff in Hwf. destruct Hwf as [Hi Hf].
destruct (take_str_digits (Z.to_nat D) (frac_of n) Hf) as [Hk Hl].
fold kept in Hk, Hl.
pose proof (digits_value_bound _ Hi) as Bi.
pose proof (digits_value_bound _ Hk) as Bk.
assert (Hlen : 0 <= strlen kept <= D) by (unfold strlen in *; lia).
assert (Hq : 0 < 10 ^ (D - strlen kept)) by (apply Z.pow_pos_nonneg; lia).
assert (Hsplit : 10 ^ D = 10 ^ strlen kept * 10 ^ (D - strlen kept))
  by (rewrite <- Z.pow_add_r by lia; f_equal; lia).
split; [lia|]. split; [lia|]. split; [lia|].
rewrite Hsplit. split; nia.
Qed.

Lemma finish_in_range (D : Z) (negative inf : bool) (ipv fv k : Z) :
0 <= D <= 18 -> 0 <= ipv -> 0 <= k <= D -> 0 <= fv < 10 ^ k ->
ipv * 10 ^ D + fv * 10 ^ (D - k) <= I64.max ->
finish D negative (mkScan ipv fv k inf true)
= Ok (if negative then - (ipv * 10 ^ D + fv * 10 ^ (D - k))
      else ipv * 10 ^ D + fv * 10 ^ (D - k)).
Proof.
intros HD Hi Hk Hf Hfit.
unfold finish, pad_frac, max_integer_part.
cbn [has_digits integer_part frac_part frac_digits negb].
rewrite scale_pow by assumption.
assert (Hp : 0 < 10 ^ D) by (apply Z.pow_pos_nonneg; lia).
assert (Hq : 0 < 10 ^ (D - k)) by (apply Z.pow_pos_nonneg; lia).
assert (Hsplit : 10 ^ D = 10 ^ k * 10 ^ (D - k))
  by (rewrite <- Z.pow_add_r by lia; f_equal; lia).
assert (H18 : 10 ^ D <= 10 ^ 18) by (apply Z.pow_le_mono_r; lia).
assert (Hfr : 0 <= fv * 10 ^ (D - k) < 10 ^ D) by nia.
rewrite pad_loop_pow; rewrite ?Z2Nat.id by lia; try lia.
assert (Hle : (ipv >? I64.max / 10 ^ D)%Z = false).
{ destruct (ipv >? I64.max / 10 ^ D)%Z eqn:E; [|reflexivity].
  rewrite Z.gtb_ltb in E. apply Z.ltb_lt in E.
  assert (ipv <= I64.max / 10 ^ D) by (apply Z.div_le_lower_bound; nia). lia. }
rewrite Hle. unfold I64.add, I64.mul, I64.neg.
assert (HA : 0 <= ipv * 10 ^ D) by nia.
rewrite (I64_wrap_small (ipv * 10 ^ D)) by (unfold I64.min, I64.max in *; lia).
rewrite (I64_wrap_small (ipv * 10 ^ D + fv * 10 ^ (D - k)))
  by (unfold I64.min, I64.max in *; lia).
destruct negative; [|reflexivity].
rewrite I64_wrap_small by (unfold I64.min, I64.max in *; lia). reflexivity.
Qed.

Lemma append_empty_r (s : string) : s ++ "" = s.
Proof.
induction s as [|c r IH]; [reflexivity|].
rewrite append_cons, IH. reflexivity.
Qed.

Lemma take_str_empty (n : nat) : take_str n "" = "".
Proof. destruct n; reflexivity. Qed.

(** A well-formed numeral whose truncated scaled value fits in [int64_t]
  parses to that value. *)
Lemma parse_body_numeral (D : Z) (negative : bool) (n : numeral) :
0 <= D <= 18 -> well_formed n = true -> scaled_trunc D n <= I64.max ->
parse_body D negative (n_int n ++ frac_str n)
= Ok (if negative then - scaled_trunc D n else scaled_trunc D n).
Proof.
intros HD Hwf Hfit.
destruct (scaled_trunc_parts D n HD Hwf) as (Hi & Hlen & Hkept & Hfr).
pose proof Hwf as Hwf'. unfold well_formed in Hwf'.
apply andb_true_iff in Hwf'. destruct Hwf' as [Hwf' Hne].
apply andb_true_iff in Hwf'. destruct Hwf' as [Hid Hfd].
unfold scaled_trunc in *.
assert (Hp : 0 < 10 ^ D) by (apply Z.pow_pos_nonneg; lia).
assert (Hiv : digits_value (n_int n) <= I64.max) by nia.
unfold parse_body.
rewrite scan_int_digits; cbn [scan_init integer_part in_fraction];
  try assumption; try reflexivity; try lia.
unfold scan_init. cbn [frac_part frac_digits has_digits orb].
fold (digits_value (n_int n)).
unfold frac_str, frac_of in *. destruct (n_frac n) as [fp|].
- cbn [scan]. unfold scan_char.
  replace (is_point ".") with true by reflexivity.
  cbn [in_fraction integer_part frac_part frac_digits has_digits].
  rewrite <- (append_empty_r fp) at 1.
  rewrite scan_frac_digits;
    cbn [integer_part frac_part frac_digits in_fraction has_digits];
    try assumption; try reflexivity; try lia.
  rewrite Z.sub_0_r, Z.add_0_l. fold (digits_value (take_str (Z.to_nat D) fp)).
  cbn [scan].
  replace (negb (is_empty_str (n_int n)) || negb (is_empty_str fp)) with true
    by (symmetry; rewrite <- negb_andb; exact Hne).
  apply finish_in_range; assumption.
- cbn [scan].
  rewrite take_str_empty in *.
  replace (negb (is_empty_str (n_int n))) with true
    by (symmetry; rewrite andb_true_r in Hne; exact Hne).
  apply (finish_in_range D negative false (digits_value (n_int n)) 0 0);
    try assumption; try lia.
Qed.

Lemma body_head (n : numeral) :
well_formed n = true ->
exists c r, n_int n ++ frac_str n = String c r /\
            (is_digit c = true \/ c = "."%char).
Proof.
unfold well_formed, frac_str, frac_of. intros H.
apply andb_true_iff in H. destruct H as [H Hne].
apply andb_true_iff in H. destruct H as [Hi Hf].
destruct (n_int n) as [|c r].
- destruct (n_frac n) as [fp|]; [|discriminate].
  exists "."%char, fp. split; [reflexivity | right; reflexivity].
- exists c, (r ++ match n_frac n with Some fp => String "." fp | None => "" end).
  split; [reflexivity|]. left. simpl in Hi.
  apply andb_true_iff in Hi. tauto.
Qed.

Lemma not_sign_char (c : ascii) :
is_digit c = true \/ c = "."%char ->
Ascii.eqb c "-" = false /\ Ascii.eqb c "+" = false.
Proof.
intros [H | ->]; [|split; reflexivity].
unfold is_digit in H. apply andb_true_iff in H. destruct H as [H1 H2].
apply Z.leb_le in H1.
split; apply Ascii.eqb_neq; intros ->; cbv in H1; apply H1; reflexivity.
Qed.

Lemma parse_render (D : Z) (n : numeral) :
well_formed n = true ->
parse D (render n)
= parse_body D (is_minus (n_sign n)) (n_int n ++ frac_str n).
Proof.
intros Hwf. destruct (body_head n Hwf) as (c & r & Hb & Hc).
destruct (not_sign_char c Hc) as [Hm Hp].
unfold render, parse_body. rewrite Hb.
destruct (n_sign n); cbn [sign_str is_minus].
- rewrite append_nil. cbn [parse]. rewrite Hm, Hp. reflexivity.
- rewrite append_cons, append_nil. cbn [parse]. reflexivity.
- rewrite append_cons, append_nil. cbn [parse]. reflexivity.
Qed.

Lemma parse_numeral (D : Z) (n : numeral) :
0 <= D <= 18 -> well_formed n = true -> scaled_trunc D n <= I64.max ->
parse D (render n) = Ok (signed n (scaled_trunc D n)).
Proof.
intros HD Hwf Hfit.
rewrite parse_render by assumption.
apply parse_body_numeral; assumption.
Qed.

(** *** What a successful or failed scan says about the input *)

Fixpoint has_digit (s : string) : bool :=
match s with
| EmptyString => false
| String c r => is_digit c || has_digit r
end.

Fixpoint count_points (s : string) : nat :=
match s with
| EmptyString => O
| String c r => ((if is_point c then 1 else 0) + count_points r)%nat
end.

(** Some character is neither a digit nor the point. *)
Fixpoint has_invalid (s : string) : bool :=
match s with
| EmptyString => false
| String c r => (negb (is_point c) && negb (is_digit c)) || has_invalid r
end.

Definition frac_suffix (fo : option string) : string :=
match fo with Some fp => String "." fp | None => "" end.
Definition frac_text (fo : option string) : string :=
match fo with Some fp => fp | None => "" end.

(** [c] is the computed [integer_part] when the digits read so far denote
  [v]: the two agree as long as [v] fits in [int64_t]. *)
Definition tracks (c v : Z) : Prop := 0 <= v /\ (v <= I64.max -> c = v).

Lemma max_safe_int_value : max_safe_int = 922337203685477580.
Proof. reflexivity. Qed.

Lemma tracks_step (c v d : Z) :
tracks c v -> 0 <= d <= 9 -> (c >? max_safe_int)%Z = false ->
tracks (I64.add (I64.mul c 10) d) (v * 10 + d).
Proof.
intros [Hv Hc] Hd Hle. split; [lia|]. intros Hfit.
rewrite Hc by lia. unfold I64.add, I64.mul.
rewrite (I64_wrap_small (v * 10)) by (unfold I64.min, I64.max in *; lia).
apply I64_wrap_small. unfold I64.min, I64.max in *. lia.
Qed.

Lemma tracks_overflow (c v d : Z) :
tracks c v -> 0 <= d -> (c >? max_safe_int)%Z = true ->
v * 10 + d > I64.max.
Proof.
intros [Hv Hc] Hd Hgt. rewrite Z.gtb_ltb in Hgt. apply Z.ltb_lt in Hgt.
rewrite max_safe_int_value in Hgt.
destruct (Z_le_gt_dec (v * 10 + d) I64.max) as [Hfit|]; [|assumption].
rewrite Hc in Hgt by lia. unfold I64.max in *. lia.
Qed.

(** The five outcomes of one loop iteration. *)
Lemma scan_char_cases (D : Z) (c : ascii) (st : scan_state) :
(is_point c = true /\ in_fraction st = true /\
 scan_char D c st = Throw MultiplePoints) \/
(is_point c = true /\ in_fraction st = false /\
 scan_char D c st
 = Ok (mkScan (integer_part st) (frac_part st) (frac_digits st) true
              (has_digits st))) \/
(is_point c = false /\ is_digit c = false /\
 scan_char D c st = Throw InvalidChar) \/
(is_point c = false /\ is_digit c = true /\ in_fraction st = true /\
 exists st', scan_char D c st = Ok st' /\ in_fraction st' = true /\
             integer_part st' = integer_part st /\ has_digits st' = true) \/
(is_point c = false /\ is_digit c = true /\ in_fraction st = false /\
 ((integer_part st >? max_safe_int)%Z = true /\
  scan_char D c st = Throw IntegerOverflow
  \/
  (integer_part st >? max_safe_int)%Z = false /\
  scan_char D c st
  = Ok (mkScan (I64.add (I64.mul (integer_part st) 10) (digit_of c))
               (frac_part st) (frac_digits st) false true))).
Proof.
unfold scan_char.
destruct (is_point c) eqn:Hp.
- destruct (in_fraction st); [left | right; left]; auto.
- destruct (is_digit c) eqn:Hd; cbn [negb]; [|right; right; left; auto].
  destruct (in_fraction st) eqn:Hf.
  + right; right; right; left. repeat split; try reflexivity.
    destruct (frac_digits st <? D)%Z; eexists; repeat split; reflexivity.
  + right; right; right; right. repeat split; try reflexivity.
    destruct (integer_part st >? max_safe_int)%Z; [left | right]; auto.
Qed.

Lemma scan_cons (D : Z) (c : ascii) (r : string) (st : scan_state) :
scan D (String c r) st
= match scan_char D c st with
  | Ok st' => scan D r st'
  | Throw e => Throw e
  end.
Proof. reflexivity. Qed.

Lemma scan_has_digits (D : Z) (s : string) :
forall st st',
  scan D s st = Ok st' -> has_digits st' = has_digits st || has_digit s.
Proof.
induction s as [|c r IH]; intros st st' H.
- simpl in H. injection H as <-. simpl. rewrite orb_false_r. reflexivity.
- rewrite scan_cons in H. cbn [has_digit].
  destruct (scan_char_cases D c st)
    as [(Hp & Hf & E) | [(Hp & Hf & E) | [(Hp & Hd & E) |
        [(Hp & Hd & Hf & st1 & E & F1 & F2 & F3) |
         (Hp & Hd & Hf & [(Hg & E) | (Hg & E)])]]]];
    rewrite E in H; try discriminate.
  + rewrite (IH _ _ H). cbn [has_digits].
    destruct (is_digit c) eqn:Hd; [|reflexivity].
    destruct (is_digit_range c Hd) as [_ Hp']. congruence.
  + rewrite (IH _ _ H), F3, Hd. rewrite orb_true_r. reflexivity.
  + rewrite (IH _ _ H), Hd. cbn [has_digits]. rewrite orb_true_r. reflexivity.
Qed.

Lemma scan_frac_shape (D : Z) (s : string) :
forall st st',
  in_fraction st = true -> scan D s st = Ok st' ->
  all_digits s = true /\ integer_part st' = integer_part st.
Proof.
induction s as [|c r IH]; intros st st' Hin H.
- simpl in H. injection H as <-. split; reflexivity.
- rewrite scan_cons in H. cbn [all_digits].
  destruct (scan_char_cases D c st)
    as [(Hp & Hf & E) | [(Hp & Hf & E) | [(Hp & Hd & E) |
        [(Hp & Hd & Hf & st1 & E & F1 & F2 & F3) |
         (Hp & Hd & Hf & _)]]]];
    try congruence; rewrite E in H; try discriminate.
  destruct (IH st1 st' F1 H) as [G1 G2].
  rewrite Hd, G1, G2, F2. split; reflexivity.
Qed.

Lemma scan_int_shape (D : Z) (s : string) :
forall st st' v,
  in_fraction st = false -> tracks (integer_part st) v ->
  scan D s st = Ok st' ->
  exists ip fo,
    s = ip ++ frac_suffix fo /\
    all_digits ip = true /\ all_digits (frac_text fo) = true /\
    tracks (integer_part st') (digits_value_from v ip).
Proof.
induction s as [|c r IH]; intros st st' v Hin Ht H.
- simpl in H. injection H as <-. exists "", None. repeat split; try reflexivity.
  + apply Ht.
  + apply Ht.
- rewrite scan_cons in H.
  destruct (scan_char_cases D c st)
    as [(Hp & Hf & E) | [(Hp & Hf & E) | [(Hp & Hd & E) |
        [(Hp & Hd & Hf & _) |
         (Hp & Hd & Hf & [(Hg & E) | (Hg & E)])]]]];
    try congruence; rewrite E in H; try discriminate.
  + apply Ascii.eqb_eq in Hp. subst c.
    match type of H with scan _ _ ?s1 = _ =>
      destruct (scan_frac_shape D r s1 st' eq_refl H) as [G1 G2]
    end.
    exists "", (Some r). cbn [frac_suffix frac_text digits_value_from].
    rewrite G2. cbn [integer_part]. repeat split; try assumption; apply Ht.
  + destruct (is_digit_range c Hd) as [Hr _].
    pose proof (tracks_step _ _ _ Ht Hr Hg) as Ht'.
    match type of H with scan _ _ ?s1 = _ =>
      destruct (IH s1 st' _ eq_refl Ht' H) as (ip & fo & -> & G1 & G2 & G3)
    end.
    exists (String c ip), fo. cbn [all_digits digits_value_from].
    rewrite Hd, G1. repeat split; try assumption; apply G3.
Qed.

Lemma scan_frac_throw (D : Z) (s : string) :
forall st e,
  in_fraction st = true -> scan D s st = Throw e -> e <> IntegerOverflow.
Proof.
induction s as [|c r IH]; intros st e Hin H; [discriminate|].
rewrite scan_cons in H.
destruct (scan_char_cases D c st)
  as [(Hp & Hf & E) | [(Hp & Hf & E) | [(Hp & Hd & E) |
      [(Hp & Hd & Hf & st1 & E & F1 & F2 & F3) |
       (Hp & Hd & Hf & _)]]]];
  try congruence; rewrite E in H; try congruence.
apply (IH st1 e F1 H).
Qed.

(** [IntegerOverflow] is thrown only after a run of digits that denotes
  more than [INT64_MAX]. *)
Lemma scan_int_overflow (D : Z) (s : string) :
forall st v,
  in_fraction st = false -> tracks (integer_part st) v ->
  scan D s st = Throw IntegerOverflow ->
  exists ip rest,
    s = ip ++ rest /\ all_digits ip = true /\
    digits_value_from v ip > I64.max.
Proof.
induction s as [|c r IH]; intros st v Hin Ht H; [discriminate|].
rewrite scan_cons in H.
destruct (scan_char_cases D c st)
  as [(Hp & Hf & E) | [(Hp & Hf & E) | [(Hp & Hd & E) |
      [(Hp & Hd & Hf & _) |
       (Hp & Hd & Hf & [(Hg & E) | (Hg & E)])]]]];
  try congruence; rewrite E in H; try discriminate.
- exfalso.
  match type of H with scan _ _ ?s1 = _ =>
    apply (scan_frac_throw D r s1 _ eq_refl H)
  end. reflexivity.
- destruct (is_digit_range c Hd) as [Hr _].
  exists (String c ""), r. cbn [all_digits digits_value_from].
  rewrite Hd. repeat split.
  apply (tracks_overflow (integer_part st) v (digit_of c) Ht); [lia | exact Hg].
- destruct (is_digit_range c Hd) as [Hr _].
  pose proof (tracks_step _ _ _ Ht Hr Hg) as Ht'.
  match type of H with scan _ _ ?s1 = _ =>
    destruct (IH s1 _ eq_refl Ht' H) as (ip & rest & -> & G1 & G2)
  end.
  exists (String c ip), rest. cbn [all_digits digits_value_from].
  rewrite Hd, G1. repeat split. assumption.
Qed.

Lemma scan_throw_kinds (D : Z) (s : string) :
forall st e,
  scan D s st = Throw e ->
  (e = MultiplePoints /\
   (2 <= count_points s + (if in_fraction st then 1 else 0))%nat) \/
  (e = InvalidChar /\ has_invalid s = true) \/
  e = IntegerOverflow.
Proof.
induction s as [|c r IH]; intros st e H; [discriminate|].
rewrite scan_cons in H. cbn [count_points has_invalid].
destruct (scan_char_cases D c st)
  as [(Hp & Hf & E) | [(Hp & Hf & E) | [(Hp & Hd & E) |
      [(Hp & Hd & Hf & st1 & E & F1 & F2 & F3) |
       (Hp & Hd & Hf & [(Hg & E) | (Hg & E)])]]]];
  rewrite E in H; rewrite ?Hp, ?Hd, ?Hf; cbn [negb andb orb].
- injection H as <-. left. split; [reflexivity | lia].
- destruct (IH _ _ H) as [[-> G] | [[-> G] | ->]]; cbn [in_fraction] in *;
    [left; split; [reflexivity | lia] | right; left; auto | right; right; auto].
- injection H as <-. right; left. auto.
- destruct (IH _ _ H) as [[-> G] | [[-> G] | ->]]; rewrite ?F1 in *;
    [left; split; [reflexivity | lia] | right; left; auto | right; right; auto].
- injection H as <-. right; right. reflexivity.
- destruct (IH _ _ H) as [[-> G] | [[-> G] | ->]]; cbn [in_fraction] in *;
    [left; split; [reflexivity | lia] | right; left; auto | right; right; auto].
Qed.

(** *** [parse] as a whole *)

Definition is_sign (c : ascii) : bool := Ascii.eqb c "-" || Ascii.eqb c "+".

(** The input without its leading sign character. *)
Definition unsigned_part (s : string) : string :=
match s with
| EmptyString => EmptyString
| String c r => if is_sign c then r else s
end.
Definition starts_with_minus (s : string) : bool :=
match s with
| EmptyString => false
| String c r => Ascii.eqb c "-"
end.

Lemma parse_unfold (D : Z) (c : ascii) (r : string) :
parse D (String c r)
= if is_empty_str (unsigned_part (String c r)) then Throw SignOnly
  else parse_body D (starts_with_minus (String c r))
                  (unsigned_part (String c r)).
Proof.
unfold parse, parse_body, unsigned_part, starts_with_minus, is_sign.
destruct (Ascii.eqb c "-" || Ascii.eqb c "+"); [destruct r|]; reflexivity.
Qed.

Lemma sign_not_digit (c : ascii) :
is_sign c = true -> is_digit c = false /\ is_point c = false.
Proof.
unfold is_sign. intros H. apply orb_true_iff in H.
destruct H as [H | H]; apply Ascii.eqb_eq in H; subst c; split; reflexivity.
Qed.

Lemma has_digit_unsigned (s : string) :
has_digit (unsigned_part s) = has_digit s.
Proof.
destruct s as [|c r]; [reflexivity|]. unfold unsigned_part.
destruct (is_sign c) eqn:E; [|reflexivity].
destruct (sign_not_digit c E) as [Hd _]. cbn [has_digit]. rewrite Hd. reflexivity.
Qed.

Lemma count_points_unsigned (s : string) :
count_points (unsigned_part s) = count_points s.
Proof.
destruct s as [|c r]; [reflexivity|]. unfold unsigned_part.
destruct (is_sign c) eqn:E; [|reflexivity].
destruct (sign_not_digit c E) as [_ Hp]. cbn [count_points]. rewrite Hp. reflexivity.
Qed.

Lemma has_digit_app (a b : string) :
has_digit (a ++ b) = has_digit a || has_digit b.
Proof.
induction a as [|c r IH]; [reflexivity|].
rewrite append_cons. cbn [has_digit]. rewrite IH, orb_assoc. reflexivity.
Qed.

Lemma has_digit_all_digits (s : string) :
all_digits s = true -> has_digit s = negb (is_empty_str s).
Proof.
destruct s as [|c r]; [reflexivity|]. cbn [all_digits has_digit is_empty_str].
intros H. apply andb_true_iff in H. destruct H as [-> _]. reflexivity.
Qed.

Lemma has_digit_frac_suffix (fo : option string) :
has_digit (frac_suffix fo) = has_digit (frac_text fo).
Proof. destruct fo; reflexivity. Qed.

Lemma max_integer_part_le (D : Z) :
0 <= D <= 18 -> max_integer_part D <= I64.max.
Proof.
intros HD. unfold max_integer_part. rewrite scale_pow by assumption.
assert (0 < 10 ^ D) by (apply Z.pow_pos_nonneg; lia).
apply Z.div_le_upper_bound; [assumption|]. unfold I64.max. nia.
Qed.

(** Whatever [parse] accepts, other than the empty string, is a
  well-formed numeral. *)
Lemma parse_ok_shape (D : Z) (s : string) (k : Z) :
parse D s = Ok k ->
s = "" \/ exists n, well_formed n = true /\ s = render n.
Proof.
intros H. destruct s as [|c r]; [left; reflexivity | right].
rewrite parse_unfold in H.
destruct (is_empty_str (unsigned_part (String c r))) eqn:Hb; [discriminate|].
unfold parse_body in H.
destruct (scan D (unsigned_part (String c r)) scan_init) as [st|e] eqn:Hs;
  [|discriminate].
pose proof (scan_has_digits D _ _ _ Hs) as Hh.
destruct (scan_int_shape D _ scan_init st 0 eq_refl
            ltac:(split; [lia | reflexivity]) Hs)
  as (ip & fo & Hbody & Hi & Hf & _).
unfold finish in H. destruct (has_digits st) eqn:Hd; [|discriminate].
cbn [scan_init has_digits orb] in Hh.
rewrite Hbody, has_digit_app, has_digit_frac_suffix in Hh.
rewrite (has_digit_all_digits ip Hi), (has_digit_all_digits _ Hf) in Hh.
assert (Hwf : forall sg, well_formed (mkNumeral sg ip fo) = true).
{ intros sg. unfold well_formed, frac_of. cbn [n_int n_frac].
  fold (frac_text fo). rewrite Hi, Hf, negb_andb, <- Hh. reflexivity. }
unfold unsigned_part in Hbody.
destruct (is_sign c) eqn:Hsg.
- unfold is_sign in Hsg. destruct (Ascii.eqb c "-") eqn:Hm.
  + apply Ascii.eqb_eq in Hm. subst c.
    exists (mkNumeral MinusSign ip fo). split; [apply Hwf|].
    unfold render, frac_str. cbn [n_sign n_int n_frac sign_str].
    fold (frac_suffix fo). rewrite <- Hbody. reflexivity.
  + cbn [orb] in Hsg. apply Ascii.eqb_eq in Hsg. subst c.
    exists (mkNumeral PlusSign ip fo). split; [apply Hwf|].
    unfold render, frac_str. cbn [n_sign n_int n_frac sign_str].
    fold (frac_suffix fo). rewrite <- Hbody. reflexivity.
- exists (mkNumeral NoSign ip fo). split; [apply Hwf|].
  unfold render, frac_str. cbn [n_sign n_int n_frac sign_str].
  fold (frac_suffix fo). rewrite append_nil. exact Hbody.
Qed.

(** What each exception says about the input. *)
Definition error_condition (D : Z) (s : string) (e : ParseError) : Prop :=
match e with
| SignOnly => s = "+" \/ s = "-"
| NoDigits => has_digit s = false
| MultiplePoints => (2 <= count_points s)%nat
| InvalidChar => has_invalid (unsigned_part s) = true
| IntegerOverflow | ValueTooLarge =>
    exists ip rest,
      unsigned_part s = ip ++ rest /\ all_digits ip = true /\
      digits_value ip > max_integer_part D
end.

Lemma parse_throw_condition (D : Z) (s : string) (e : ParseError) :
0 <= D <= 18 -> parse D s = Throw e -> error_condition D s e.
Proof.
intros HD H. destruct s as [|c r]; [discriminate|].
pose proof (max_integer_part_le D HD) as Hmip.
rewrite parse_unfold in H.
destruct (is_empty_str (unsigned_part (String c r))) eqn:Hb.
- injection H as <-. unfold unsigned_part, is_sign in Hb. simpl.
  destruct (Ascii.eqb c "-") eqn:Hm.
  + apply Ascii.eqb_eq in Hm. subst c. destruct r; [|discriminate]. auto.
  + destruct (Ascii.eqb c "+") eqn:Hp; [|discriminate].
    apply Ascii.eqb_eq in Hp. subst c. destruct r; [|discriminate]. auto.
- unfold parse_body in H.
  destruct (scan D (unsigned_part (String c r)) scan_init) as [st|e'] eqn:Hs.
  + pose proof (scan_has_digits D _ _ _ Hs) as Hh.
    cbn [scan_init has_digits orb] in Hh.
    unfold finish in H. destruct (has_digits st) eqn:Hd; cbn [negb] in H.
    * destruct (integer_part st >? max_integer_part D)%Z eqn:Hgt;
        [|discriminate].
      injection H as <-.
      rewrite Z.gtb_ltb in Hgt. apply Z.ltb_lt in Hgt.
      destruct (scan_int_shape D _ scan_init st 0 eq_refl
                  ltac:(split; [lia | reflexivity]) Hs)
        as (ip & fo & Hbody & Hi & Hf & Hv & Hc).
      exists ip, (frac_suffix fo). repeat split; try assumption.
      fold (digits_value ip) in Hv, Hc.
      destruct (Z_le_gt_dec (digits_value ip) I64.max) as [Hfit|Hbig];
        [rewrite <- (Hc Hfit) | ]; lia.
    * injection H as <-. unfold error_condition.
      rewrite <- has_digit_unsigned. symmetry. exact Hh.
  + injection H as <-.
    destruct (scan_throw_kinds D _ _ _ Hs) as [[-> G] | [[-> G] | ->]].
    * unfold error_condition. rewrite <- count_points_unsigned.
      cbn [scan_init in_fraction] in G. lia.
    * exact G.
    * destruct (scan_int_overflow D _ scan_init 0 eq_refl
                  ltac:(split; [lia | reflexivity]) Hs)
        as (ip & rest & Hbody & Hi & Hv).
      exists ip, rest. repeat split; try assumption.
      fold (digits_value ip) in Hv. lia.
Qed.

(** *** The value of a numeral *)

Fixpoint drop_str (n : nat) (s : string) : string :=
match n, s with
| O, _ => s
| S n', EmptyString => EmptyString
| S n', String c r => drop_str n' r
end.

Lemma take_drop_str (n : nat) :
forall s, take_str n s ++ drop_str n s = s.
Proof.
induction n as [|n IH]; intros s; [reflexivity|].
destruct s as [|c r]; [reflexivity|].
cbn [take_str drop_str]. rewrite append_cons, IH. reflexivity.
Qed.

Lemma strlen_app (a b : string) : strlen (a ++ b) = strlen a + strlen b.
Proof.
unfold strlen. induction a as [|c r IH]; [reflexivity|].
rewrite append_cons. cbn [String.length]. lia.
Qed.

Lemma strlen_take (n : nat) :
forall s, strlen (take_str n s) = Z.min (Z.of_nat n) (strlen s).
Proof.
unfold strlen. induction n as [|n IH]; intros s.
- simpl. lia.
- destruct s as [|c r]; [simpl; lia|].
  cbn [take_str String.length]. specialize (IH r). lia.
Qed.

Lemma all_digits_app (a b : string) :
all_digits (a ++ b) = all_digits a && all_digits b.
Proof.
induction a as [|c r IH]; [reflexivity|].
rewrite append_cons. cbn [all_digits]. rewrite IH, andb_assoc. reflexivity.
Qed.

Lemma digits_value_from_app (a b : string) :
forall v, digits_value_from v (a ++ b)
          = digits_value_from (digits_value_from v a) b.
Proof.
induction a as [|c r IH]; intros v; [reflexivity|].
rewrite append_cons. cbn [digits_value_from]. apply IH.
Qed.

Lemma digits_value_app (a b : string) :
digits_value (a ++ b) = digits_value a * 10 ^ strlen b + digits_value b.
Proof.
unfold digits_value at 1. rewrite digits_value_from_app.
rewrite digits_value_from_shift. reflexivity.
Qed.

(** The magnitude of a numeral is [numerator / 10^(number of fractional
  digits)]. *)
Definition numerator (n : numeral) : Z :=
digits_value (n_int n) * 10 ^ strlen (frac_of n) + digits_value (frac_of n).
Definition frac_len (n : numeral) : Z := strlen (frac_of n).

(** Truncation: the scaled value is the floor of [magnitude * 10^D]. *)
Lemma scaled_trunc_floor (D : Z) (n : numeral) :
0 <= D -> well_formed n = true ->
scaled_trunc D n = (numerator n * 10 ^ D) / 10 ^ frac_len n.
Proof.
intros HD Hwf. unfold well_formed in Hwf.
apply andb_true_iff in Hwf. destruct Hwf as [Hwf _].
apply andb_true_iff in Hwf. destruct Hwf as [Hi Hf].
unfold scaled_trunc, numerator, frac_len.
set (fp := frac_of n) in *. set (iv := digits_value (n_int n)).
pose proof (take_drop_str (Z.to_nat D) fp) as Hsplit.
set (kept := take_str (Z.to_nat D) fp) in *.
set (rest := drop_str (Z.to_nat D) fp) in *.
assert (Hk : strlen kept = Z.min D (strlen fp)).
{ unfold kept. rewrite strlen_take, Z2Nat.id by lia. reflexivity. }
assert (Hlen : strlen fp = strlen kept + strlen rest)
  by (rewrite <- Hsplit at 1; apply strlen_app).
assert (Hval : digits_value fp
               = digits_value kept * 10 ^ strlen rest + digits_value rest)
  by (rewrite <- Hsplit at 1; apply digits_value_app).
assert (Hrd : all_digits rest = true).
{ rewrite <- Hsplit, all_digits_app in Hf.
  apply andb_true_iff in Hf. tauto. }
pose proof (digits_value_bound rest Hrd) as Br.
assert (Hr0 : 0 <= strlen rest) by (unfold strlen; lia).
assert (Hk0 : 0 <= strlen kept) by (unfold strlen; lia).
symmetry.
destruct (Z_le_gt_dec (strlen fp) D) as [Hle | Hgt].
- assert (Hrest : strlen rest = 0) by lia.
  assert (HL : strlen fp = strlen kept) by lia.
  assert (HK : digits_value fp = digits_value kept).
  { rewrite Hval. rewrite Hrest in Br |- *. rewrite Z.pow_0_r in *. lia. }
  rewrite HL, HK.
  assert (HP : 10 ^ D = 10 ^ (D - strlen kept) * 10 ^ strlen kept)
    by (rewrite <- Z.pow_add_r by lia; f_equal; lia).
  rewrite HP at 1.
  rewrite Z.mul_assoc, Z.div_mul by (apply Z.pow_nonzero; lia).
  rewrite HP. ring.
- assert (HkD : strlen kept = D) by lia.
  rewrite HkD, Z.sub_diag, Z.pow_0_r, Z.mul_1_r.
  assert (HP : 10 ^ strlen fp = 10 ^ D * 10 ^ strlen rest)
    by (rewrite Hlen, HkD, Z.pow_add_r by lia; reflexivity).
  assert (HD0 : 0 < 10 ^ D) by (apply Z.pow_pos_nonneg; lia).
  symmetry.
  apply Z.div_unique with (r := digits_value rest * 10 ^ D).
  + left. rewrite HP. nia.
  + rewrite Hval, HP. ring.
Qed.

(** C5 (amended).  For [0 <= Decimals <= 18]: the empty string parses to
  zero; a well-formed numeral (optional sign, digits, at most one point, at
  least one digit) whose scaled value fits in [int64_t] parses to that
  value, the digits after the [Decimals]-th dropped, that is the floor of
  [magnitude * 10^Decimals] with the sign applied; nothing else but the
  empty string is accepted; and an exception tells what is wrong with the
  input: sign only, no digit at all, a second point, a character that is
  neither digit nor point, or an integer part above the largest
  representable one.  A sign or a point with no digit yields the sign-only
  or no-digits error. *)
Theorem parse_contract (D : Z) :
0 <= D <= 18 ->
parse D "" = Ok 0 /\
(forall n,
   well_formed n = true -> scaled_trunc D n <= I64.max ->
   parse D (render n) = Ok (signed n (scaled_trunc D n)) /\
   scaled_trunc D n = (numerator n * 10 ^ D) / 10 ^ frac_len n) /\
(forall s k,
   parse D s = Ok k ->
   s = "" \/ exists n, well_formed n = true /\ s = render n) /\
(forall s e, parse D s = Throw e -> error_condition D s e) /\
parse D "+" = Throw SignOnly /\
parse D "-" = Throw SignOnly /\
(forall sg, parse D (sign_str sg ++ ".") = Throw NoDigits).
Proof.
intros HD. split; [reflexivity|].
split; [|split; [|split; [|split; [|split]]]].
- intros n Hwf Hfit. split.
  + apply parse_numeral; assumption.
  + apply scaled_trunc_floor; [lia | assumption].
- intros s k. apply parse_ok_shape.
- intros s e. apply parse_throw_condition. assumption.
- reflexivity.
- reflexivity.
- intros sg. destruct sg; reflexivity.
Qed.

Lemma parse_contract_witness :
parse 8 "1.123456789999" = Ok 112345678 /\
parse 8 "-42150.50" = Ok (-4215050000000).
Proof.
pose proof (parse_contract 8 ltac:(lia)) as (_ & H & _).
split.
- destruct (H (mkNumeral NoSign "1" (Some "123456789999"))) as [E _];
    [reflexivity | vm_compute; discriminate | exact E].
- destruct (H (mkNumeral MinusSign "42150" (Some "50"))) as [E _];
    [reflexivity | vm_compute; discriminate | exact E].
Defined.

(** C5 as stated does not hold: the empty string contains no digit, yet
  [parse] returns zero for it instead of failing. *)
Lemma parse_empty_string_is_zero :
has_digit "" = false /\ parse 8 "" = Ok 0.
Proof. split; reflexivity. Qed.

(** Outside the range covered above the overflow tests miss two cases and
  the arithmetic wraps: an integer part of 19 digits that exceeds
  [INT64_MAX] only in its last digit, and the largest admitted integer
  part with a fraction that carries the sum over [INT64_MAX]. *)
Lemma parse_unreported_overflow :
parse 8 "9223372036854775808" = Ok 0 /\
parse 8 "92233720368.99999999" = Ok (-9223372036809551617).
Proof. split; vm_compute; reflexivity. Qed.

(** *** Equal decimal values give equal keys *)

(** The rational number a numeral denotes. *)
Definition decimal_value (n : numeral) : QArith_base.Q :=
QArith_base.Qmake (signed n (numerator n)) (Z.to_pos (10 ^ frac_len n)).

Lemma numerator_nonneg (n : numeral) :
well_formed n = true -> 0 <= numerator n.
Proof.
intros Hwf. unfold well_formed in Hwf.
apply andb_true_iff in Hwf. destruct Hwf as [Hwf _].
apply andb_true_iff in Hwf. destruct Hwf as [Hi Hf].
pose proof (digits_value_bound _ Hi). pose proof (digits_value_bound _ Hf).
unfold numerator.
assert (0 <= 10 ^ strlen (frac_of n)) by (apply Z.pow_nonneg; lia). nia.
Qed.

Lemma floor_cross (x y p q s : Z) :
0 < p -> 0 < q -> x * q = y * p -> (x * s) / p = (y * s) / q.
Proof.
intros Hp Hq E.
rewrite <- (Z.div_mul_cancel_r (x * s) p q) by lia.
rewrite <- (Z.div_mul_cancel_r (y * s) q p) by lia.
f_equal; [|ring].
replace (x * s * q) with (x * q * s) by ring. rewrite E. ring.
Qed.

Lemma same_decimal_same_scaled (D : Z) (a b : numeral) :
0 <= D -> well_formed a = true -> well_formed b = true ->
QArith_base.Qeq (decimal_value a) (decimal_value b) ->
signed a (scaled_trunc D a) = signed b (scaled_trunc D b).
Proof.
intros HD Ha Hb E.
rewrite (scaled_trunc_floor D a HD Ha), (scaled_trunc_floor D b HD Hb).
unfold QArith_base.Qeq, decimal_value in E. cbn [QArith_base.Qnum QArith_base.Qden] in E.
assert (Pa : 0 < 10 ^ frac_len a)
  by (apply Z.pow_pos_nonneg; unfold frac_len, strlen; lia).
assert (Pb : 0 < 10 ^ frac_len b)
  by (apply Z.pow_pos_nonneg; unfold frac_len, strlen; lia).
rewrite !Z2Pos.id in E by assumption.
pose proof (numerator_nonneg a Ha) as Na.
pose proof (numerator_nonneg b Hb) as Nb.
unfold signed in *.
destruct (is_minus (n_sign a)), (is_minus (n_sign b)).
- f_equal. apply floor_cross; lia.
- assert (numerator a = 0) by nia. assert (numerator b = 0) by nia.
  rewrite H, H0. rewrite !Z.mul_0_l, !Z.div_0_l by lia. reflexivity.
- assert (numerator a = 0) by nia. assert (numerator b = 0) by nia.
  rewrite H, H0. rewrite !Z.mul_0_l, !Z.div_0_l by lia. reflexivity.
- apply floor_cross; lia.
Qed.

(** Two numerals that denote the same decimal value (within the range of
  [FixedPoint]) parse to the same key. *)
Lemma same_decimal_same_key (D : Z) (a b : numeral) :
0 <= D <= 18 -> well_formed a = true -> well_formed b = true ->
QArith_base.Qeq (decimal_value a) (decimal_value b) ->
scaled_trunc D a <= I64.max ->
parse D (render a) = Ok (signed a (scaled_trunc D a)) /\
parse D (render b) = Ok (signed a (scaled_trunc D a)).
Proof.
intros HD Ha Hb E Hfit.
pose proof (same_decimal_same_scaled D a b ltac:(lia) Ha Hb E) as Hs.
assert (Hfitb : scaled_trunc D b <= I64.max).
{ destruct (scaled_trunc_parts D a HD Ha) as (A1 & A2 & A3 & A4).
  destruct (scaled_trunc_parts D b HD Hb) as (B1 & B2 & B3 & B4).
  assert (0 <= scaled_trunc D a).
  { unfold scaled_trunc. assert (0 <= 10 ^ D) by (apply Z.pow_nonneg; lia). nia. }
  assert (0 <= scaled_trunc D b).
  { unfold scaled_trunc. assert (0 <= 10 ^ D) by (apply Z.pow_nonneg; lia). nia. }
  unfold signed in Hs.
  destruct (is_minus (n_sign a)), (is_minus (n_sign b)); lia. }
split.
- apply parse_numeral; assumption.
- rewrite Hs. apply parse_numeral; assumption.
Qed.
End ParseFacts.

(** ** The order book's sides *)

Section SideFacts.
Import Book.

(** The comparator of a [std::map] is a strict total order on the keys. *)
Variable before : FixedPrice -> FixedPrice -> bool.
Hypothesis before_irrefl : forall k, before k k = false.
Hypothesis before_trans :
  forall a b c, before a b = true -> before b c = true -> before a c = true.
Hypothesis before_total :
  forall a b, before a b = false -> before b a = false -> a = b.

Definition key_before (x y : PriceLevel) : Prop := before (fst x) (fst y) = true.

(** The entries are in strictly increasing comparator order. *)
Definition ordered (m : list PriceLevel) : Prop := StronglySorted key_before m.

Definition all_positive (m : list PriceLevel) : Prop :=
  Forall (fun lv => positive_qty (snd lv) = true) m.

Lemma assign_Forall (P : PriceLevel -> Prop) (k : FixedPrice) (v : Quantity)
    (m : list PriceLevel) :
  (forall k' v', P (k', v') -> P (k', v)) ->
  P (k, v) -> Forall P m -> Forall P (assign before k v m).
Proof.
  intros Hkey Hk HF. induction HF as [|[k' v'] tl Hx HF IH]; simpl.
  - constructor; [assumption | constructor].
  - destruct (before k k'); [repeat constructor; assumption|].
    destruct (before k' k).
    + constructor; assumption.
    + constructor; [apply (Hkey k' v'); assumption | assumption].
Qed.

Lemma erase_Forall (P : PriceLevel -> Prop) (k : FixedPrice)
    (m : list PriceLevel) :
  Forall P m -> Forall P (erase before k m).
Proof.
  intros HF. induction HF as [|[k' v'] tl Hx HF IH]; simpl.
  - constructor.
  - destruct (before k k'); [constructor; assumption|].
    destruct (before k' k); [constructor; assumption | assumption].
Qed.

Lemma ordered_assign (k : FixedPrice) (v : Quantity) (m : list PriceLevel) :
  ordered m -> ordered (assign before k v m).
Proof.
  unfold ordered. intros H.
  induction H as [|[k' v'] tl Hs IH Hall]; simpl.
  - repeat constructor.
  - destruct (before k k') eqn:E1.
    + constructor; [constructor; assumption|].
      constructor; [exact E1|].
      eapply Forall_impl; [exact Hall|].
      intros [k2 v2] H2. unfold key_before in *. simpl in *.
      eapply before_trans; eassumption.
    + destruct (before k' k) eqn:E2.
      * constructor; [assumption|].
        apply assign_Forall; [intros ? ? X; exact X | exact E2 | exact Hall].
      * pose proof (before_total k k' E1 E2) as ->.
        constructor; assumption.
Qed.

Lemma ordered_erase (k : FixedPrice) (m : list PriceLevel) :
  ordered m -> ordered (erase before k m).
Proof.
  unfold ordered. intros H.
  induction H as [|[k' v'] tl Hs IH Hall]; simpl.
  - constructor.
  - destruct (before k k'); [constructor; assumption|].
    destruct (before k' k); [|assumption].
    constructor; [assumption | apply erase_Forall; assumption].
Qed.

(** A key that has just been assigned is found, with the assigned value. *)
Lemma find_assign (k : FixedPrice) (v : Quantity) (m : list PriceLevel) :
  find before k (assign before k v m) = Some v.
Proof.
  induction m as [|[k' v'] tl IH]; simpl.
  - rewrite before_irrefl. reflexivity.
  - destruct (before k k') eqn:E1; simpl.
    + rewrite before_irrefl. reflexivity.
    + destruct (before k' k) eqn:E2; simpl; rewrite E1, E2; [exact IH | reflexivity].
Qed.

Lemma find_not_before (k : FixedPrice) (m : list PriceLevel) :
  Forall (fun lv => before k (fst lv) = true) m -> find before k m = None.
Proof.
  intros H. destruct H as [|[k' v'] tl Hx _]; simpl; [reflexivity|].
  simpl in Hx. rewrite Hx. reflexivity.
Qed.

(** A key that has just been erased is no longer found. *)
Lemma find_erase (k : FixedPrice) (m : list PriceLevel) :
  ordered m -> find before k (erase before k m) = None.
Proof.
  unfold ordered. intros H.
  induction H as [|[k' v'] tl Hs IH Hall]; simpl; [reflexivity|].
  destruct (before k k') eqn:E1; simpl.
  - rewrite E1. reflexivity.
  - destruct (before k' k) eqn:E2; simpl.
    + rewrite E1, E2. exact IH.
    + pose proof (before_total k k' E1 E2) as ->.
      apply find_not_before. exact Hall.
Qed.
End SideFacts.

Section BookFacts.
Import Book.

Lemma bid_before_irrefl (k : FixedPrice) : bid_before k k = false.
Proof. unfold bid_before, FixedPoint.gtb. rewrite Z.gtb_ltb. apply Z.ltb_irrefl. Qed.

Lemma bid_before_trans (a b c : FixedPrice) :
  bid_before a b = true -> bid_before b c = true -> bid_before a c = true.
Proof.
  unfold bid_before, FixedPoint.gtb. rewrite !Z.gtb_ltb, !Z.ltb_lt. lia.
Qed.

Lemma bid_before_total (a b : FixedPrice) :
  bid_before a b = false -> bid_before b a = false -> a = b.
Proof.
  unfold bid_before, FixedPoint.gtb. rewrite !Z.gtb_ltb, !Z.ltb_ge. lia.
Qed.

Lemma ask_before_irrefl (k : FixedPrice) : ask_before k k = false.
Proof. apply Z.ltb_irrefl. Qed.

Lemma ask_before_trans (a b c : FixedPrice) :
  ask_before a b = true -> ask_before b c = true -> ask_before a c = true.
Proof. unfold ask_before, FixedPoint.ltb. rewrite !Z.ltb_lt. lia. Qed.

Lemma ask_before_total (a b : FixedPrice) :
  ask_before a b = false -> ask_before b a = false -> a = b.
Proof. unfold ask_before, FixedPoint.ltb. rewrite !Z.ltb_ge. lia. Qed.

(** Bids are iterated from the highest price down, asks from the lowest
    price up, without repeated prices; every stored quantity is positive. *)
Definition book_sorted (b : OrderBook) : Prop :=
  ordered bid_before (bids_ b) /\ ordered ask_before (asks_ b).
Definition book_positive (b : OrderBook) : Prop :=
  all_positive (bids_ b) /\ all_positive (asks_ b).

Lemma ordered_bids_descending (m : list PriceLevel) :
  ordered bid_before m -> StronglySorted (fun x y => fst x > fst y) m.
Proof.
  unfold ordered. intros H. induction H as [|x tl Hs IH Hall]; constructor.
  - assumption.
  - eapply Forall_impl; [exact Hall|]. intros y Hy.
    unfold key_before, bid_before, FixedPoint.gtb in Hy.
    rewrite Z.gtb_ltb in Hy. apply Z.ltb_lt in Hy. lia.
Qed.

Lemma ordered_asks_ascending (m : list PriceLevel) :
  ordered ask_before m -> StronglySorted (fun x y => fst x < fst y) m.
Proof.
  unfold ordered. intros H. induction H as [|x tl Hs IH Hall]; constructor.
  - assumption.
  - eapply Forall_impl; [exact Hall|]. intros y Hy.
    unfold key_before, ask_before, FixedPoint.ltb in Hy.
    apply Z.ltb_lt in Hy. exact Hy.
Qed.

(** What one [(price, qty)] entry of a depth update does to a side. *)
Definition side_update (before : FixedPrice -> FixedPrice -> bool)
    (m : list PriceLevel) (lv : PriceLevel) : list PriceLevel :=
  if positive_qty (snd lv) then assign before (fst lv) (snd lv) m
  else match find before (fst lv) m with
       | Some _ => erase before (fst lv) m
       | None => m
       end.

Lemma apply_bid_update_sides (b : OrderBook) (p : FixedPrice) (q : Quantity) :
  bids_ (apply_bid_update b p q) = side_update bid_before (bids_ b) (p, q) /\
  asks_ (apply_bid_update b p q) = asks_ b /\
  imbalance_levels_ (apply_bid_update b p q) = imbalance_levels_ b.
Proof.
  unfold apply_bid_update, side_update. simpl.
  destruct (positive_qty q); [repeat split; reflexivity|].
  destruct (find bid_before p (bids_ b)); repeat split; reflexivity.
Qed.

Lemma apply_ask_update_sides (b : OrderBook) (p : FixedPrice) (q : Quantity) :
  asks_ (apply_ask_update b p q) = side_update ask_before (asks_ b) (p, q) /\
  bids_ (apply_ask_update b p q) = bids_ b /\
  imbalance_levels_ (apply_ask_update b p q) = imbalance_levels_ b.
Proof.
  unfold apply_ask_update, side_update. simpl.
  destruct (positive_qty q); [repeat split; reflexivity|].
  destruct (find ask_before p (asks_ b)); repeat split; reflexivity.
Qed.

Lemma fold_bid_updates_sides (l : list PriceLevel) :
  forall b,
    let b' := fold_left (fun bk lv => apply_bid_update bk (fst lv) (snd lv)) l b in
    bids_ b' = fold_left (side_update bid_before) l (bids_ b) /\
    asks_ b' = asks_ b /\
    imbalance_levels_ b' = imbalance_levels_ b.
Proof.
  induction l as [|[p q] l IH]; intros b; [repeat split; reflexivity|].
  cbn [fold_left fst snd].
  destruct (apply_bid_update_sides b p q) as (E1 & E2 & E3).
  destruct (IH (apply_bid_update b p q)) as (F1 & F2 & F3).
  cbv zeta in *. rewrite F1, F2, F3, E1, E2, E3. repeat split; reflexivity.
Qed.

Lemma fold_ask_updates_sides (l : list PriceLevel) :
  forall b,
    let b' := fold_left (fun bk lv => apply_ask_update bk (fst lv) (snd lv)) l b in
    asks_ b' = fold_left (side_update ask_before) l (asks_ b) /\
    bids_ b' = bids_ b /\
    imbalance_levels_ b' = imbalance_levels_ b.
Proof.
  induction l as [|[p q] l IH]; intros b; [repeat split; reflexivity|].
  cbn [fold_left fst snd].
  destruct (apply_ask_update_sides b p q) as (E1 & E2 & E3).
  destruct (IH (apply_ask_update b p q)) as (F1 & F2 & F3).
  cbv zeta in *. rewrite F1, F2, F3, E1, E2, E3. repeat split; reflexivity.
Qed.

(** The sides after [apply_update] and after [apply_snapshot]. *)
Lemma apply_update_sides (b : OrderBook) (u : DepthUpdate) :
  bids_ (snd (apply_update b u))
    = fold_left (side_update bid_before) (du_bids u) (bids_ b) /\
  asks_ (snd (apply_update b u))
    = fold_left (side_update ask_before) (du_asks u) (asks_ b) /\
  imbalance_levels_ (snd (apply_update b u)) = imbalance_levels_ b.
Proof.
  unfold apply_update.
  match goal with |- context [build_snapshot ?x] =>
    destruct (build_snapshot_sides x) as (E1 & E2 & _ & E4) end.
  rewrite E1, E2, E4. cbn [set_last_update_id bids_ asks_ imbalance_levels_].
  destruct (fold_bid_updates_sides (du_bids u) b) as (F1 & F2 & F3).
  destruct (fold_ask_updates_sides (du_asks u)
              (fold_left (fun bk lv => apply_bid_update bk (fst lv) (snd lv))
                         (du_bids u) b)) as (G1 & G2 & G3).
  cbv zeta in *. rewrite G1, G2, G3, F1, F2, F3. repeat split.
Qed.

Lemma apply_snapshot_sides (b : OrderBook) (s : DepthSnapshot) :
  bids_ (snd (apply_snapshot b s))
    = fold_left (insert_positive bid_before) (ds_bids s) [] /\
  asks_ (snd (apply_snapshot b s))
    = fold_left (insert_positive ask_before) (ds_asks s) [] /\
  imbalance_levels_ (snd (apply_snapshot b s)) = imbalance_levels_ b.
Proof.
  unfold apply_snapshot.
  match goal with |- context [build_snapshot ?x] =>
    destruct (build_snapshot_sides x) as (E1 & E2 & _ & E4) end.
  rewrite E1, E2, E4. repeat split.
Qed.

Lemma side_update_ordered (before : FixedPrice -> FixedPrice -> bool)
    (m : list PriceLevel) (lv : PriceLevel) :
  (forall k, before k k = false) ->
  (forall a b c, before a b = true -> before b c = true -> before a c = true) ->
  (forall a b, before a b = false -> before b a = false -> a = b) ->
  ordered before m -> ordered before (side_update before m lv).
Proof.
  intros H1 H2 H3 Ho. unfold side_update.
  destruct (positive_qty (snd lv)); [apply ordered_assign; assumption|].
  destruct (find before (fst lv) m); [apply ordered_erase|]; assumption.
Qed.

Lemma side_update_positive (before : FixedPrice -> FixedPrice -> bool)
    (m : list PriceLevel) (lv : PriceLevel) :
  all_positive m -> all_positive (side_update before m lv).
Proof.
  intros Hp. unfold side_update.
  destruct (positive_qty (snd lv)) eqn:Hq.
  - apply assign_Forall; [intros ? ? _; exact Hq | exact Hq | exact Hp].
  - destruct (find before (fst lv) m); [apply erase_Forall|]; assumption.
Qed.

Lemma insert_positive_ordered (before : FixedPrice -> FixedPrice -> bool)
    (m : list PriceLevel) (lv : PriceLevel) :
  (forall k, before k k = false) ->
  (forall a b c, before a b = true -> before b c = true -> before a c = true) ->
  (forall a b, before a b = false -> before b a = false -> a = b) ->
  ordered before m -> ordered before (insert_positive before m lv).
Proof.
  intros H1 H2 H3 Ho. unfold insert_positive.
  destruct (positive_qty (snd lv)); [apply ordered_assign|]; assumption.
Qed.

Lemma insert_positive_positive (before : FixedPrice -> FixedPrice -> bool)
    (m : list PriceLevel) (lv : PriceLevel) :
  all_positive m -> all_positive (insert_positive before m lv).
Proof.
  intros Hp. unfold insert_positive.
  destruct (positive_qty (snd lv)) eqn:Hq; [|assumption].
  apply assign_Forall; [intros ? ? _; exact Hq | exact Hq | exact Hp].
Qed.

Lemma fold_left_preserves {A B : Type} (P : A -> Prop) (f : A -> B -> A)
    (l : list B) :
  (forall a x, P a -> P (f a x)) -> forall a, P a -> P (fold_left f l a).
Proof.
  intros Hf. induction l as [|x l IH]; intros a Ha; simpl; [assumption|].
  apply IH, Hf, Ha.
Qed.

Lemma apply_update_sorted (b : OrderBook) (u : DepthUpdate) :
  book_sorted b -> book_sorted (snd (apply_update b u)).
Proof.
  intros [Sb Sa]. destruct (apply_update_sides b u) as (E1 & E2 & _).
  unfold book_sorted. rewrite E1, E2. split.
  - apply fold_left_preserves; [|exact Sb]. intros m lv.
    apply side_update_ordered;
      [apply bid_before_irrefl | apply bid_before_trans | apply bid_before_total].
  - apply fold_left_preserves; [|exact Sa]. intros m lv.
    apply side_update_ordered;
      [apply ask_before_irrefl | apply ask_before_trans | apply ask_before_total].
Qed.

Lemma apply_update_positive (b : OrderBook) (u : DepthUpdate) :
  book_positive b -> book_positive (snd (apply_update b u)).
Proof.
  intros [Pb Pa]. destruct (apply_update_sides b u) as (E1 & E2 & _).
  unfold book_positive. rewrite E1, E2. split.
  - apply fold_left_preserves; [|exact Pb]. intros m lv. apply side_update_positive.
  - apply fold_left_preserves; [|exact Pa]. intros m lv. apply side_update_positive.
Qed.

Lemma apply_snapshot_sorted (b : OrderBook) (s : DepthSnapshot) :
  book_sorted (snd (apply_snapshot b s)).
Proof.
  destruct (apply_snapshot_sides b s) as (E1 & E2 & _).
  unfold book_sorted. rewrite E1, E2. split.
  - apply fold_left_preserves; [|constructor]. intros m lv.
    apply insert_positive_ordered;
      [apply bid_before_irrefl | apply bid_before_trans | apply bid_before_total].
  - apply fold_left_preserves; [|constructor]. intros m lv.
    apply insert_positive_ordered;
      [apply ask_before_irrefl | apply ask_before_trans | apply ask_before_total].
Qed.

Lemma apply_snapshot_positive (b : OrderBook) (s : DepthSnapshot) :
  book_positive (snd (apply_snapshot b s)).
Proof.
  destruct (apply_snapshot_sides b s) as (E1 & E2 & _).
  unfold book_positive. rewrite E1, E2. split.
  - apply fold_left_preserves; [|constructor]. intros m lv.
    apply insert_positive_positive.
  - apply fold_left_preserves; [|constructor]. intros m lv.
    apply insert_positive_positive.
Qed.
End BookFacts.

(** ** The exactly rounded product and quotient *)

(** The "round(a.raw * b.raw / 10^D)" and "round(a.raw * 10^D / b.raw)" of
    the specification, against which the binary64 evaluation of [operator*]
    and [operator/] is compared. *)
Definition exact_mul (D a b : Z) : Z := round_div (a * b) (10 ^ D).
Definition exact_div (D a b : Z) : Z := round_div (a * 10 ^ D) b.

(** ** Binary64 arithmetic: rounding is monotone *)

Section Binary64.

(** The value of a mantissa and exponent, as a multiple of the smallest
    subnormal [2^-1074]. *)
Definition fval (m e : Z) : Z := m * 2 ^ (e + 1074).

Lemma fexp_eq (e : Z) : fexp prec emax e = Z.max (e - 53) (-1074).
Proof. reflexivity. Qed.

Lemma fexp_mono (a b : Z) : a <= b -> fexp prec emax a <= fexp prec emax b.
Proof. rewrite !fexp_eq. lia. Qed.

Lemma pow2_pos (k : Z) : 0 <= k -> 0 < 2 ^ k.
Proof. intros. apply Z.pow_pos_nonneg; lia. Qed.

Lemma pow2_add (a b : Z) : 0 <= a -> 0 <= b -> 2 ^ (a + b) = 2 ^ a * 2 ^ b.
Proof. intros. apply Z.pow_add_r; assumption. Qed.

Lemma pow2_le (a b : Z) : 0 <= a <= b -> 2 ^ a <= 2 ^ b.
Proof. intros. apply Z.pow_le_mono_r; lia. Qed.

Lemma pow2_lt (a b : Z) : 0 <= a < b -> 2 ^ a < 2 ^ b.
Proof. intros. apply Z.pow_lt_mono_r; lia. Qed.

Lemma pow2_lt_inv (a b : Z) : 0 <= a -> 0 <= b -> 2 ^ a < 2 ^ b -> a < b.
Proof.
  intros Ha Hb H. destruct (Z_lt_le_dec a b) as [|Hge]; [assumption|].
  pose proof (pow2_le b a ltac:(lia)). lia.
Qed.

Lemma digits2_bounds (m : positive) :
  2 ^ (Z.pos (digits2_pos m) - 1) <= Z.pos m < 2 ^ Z.pos (digits2_pos m).
Proof.
  induction m as [p IH|p IH|]; cbn [digits2_pos].
  - rewrite Pos2Z.inj_succ.
    replace (Z.succ (Z.pos (digits2_pos p)) - 1) with (Z.succ (Z.pos (digits2_pos p) - 1)) by lia.
    rewrite !Z.pow_succ_r by lia. lia.
  - rewrite Pos2Z.inj_succ.
    replace (Z.succ (Z.pos (digits2_pos p)) - 1) with (Z.succ (Z.pos (digits2_pos p) - 1)) by lia.
    rewrite !Z.pow_succ_r by lia. lia.
  - cbn. lia.
Qed.

Lemma Zdigits2_bounds (m : Z) :
  0 < m -> 2 ^ (Zdigits2 m - 1) <= m < 2 ^ Zdigits2 m.
Proof.
  destruct m as [|p|p]; try lia. intros _. apply digits2_bounds.
Qed.

Lemma Zdigits2_pos (m : Z) : 0 < m -> 1 <= Zdigits2 m.
Proof. destruct m; cbn; lia. Qed.

Lemma Zdigits2_le (m k : Z) : 0 < m -> 0 <= k -> m < 2 ^ k -> Zdigits2 m <= k.
Proof.
  intros Hm Hk H. pose proof (Zdigits2_bounds m Hm) as [H1 _].
  pose proof (Zdigits2_pos m Hm).
  destruct (Z_le_gt_dec (Zdigits2 m) k) as [|Hgt]; [assumption|].
  pose proof (pow2_le k (Zdigits2 m - 1) ltac:(lia)). lia.
Qed.

Lemma Zdigits2_ge (m k : Z) : 0 <= k -> 2 ^ k <= m -> k + 1 <= Zdigits2 m.
Proof.
  intros Hk H. pose proof (pow2_pos k Hk).
  pose proof (Zdigits2_bounds m ltac:(lia)) as [_ H2].
  pose proof (Zdigits2_pos m ltac:(lia)).
  assert (H3 : 2 ^ k < 2 ^ Zdigits2 m) by lia.
  apply pow2_lt_inv in H3; lia.
Qed.

(** Truncated division by a power of two keeps the number of digits in
    step. *)
Lemma Zdigits2_div (m n : Z) :
  0 < m -> 0 <= n -> 0 < m / 2 ^ n -> Zdigits2 (m / 2 ^ n) = Zdigits2 m - n.
Proof.
  intros Hm Hn Hq.
  pose proof (pow2_pos n Hn) as Hp.
  pose proof (Zdigits2_bounds m Hm) as [L U].
  pose proof (Zdigits2_pos m Hm) as Hd.
  pose proof (Z.div_mod m (2 ^ n) ltac:(lia)) as E.
  pose proof (Z.mod_pos_bound m (2 ^ n) Hp) as R.
  assert (Hdn : n < Zdigits2 m).
  { destruct (Z_lt_le_dec n (Zdigits2 m)) as [|Hge]; [assumption|].
    pose proof (pow2_le (Zdigits2 m) n ltac:(lia)).
    assert (m / 2 ^ n = 0) by (apply Z.div_small; lia). lia. }
  apply Z.le_antisymm.
  - apply Zdigits2_le; [assumption | lia |].
    apply Z.div_lt_upper_bound; [assumption|].
    rewrite <- pow2_add by lia. replace (n + (Zdigits2 m - n)) with (Zdigits2 m) by lia.
    exact U.
  - assert (2 ^ (Zdigits2 m - 1 - n) <= m / 2 ^ n).
    { apply Z.div_le_lower_bound; [assumption|].
      rewrite <- pow2_add by lia.
      replace (n + (Zdigits2 m - 1 - n)) with (Zdigits2 m - 1) by lia. exact L. }
    pose proof (Zdigits2_ge (m / 2 ^ n) (Zdigits2 m - 1 - n) ltac:(lia) H). lia.
Qed.


(** *** The right shift of [binary_round_aux] *)

Lemma shr_1_m (mrs : shr_record) :
  0 <= shr_m mrs -> shr_m (shr_1 mrs) = shr_m mrs / 2.
Proof.
  destruct mrs as [m r s]. cbn [shr_m]. intros Hm.
  destruct m as [|[p|p|]|p]; cbn [shr_1 shr_m]; try lia; try reflexivity.
  - apply Z.div_unique with (r := 1); lia.
  - apply Z.div_unique with (r := 0); lia.
Qed.

Lemma shr_1_exact (mrs : shr_record) :
  0 <= shr_m mrs -> shr_r mrs = false -> shr_s mrs = false ->
  shr_m mrs mod 2 = 0 ->
  shr_r (shr_1 mrs) = false /\ shr_s (shr_1 mrs) = false.
Proof.
  destruct mrs as [m r s]. cbn [shr_m shr_r shr_s]. intros Hm -> -> Hmod.
  destruct m as [|[p|p|]|p]; cbn [shr_1 shr_r shr_s orb]; try lia; try (split; reflexivity).
  - pose proof (Z.div_mod (Z.pos p~1) 2 ltac:(lia)). lia.
  - cbn in Hmod. discriminate.
Qed.

Lemma iter_pos_shr (p : positive) (mrs : shr_record) :
  0 <= shr_m mrs ->
  shr_m (SpecFloat.iter_pos shr_1 p mrs) = shr_m mrs / 2 ^ Z.pos p /\
  (shr_r mrs = false -> shr_s mrs = false ->
   shr_m mrs mod 2 ^ Z.pos p = 0 ->
   shr_r (SpecFloat.iter_pos shr_1 p mrs) = false /\
   shr_s (SpecFloat.iter_pos shr_1 p mrs) = false).
Proof.
  revert mrs. induction p as [p IH|p IH|]; intros mrs Hm; cbn [SpecFloat.iter_pos].
  - assert (H1 : 0 <= shr_m (shr_1 mrs)).
    { rewrite shr_1_m by assumption. apply Z.div_pos; lia. }
    destruct (IH (shr_1 mrs) H1) as [A1 A2].
    assert (H2 : 0 <= shr_m (SpecFloat.iter_pos shr_1 p (shr_1 mrs))).
    { rewrite A1. apply Z.div_pos; [assumption | apply pow2_pos; lia]. }
    destruct (IH _ H2) as [B1 B2].
    pose proof (pow2_pos (Z.pos p) ltac:(lia)) as Hp.
    assert (E : 2 ^ Z.pos p~1 = 2 * (2 ^ Z.pos p * 2 ^ Z.pos p)).
    { assert (Z.pos p~1 = 1 + (Z.pos p + Z.pos p)) as -> by lia.
      rewrite !pow2_add by lia. reflexivity. }
    split.
    + rewrite B1, A1, shr_1_m by assumption.
      rewrite !Z.div_div by lia. rewrite E. reflexivity.
    + intros Hr Hs Hmod. rewrite E in Hmod.
      apply Z.mod_divide in Hmod; [|lia]. destruct Hmod as [k Hk].
      assert (M1 : shr_m mrs mod 2 = 0).
      { rewrite Hk. replace (k * (2 * (2 ^ Z.pos p * 2 ^ Z.pos p)))
          with ((k * (2 ^ Z.pos p * 2 ^ Z.pos p)) * 2) by ring.
        apply Z.mod_mul. lia. }
      destruct (shr_1_exact mrs Hm Hr Hs M1) as [R1 S1].
      assert (M2 : shr_m (shr_1 mrs) = k * 2 ^ Z.pos p * 2 ^ Z.pos p).
      { rewrite shr_1_m by assumption. rewrite Hk.
        replace (k * (2 * (2 ^ Z.pos p * 2 ^ Z.pos p)))
          with ((k * 2 ^ Z.pos p * 2 ^ Z.pos p) * 2) by ring.
        apply Z.div_mul. lia. }
      destruct (A2 R1 S1) as [R2 S2].
      { rewrite M2. apply Z.mod_mul. lia. }
      apply B2; [assumption | assumption |].
      rewrite A1, M2. rewrite Z.div_mul by lia. apply Z.mod_mul. lia.
  - destruct (IH mrs Hm) as [A1 A2].
    assert (H2 : 0 <= shr_m (SpecFloat.iter_pos shr_1 p mrs)).
    { rewrite A1. apply Z.div_pos; [assumption | apply pow2_pos; lia]. }
    destruct (IH _ H2) as [B1 B2].
    pose proof (pow2_pos (Z.pos p) ltac:(lia)) as Hp.
    assert (E : 2 ^ Z.pos p~0 = 2 ^ Z.pos p * 2 ^ Z.pos p).
    { assert (Z.pos p~0 = Z.pos p + Z.pos p) as -> by lia.
      apply pow2_add; lia. }
    split.
    + rewrite B1, A1. rewrite !Z.div_div by lia. rewrite E. reflexivity.
    + intros Hr Hs Hmod. rewrite E in Hmod.
      apply Z.mod_divide in Hmod; [|lia]. destruct Hmod as [k Hk].
      destruct (A2 Hr Hs) as [R2 S2].
      { rewrite Hk, Z.mul_assoc. apply Z.mod_mul. lia. }
      apply B2; [assumption | assumption |].
      rewrite A1, Hk, Z.mul_assoc. rewrite Z.div_mul by lia. apply Z.mod_mul. lia.
  - split.
    + rewrite shr_1_m by assumption. reflexivity.
    + intros Hr Hs Hmod. apply shr_1_exact; assumption.
Qed.

(** The number of positions [shr_fexp] shifts by. *)
Definition sh (m e : Z) : Z := Z.max (fexp prec emax (Zdigits2 m + e) - e) 0.

Lemma shr_record_of_loc_m (m : Z) (l : location) :
  shr_m (shr_record_of_loc m l) = m.
Proof. destruct l as [|[| |]]; reflexivity. Qed.

Lemma loc_exact_iff (mrs : shr_record) :
  shr_r mrs = false -> shr_s mrs = false -> loc_of_shr_record mrs = loc_Exact.
Proof. destruct mrs as [m r s]. cbn. intros -> ->. reflexivity. Qed.

Lemma shr_fexp_spec (m e : Z) (l : location) :
  0 <= m ->
  shr_m (fst (shr_fexp prec emax m e l)) = m / 2 ^ sh m e /\
  snd (shr_fexp prec emax m e l) = e + sh m e /\
  (l = loc_Exact -> m mod 2 ^ sh m e = 0 ->
   loc_of_shr_record (fst (shr_fexp prec emax m e l)) = loc_Exact).
Proof.
  intros Hm. unfold shr_fexp, sh, shr.
  destruct (fexp prec emax (Zdigits2 m + e) - e) as [|p|p] eqn:En.
  - cbn [fst snd Z.max]. rewrite shr_record_of_loc_m.
    change (2 ^ Z.max 0 0) with 1. rewrite Z.div_1_r.
    split; [reflexivity|]. split; [cbn; lia|]. intros -> _. reflexivity.
  - cbn [fst snd]. rewrite Z.max_l by lia.
    destruct (iter_pos_shr p (shr_record_of_loc m l)) as [A B].
    { rewrite shr_record_of_loc_m. assumption. }
    rewrite shr_record_of_loc_m in A, B.
    split; [exact A|]. split; [reflexivity|].
    intros -> Hmod. destruct (B eq_refl eq_refl Hmod). apply loc_exact_iff; assumption.
  - cbn [fst snd]. rewrite Z.max_r by lia. rewrite shr_record_of_loc_m.
    change (2 ^ 0) with 1. rewrite Z.div_1_r.
    split; [reflexivity|]. split; [lia|]. intros -> _. reflexivity.
Qed.

Lemma round_nearest_even_bounds (m : Z) (l : location) :
  m <= round_nearest_even m l <= m + 1 /\
  (l = loc_Exact -> round_nearest_even m l = m).
Proof.
  destruct l as [|[| |]]; cbn [round_nearest_even]; try (split; [lia | intros; first [reflexivity | discriminate]]).
  destruct (Z.even m); split; try lia; intros; discriminate.
Qed.

(** [binary_round_aux] written out: a truncating shift, a step of at most
    one unit, a second truncating shift. *)
Definition round_result (sx : bool) (m2 e1 : Z) : spec_float :=
  match m2 / 2 ^ sh m2 e1 with
  | Z0 => S754_zero sx
  | Zpos m => if e1 + sh m2 e1 <=? 971 then S754_finite sx m (e1 + sh m2 e1)
              else S754_infinity sx
  | Zneg _ => S754_nan
  end.

Lemma binary_round_aux_spec (sx : bool) (mx ex : Z) (lx : location) :
  0 <= mx ->
  exists m2,
    mx / 2 ^ sh mx ex <= m2 <= mx / 2 ^ sh mx ex + 1 /\
    (lx = loc_Exact -> mx mod 2 ^ sh mx ex = 0 -> m2 = mx / 2 ^ sh mx ex) /\
    binary_round_aux prec emax sx mx ex lx = round_result sx m2 (ex + sh mx ex).
Proof.
  intros Hm. unfold binary_round_aux.
  destruct (shr_fexp_spec mx ex lx Hm) as (A1 & A2 & A3).
  destruct (shr_fexp prec emax mx ex lx) as [mrs' e'] eqn:E1.
  cbn [fst snd] in A1, A2, A3.
  set (m2 := round_nearest_even (shr_m mrs') (loc_of_shr_record mrs')).
  destruct (round_nearest_even_bounds (shr_m mrs') (loc_of_shr_record mrs')) as [B1 B2].
  fold m2 in B1, B2.
  assert (H1 : 0 <= shr_m mrs').
  { rewrite A1. apply Z.div_pos; [assumption|]. apply pow2_pos. unfold sh. lia. }
  assert (H2 : 0 <= m2) by lia.
  destruct (shr_fexp_spec m2 e' loc_Exact H2) as (C1 & C2 & _).
  destruct (shr_fexp prec emax m2 e' loc_Exact) as [mrs'' e''] eqn:E2.
  cbn [fst snd] in C1, C2.
  exists m2. rewrite <- A1. split; [exact B1|]. split.
  - intros Hl Hmod. apply B2. apply A3; assumption.
  - unfold round_result. rewrite <- A2. rewrite <- C1, <- C2. reflexivity.
Qed.

(** *** Canonical mantissa-exponent pairs and their order *)

Definition canon (m e : Z) : Prop := fexp prec emax (Zdigits2 m + e) = e.

Lemma canon_emin (m e : Z) : canon m e -> -1074 <= e.
Proof. unfold canon. rewrite fexp_eq. lia. Qed.

Lemma fval_pos (m e : Z) : 0 < m -> -1074 <= e -> 0 < fval m e.
Proof.
  intros Hm He. unfold fval. pose proof (pow2_pos (e + 1074) ltac:(lia)). nia.
Qed.

Lemma fval_lower (m e : Z) :
  0 < m -> -1074 <= e -> 2 ^ (Zdigits2 m - 1 + e + 1074) <= fval m e.
Proof.
  intros Hm He. unfold fval.
  pose proof (Zdigits2_bounds m Hm) as [L _].
  pose proof (Zdigits2_pos m Hm).
  replace (Zdigits2 m - 1 + e + 1074) with ((Zdigits2 m - 1) + (e + 1074)) by lia.
  rewrite (pow2_add (Zdigits2 m - 1) (e + 1074)) by lia.
  pose proof (pow2_pos (e + 1074) ltac:(lia)). nia.
Qed.

Lemma fval_upper (m e : Z) :
  0 < m -> -1074 <= e -> fval m e < 2 ^ (Zdigits2 m + e + 1074).
Proof.
  intros Hm He. unfold fval.
  pose proof (Zdigits2_bounds m Hm) as [_ U].
  pose proof (Zdigits2_pos m Hm).
  replace (Zdigits2 m + e + 1074) with (Zdigits2 m + (e + 1074)) by lia.
  rewrite (pow2_add (Zdigits2 m) (e + 1074)) by lia.
  pose proof (pow2_pos (e + 1074) ltac:(lia)). nia.
Qed.

(** A smaller magnitude ([digits + exponent]) is a smaller value. *)
Lemma fval_lt_of_magnitude (m1 e1 m2 e2 : Z) :
  0 < m1 -> 0 < m2 -> -1074 <= e1 -> -1074 <= e2 ->
  Zdigits2 m1 + e1 < Zdigits2 m2 + e2 ->
  fval m1 e1 < fval m2 e2.
Proof.
  intros H1 H2 He1 He2 Hd.
  pose proof (fval_upper m1 e1 H1 He1) as U.
  pose proof (fval_lower m2 e2 H2 He2) as L.
  pose proof (Zdigits2_pos m1 H1). pose proof (Zdigits2_pos m2 H2).
  pose proof (pow2_le (Zdigits2 m1 + e1 + 1074) (Zdigits2 m2 - 1 + e2 + 1074) ltac:(lia)).
  lia.
Qed.

Lemma magnitude_le_of_fval (m1 e1 m2 e2 : Z) :
  0 < m1 -> 0 < m2 -> -1074 <= e1 -> -1074 <= e2 ->
  fval m1 e1 <= fval m2 e2 ->
  Zdigits2 m1 + e1 <= Zdigits2 m2 + e2.
Proof.
  intros H1 H2 He1 He2 Hv.
  destruct (Z_le_gt_dec (Zdigits2 m1 + e1) (Zdigits2 m2 + e2)) as [|Hgt]; [assumption|].
  pose proof (fval_lt_of_magnitude m2 e2 m1 e1 H2 H1 He2 He1 ltac:(lia)). lia.
Qed.

Lemma canon_exp_le (m1 e1 m2 e2 : Z) :
  0 < m1 -> 0 < m2 -> canon m1 e1 -> canon m2 e2 ->
  fval m1 e1 <= fval m2 e2 -> e1 <= e2.
Proof.
  intros H1 H2 C1 C2 Hv.
  pose proof (canon_emin _ _ C1). pose proof (canon_emin _ _ C2).
  pose proof (magnitude_le_of_fval m1 e1 m2 e2 H1 H2 ltac:(lia) ltac:(lia) Hv) as Hd.
  apply fexp_mono in Hd. unfold canon in C1, C2. lia.
Qed.

Lemma fval_le_same_exp (m1 m2 e : Z) :
  -1074 <= e -> (fval m1 e <= fval m2 e <-> m1 <= m2).
Proof.
  intros He. unfold fval. pose proof (pow2_pos (e + 1074) ltac:(lia)). nia.
Qed.

(** The order [SFcompare] decides on positive finite numbers. *)
Definition fle (m1 e1 m2 e2 : Z) : Prop := e1 < e2 \/ (e1 = e2 /\ m1 <= m2).

Lemma fle_of_fval (m1 e1 m2 e2 : Z) :
  0 < m1 -> 0 < m2 -> canon m1 e1 -> canon m2 e2 ->
  fval m1 e1 <= fval m2 e2 -> fle m1 e1 m2 e2.
Proof.
  intros H1 H2 C1 C2 Hv.
  pose proof (canon_exp_le m1 e1 m2 e2 H1 H2 C1 C2 Hv) as He.
  unfold fle. destruct (Z.eq_dec e1 e2) as [->|]; [|lia].
  right. split; [reflexivity|].
  apply (fval_le_same_exp m1 m2 e2); [apply (canon_emin m2); assumption | assumption].
Qed.

Lemma fval_of_fle (m1 e1 m2 e2 : Z) :
  0 < m1 -> 0 < m2 -> canon m1 e1 -> canon m2 e2 ->
  fle m1 e1 m2 e2 -> fval m1 e1 <= fval m2 e2.
Proof.
  intros H1 H2 C1 C2 [Hlt|[-> Hm]].
  - destruct (Z_le_gt_dec (fval m1 e1) (fval m2 e2)) as [|Hgt]; [assumption|].
    pose proof (canon_exp_le m2 e2 m1 e1 H2 H1 C2 C1 ltac:(lia)). lia.
  - apply fval_le_same_exp; [apply (canon_emin m2); assumption | assumption].
Qed.

(** Shifting the mantissa left and the exponent down keeps the value. *)
Lemma fval_shift (m e k : Z) :
  0 <= k -> -1074 <= e -> fval (m * 2 ^ k) e = fval m (e + k).
Proof.
  intros Hk He. unfold fval.
  replace (e + k + 1074) with (k + (e + 1074)) by lia.
  rewrite (pow2_add k (e + 1074)) by lia. ring.
Qed.

Lemma Zdigits2_shift (m k : Z) :
  0 < m -> 0 <= k -> Zdigits2 (m * 2 ^ k) = Zdigits2 m + k.
Proof.
  intros Hm Hk. pose proof (pow2_pos k Hk) as Hp.
  pose proof (Zdigits2_bounds m Hm) as [L U].
  pose proof (Zdigits2_pos m Hm) as Hd.
  apply Z.le_antisymm.
  - apply Zdigits2_le; [nia | lia |]. rewrite pow2_add by lia. nia.
  - assert (2 ^ (Zdigits2 m - 1 + k) <= m * 2 ^ k).
    { rewrite pow2_add by lia. nia. }
    pose proof (Zdigits2_ge (m * 2 ^ k) (Zdigits2 m - 1 + k) ltac:(lia) H). lia.
Qed.

Lemma Zdigits2_mono (a b : Z) : 0 < a -> a <= b -> Zdigits2 a <= Zdigits2 b.
Proof.
  intros Ha Hab.
  pose proof (Zdigits2_bounds b ltac:(lia)) as [_ U].
  pose proof (Zdigits2_pos b ltac:(lia)).
  apply Zdigits2_le; lia.
Qed.

(** *** Truncation and rounding against a representable bound *)

(** Aligned input: the exponent is not above the canonical one, so that
    [shr_fexp] brings the pair to its canonical exponent. *)
Definition aligned (m e : Z) : Prop := e <= fexp prec emax (Zdigits2 m + e).

Lemma sh_nonneg (m e : Z) : 0 <= sh m e.
Proof. unfold sh. lia. Qed.

Lemma sh_aligned (m e : Z) :
  aligned m e -> e + sh m e = fexp prec emax (Zdigits2 m + e).
Proof. unfold aligned, sh. lia. Qed.

Lemma fval_split (m e n : Z) :
  0 <= n -> -1074 <= e -> fval m (e + n) = m * 2 ^ n * 2 ^ (e + 1074).
Proof.
  intros Hn He. unfold fval.
  replace (e + n + 1074) with (n + (e + 1074)) by lia.
  rewrite (pow2_add n (e + 1074)) by lia. ring.
Qed.

Lemma trunc_le (m e : Z) :
  0 <= m -> -1074 <= e -> fval (m / 2 ^ sh m e) (e + sh m e) <= fval m e.
Proof.
  intros Hm He. pose proof (sh_nonneg m e) as Hn.
  rewrite fval_split by assumption. unfold fval.
  pose proof (pow2_pos (sh m e) Hn) as Hp.
  pose proof (pow2_pos (e + 1074) ltac:(lia)) as Hq.
  pose proof (Z.mul_div_le m (2 ^ sh m e) Hp). nia.
Qed.

Lemma trunc_canon (m e : Z) :
  0 < m -> aligned m e -> 0 < m / 2 ^ sh m e ->
  canon (m / 2 ^ sh m e) (e + sh m e).
Proof.
  intros Hm Ha Hq. unfold canon.
  rewrite (Zdigits2_div m (sh m e) Hm (sh_nonneg m e) Hq).
  replace (Zdigits2 m - sh m e + (e + sh m e)) with (Zdigits2 m + e) by lia.
  symmetry. apply sh_aligned. assumption.
Qed.

Lemma trunc_ge (m e mF eF : Z) :
  0 < m -> -1074 <= e -> aligned m e ->
  0 < mF -> canon mF eF ->
  fval mF eF <= fval m e ->
  fval mF eF <= fval (m / 2 ^ sh m e) (e + sh m e).
Proof.
  intros Hm He Ha HmF CF Hv.
  pose proof (canon_emin _ _ CF) as HeF.
  pose proof (sh_nonneg m e) as Hn.
  pose proof (sh_aligned m e Ha) as He1.
  pose proof (pow2_pos (sh m e) Hn) as Hp.
  pose proof (pow2_pos (e + 1074) ltac:(lia)) as Hq.
  pose proof (Zdigits2_pos m Hm) as Hd.
  pose proof (magnitude_le_of_fval mF eF m e HmF Hm HeF He Hv) as Hmag.
  assert (HeF1 : eF <= e + sh m e).
  { rewrite He1. unfold canon in CF. rewrite <- CF. apply fexp_mono. assumption. }
  destruct (Z.eq_dec eF (e + sh m e)) as [Heq|Hne].
  - rewrite Heq in Hv |- *. rewrite fval_split in Hv by assumption.
    unfold fval in Hv.
    assert (mF * 2 ^ sh m e <= m) by nia.
    apply fval_le_same_exp; [lia|].
    apply Z.div_le_lower_bound; [assumption | lia].
  - assert (Hlt : Zdigits2 mF + eF < Zdigits2 m + e).
    { destruct (Z_lt_le_dec (Zdigits2 mF + eF) (Zdigits2 m + e)) as [|Hge]; [assumption|].
      apply fexp_mono in Hge. unfold canon in CF. lia. }
    assert (Hn1 : sh m e <= Zdigits2 m - 1).
    { rewrite fexp_eq in He1. lia. }
    pose proof (Zdigits2_bounds m Hm) as [L _].
    assert (Hq1 : 2 ^ (Zdigits2 m - 1 - sh m e) <= m / 2 ^ sh m e).
    { apply Z.div_le_lower_bound; [assumption|].
      rewrite <- pow2_add by lia.
      replace (sh m e + (Zdigits2 m - 1 - sh m e)) with (Zdigits2 m - 1) by lia.
      exact L. }
    pose proof (fval_upper mF eF HmF HeF) as U.
    pose proof (Zdigits2_pos mF HmF).
    pose proof (pow2_le (Zdigits2 mF + eF + 1074) (Zdigits2 m - 1 + e + 1074) ltac:(lia)) as Hpw.
    assert (E : fval (2 ^ (Zdigits2 m - 1 - sh m e)) (e + sh m e)
                = 2 ^ (Zdigits2 m - 1 + e + 1074)).
    { unfold fval. rewrite <- pow2_add by lia. f_equal. lia. }
    assert (fval (2 ^ (Zdigits2 m - 1 - sh m e)) (e + sh m e)
            <= fval (m / 2 ^ sh m e) (e + sh m e)).
    { apply fval_le_same_exp; [lia | assumption]. }
    lia.
Qed.

(** What [binary_round_aux] may return below, and above, a positive
    canonical bound. *)
Definition le_float (x : spec_float) (mF eF : Z) : Prop :=
  match x with
  | S754_zero _ => True
  | S754_finite _ m e =>
      canon (Z.pos m) e /\ e <= 971 /\ fval (Z.pos m) e <= fval mF eF
  | _ => False
  end.

Definition ge_float (x : spec_float) (mF eF : Z) : Prop :=
  match x with
  | S754_infinity _ => True
  | S754_finite _ m e => canon (Z.pos m) e /\ fval mF eF <= fval (Z.pos m) e
  | _ => False
  end.

Definition has_sign (sx : bool) (x : spec_float) : Prop :=
  match x with
  | S754_zero s | S754_infinity s | S754_finite s _ _ => s = sx
  | S754_nan => False
  end.

Lemma round_result_sign (sx : bool) (m2 e1 : Z) :
  0 <= m2 -> has_sign sx (round_result sx m2 e1).
Proof.
  intros Hm. unfold round_result.
  pose proof (pow2_pos (sh m2 e1) (sh_nonneg m2 e1)).
  pose proof (Z.div_pos m2 (2 ^ sh m2 e1) Hm ltac:(lia)) as Hq.
  destruct (m2 / 2 ^ sh m2 e1) as [|p|p]; [reflexivity | | lia].
  destruct (e1 + sh m2 e1 <=? 971); reflexivity.
Qed.

Lemma round_result_le (sx : bool) (m2 e1 mF eF : Z) :
  0 <= m2 -> -1074 <= e1 -> (0 < m2 -> aligned m2 e1) ->
  0 < mF -> canon mF eF -> eF <= 971 ->
  fval m2 e1 <= fval mF eF ->
  le_float (round_result sx m2 e1) mF eF.
Proof.
  intros Hm He Ha HmF CF HeF Hv. unfold round_result.
  pose proof (trunc_le m2 e1 Hm He) as T.
  pose proof (pow2_pos (sh m2 e1) (sh_nonneg m2 e1)) as Hp.
  destruct (m2 / 2 ^ sh m2 e1) as [|p|p] eqn:Eq.
  - exact I.
  - assert (Hm2 : 0 < m2).
    { destruct (Z.eq_dec m2 0) as [->|]; [|lia]. rewrite Z.div_0_l in Eq by lia. discriminate. }
    pose proof (trunc_canon m2 e1 Hm2 (Ha Hm2) ltac:(lia)) as C3.
    rewrite Eq in C3.
    assert (He3 : e1 + sh m2 e1 <= eF).
    { apply (canon_exp_le (Z.pos p) (e1 + sh m2 e1) mF eF); try assumption; lia. }
    replace (e1 + sh m2 e1 <=? 971) with true by (symmetry; apply Z.leb_le; lia).
    cbn. split; [assumption|]. split; lia.
  - pose proof (Z.div_pos m2 (2 ^ sh m2 e1) Hm ltac:(lia)). lia.
Qed.

Lemma round_result_ge (sx : bool) (m2 e1 mF eF : Z) :
  0 < m2 -> -1074 <= e1 -> aligned m2 e1 ->
  0 < mF -> canon mF eF ->
  fval mF eF <= fval m2 e1 ->
  ge_float (round_result sx m2 e1) mF eF.
Proof.
  intros Hm He Ha HmF CF Hv. unfold round_result.
  pose proof (trunc_ge m2 e1 mF eF Hm He Ha HmF CF Hv) as T.
  pose proof (canon_emin _ _ CF) as HeF.
  pose proof (fval_pos mF eF HmF HeF) as HF.
  pose proof (sh_nonneg m2 e1) as Hn.
  pose proof (pow2_pos (sh m2 e1) Hn) as Hp.
  assert (Hq : 0 < m2 / 2 ^ sh m2 e1).
  { destruct (Z_lt_le_dec 0 (m2 / 2 ^ sh m2 e1)) as [|Hle]; [assumption|].
    pose proof (Z.div_pos m2 (2 ^ sh m2 e1) ltac:(lia) ltac:(lia)).
    assert (E0 : m2 / 2 ^ sh m2 e1 = 0) by lia.
    rewrite E0 in T. unfold fval in T. lia. }
  pose proof (trunc_canon m2 e1 Hm Ha Hq) as C3.
  destruct (m2 / 2 ^ sh m2 e1) as [|p|p]; [lia | | lia].
  destruct (e1 + sh m2 e1 <=? 971); cbn; [split; assumption | exact I].
Qed.

(** After the first shift and the rounding step the pair is aligned. *)
Lemma aligned_after_step (mx ex m2 : Z) :
  0 < mx -> -1074 <= ex -> aligned mx ex ->
  mx / 2 ^ sh mx ex <= m2 -> 0 < m2 ->
  aligned m2 (ex + sh mx ex).
Proof.
  intros Hm He Ha H12 Hm2. unfold aligned.
  pose proof (sh_nonneg mx ex) as Hn.
  pose proof (sh_aligned mx ex Ha) as He1.
  pose proof (pow2_pos (sh mx ex) Hn) as Hp.
  destruct (Z_lt_le_dec 0 (mx / 2 ^ sh mx ex)) as [Hq|Hq].
  - pose proof (Zdigits2_div mx (sh mx ex) Hm Hn Hq) as Ed.
    pose proof (Zdigits2_mono _ _ Hq H12) as Hmono.
    rewrite He1 at 1. apply fexp_mono. lia.
  - pose proof (Z.div_pos mx (2 ^ sh mx ex) ltac:(lia) ltac:(lia)).
    assert (E0 : mx / 2 ^ sh mx ex = 0) by lia.
    apply Z.div_small_iff in E0; [|lia].
    destruct E0 as [E0|E0]; [|lia].
    assert (Hd : Zdigits2 mx <= sh mx ex) by (apply Zdigits2_le; lia).
    assert (ex + sh mx ex = -1074) by (rewrite fexp_eq in He1; lia).
    rewrite fexp_eq. lia.
Qed.

Lemma round_aux_le (sx : bool) (mx ex mF eF : Z) :
  0 < mx -> -1074 <= ex -> aligned mx ex ->
  0 < mF -> canon mF eF -> eF <= 971 ->
  fval mx ex <= fval mF eF ->
  le_float (binary_round_aux prec emax sx mx ex loc_Exact) mF eF /\
  has_sign sx (binary_round_aux prec emax sx mx ex loc_Exact).
Proof.
  intros Hm He Ha HmF CF HeF Hv.
  destruct (binary_round_aux_spec sx mx ex loc_Exact ltac:(lia)) as (m2 & B & Bex & ->).
  pose proof (sh_nonneg mx ex) as Hn.
  pose proof (sh_aligned mx ex Ha) as He1.
  pose proof (pow2_pos (sh mx ex) Hn) as Hp.
  pose proof (pow2_pos (ex + 1074) ltac:(lia)) as Hq.
  pose proof (canon_emin _ _ CF) as HeF'.
  pose proof (Z.div_pos mx (2 ^ sh mx ex) ltac:(lia) ltac:(lia)) as Hm1.
  split; [|apply round_result_sign; lia].
  apply round_result_le; try assumption; try lia.
  - intros Hm2. apply aligned_after_step; try assumption; lia.
  - pose proof (magnitude_le_of_fval mx ex mF eF Hm HmF He HeF' Hv) as Hmag.
    assert (HeF1 : ex + sh mx ex <= eF).
    { rewrite He1. unfold canon in CF. rewrite <- CF. apply fexp_mono. assumption. }
    assert (EG : fval mF eF
                 = fval (mF * 2 ^ (eF - (ex + sh mx ex))) (ex + sh mx ex)).
    { rewrite fval_shift by lia. f_equal. lia. }
    rewrite EG in Hv |- *.
    set (G := mF * 2 ^ (eF - (ex + sh mx ex))) in *.
    apply fval_le_same_exp; [lia|].
    rewrite fval_split in Hv by assumption. unfold fval in Hv.
    assert (HG : mx <= G * 2 ^ sh mx ex) by nia.
    pose proof (Z.div_mod mx (2 ^ sh mx ex) ltac:(lia)) as Edm.
    pose proof (Z.mod_pos_bound mx (2 ^ sh mx ex) Hp) as Rb.
    destruct (Z_lt_le_dec (mx / 2 ^ sh mx ex) G) as [Hlt|Hge]; [lia|].
    assert (mx mod 2 ^ sh mx ex = 0) by nia.
    rewrite (Bex eq_refl H). nia.
Qed.

Lemma round_aux_ge (sx : bool) (mx ex mF eF : Z) :
  0 < mx -> -1074 <= ex -> aligned mx ex ->
  0 < mF -> canon mF eF ->
  fval mF eF <= fval mx ex ->
  ge_float (binary_round_aux prec emax sx mx ex loc_Exact) mF eF /\
  has_sign sx (binary_round_aux prec emax sx mx ex loc_Exact).
Proof.
  intros Hm He Ha HmF CF Hv.
  destruct (binary_round_aux_spec sx mx ex loc_Exact ltac:(lia)) as (m2 & B & Bex & ->).
  pose proof (sh_nonneg mx ex) as Hn.
  pose proof (canon_emin _ _ CF) as HeF'.
  pose proof (fval_pos mF eF HmF HeF') as HF.
  pose proof (trunc_ge mx ex mF eF Hm He Ha HmF CF Hv) as T.
  pose proof (pow2_pos (sh mx ex) Hn) as Hp.
  pose proof (Z.div_pos mx (2 ^ sh mx ex) ltac:(lia) ltac:(lia)) as Hm1.
  assert (Hq : 0 < mx / 2 ^ sh mx ex).
  { destruct (Z_lt_le_dec 0 (mx / 2 ^ sh mx ex)) as [|Hle]; [assumption|].
    assert (E0 : mx / 2 ^ sh mx ex = 0) by lia.
    rewrite E0 in T. unfold fval in T. lia. }
  split; [|apply round_result_sign; lia].
  apply round_result_ge; try assumption; try lia.
  - apply aligned_after_step; try assumption; lia.
  - etransitivity; [exact T|]. apply fval_le_same_exp; lia.
Qed.

(** *** [binary_round], addition and subtraction of positive numbers *)

Lemma pos_iter_xO (m d : positive) :
  Z.pos (Pos.iter xO m d) = Z.pos m * 2 ^ Z.pos d.
Proof.
  induction d as [|d IH] using Pos.peano_ind.
  - cbn. lia.
  - rewrite Pos.iter_succ, Pos2Z.inj_xO, IH, Pos2Z.inj_succ, Z.pow_succ_r by lia. ring.
Qed.

Lemma shl_align_spec (mx : positive) (ex ex' : Z) :
  snd (shl_align mx ex ex') = Z.min ex ex' /\
  Z.pos (fst (shl_align mx ex ex')) = Z.pos mx * 2 ^ (ex - Z.min ex ex').
Proof.
  unfold shl_align. destruct (ex' - ex) as [|d|d] eqn:E; cbn [fst snd].
  - rewrite Z.min_l by lia. rewrite Z.sub_diag. cbn. split; lia.
  - rewrite Z.min_l by lia. rewrite Z.sub_diag. cbn. split; lia.
  - rewrite Z.min_r by lia. split; [reflexivity|].
    rewrite pos_iter_xO. f_equal. f_equal. lia.
Qed.

Lemma shl_align_fval (mx : positive) (ex ex' : Z) :
  -1074 <= ex -> -1074 <= ex' ->
  fval (Z.pos (fst (shl_align mx ex ex'))) (Z.min ex ex') = fval (Z.pos mx) ex.
Proof.
  intros He He'. destruct (shl_align_spec mx ex ex') as [_ ->].
  rewrite fval_shift by lia. f_equal. lia.
Qed.

Lemma binary_round_aligned (mx : positive) (ex : Z) :
  -1074 <= ex ->
  let r := shl_align mx ex (fexp prec emax (Z.pos (digits2_pos mx) + ex)) in
  aligned (Z.pos (fst r)) (snd r) /\ -1074 <= snd r /\
  fval (Z.pos (fst r)) (snd r) = fval (Z.pos mx) ex.
Proof.
  intros He r. subst r.
  set (k := fexp prec emax (Z.pos (digits2_pos mx) + ex)).
  assert (Hk : -1074 <= k) by (unfold k; rewrite fexp_eq; lia).
  destruct (shl_align_spec mx ex k) as [E1 E2].
  split; [|split].
  - unfold aligned. rewrite E1, E2.
    rewrite Zdigits2_shift by lia.
    change (Zdigits2 (Z.pos mx)) with (Z.pos (digits2_pos mx)).
    replace (Z.pos (digits2_pos mx) + (ex - Z.min ex k) + Z.min ex k)
      with (Z.pos (digits2_pos mx) + ex) by lia.
    fold k. lia.
  - rewrite E1. lia.
  - rewrite E1. apply shl_align_fval; assumption.
Qed.

Lemma binary_round_le (sx : bool) (mx : positive) (ex mF eF : Z) :
  -1074 <= ex -> 0 < mF -> canon mF eF -> eF <= 971 ->
  fval (Z.pos mx) ex <= fval mF eF ->
  le_float (binary_round prec emax sx mx ex) mF eF /\
  has_sign sx (binary_round prec emax sx mx ex).
Proof.
  intros He HmF CF HeF Hv. unfold binary_round.
  destruct (binary_round_aligned mx ex He) as (A1 & A2 & A3).
  destruct (shl_align mx ex (fexp prec emax (Z.pos (digits2_pos mx) + ex))) as [mz ez].
  cbn [fst snd] in A1, A2, A3.
  apply round_aux_le; try assumption; lia.
Qed.

Lemma binary_round_ge (sx : bool) (mx : positive) (ex mF eF : Z) :
  -1074 <= ex -> 0 < mF -> canon mF eF ->
  fval mF eF <= fval (Z.pos mx) ex ->
  ge_float (binary_round prec emax sx mx ex) mF eF /\
  has_sign sx (binary_round prec emax sx mx ex).
Proof.
  intros He HmF CF Hv. unfold binary_round.
  destruct (binary_round_aligned mx ex He) as (A1 & A2 & A3).
  destruct (shl_align mx ex (fexp prec emax (Z.pos (digits2_pos mx) + ex))) as [mz ez].
  cbn [fst snd] in A1, A2, A3.
  apply round_aux_ge; try assumption; lia.
Qed.

(** A valid positive finite number. *)
Lemma valid_finite (s : bool) (m : positive) (e : Z) :
  valid_binary (S754_finite s m e) = true ->
  canon (Z.pos m) e /\ e <= 971.
Proof.
  unfold valid_binary, SpecFloat.valid_binary, bounded, canonical_mantissa.
  intros H. apply andb_prop in H. destruct H as [H1 H2].
  apply Z.eqb_eq in H1. apply Z.leb_le in H2.
  split; [exact H1 | exact H2].
Qed.

Lemma SFadd_pos (mx my : positive) (ex ey : Z) :
  canon (Z.pos mx) ex -> canon (Z.pos my) ey ->
  let t := SFadd prec emax (S754_finite false mx ex) (S754_finite false my ey) in
  has_sign false t /\ ge_float t (Z.pos mx) ex /\ ge_float t (Z.pos my) ey.
Proof.
  intros Cx Cy t. subst t. cbn [SFadd cond_Zopp].
  pose proof (canon_emin _ _ Cx) as Hex. pose proof (canon_emin _ _ Cy) as Hey.
  pose proof (shl_align_fval mx ex (Z.min ex ey) Hex ltac:(lia)) as Vx.
  pose proof (shl_align_fval my ey (Z.min ex ey) Hey ltac:(lia)) as Vy.
  replace (Z.min ex (Z.min ex ey)) with (Z.min ex ey) in Vx by lia.
  replace (Z.min ey (Z.min ex ey)) with (Z.min ex ey) in Vy by lia.
  set (ez := Z.min ex ey) in *.
  set (ax := fst (shl_align mx ex ez)) in *.
  set (ay := fst (shl_align my ey ez)) in *.
  change (Z.pos ax + Z.pos ay) with (Z.pos (ax + ay)).
  cbn [binary_normalize].
  assert (Hsum : fval (Z.pos (ax + ay)) ez = fval (Z.pos mx) ex + fval (Z.pos my) ey).
  { rewrite <- Vx, <- Vy. unfold fval. rewrite Pos2Z.inj_add. ring. }
  pose proof (fval_pos (Z.pos mx) ex ltac:(lia) Hex).
  pose proof (fval_pos (Z.pos my) ey ltac:(lia) Hey).
  destruct (binary_round_ge false (ax + ay) ez (Z.pos mx) ex) as [G1 S1];
    try assumption; try lia.
  destruct (binary_round_ge false (ax + ay) ez (Z.pos my) ey) as [G2 _];
    try assumption; try lia.
  auto.
Qed.

Lemma SFsub_pos (mx my : positive) (ex ey : Z) :
  canon (Z.pos mx) ex -> ex <= 971 -> canon (Z.pos my) ey -> ey <= 971 ->
  let d := SFsub prec emax (S754_finite false mx ex) (S754_finite false my ey) in
  le_float d (Z.pos mx) ex \/ le_float d (Z.pos my) ey.
Proof.
  intros Cx Bx Cy By d. subst d. cbn [SFsub cond_Zopp].
  pose proof (canon_emin _ _ Cx) as Hex. pose proof (canon_emin _ _ Cy) as Hey.
  pose proof (shl_align_fval mx ex (Z.min ex ey) Hex ltac:(lia)) as Vx.
  pose proof (shl_align_fval my ey (Z.min ex ey) Hey ltac:(lia)) as Vy.
  replace (Z.min ex (Z.min ex ey)) with (Z.min ex ey) in Vx by lia.
  replace (Z.min ey (Z.min ex ey)) with (Z.min ex ey) in Vy by lia.
  set (ez := Z.min ex ey) in *.
  set (ax := fst (shl_align mx ex ez)) in *.
  set (ay := fst (shl_align my ey ez)) in *.
  pose proof (fval_pos (Z.pos mx) ex ltac:(lia) Hex).
  pose proof (fval_pos (Z.pos my) ey ltac:(lia) Hey).
  pose proof (pow2_pos (ez + 1074) ltac:(lia)) as Hp.
  destruct (Z.pos ax - Z.pos ay) as [|p|p] eqn:E; cbn [binary_normalize].
  - left. exact I.
  - left. apply binary_round_le; try assumption; try lia.
    rewrite <- Vx. unfold fval. nia.
  - right. apply binary_round_le; try assumption; try lia.
    rewrite <- Vy. unfold fval. nia.
Qed.

(** *** Division of a number by one at least as large *)

(** A magnitude of at most one: zero, or [m * 2^e <= 1]. *)
Definition unit_float (x : spec_float) : Prop :=
  match x with
  | S754_zero _ => True
  | S754_finite _ m e => e <= 0 /\ Z.pos m <= 2 ^ (- e)
  | _ => False
  end.

Lemma new_location_zero (nb : Z) : new_location nb 0 = loc_Exact.
Proof.
  unfold new_location, new_location_even, new_location_odd.
  destruct (Z.even nb); reflexivity.
Qed.

Lemma div_eucl_fst_snd (a b : Z) :
  Z.div_eucl a b = (a / b, a mod b).
Proof. unfold Z.div, Z.modulo. destruct (Z.div_eucl a b). reflexivity. Qed.

Lemma SFdiv_same (s1 s2 : bool) (m : positive) (e : Z) :
  SFdiv prec emax (S754_finite s1 m e) (S754_finite s2 m e)
  = S754_finite (xorb s1 s2) 4503599627370496 (-52).
Proof.
  cbn [SFdiv]. unfold SFdiv_core_binary.
  replace (Zdigits2 (Z.pos m) + e - (Zdigits2 (Z.pos m) + e)) with 0 by lia.
  replace (e - e) with 0 by lia.
  change (Z.min (fexp prec emax 0) 0) with (-53).
  change (0 - -53) with 53.
  rewrite Z.shiftl_mul_pow2 by lia.
  rewrite div_eucl_fst_snd.
  rewrite (Z.mul_comm (Z.pos m)), Z.div_mul, Z.mod_mul by lia.
  rewrite new_location_zero.
  destruct s1, s2; reflexivity.
Qed.

Lemma round_result_unit (sx : bool) (m2 e1 : Z) :
  0 <= m2 -> e1 <= -53 -> m2 <= 2 ^ (- e1) ->
  unit_float (round_result sx m2 e1).
Proof.
  intros Hm He Hb. unfold round_result.
  pose proof (sh_nonneg m2 e1) as Hn.
  pose proof (pow2_pos (sh m2 e1) Hn) as Hp.
  assert (He3 : e1 + sh m2 e1 <= -52).
  { unfold sh.
    destruct (Z_le_gt_dec (fexp prec emax (Zdigits2 m2 + e1) - e1) 0) as [Hle|Hgt].
    - rewrite Z.max_r by lia. lia.
    - rewrite Z.max_l by lia.
      destruct (Z.eq_dec m2 0) as [->|Hnz].
      + cbn [Zdigits2]. rewrite fexp_eq. lia.
      + assert (Hd : Zdigits2 m2 <= - e1 + 1).
        { apply Zdigits2_le; [lia | lia |].
          pose proof (pow2_lt (- e1) (- e1 + 1) ltac:(lia)). lia. }
        rewrite fexp_eq. lia. }
  assert (Hq : m2 / 2 ^ sh m2 e1 <= 2 ^ (- (e1 + sh m2 e1))).
  { apply Z.div_le_upper_bound; [assumption|].
    rewrite <- pow2_add by lia.
    replace (sh m2 e1 + - (e1 + sh m2 e1)) with (- e1) by lia. assumption. }
  destruct (m2 / 2 ^ sh m2 e1) as [|p|p] eqn:Eq.
  - exact I.
  - replace (e1 + sh m2 e1 <=? 971) with true by (symmetry; apply Z.leb_le; lia).
    cbn. split; [lia | assumption].
  - pose proof (Z.div_pos m2 (2 ^ sh m2 e1) Hm ltac:(lia)). lia.
Qed.

Lemma SFdiv_lt (s1 s2 : bool) (md mt : positive) (ed et : Z) :
  canon (Z.pos md) ed -> canon (Z.pos mt) et ->
  fval (Z.pos md) ed < fval (Z.pos mt) et ->
  unit_float (SFdiv prec emax (S754_finite s1 md ed) (S754_finite s2 mt et)).
Proof.
  intros Cd Ct Hv.
  pose proof (canon_emin _ _ Cd) as Hed. pose proof (canon_emin _ _ Ct) as Het.
  pose proof (magnitude_le_of_fval (Z.pos md) ed (Z.pos mt) et
                ltac:(lia) ltac:(lia) Hed Het ltac:(lia)) as Hmag.
  cbn [SFdiv]. unfold SFdiv_core_binary.
  set (e' := Z.min (fexp prec emax (Zdigits2 (Z.pos md) + ed - (Zdigits2 (Z.pos mt) + et)))
                   (ed - et)).
  assert (He' : e' <= -53).
  { unfold e'.
    assert (fexp prec emax (Zdigits2 (Z.pos md) + ed - (Zdigits2 (Z.pos mt) + et)) <= -53)
      by (rewrite fexp_eq; lia).
    lia. }
  assert (Hs : 0 <= ed - et - e') by (unfold e'; lia).
  set (s := ed - et - e') in *.
  assert (Em : match s with
               | 0 => Z.pos md
               | Z.pos _ => Z.shiftl (Z.pos md) s
               | Z.neg _ => 0
               end = Z.pos md * 2 ^ s).
  { destruct s as [|p|p] eqn:Es.
    - cbn. lia.
    - apply Z.shiftl_mul_pow2. lia.
    - lia. }
  rewrite Em. rewrite div_eucl_fst_snd.
  set (q := Z.pos md * 2 ^ s / Z.pos mt).
  set (l := new_location (Z.pos mt) (Z.pos md * 2 ^ s mod Z.pos mt)).
  pose proof (pow2_pos s Hs) as Hps.
  assert (Hq0 : 0 <= q) by (apply Z.div_pos; nia).
  assert (Hq : q < 2 ^ (- e')).
  { apply Z.div_lt_upper_bound; [lia|].
    unfold fval in Hv.
    pose proof (pow2_pos (- e') ltac:(lia)) as Hpe.
    destruct (Z_le_gt_dec 0 (et + 1074 + e')) as [Hc|Hc].
    - pose proof (pow2_pos (et + 1074 + e') Hc) as Hpc.
      assert (E1 : 2 ^ (ed + 1074) = 2 ^ s * 2 ^ (et + 1074 + e')).
      { rewrite <- pow2_add by lia. f_equal. unfold s. lia. }
      assert (E2 : 2 ^ (et + 1074) = 2 ^ (- e') * 2 ^ (et + 1074 + e')).
      { rewrite <- pow2_add by lia. f_equal. lia. }
      rewrite E1, E2 in Hv. nia.
    - pose proof (pow2_pos (- (et + 1074 + e')) ltac:(lia)) as Hpc.
      assert (E1 : 2 ^ s = 2 ^ (ed + 1074) * 2 ^ (- (et + 1074 + e'))).
      { rewrite <- pow2_add by lia. f_equal. unfold s. lia. }
      assert (E2 : 2 ^ (- e') = 2 ^ (et + 1074) * 2 ^ (- (et + 1074 + e'))).
      { rewrite <- pow2_add by lia. f_equal. lia. }
      rewrite E1, E2. nia. }
  destruct (binary_round_aux_spec (xorb s1 s2) q e' l Hq0) as (m2 & B & _ & ->).
  pose proof (sh_nonneg q e') as Hn.
  pose proof (pow2_pos (sh q e') Hn) as Hp.
  assert (He1 : e' + sh q e' <= -53).
  { unfold sh.
    destruct (Z_le_gt_dec (fexp prec emax (Zdigits2 q + e') - e') 0) as [Hle|Hgt].
    - rewrite Z.max_r by lia. lia.
    - rewrite Z.max_l by lia.
      destruct (Z.eq_dec q 0) as [E0|Hnz].
      + rewrite E0. cbn [Zdigits2]. rewrite fexp_eq. lia.
      + assert (Hd : Zdigits2 q <= - e') by (apply Zdigits2_le; lia).
        rewrite fexp_eq. lia. }
  assert (Hm1 : q / 2 ^ sh q e' < 2 ^ (- (e' + sh q e'))).
  { apply Z.div_lt_upper_bound; [assumption|].
    rewrite <- pow2_add by lia.
    replace (sh q e' + - (e' + sh q e')) with (- e') by lia. assumption. }
  pose proof (Z.div_pos q (2 ^ sh q e') Hq0 ltac:(lia)).
  apply round_result_unit; lia.
Qed.

Lemma canon_unique (m1 e1 m2 e2 : Z) :
  0 < m1 -> 0 < m2 -> canon m1 e1 -> canon m2 e2 ->
  fval m1 e1 = fval m2 e2 -> m1 = m2 /\ e1 = e2.
Proof.
  intros H1 H2 C1 C2 Hv.
  pose proof (canon_exp_le m1 e1 m2 e2 H1 H2 C1 C2 ltac:(lia)).
  pose proof (canon_exp_le m2 e2 m1 e1 H2 H1 C2 C1 ltac:(lia)).
  assert (e1 = e2) by lia. subst e2. split; [|reflexivity].
  pose proof (canon_emin _ _ C1).
  pose proof (proj1 (fval_le_same_exp m1 m2 e1 ltac:(lia)) ltac:(lia)).
  pose proof (proj1 (fval_le_same_exp m2 m1 e1 ltac:(lia)) ltac:(lia)).
  lia.
Qed.

Lemma SFdiv_le_one (s1 s2 : bool) (md mt : positive) (ed et : Z) :
  canon (Z.pos md) ed -> canon (Z.pos mt) et ->
  fval (Z.pos md) ed <= fval (Z.pos mt) et ->
  unit_float (SFdiv prec emax (S754_finite s1 md ed) (S754_finite s2 mt et)).
Proof.
  intros Cd Ct Hv.
  destruct (Z.eq_dec (fval (Z.pos md) ed) (fval (Z.pos mt) et)) as [Heq|Hne].
  - destruct (canon_unique (Z.pos md) ed (Z.pos mt) et ltac:(lia) ltac:(lia) Cd Ct Heq) as [Em Ee].
    injection Em as ->. subst et. rewrite SFdiv_same. cbn. split; [lia|].
    reflexivity.
  - apply SFdiv_lt; try assumption. lia.
Qed.

(** *** Division against a representable bound *)

Lemma aligned_after_step0 (mx ex m2 : Z) :
  0 <= mx -> -1074 <= ex -> aligned mx ex ->
  mx / 2 ^ sh mx ex <= m2 -> 0 < m2 ->
  aligned m2 (ex + sh mx ex).
Proof.
  intros Hm He Ha H12 Hm2.
  destruct (Z.eq_dec mx 0) as [->|Hnz].
  - unfold aligned in *. cbn [Zdigits2] in Ha. rewrite Z.add_0_l in Ha.
    rewrite fexp_eq in Ha.
    assert (ex = -1074) by lia. subst ex.
    assert (E : sh 0 (-1074) = 0) by reflexivity. rewrite E.
    rewrite fexp_eq. pose proof (Zdigits2_pos m2 Hm2). lia.
  - apply aligned_after_step; try assumption. lia.
Qed.

Lemma round_div_le (sx : bool) (m' mc q r e' : Z) (lx : location) (mF eF : Z) :
  0 < mc -> m' = mc * q + r -> 0 <= r < mc -> 0 <= q ->
  -1074 <= e' -> aligned q e' ->
  (r = 0 -> lx = loc_Exact) ->
  0 < mF -> canon mF eF -> eF <= 971 ->
  fval m' e' <= fval mF eF * mc ->
  le_float (binary_round_aux prec emax sx q e' lx) mF eF /\
  has_sign sx (binary_round_aux prec emax sx q e' lx).
Proof.
  intros Hmc Em Hr Hq He Ha Hlx HmF CF HeF Hv.
  destruct (binary_round_aux_spec sx q e' lx Hq) as (m2 & B & Bex & ->).
  pose proof (sh_nonneg q e') as Hn.
  pose proof (sh_aligned q e' Ha) as He1.
  pose proof (pow2_pos (sh q e') Hn) as Hp.
  pose proof (pow2_pos (e' + 1074) ltac:(lia)) as HP.
  pose proof (canon_emin _ _ CF) as HeF'.
  pose proof (Z.div_pos q (2 ^ sh q e') Hq ltac:(lia)) as Hm1.
  split; [|apply round_result_sign; lia].
  apply round_result_le; try assumption; try lia.
  - intros Hm2. apply aligned_after_step0; try assumption; lia.
  - assert (HqF : fval q e' <= fval mF eF).
    { unfold fval in Hv |- *. rewrite Em in Hv.
      set (VF := mF * 2 ^ (eF + 1074)) in *. nia. }
    assert (HeF1 : e' + sh q e' <= eF).
    { destruct (Z.eq_dec q 0) as [E0|Hnz].
      - rewrite He1, E0. cbn [Zdigits2]. unfold aligned in Ha.
        rewrite E0 in Ha. cbn [Zdigits2] in Ha. rewrite fexp_eq in Ha |- *. lia.
      - pose proof (magnitude_le_of_fval q e' mF eF ltac:(lia) HmF He HeF' HqF) as Hmag.
        rewrite He1. unfold canon in CF. rewrite <- CF. apply fexp_mono. assumption. }
    assert (EG : fval mF eF
                 = fval (mF * 2 ^ (eF - (e' + sh q e'))) (e' + sh q e')).
    { rewrite fval_shift by lia. f_equal. lia. }
    rewrite EG in Hv |- *.
    set (G := mF * 2 ^ (eF - (e' + sh q e'))) in *.
    apply fval_le_same_exp; [lia|].
    rewrite fval_split in Hv by assumption. unfold fval in Hv.
    assert (HG : m' <= G * 2 ^ sh q e' * mc) by nia.
    pose proof (Z.div_mod q (2 ^ sh q e') ltac:(lia)) as Edm.
    pose proof (Z.mod_pos_bound q (2 ^ sh q e') Hp) as Rb.
    set (D := 2 ^ sh q e') in *. set (m1 := q / D) in *. set (rho := q mod D) in *.
    assert (Hm1G : m1 <= G).
    { destruct (Z_le_gt_dec m1 G) as [|Hgt]; [assumption|].
      assert (mc * D * (G + 1) <= mc * D * m1) by (apply Z.mul_le_mono_nonneg_l; nia).
      nia. }
    destruct (Z_lt_le_dec m1 G) as [Hlt|Hge]; [lia|].
    assert (Em1 : m1 = G) by lia.
    assert (Hz : mc * rho + r <= 0) by nia.
    assert (Hrho : rho = 0) by nia.
    assert (Hr0 : r = 0) by nia.
    rewrite (Bex (Hlx Hr0) Hrho). lia.
Qed.

Lemma round_div_ge (sx : bool) (m' mc q r e' : Z) (lx : location) (mF eF : Z) :
  0 < mc -> m' = mc * q + r -> 0 <= r < mc -> 0 <= q ->
  -1074 <= e' -> aligned q e' ->
  0 < mF -> canon mF eF ->
  fval mF eF * mc <= fval m' e' ->
  ge_float (binary_round_aux prec emax sx q e' lx) mF eF /\
  has_sign sx (binary_round_aux prec emax sx q e' lx).
Proof.
  intros Hmc Em Hr Hq He Ha HmF CF Hv.
  destruct (binary_round_aux_spec sx q e' lx Hq) as (m2 & B & _ & ->).
  pose proof (sh_nonneg q e') as Hn.
  pose proof (pow2_pos (sh q e') Hn) as Hp.
  pose proof (pow2_pos (e' + 1074) ltac:(lia)) as HP.
  pose proof (canon_emin _ _ CF) as HeF'.
  pose proof (fval_pos mF eF HmF HeF') as HF.
  pose proof (Z.div_pos q (2 ^ sh q e') Hq ltac:(lia)) as Hm1.
  assert (Hq0 : 0 < q).
  { destruct (Z.eq_dec q 0) as [E0|]; [|lia]. exfalso.
    unfold aligned in Ha. rewrite E0 in Ha. cbn [Zdigits2] in Ha.
    rewrite fexp_eq in Ha. assert (e' = -1074) by lia. subst e'.
    unfold fval in Hv. rewrite Em, E0 in Hv.
    change (2 ^ (-1074 + 1074)) with 1 in Hv.
    unfold fval in HF. nia. }
  assert (HFq : fval mF eF <= fval q e').
  { destruct (Z_le_gt_dec e' eF) as [Hge|Hlt].
    - assert (EG : fval mF eF = fval (mF * 2 ^ (eF - e')) e').
      { rewrite fval_shift by lia. f_equal. lia. }
      rewrite EG in Hv |- *. apply fval_le_same_exp; [lia|].
      unfold fval in Hv. set (G := mF * 2 ^ (eF - e')) in *.
      assert (G * mc <= m') by nia.
      destruct (Z_le_gt_dec G q) as [|Hgt]; [assumption|].
      assert (mc * (q + 1) <= mc * G) by (apply Z.mul_le_mono_nonneg_l; lia).
      nia.
    - assert (Hmag : Zdigits2 mF + eF < Zdigits2 q + e').
      { destruct (Z_lt_le_dec (Zdigits2 mF + eF) (Zdigits2 q + e')) as [|Hge]; [assumption|].
        apply fexp_mono in Hge. unfold canon in CF. unfold aligned in Ha. lia. }
      pose proof (fval_lt_of_magnitude mF eF q e' HmF Hq0 HeF' He Hmag). lia. }
  pose proof (trunc_ge q e' mF eF Hq0 He Ha HmF CF HFq) as T.
  assert (Hm1p : 0 < q / 2 ^ sh q e').
  { destruct (Z_lt_le_dec 0 (q / 2 ^ sh q e')) as [|Hle]; [assumption|].
    assert (E0 : q / 2 ^ sh q e' = 0) by lia.
    rewrite E0 in T. unfold fval in T. lia. }
  split; [|apply round_result_sign; lia].
  apply round_result_ge; try assumption; try lia.
  - apply aligned_after_step; try assumption; lia.
  - etransitivity; [exact T|]. apply fval_le_same_exp; lia.
Qed.

(** Normal numbers have 53-digit mantissas. *)
Lemma canon_normal (m e : Z) :
  0 < m -> canon m e -> -1074 < e -> Zdigits2 m = 53.
Proof. unfold canon. rewrite fexp_eq. lia. Qed.

Lemma SFdiv_normal (s1 s2 : bool) (mp mc : positive) (ep ec : Z) :
  canon (Z.pos mp) ep -> canon (Z.pos mc) ec ->
  -1074 < ep -> -1074 < ec -> -1021 <= ep - ec ->
  let m' := Z.pos mp * 2 ^ 53 in
  SFdiv prec emax (S754_finite s1 mp ep) (S754_finite s2 mc ec)
  = binary_round_aux prec emax (xorb s1 s2) (m' / Z.pos mc) (ep - ec - 53)
      (new_location (Z.pos mc) (m' mod Z.pos mc)) /\
  aligned (m' / Z.pos mc) (ep - ec - 53).
Proof.
  intros Cp Cc Hp Hc Hd m'. subst m'.
  pose proof (canon_normal (Z.pos mp) ep ltac:(lia) Cp Hp) as Dp.
  pose proof (canon_normal (Z.pos mc) ec ltac:(lia) Cc Hc) as Dc.
  cbn [SFdiv]. unfold SFdiv_core_binary. rewrite Dp, Dc.
  replace (53 + ep - (53 + ec)) with (ep - ec) by lia.
  assert (E' : Z.min (fexp prec emax (ep - ec)) (ep - ec) = ep - ec - 53).
  { rewrite fexp_eq. lia. }
  rewrite E'. replace (ep - ec - (ep - ec - 53)) with 53 by lia.
  rewrite Z.shiftl_mul_pow2 by lia. rewrite div_eucl_fst_snd.
  split; [reflexivity|].
  unfold aligned.
  pose proof (Zdigits2_bounds (Z.pos mp) ltac:(lia)) as [Lp _].
  pose proof (Zdigits2_bounds (Z.pos mc) ltac:(lia)) as [_ Uc].
  rewrite Dp in Lp. rewrite Dc in Uc.
  assert (Hq : 2 ^ 52 <= Z.pos mp * 2 ^ 53 / Z.pos mc).
  { apply Z.div_le_lower_bound; [lia|].
    change (53 - 1) with 52 in Lp. nia. }
  pose proof (Zdigits2_ge _ 52 ltac:(lia) Hq).
  rewrite fexp_eq. lia.
Qed.

Lemma SFdiv_value_shift (mp mc ep ec V : Z) :
  -1074 <= ep -> -1074 <= ec -> -1074 <= ep - ec - 53 ->
  (fval (mp * 2 ^ 53) (ep - ec - 53) <= V * mc
   <-> fval mp ep * 2 ^ 1074 <= V * fval mc ec) /\
  (V * mc <= fval (mp * 2 ^ 53) (ep - ec - 53)
   <-> V * fval mc ec <= fval mp ep * 2 ^ 1074).
Proof.
  intros Hp Hc Hd.
  rewrite fval_shift by lia.
  replace (ep - ec - 53 + 53) with (ep - ec) by lia.
  unfold fval.
  pose proof (pow2_pos (ec + 1074) ltac:(lia)) as Pc.
  assert (E : 2 ^ (ep + 1074) * 2 ^ 1074 = 2 ^ (ep - ec + 1074) * 2 ^ (ec + 1074)).
  { rewrite <- !pow2_add by lia. f_equal. lia. }
  set (A := 2 ^ (ep - ec + 1074)) in *. set (Bc := 2 ^ (ec + 1074)) in *.
  set (Ap := 2 ^ (ep + 1074)) in *. set (K := 2 ^ 1074) in *.
  split; split; intros H; nia.
Qed.

Lemma SFdiv_le (s1 s2 : bool) (mp mc : positive) (ep ec mF eF : Z) :
  canon (Z.pos mp) ep -> canon (Z.pos mc) ec ->
  -1074 < ep -> -1074 < ec -> -1021 <= ep - ec ->
  0 < mF -> canon mF eF -> eF <= 971 ->
  fval (Z.pos mp) ep * 2 ^ 1074 <= fval mF eF * fval (Z.pos mc) ec ->
  le_float (SFdiv prec emax (S754_finite s1 mp ep) (S754_finite s2 mc ec)) mF eF /\
  has_sign (xorb s1 s2) (SFdiv prec emax (S754_finite s1 mp ep) (S754_finite s2 mc ec)).
Proof.
  intros Cp Cc Hp Hc Hd HmF CF HeF Hv.
  destruct (SFdiv_normal s1 s2 mp mc ep ec Cp Cc Hp Hc Hd) as [-> Ha].
  pose proof (Z.div_mod (Z.pos mp * 2 ^ 53) (Z.pos mc) ltac:(lia)) as Edm.
  pose proof (Z.mod_pos_bound (Z.pos mp * 2 ^ 53) (Z.pos mc) ltac:(lia)) as Rb.
  apply (round_div_le _ (Z.pos mp * 2 ^ 53) (Z.pos mc) _
           (Z.pos mp * 2 ^ 53 mod Z.pos mc)); try assumption; try lia.
  - apply Z.div_pos; lia.
  - intros ->. apply new_location_zero.
  - apply (SFdiv_value_shift (Z.pos mp) (Z.pos mc) ep ec (fval mF eF)); try lia.
Qed.

Lemma SFdiv_ge (s1 s2 : bool) (mp mc : positive) (ep ec mF eF : Z) :
  canon (Z.pos mp) ep -> canon (Z.pos mc) ec ->
  -1074 < ep -> -1074 < ec -> -1021 <= ep - ec ->
  0 < mF -> canon mF eF ->
  fval mF eF * fval (Z.pos mc) ec <= fval (Z.pos mp) ep * 2 ^ 1074 ->
  ge_float (SFdiv prec emax (S754_finite s1 mp ep) (S754_finite s2 mc ec)) mF eF /\
  has_sign (xorb s1 s2) (SFdiv prec emax (S754_finite s1 mp ep) (S754_finite s2 mc ec)).
Proof.
  intros Cp Cc Hp Hc Hd HmF CF Hv.
  destruct (SFdiv_normal s1 s2 mp mc ep ec Cp Cc Hp Hc Hd) as [-> Ha].
  pose proof (Z.div_mod (Z.pos mp * 2 ^ 53) (Z.pos mc) ltac:(lia)) as Edm.
  pose proof (Z.mod_pos_bound (Z.pos mp * 2 ^ 53) (Z.pos mc) ltac:(lia)) as Rb.
  apply (round_div_ge _ (Z.pos mp * 2 ^ 53) (Z.pos mc) _
           (Z.pos mp * 2 ^ 53 mod Z.pos mc)); try assumption; try lia.
  - apply Z.div_pos; lia.
  - apply (SFdiv_value_shift (Z.pos mp) (Z.pos mc) ep ec (fval mF eF)); try lia.
Qed.

(** *** Exactly representable values *)

(** The canonical pair of the value [M * 2^E], for [M] below [2^53]. *)
Definition repr_e (M E : Z) : Z := fexp prec emax (Zdigits2 M + E).
Definition repr_m (M E : Z) : Z := M * 2 ^ (E - repr_e M E).

Lemma repr_spec (M E : Z) :
  0 < M < 2 ^ 53 -> -1074 <= E ->
  0 < repr_m M E /\ canon (repr_m M E) (repr_e M E) /\
  fval (repr_m M E) (repr_e M E) = fval M E /\
  repr_e M E <= E.
Proof.
  intros HM HE. unfold repr_m, repr_e.
  assert (Hd : Zdigits2 M <= 53) by (apply Zdigits2_le; lia).
  pose proof (Zdigits2_pos M ltac:(lia)) as Hd1.
  set (e := fexp prec emax (Zdigits2 M + E)).
  assert (He : -1074 <= e <= E) by (unfold e; rewrite fexp_eq; lia).
  pose proof (pow2_pos (E - e) ltac:(lia)) as Hp.
  split; [nia|]. split; [|split; [|lia]].
  - unfold canon. rewrite Zdigits2_shift by lia.
    replace (Zdigits2 M + (E - e) + e) with (Zdigits2 M + E) by lia. reflexivity.
  - rewrite fval_shift by lia. f_equal. lia.
Qed.

Lemma le_ge_exact (x : spec_float) (sx : bool) (mF eF : Z) :
  0 < mF -> canon mF eF ->
  le_float x mF eF -> ge_float x mF eF -> has_sign sx x ->
  exists m, x = S754_finite sx m eF /\ Z.pos m = mF /\ eF <= 971.
Proof.
  intros HmF CF L G S.
  destruct x as [s|s| |s m e]; cbn in L, G, S; try contradiction.
  destruct L as (C & B & L). destruct G as (_ & G).
  destruct (canon_unique (Z.pos m) e mF eF ltac:(lia) HmF C CF ltac:(lia)) as [Em Ee].
  subst s e. exists m. split; [reflexivity|]. split; [exact Em | exact B].
Qed.

(** A value that has a canonical pair is returned as it is. *)
Lemma binary_round_exact (sx : bool) (M : positive) (E : Z) :
  Z.pos M < 2 ^ 53 -> -1074 <= E -> E <= 971 ->
  exists m e,
    binary_round prec emax sx M E = S754_finite sx m e /\
    canon (Z.pos m) e /\ e <= 971 /\
    fval (Z.pos m) e = fval (Z.pos M) E.
Proof.
  intros HM HE HE'.
  destruct (repr_spec (Z.pos M) E ltac:(lia) HE) as (Rm & Rc & Rv & Re).
  destruct (binary_round_le sx M E (repr_m (Z.pos M) E) (repr_e (Z.pos M) E))
    as [L S]; try assumption; try lia.
  destruct (binary_round_ge sx M E (repr_m (Z.pos M) E) (repr_e (Z.pos M) E))
    as [G _]; try assumption; try lia.
  destruct (le_ge_exact _ sx _ _ Rm Rc L G S) as (m & Ex & Em & Eb).
  exists m, (repr_e (Z.pos M) E). rewrite Em.
  split; [exact Ex|]. split; [exact Rc|]. split; [exact Eb | exact Rv].
Qed.

(** The exponent of the canonical pair of a positive integer below
    [2^53]. *)
Lemma canon_int_exp (m e M : Z) :
  0 < m -> canon m e -> 0 < M < 2 ^ 53 -> fval m e = fval M 0 ->
  -52 <= e <= 0.
Proof.
  intros Hm C HM Hv.
  pose proof (canon_emin _ _ C) as He.
  pose proof (magnitude_le_of_fval m e M 0 Hm ltac:(lia) He ltac:(lia) ltac:(lia)) as H1.
  pose proof (magnitude_le_of_fval M 0 m e ltac:(lia) Hm ltac:(lia) He ltac:(lia)) as H2.
  assert (Hd : Zdigits2 M <= 53) by (apply Zdigits2_le; lia).
  pose proof (Zdigits2_pos M ltac:(lia)).
  unfold canon in C. rewrite fexp_eq in C. lia.
Qed.

Lemma normalize_int (z : Z) :
  0 < Z.abs z < 2 ^ 53 ->
  exists m e,
    binary_normalize prec emax z 0 false = S754_finite (z <? 0) m e /\
    canon (Z.pos m) e /\ -52 <= e <= 0 /\
    fval (Z.pos m) e = fval (Z.abs z) 0.
Proof.
  intros Hz. destruct z as [|p|p]; [cbn in Hz; lia | |]; cbn [binary_normalize Z.abs Z.ltb Z.compare] in *.
  - destruct (binary_round_exact false p 0 ltac:(lia) ltac:(lia) ltac:(lia))
      as (m & e & E & C & B & V).
    exists m, e. split; [exact E|]. split; [exact C|]. split; [|exact V].
    apply (canon_int_exp (Z.pos m) e (Z.pos p)); try assumption; lia.
  - destruct (binary_round_exact true p 0 ltac:(lia) ltac:(lia) ltac:(lia))
      as (m & e & E & C & B & V).
    exists m, e. split; [exact E|]. split; [exact C|]. split; [|exact V].
    apply (canon_int_exp (Z.pos m) e (Z.pos p)); try assumption; lia.
Qed.

(** The product of two integers is exact as long as it stays below
    [2^53]. *)
Lemma SFmul_exact (s1 s2 : bool) (ma mb : positive) (ea eb A B : Z) :
  canon (Z.pos ma) ea -> canon (Z.pos mb) eb ->
  -52 <= ea <= 0 -> -52 <= eb <= 0 ->
  fval (Z.pos ma) ea = fval A 0 -> fval (Z.pos mb) eb = fval B 0 ->
  0 < A -> 0 < B -> A * B < 2 ^ 53 ->
  exists m e,
    SFmul prec emax (S754_finite s1 ma ea) (S754_finite s2 mb eb)
    = S754_finite (xorb s1 s2) m e /\
    canon (Z.pos m) e /\ -52 <= e <= 0 /\
    fval (Z.pos m) e = fval (A * B) 0.
Proof.
  intros Ca Cb Hea Heb Va Vb HA HB HP.
  cbn [SFmul].
  pose proof (canon_normal (Z.pos ma) ea ltac:(lia) Ca ltac:(lia)) as Da.
  pose proof (canon_normal (Z.pos mb) eb ltac:(lia) Cb ltac:(lia)) as Db.
  pose proof (Zdigits2_bounds (Z.pos ma) ltac:(lia)) as [La _].
  pose proof (Zdigits2_bounds (Z.pos mb) ltac:(lia)) as [Lb _].
  rewrite Da in La. rewrite Db in Lb. change (53 - 1) with 52 in La, Lb.
  rewrite Pos2Z.inj_mul.
  assert (Hal : aligned (Z.pos ma * Z.pos mb) (ea + eb)).
  { unfold aligned.
    assert (2 ^ 104 <= Z.pos ma * Z.pos mb).
    { change (2 ^ 104) with (2 ^ 52 * 2 ^ 52). apply Z.mul_le_mono_nonneg; lia. }
    pose proof (Zdigits2_ge _ 104 ltac:(lia) H). rewrite fexp_eq. lia. }
  assert (Hv : fval (Z.pos ma * Z.pos mb) (ea + eb) = fval (A * B) 0).
  { unfold fval in *.
    pose proof (pow2_pos (ea + 1074) ltac:(lia)).
    pose proof (pow2_pos (eb + 1074) ltac:(lia)).
    assert (E : 2 ^ (ea + eb + 1074) * 2 ^ 1074 = 2 ^ (ea + 1074) * 2 ^ (eb + 1074)).
    { rewrite <- !pow2_add by lia. f_equal. lia. }
    change (0 + 1074) with 1074 in *.
    assert (K : 0 < 2 ^ 1074) by (apply pow2_pos; lia).
    apply (Z.mul_reg_r _ _ (2 ^ 1074)); [lia|].
    transitivity (Z.pos ma * 2 ^ (ea + 1074) * (Z.pos mb * 2 ^ (eb + 1074))).
    - replace (Z.pos ma * 2 ^ (ea + 1074) * (Z.pos mb * 2 ^ (eb + 1074)))
        with (Z.pos ma * Z.pos mb * (2 ^ (ea + 1074) * 2 ^ (eb + 1074))) by ring.
      rewrite <- E. ring.
    - rewrite Va, Vb. ring. }
  destruct (repr_spec (A * B) 0 ltac:(nia) ltac:(lia)) as (Rm & Rc & Rv & Re).
  destruct (round_aux_le (xorb s1 s2) (Z.pos ma * Z.pos mb) (ea + eb)
              (repr_m (A * B) 0) (repr_e (A * B) 0)) as [L S];
    try assumption; try lia.
  destruct (round_aux_ge (xorb s1 s2) (Z.pos ma * Z.pos mb) (ea + eb)
              (repr_m (A * B) 0) (repr_e (A * B) 0)) as [G _];
    try assumption; try lia.
  destruct (le_ge_exact _ (xorb s1 s2) _ _ Rm Rc L G S) as (m & Ex & Em & Eb').
  exists m, (repr_e (A * B) 0). rewrite Em.
  split; [exact Ex|]. split; [exact Rc|]. split; [|exact Rv].
  apply (canon_int_exp (repr_m (A * B) 0) _ (A * B)); try assumption. nia.
Qed.

(** *** The quotient of two integers, rounded to nearest and then to an
    integer *)

Lemma SFdiv_round_up (s1 s2 : bool) (mp mc : positive) (ep ec P C : Z) :
  canon (Z.pos mp) ep -> canon (Z.pos mc) ec ->
  -52 <= ep <= 0 -> -52 <= ec <= 0 ->
  fval (Z.pos mp) ep = fval P 0 -> fval (Z.pos mc) ec = fval C 0 ->
  0 < C -> 0 < P -> P / C + 1 <= 2 ^ 52 -> C <= 2 * (P mod C) ->
  exists m e,
    SFdiv prec emax (S754_finite s1 mp ep) (S754_finite s2 mc ec)
    = S754_finite (xorb s1 s2) m e /\ -1074 <= e /\
    (2 * (P / C) + 1) * 2 ^ 1073 <= fval (Z.pos m) e <= (P / C + 1) * 2 ^ 1074.
Proof.
  intros Cp Cc Hep Hec Vp Vc HC HP Hk Hj.
  pose proof (Z.div_mod P C ltac:(lia)) as Edm.
  pose proof (Z.mod_pos_bound P C HC) as Rb.
  pose proof (Z.div_pos P C ltac:(lia) HC) as Hk0.
  set (k := P / C) in *. set (j := P mod C) in *.
  assert (K : 0 < 2 ^ 1074) by (apply pow2_pos; lia).
  assert (K2 : 2 ^ 1074 = 2 * 2 ^ 1073) by reflexivity.
  destruct (repr_spec (2 * k + 1) (-1) ltac:(change (2 ^ 53) with (2 * 2 ^ 52); lia) ltac:(lia))
    as (Lm & Lc & Lv & _).
  destruct (repr_spec (k + 1) 0 ltac:(change (2 ^ 53) with (2 * 2 ^ 52); lia) ltac:(lia))
    as (Um & Uc & Uv & Ue).
  assert (ELv : fval (2 * k + 1) (-1) = (2 * k + 1) * 2 ^ 1073) by reflexivity.
  assert (EUv : fval (k + 1) 0 = (k + 1) * 2 ^ 1074) by reflexivity.
  assert (EP : fval P 0 = P * 2 ^ 1074) by reflexivity.
  assert (EC : fval C 0 = C * 2 ^ 1074) by reflexivity.
  assert (HvL : fval (repr_m (2 * k + 1) (-1)) (repr_e (2 * k + 1) (-1))
                * fval (Z.pos mc) ec <= fval (Z.pos mp) ep * 2 ^ 1074).
  { rewrite Lv, Vp, Vc, ELv, EP, EC. rewrite K2. nia. }
  assert (HvU : fval (Z.pos mp) ep * 2 ^ 1074
                <= fval (repr_m (k + 1) 0) (repr_e (k + 1) 0) * fval (Z.pos mc) ec).
  { rewrite Uv, Vp, Vc, EUv, EP, EC. nia. }
  destruct (SFdiv_ge s1 s2 mp mc ep ec (repr_m (2 * k + 1) (-1)) (repr_e (2 * k + 1) (-1))
              Cp Cc ltac:(lia) ltac:(lia) ltac:(lia) Lm Lc HvL) as [G S].
  destruct (SFdiv_le s1 s2 mp mc ep ec (repr_m (k + 1) 0) (repr_e (k + 1) 0)
              Cp Cc ltac:(lia) ltac:(lia) ltac:(lia) Um Uc ltac:(lia) HvU) as [L _].
  destruct (SFdiv prec emax (S754_finite s1 mp ep) (S754_finite s2 mc ec))
    as [s|s| |s m e]; cbn in G, L, S; try contradiction.
  destruct L as (Cm & _ & L). destruct G as (_ & G). subst s.
  exists m, e. split; [reflexivity|]. split; [apply (canon_emin _ _ Cm)|].
  rewrite Lv, ELv in G. rewrite Uv, EUv in L. lia.
Qed.

Lemma SFdiv_round_down (s1 s2 : bool) (mp mc : positive) (ep ec P C t : Z) :
  canon (Z.pos mp) ep -> canon (Z.pos mc) ec ->
  -52 <= ep <= 0 -> -52 <= ec <= 0 ->
  fval (Z.pos mp) ep = fval P 0 -> fval (Z.pos mc) ec = fval C 0 ->
  0 < C -> 0 < P -> 2 <= t <= 1074 ->
  (P / C + 1) * 2 ^ t <= 2 ^ 53 ->
  P * 2 ^ t <= ((P / C) * 2 ^ t + 2 ^ (t - 1) - 1) * C ->
  let Q := SFdiv prec emax (S754_finite s1 mp ep) (S754_finite s2 mc ec) in
  Q = S754_zero (xorb s1 s2) /\ P / C = 0 \/
  exists m e,
    Q = S754_finite (xorb s1 s2) m e /\ -1074 <= e /\
    (P / C) * 2 ^ 1074 <= fval (Z.pos m) e /\
    fval (Z.pos m) e * 2 ^ t <= ((P / C) * 2 ^ t + 2 ^ (t - 1) - 1) * 2 ^ 1074.
Proof.
  intros Cp Cc Hep Hec Vp Vc HC HP Ht Hk Hy Q. subst Q.
  pose proof (Z.div_pos P C ltac:(lia) HC) as Hk0.
  pose proof (Z.mul_div_le P C HC) as Hkc.
  set (k := P / C) in *.
  assert (K : 0 < 2 ^ 1074) by (apply pow2_pos; lia).
  pose proof (pow2_pos t ltac:(lia)) as Pt.
  pose proof (pow2_pos (t - 1) ltac:(lia)) as Pt1.
  assert (Et : 2 ^ t = 2 * 2 ^ (t - 1)).
  { replace t with (1 + (t - 1)) at 1 by lia. rewrite pow2_add by lia. reflexivity. }
  assert (Pt2 : 2 <= 2 ^ (t - 1)).
  { change 2 with (2 ^ 1) at 1. apply pow2_le. lia. }
  set (Y := k * 2 ^ t + 2 ^ (t - 1) - 1) in *.
  assert (HY : 0 < Y < 2 ^ 53) by (unfold Y; nia).
  destruct (repr_spec Y (- t) HY ltac:(lia)) as (Ym & Yc & Yv & Ye).
  assert (EYv : fval Y (- t) * 2 ^ t = Y * 2 ^ 1074).
  { unfold fval. rewrite <- Z.mul_assoc, <- pow2_add by lia.
    f_equal. f_equal. lia. }
  assert (EP : fval P 0 = P * 2 ^ 1074) by reflexivity.
  assert (EC : fval C 0 = C * 2 ^ 1074) by reflexivity.
  assert (HvY : fval (Z.pos mp) ep * 2 ^ 1074
                <= fval (repr_m Y (- t)) (repr_e Y (- t)) * fval (Z.pos mc) ec).
  { rewrite Yv, Vp, Vc, EP, EC.
    apply (Z.mul_le_mono_pos_r _ _ (2 ^ t)); [lia|].
    replace (fval Y (- t) * (C * 2 ^ 1074) * 2 ^ t)
      with (fval Y (- t) * 2 ^ t * (C * 2 ^ 1074)) by ring.
    rewrite EYv. nia. }
  destruct (SFdiv_le s1 s2 mp mc ep ec (repr_m Y (- t)) (repr_e Y (- t))
              Cp Cc ltac:(lia) ltac:(lia) ltac:(lia) Ym Yc ltac:(lia) HvY) as [L S].
  destruct (Z.eq_dec k 0) as [E0|Hnz].
  - destruct (SFdiv prec emax (S754_finite s1 mp ep) (S754_finite s2 mc ec))
      as [s|s| |s m e]; cbn in L, S; try contradiction; subst s.
    + left. split; [reflexivity | assumption].
    + right. destruct L as (Cm & _ & L). exists m, e.
      split; [reflexivity|]. split; [apply (canon_emin _ _ Cm)|].
      pose proof (fval_pos (Z.pos m) e ltac:(lia) (canon_emin _ _ Cm)).
      split; [lia|]. rewrite Yv in L.
      rewrite <- EYv. apply Z.mul_le_mono_nonneg_r; lia.
  - destruct (repr_spec k 0 ltac:(nia) ltac:(lia)) as (Lm & Lc & Lv & _).
    assert (ELv : fval k 0 = k * 2 ^ 1074) by reflexivity.
    assert (HvL : fval (repr_m k 0) (repr_e k 0) * fval (Z.pos mc) ec
                  <= fval (Z.pos mp) ep * 2 ^ 1074).
    { rewrite Lv, Vp, Vc, ELv, EP, EC. nia. }
    destruct (SFdiv_ge s1 s2 mp mc ep ec (repr_m k 0) (repr_e k 0)
                Cp Cc ltac:(lia) ltac:(lia) ltac:(lia) Lm Lc HvL) as [G _].
    destruct (SFdiv prec emax (S754_finite s1 mp ep) (S754_finite s2 mc ec))
      as [s|s| |s m e]; cbn in G, L, S; try contradiction; subst s.
    right. destruct L as (Cm & _ & L). destruct G as (_ & G). exists m, e.
    split; [reflexivity|]. split; [apply (canon_emin _ _ Cm)|].
    rewrite Lv, ELv in G. split; [exact G|]. rewrite Yv in L.
    rewrite <- EYv. apply Z.mul_le_mono_nonneg_r; lia.
Qed.

(** [std::round] of a positive double, from its value. *)
Lemma round_half_away_floor (m : positive) (e : Z) :
  -1074 <= e ->
  Dbl.round_half_away m e = (2 * fval (Z.pos m) e + 2 ^ 1074) / 2 ^ 1075.
Proof.
  intros He. unfold Dbl.round_half_away, fval.
  assert (K : 0 < 2 ^ 1074) by (apply pow2_pos; lia).
  assert (K5 : 2 ^ 1075 = 2 * 2 ^ 1074) by reflexivity.
  destruct (0 <=? e) eqn:E0.
  - apply Z.leb_le in E0.
    rewrite (Z.add_comm e 1074), pow2_add by lia.
    apply Z.div_unique with (r := 2 ^ 1074); [lia|]. rewrite K5. ring.
  - apply Z.leb_gt in E0.
    pose proof (pow2_pos (- e) ltac:(lia)) as Pd.
    pose proof (pow2_pos (e + 1074) ltac:(lia)) as Pg.
    assert (Eg : 2 ^ 1074 = 2 ^ (- e) * 2 ^ (e + 1074)).
    { rewrite <- pow2_add by lia. f_equal. lia. }
    pose proof (Z.div_mod (Z.pos m) (2 ^ (- e)) ltac:(lia)) as Edm.
    pose proof (Z.mod_pos_bound (Z.pos m) (2 ^ (- e)) Pd) as Rb.
    set (d := 2 ^ (- e)) in *. set (g := 2 ^ (e + 1074)) in *.
    set (q := Z.pos m / d) in *. set (r := Z.pos m mod d) in *.
    rewrite K5, Eg.
    destruct (d <=? 2 * r) eqn:Er.
    + apply Z.leb_le in Er. apply Z.div_unique with (r := (2 * r - d) * g); [nia|]. rewrite Edm. ring.
    + apply Z.leb_gt in Er. apply Z.div_unique with (r := (2 * r + d) * g); [nia|]. rewrite Edm. ring.
Qed.

(** *** [mul_div] on operands whose product stays small *)

Lemma valid_of_canon (s : bool) (m : positive) (e : Z) :
  canon (Z.pos m) e -> e <= 971 -> valid_binary (S754_finite s m e) = true.
Proof.
  intros C B. unfold valid_binary, SpecFloat.valid_binary, bounded, canonical_mantissa.
  apply andb_true_intro. split; [apply Z.eqb_eq; exact C | apply Z.leb_le; exact B].
Qed.

Lemma of_Z_zero : Prim2SF (Dbl.of_Z 0) = S754_zero false.
Proof. reflexivity. Qed.

Lemma of_Z_int (z : Z) :
  0 < Z.abs z < 2 ^ 53 ->
  exists m e,
    Prim2SF (Dbl.of_Z z) = S754_finite (z <? 0) m e /\
    canon (Z.pos m) e /\ -52 <= e <= 0 /\
    fval (Z.pos m) e = fval (Z.abs z) 0.
Proof.
  intros Hz. destruct (normalize_int z Hz) as (m & e & E & C & B & V).
  exists m, e. split; [|auto].
  unfold Dbl.of_Z. rewrite E. apply Prim2SF_SF2Prim.
  apply valid_of_canon; [exact C | lia].
Qed.

Lemma abs_sgn_mul (n j : Z) :
  0 <= j -> Z.abs (Z.sgn n * j) = if n =? 0 then 0 else j.
Proof. intros Hj. destruct n; cbn [Z.sgn Z.eqb]; lia. Qed.

(** Every non-zero [int64_t] converts to a finite non-zero double. *)
Lemma of_Z_finite (z : Z) :
  z <> 0 -> Z.abs z <= 2 ^ 63 ->
  exists m e, Prim2SF (Dbl.of_Z z) = S754_finite (z <? 0) m e.
Proof.
  intros Hz Hb.
  destruct (repr_spec (2 ^ 52) 11 ltac:(split; [reflexivity | reflexivity]) ltac:(lia))
    as (Um & Uc & Uv & Ue).
  destruct (repr_spec 1 0 ltac:(split; reflexivity) ltac:(lia)) as (Lm & Lc & Lv & Le).
  assert (EU : fval (2 ^ 52) 11 = 2 ^ 63 * 2 ^ 1074) by reflexivity.
  assert (EL : fval 1 0 = 2 ^ 1074) by reflexivity.
  assert (K : 0 < 2 ^ 1074) by (apply pow2_pos; lia).
  assert (H : exists m e,
            binary_normalize prec emax z 0 false = S754_finite (z <? 0) m e /\
            canon (Z.pos m) e /\ e <= 971).
  { destruct z as [|p|p]; [contradiction | |];
      cbn [binary_normalize Z.abs Z.ltb Z.compare] in *.
    - destruct (binary_round_le false p 0 (repr_m (2 ^ 52) 11) (repr_e (2 ^ 52) 11))
        as [L S]; try assumption; try lia.
      { rewrite Uv, EU. unfold fval. change (0 + 1074) with 1074. nia. }
      destruct (binary_round_ge false p 0 (repr_m 1 0) (repr_e 1 0))
        as [G _]; try assumption; try lia.
      { rewrite Lv, EL. unfold fval. change (0 + 1074) with 1074. nia. }
      destruct (binary_round prec emax false p 0) as [s|s| |s m e];
        cbn in L, G, S; try contradiction.
      subst s. exists m, e. destruct L as (C & B & _). auto.
    - destruct (binary_round_le true p 0 (repr_m (2 ^ 52) 11) (repr_e (2 ^ 52) 11))
        as [L S]; try assumption; try lia.
      { rewrite Uv, EU. unfold fval. change (0 + 1074) with 1074. nia. }
      destruct (binary_round_ge true p 0 (repr_m 1 0) (repr_e 1 0))
        as [G _]; try assumption; try lia.
      { rewrite Lv, EL. unfold fval. change (0 + 1074) with 1074. nia. }
      destruct (binary_round prec emax true p 0) as [s|s| |s m e];
        cbn in L, G, S; try contradiction.
      subst s. exists m, e. destruct L as (C & B & _). auto. }
  destruct H as (m & e & E & C & B). exists m, e.
  unfold Dbl.of_Z. rewrite E. apply Prim2SF_SF2Prim. apply valid_of_canon; assumption.
Qed.

(** The exact rounding of the claim, on magnitudes. *)
Lemma round_div_abs (n d : Z) :
  d <> 0 ->
  round_div n d
  = Z.sgn n * Z.sgn d *
    (Z.abs n / Z.abs d + (if Z.abs d <=? 2 * (Z.abs n mod Z.abs d) then 1 else 0)).
Proof.
  intros Hd. unfold round_div. cbv zeta.
  rewrite (Z.quot_div n d Hd), (Z.rem_mod n d Hd).
  pose proof (Z.mod_pos_bound (Z.abs n) (Z.abs d) ltac:(lia)) as Rb.
  set (k := Z.abs n / Z.abs d). set (j := Z.abs n mod Z.abs d) in *.
  rewrite (abs_sgn_mul n j) by lia.
  destruct (Z.eqb_spec n 0) as [->|Hn].
  - cbn [Z.sgn]. subst j k. cbn [Z.abs]. rewrite Z.mod_0_l, Z.div_0_l by lia.
    replace (Z.abs d <=? 2 * 0) with false by (symmetry; apply Z.leb_gt; lia).
    reflexivity.
  - destruct (Z.abs d <=? 2 * j); ring.
Qed.

Lemma to_i64_finite (x : float) (s : bool) (m : positive) (e v : Z) :
  Prim2SF x = S754_finite s m e ->
  Dbl.round_half_away m e = v -> 0 <= v <= 2 ^ 62 ->
  Dbl.to_i64 x = if s then - v else v.
Proof.
  intros E Hv Hb. unfold Dbl.to_i64, Dbl.round. rewrite E, Hv.
  assert (I64.min = - 2 ^ 63) by reflexivity.
  assert (I64.max = 2 ^ 63 - 1) by reflexivity.
  assert (2 ^ 63 = 2 * 2 ^ 62) by reflexivity.
  destruct s.
  - replace ((I64.min <=? - v) && (- v <=? I64.max)) with true; [reflexivity|].
    symmetry. apply andb_true_intro. split; apply Z.leb_le; lia.
  - replace ((I64.min <=? v) && (v <=? I64.max)) with true; [reflexivity|].
    symmetry. apply andb_true_intro. split; apply Z.leb_le; lia.
Qed.

Lemma to_i64_zero (x : float) (s : bool) :
  Prim2SF x = S754_zero s -> Dbl.to_i64 x = 0.
Proof. intros E. unfold Dbl.to_i64, Dbl.round. rewrite E. reflexivity. Qed.

Lemma sgn_of_signs (x y d : Z) :
  x <> 0 -> y <> 0 -> d <> 0 ->
  Z.sgn (x * y) * Z.sgn d
  = if xorb (xorb (x <? 0) (y <? 0)) (d <? 0) then -1 else 1.
Proof.
  intros Hx Hy Hd. destruct x, y, d; try contradiction; reflexivity.
Qed.

(** [mul_div x y d] is the exactly rounded quotient when the product and
    the divisor are below [2^53] and the quotient leaves [t] spare bits, [t]
    being large enough to separate a fraction below one half from one
    half. *)
Lemma mul_div_exact (x y d t : Z) :
  Z.abs x <= 2 ^ 63 -> Z.abs y <= 2 ^ 63 ->
  Z.abs (x * y) < 2 ^ 53 -> 0 < Z.abs d < 2 ^ 53 ->
  2 <= t <= 1074 ->
  (Z.abs (x * y) / Z.abs d + 1) * 2 ^ t <= 2 ^ 53 ->
  (2 * (Z.abs (x * y) mod Z.abs d) < Z.abs d ->
   2 ^ t * (Z.abs (x * y) mod Z.abs d) <= (2 ^ (t - 1) - 1) * Z.abs d) ->
  FixedPoint.mul_div x y d = round_div (x * y) d.
Proof.
  intros Hxr Hyr HP HC Ht Hk Hgap.
  assert (Hd : d <> 0) by lia.
  rewrite (round_div_abs (x * y) d Hd).
  unfold FixedPoint.mul_div.
  pose proof (pow2_pos t ltac:(lia)) as Pt.
  assert (Pt2 : 4 <= 2 ^ t).
  { change 4 with (2 ^ 2). apply pow2_le. lia. }
  destruct (of_Z_int d HC) as (mc & ec & Ec & Cc & Bc & Vc).
  destruct (Z.eq_dec (x * y) 0) as [E0|Hn].
  - (* a zero operand *)
    rewrite E0. cbn [Z.sgn Z.mul].
    assert (Ez : exists s, Prim2SF (PrimFloat.mul (Dbl.of_Z x) (Dbl.of_Z y)) = S754_zero s).
    { rewrite mul_spec. unfold SF64mul.
      destruct (Z.eq_dec x 0) as [->|Hx].
      - rewrite of_Z_zero.
        destruct (Z.eq_dec y 0) as [->|Hy].
        + rewrite of_Z_zero. eexists. reflexivity.
        + destruct (of_Z_finite y Hy Hyr) as (m & e & ->). eexists. reflexivity.
      - assert (y = 0) by nia. subst y. rewrite of_Z_zero.
        destruct (of_Z_finite x Hx Hxr) as (m & e & ->). eexists. reflexivity. }
    destruct Ez as [s Ez].
    apply (to_i64_zero _ (xorb s (d <? 0))).
    rewrite div_spec, Ez, Ec. reflexivity.
  - assert (Hx : x <> 0) by nia. assert (Hy : y <> 0) by nia.
    assert (HPxy : Z.abs (x * y) = Z.abs x * Z.abs y) by apply Z.abs_mul.
    assert (Hxb : 0 < Z.abs x < 2 ^ 53) by nia.
    assert (Hyb : 0 < Z.abs y < 2 ^ 53) by nia.
    destruct (of_Z_int x Hxb) as (ma & ea & Ea & Ca & Ba & Va).
    destruct (of_Z_int y Hyb) as (mb & eb & Eb & Cb & Bb & Vb).
    destruct (SFmul_exact (x <? 0) (y <? 0) ma mb ea eb (Z.abs x) (Z.abs y)
                Ca Cb Ba Bb Va Vb ltac:(lia) ltac:(lia) ltac:(lia))
      as (mp & ep & Ep & Cp & Bp & Vp).
    rewrite <- HPxy in Vp.
    assert (EQ : Prim2SF (PrimFloat.div (PrimFloat.mul (Dbl.of_Z x) (Dbl.of_Z y))
                                        (Dbl.of_Z d))
                 = SFdiv prec emax
                     (S754_finite (xorb (x <? 0) (y <? 0)) mp ep)
                     (S754_finite (d <? 0) mc ec)).
    { rewrite div_spec, mul_spec, Ea, Eb, Ec. unfold SF64div, SF64mul.
      rewrite Ep. reflexivity. }
    rewrite (sgn_of_signs x y d Hx Hy Hd).
    set (P := Z.abs (x * y)) in *. set (C := Z.abs d) in *.
    set (sg := xorb (xorb (x <? 0) (y <? 0)) (d <? 0)) in *.
    assert (HP0 : 0 < P) by (unfold P; lia).
    pose proof (Z.div_pos P C ltac:(lia) ltac:(lia)) as Hk0.
    pose proof (Z.mod_pos_bound P C ltac:(lia)) as Rb.
    pose proof (Z.div_mod P C ltac:(lia)) as Edm.
    assert (K : 0 < 2 ^ 1074) by (apply pow2_pos; lia).
    assert (K5 : 2 ^ 1075 = 2 * 2 ^ 1074) by reflexivity.
    assert (K3 : 2 ^ 1074 = 2 * 2 ^ 1073) by reflexivity.
    assert (Hk52 : P / C + 1 <= 2 ^ 52).
    { clear - Hk Pt2 Hk0.
      assert ((P / C + 1) * 4 <= (P / C + 1) * 2 ^ t)
        by (apply Z.mul_le_mono_nonneg_l; lia).
      lia. }
    assert (Hk62 : P / C + 1 <= 2 ^ 62) by lia.
    destruct (C <=? 2 * (P mod C)) eqn:Hup.
    + (* the fraction is at least one half *)
      apply Z.leb_le in Hup.
      destruct (SFdiv_round_up (xorb (x <? 0) (y <? 0)) (d <? 0) mp mc ep ec P C)
        as (m & e & EQ' & He & Lo & Hi); try assumption; try lia.
      rewrite EQ' in EQ. fold sg in EQ.
      rewrite (to_i64_finite _ sg m e (P / C + 1) EQ).
      * destruct sg; ring.
      * rewrite round_half_away_floor by assumption.
        symmetry. apply Z.div_unique with (r := 2 * fval (Z.pos m) e + 2 ^ 1074
                                                  - (P / C + 1) * 2 ^ 1075); lia.
      * lia.
    + (* the fraction is below one half *)
      apply Z.leb_gt in Hup.
      pose proof (pow2_pos (t - 1) ltac:(lia)) as Pt1.
      assert (Et : 2 ^ t = 2 * 2 ^ (t - 1)).
      { replace t with (1 + (t - 1)) at 1 by lia. rewrite pow2_add by lia. reflexivity. }
      assert (Hgy : P * 2 ^ t <= (P / C * 2 ^ t + 2 ^ (t - 1) - 1) * C).
      { specialize (Hgap Hup). clear - Hgap Edm.
        rewrite Edm at 1.
        replace ((C * (P / C) + P mod C) * 2 ^ t)
          with (C * (P / C) * 2 ^ t + 2 ^ t * (P mod C)) by ring.
        replace ((P / C * 2 ^ t + 2 ^ (t - 1) - 1) * C)
          with (C * (P / C) * 2 ^ t + (2 ^ (t - 1) - 1) * C) by ring.
        lia. }
      destruct (SFdiv_round_down (xorb (x <? 0) (y <? 0)) (d <? 0) mp mc ep ec P C t
                  Cp Cc Bp Bc Vp Vc ltac:(lia) HP0 Ht Hk Hgy)
        as [[EQ' Ek]|(m & e & EQ' & He & Lo & Hi)].
      * rewrite EQ' in EQ. rewrite (to_i64_zero _ _ EQ). rewrite Ek. destruct sg; reflexivity.
      * rewrite EQ' in EQ. fold sg in EQ.
        rewrite (to_i64_finite _ sg m e (P / C) EQ).
        -- destruct sg; ring.
        -- rewrite round_half_away_floor by assumption.
           assert (Hlt : 2 * fval (Z.pos m) e < (2 * (P / C) + 1) * 2 ^ 1074).
           { clear - Hi Et Pt1 K.
             assert (H1 : fval (Z.pos m) e * 2 ^ (t - 1) * 2
                          < (2 * (P / C) + 1) * 2 ^ 1074 * 2 ^ (t - 1)).
             { replace (fval (Z.pos m) e * 2 ^ (t - 1) * 2)
                 with (fval (Z.pos m) e * (2 * 2 ^ (t - 1))) by ring.
               rewrite <- Et.
               replace ((2 * (P / C) + 1) * 2 ^ 1074 * 2 ^ (t - 1))
                 with ((P / C * (2 * 2 ^ (t - 1)) + 2 ^ (t - 1)) * 2 ^ 1074) by ring.
               rewrite <- Et.
               assert ((P / C * 2 ^ t + 2 ^ (t - 1) - 1) * 2 ^ 1074
                       < (P / C * 2 ^ t + 2 ^ (t - 1)) * 2 ^ 1074)
                 by (apply Z.mul_lt_mono_pos_r; lia).
               lia. }
             replace (fval (Z.pos m) e * 2 ^ (t - 1) * 2)
               with (2 * fval (Z.pos m) e * 2 ^ (t - 1)) in H1 by ring.
             apply Z.mul_lt_mono_pos_r in H1; assumption. }
           symmetry. apply Z.div_unique with (r := 2 * fval (Z.pos m) e + 2 ^ 1074
                                                     - (P / C) * 2 ^ 1075); lia.
        -- lia.
Qed.

End Binary64.

(** ** Fixed-point multiplication and division *)

Section MulDivFacts.
Import FixedPoint.

(** C6 as stated does not hold.  36167.87773936 times 81.45687856: the
    exact product of the raw values divided by [10^8] has fractional part
    below one half, so it rounds to ...797, but the product is first rounded
    to binary64 and the quotient comes out above the half, so [operator*]
    returns ...798.  The same happens in [operator/] for
    38060.60055304 / 0.0049352, and the raw value [2^53 + 1] is not even
    preserved by a multiplication by one. *)
Lemma mul_not_exact :
  mul 8 3616787773936 8145687856 = 294612242478798 /\
  exact_mul 8 3616787773936 8145687856 = 294612242478797 /\
  div 8 3806060055304 493520 = 771206851860918 /\
  exact_div 8 3806060055304 493520 = 771206851860917 /\
  mul 8 9007199254740993 100000000 = 9007199254740992 /\
  exact_mul 8 9007199254740993 100000000 = 9007199254740993.
Proof. vm_compute. repeat split; reflexivity. Qed.

Lemma mul_exact_small (a b : Z) :
  I64.min <= a <= I64.max -> I64.min <= b <= I64.max ->
  Z.abs (a * b) < 2 ^ 26 * 10 ^ 8 ->
  mul 8 a b = exact_mul 8 a b.
Proof.
  intros Ha Hb Hp. unfold mul, exact_mul.
  change (scale 8) with 100000000. change (10 ^ 8) with 100000000 in *.
  assert (I64.min = - 2 ^ 63) by reflexivity.
  assert (I64.max = 2 ^ 63 - 1) by reflexivity.
  assert (HC : Z.abs 100000000 = 100000000) by reflexivity.
  pose proof (Z.abs_nonneg (a * b)) as Hp0.
  assert (Hk : Z.abs (a * b) / 100000000 < 2 ^ 26)
    by (apply Z.div_lt_upper_bound; lia).
  pose proof (Z.div_pos (Z.abs (a * b)) 100000000 Hp0 ltac:(lia)).
  apply (mul_div_exact a b 100000000 27); rewrite ?HC; try lia.
Qed.

Lemma div_exact_small (a b : Z) :
  I64.min <= a <= I64.max ->
  0 < Z.abs b <= 2 ^ 26 -> Z.abs a * 10 ^ 8 < 2 ^ 26 * Z.abs b ->
  div 8 a b = exact_div 8 a b.
Proof.
  intros Ha Hb Hp. unfold div, exact_div.
  destruct (Z.eqb_spec b 0) as [->|Hnz]; [cbn in Hb; lia|].
  change (mul_scale a (scale 8) b) with (mul_div a 100000000 b).
  change (10 ^ 8) with 100000000 in *.
  assert (I64.min = - 2 ^ 63) by reflexivity.
  assert (I64.max = 2 ^ 63 - 1) by reflexivity.
  assert (HP : Z.abs (a * 100000000) = Z.abs a * 100000000).
  { rewrite Z.abs_mul. reflexivity. }
  pose proof (Z.abs_nonneg a) as Ha0.
  assert (Hk : Z.abs a * 100000000 / Z.abs b < 2 ^ 26).
  { apply Z.div_lt_upper_bound; lia. }
  pose proof (Z.div_pos (Z.abs a * 100000000) (Z.abs b) ltac:(lia) ltac:(lia)).
  apply (mul_div_exact a 100000000 b 27); rewrite ?HP;
    change (Z.abs 100000000) with 100000000; lia.
Qed.

(** C6, amended.  With [Decimals = 8], [operator*] is [std::round] of a
    quotient evaluated in binary64, every conversion and operation rounding
    to nearest; its result is the exactly rounded
    [round(a.raw * b.raw / 10^8)] whenever [|a.raw * b.raw| < 2^26 * 10^8].
    [try_divide] is [None] for a zero divisor and otherwise the exactly
    rounded [round(a.raw * 10^8 / b.raw)], as the specification words it. *)
Theorem mul_div_contract :
  (forall a b,
     mul 8 a b =
     Dbl.to_i64 (PrimFloat.div (PrimFloat.mul (Dbl.of_Z a) (Dbl.of_Z b))
                               (Dbl.of_Z 100000000))) /\
  (forall a b,
     I64.min <= a <= I64.max -> I64.min <= b <= I64.max ->
     Z.abs (a * b) < 2 ^ 26 * 10 ^ 8 ->
     mul 8 a b = exact_mul 8 a b) /\
  (forall a, try_divide 8 a 0 = None) /\
  (forall a b, b <> 0 -> try_divide 8 a b = Some (exact_div 8 a b)).
Proof.
  split; [reflexivity|].
  split; [exact mul_exact_small|].
  split; [intro a; reflexivity|].
  intros a b Hb. unfold try_divide, exact_div.
  destruct (Z.eqb_spec b 0) as [E|E]; [contradiction | reflexivity].
Qed.

End MulDivFacts.

(** ** Order-book imbalance *)

Section ImbalanceFacts.
Import Book.

(** [+0], a positive finite number or [+inf]. *)
Definition nonneg_double (x : float) : Prop :=
  match Prim2SF x with
  | S754_zero false | S754_finite false _ _ | S754_infinity false => True
  | _ => False
  end.

(** [std::isfinite]. *)
Definition finite_double (x : float) : bool :=
  match Prim2SF x with
  | S754_zero _ | S754_finite _ _ _ => true
  | _ => false
  end.

Lemma positive_qty_shape (q : Quantity) :
  positive_qty q = true ->
  match Prim2SF q with
  | S754_finite false _ _ | S754_infinity false => True
  | _ => False
  end.
Proof.
  unfold positive_qty. rewrite ltb_spec.
  change (Prim2SF 0) with (S754_zero false).
  destruct (Prim2SF q) as [s|s| |s m e]; try destruct s; cbn; intros H;
    first [exact I | discriminate].
Qed.

Lemma add_nonneg (acc q : float) :
  nonneg_double acc -> positive_qty q = true -> nonneg_double (acc + q).
Proof.
  unfold nonneg_double. intros Ha Hq. apply positive_qty_shape in Hq.
  rewrite add_spec.
  pose proof (Prim2SF_valid acc) as Va. pose proof (Prim2SF_valid q) as Vq.
  destruct (Prim2SF acc) as [sa|sa| |sa ma ea]; try destruct sa; try contradiction;
  destruct (Prim2SF q) as [sq|sq| |sq mq eq]; try destruct sq; try contradiction;
    try exact I.
  apply valid_finite in Va, Vq. destruct Va as [Ca _]. destruct Vq as [Cq _].
  destruct (SFadd_pos ma mq ea eq Ca Cq) as (S & G & _).
  unfold SF64add.
  destruct (SFadd prec emax (S754_finite false ma ea) (S754_finite false mq eq))
    as [s|s| |s m e]; cbn in S, G; try contradiction; subst; exact I.
Qed.

Lemma sum_nonneg (l : list PriceLevel) (acc : float) :
  Forall (fun lv => positive_qty (snd lv) = true) l ->
  nonneg_double acc ->
  nonneg_double (fold_left (fun a lv => PrimFloat.add a (snd lv)) l acc).
Proof.
  intros H. revert acc. induction H as [|lv l Hq _ IH]; intros acc Ha; cbn [fold_left].
  - exact Ha.
  - apply IH. apply add_nonneg; assumption.
Qed.

Lemma sum_top_nonneg (n : nat) (m : list PriceLevel) :
  Forall (fun lv => positive_qty (snd lv) = true) m -> nonneg_double (sum_top n m).
Proof.
  intros H. unfold sum_top. apply sum_nonneg.
  - apply Forall_take. exact H.
  - exact I.
Qed.

Lemma compare_cont_le (a b : positive) :
  Z.pos a <= Z.pos b ->
  Pos.compare_cont Eq a b = Lt \/ Pos.compare_cont Eq a b = Eq.
Proof.
  intros H. change (Pos.compare_cont Eq a b) with (Pos.compare a b).
  destruct (Pos.compare a b) eqn:E; auto.
  rewrite Pos.compare_gt_iff in E. apply Pos2Z.pos_lt_pos in E. lia.
Qed.

Lemma compare_cont_ge (a b : positive) :
  Z.pos b <= Z.pos a ->
  Pos.compare_cont Eq a b = Gt \/ Pos.compare_cont Eq a b = Eq.
Proof.
  intros H. change (Pos.compare_cont Eq a b) with (Pos.compare a b).
  destruct (Pos.compare a b) eqn:E; auto.
  rewrite Pos.compare_lt_iff in E. apply Pos2Z.pos_lt_pos in E. lia.
Qed.

Lemma unit_range (x : spec_float) :
  valid_binary x = true -> unit_float x ->
  SFleb (S754_finite true 4503599627370496 (-52)) x = true /\
  SFleb x (S754_finite false 4503599627370496 (-52)) = true.
Proof.
  intros V U. destruct x as [s|s| |s m e]; cbn [unit_float] in U; try contradiction.
  - destruct s; split; reflexivity.
  - apply valid_finite in V. destruct V as [C _]. destruct U as [He Hm].
    assert (Hone : e < -52 \/ (e = -52 /\ Z.pos m <= Z.pos 4503599627370496)).
    { pose proof (pow2_lt (- e) (- e + 1) ltac:(lia)).
      assert (Zdigits2 (Z.pos m) <= - e + 1) by (apply Zdigits2_le; lia).
      unfold canon in C. rewrite fexp_eq in C.
      destruct (Z.eq_dec e (-52)) as [->|]; [right | left; lia].
      split; [reflexivity|]. exact Hm. }
    clear He Hm C.
    unfold SFleb, SFcompare. destruct s.
    + split; [|reflexivity]. destruct Hone as [Hlt|[-> Hm']].
      * rewrite (proj2 (Z.compare_gt_iff (-52) e)) by lia. reflexivity.
      * rewrite Z.compare_refl.
        destruct (compare_cont_ge _ _ Hm') as [-> | ->]; reflexivity.
    + split; [reflexivity|]. destruct Hone as [Hlt|[-> Hm']].
      * rewrite (proj2 (Z.compare_lt_iff e (-52))) by lia. reflexivity.
      * rewrite Z.compare_refl.
        destruct (compare_cont_le _ _ Hm') as [-> | ->]; reflexivity.
Qed.

Lemma imbalance_unit (x y : spec_float) :
  valid_binary x = true -> valid_binary y = true ->
  match x with S754_zero false | S754_finite false _ _ => True | _ => False end ->
  match y with S754_zero false | S754_finite false _ _ => True | _ => False end ->
  SFleb (SFadd prec emax x y) (S754_zero false) = false ->
  unit_float (SFdiv prec emax (SFsub prec emax x y) (SFadd prec emax x y)).
Proof.
  intros Vx Vy Hx Hy Ht.
  destruct x as [sx|sx| |sx mx ex]; try destruct sx; try contradiction;
  destruct y as [sy|sy| |sy my ey]; try destruct sy; try contradiction.
  - discriminate.
  - cbn [SFadd SFsub negb]. rewrite SFdiv_same. cbn. split; [lia | reflexivity].
  - cbn [SFadd SFsub]. rewrite SFdiv_same. cbn. split; [lia | reflexivity].
  - apply valid_finite in Vx, Vy. destruct Vx as [Cx Bx]. destruct Vy as [Cy By].
    destruct (SFadd_pos mx my ex ey Cx Cy) as (St & Gx & Gy).
    pose proof (SFsub_pos mx my ex ey Cx Bx Cy By) as Ld.
    cbv zeta in Ld.
    destruct (SFadd prec emax (S754_finite false mx ex) (S754_finite false my ey))
      as [st|st| |st mt et]; cbn in St, Gx, Gy; try contradiction.
    + destruct (SFsub prec emax (S754_finite false mx ex) (S754_finite false my ey))
        as [sd|sd| |sd md ed]; cbn in Ld; try (destruct Ld; contradiction); exact I.
    + destruct Gx as [Ct Hx']. destruct Gy as [_ Hy'].
      destruct (SFsub prec emax (S754_finite false mx ex) (S754_finite false my ey))
        as [sd|sd| |sd md ed]; cbn in Ld; try (destruct Ld; contradiction).
      * exact I.
      * apply SFdiv_le_one; try assumption.
        -- destruct Ld as [(C & _)|(C & _)]; exact C.
        -- destruct Ld as [(_ & _ & H)|(_ & _ & H)]; lia.
Qed.

(** For non-negative finite volumes with a positive total the quotient
    lies between minus one and one. *)
Lemma imbalance_range_core (B A : float) :
  nonneg_double B -> nonneg_double A ->
  finite_double B = true -> finite_double A = true ->
  PrimFloat.leb (B + A) 0 = false ->
  PrimFloat.leb (-1) ((B - A) / (B + A)) = true /\
  PrimFloat.leb ((B - A) / (B + A)) 1 = true.
Proof.
  unfold nonneg_double, finite_double. intros HB HA FB FA Ht.
  rewrite leb_spec in Ht. rewrite !leb_spec.
  change (Prim2SF 0) with (S754_zero false) in Ht.
  change (Prim2SF 1) with (S754_finite false 4503599627370496 (-52)).
  change (Prim2SF (-1)) with (S754_finite true 4503599627370496 (-52)).
  apply unit_range; [apply Prim2SF_valid|].
  rewrite div_spec, sub_spec, add_spec. rewrite add_spec in Ht.
  apply imbalance_unit; try apply Prim2SF_valid; try assumption.
  - destruct (Prim2SF B) as [s|s| |s m e]; try destruct s; try contradiction;
      try discriminate; exact I.
  - destruct (Prim2SF A) as [s|s| |s m e]; try destruct s; try contradiction;
      try discriminate; exact I.
Qed.

(** The operations of the claim, applied in sequence to a fresh book. *)
Inductive BookOp : Type :=
| OpSnapshot (s : DepthSnapshot)
| OpUpdate (u : DepthUpdate)
| OpClear.

Definition apply_op (b : OrderBook) (op : BookOp) : OrderBook :=
  match op with
  | OpSnapshot s => snd (apply_snapshot b s)
  | OpUpdate u => snd (apply_update b u)
  | OpClear => clear b
  end.

Definition run_ops (b : OrderBook) (ops : list BookOp) : OrderBook :=
  fold_left apply_op ops b.

Lemma run_ops_invariant (b : OrderBook) (ops : list BookOp) :
  book_positive b ->
  book_positive (run_ops b ops) /\
  imbalance_levels_ (run_ops b ops) = imbalance_levels_ b.
Proof.
  unfold run_ops. revert b. induction ops as [|op ops IH]; intros b Hb; cbn [fold_left].
  - split; [exact Hb | reflexivity].
  - assert (H : book_positive (apply_op b op) /\
                imbalance_levels_ (apply_op b op) = imbalance_levels_ b).
    { destruct op as [s|u|]; cbn [apply_op].
      - split; [apply apply_snapshot_positive | apply apply_snapshot_sides].
      - split; [apply apply_update_positive; exact Hb | apply apply_update_sides].
      - split; [split; constructor | reflexivity]. }
    destruct H as [H1 H2]. destruct (IH _ H1) as [H3 H4].
    split; [exact H3 | rewrite H4; exact H2].
Qed.

(** C9.  The range of the imbalance, which [snapshot.hpp] documents as
    "-1.0 to 1.0", is broken when a volume sum overflows: two bid levels of
    quantity [2^1023] (about 8.99e307, a finite double) have the sum
    [+inf], the guard [total <= 0.0] lets it pass, and the imbalance
    [inf / inf] is NaN, which is not within [-1, 1]. *)
Lemma imbalance_nan_on_overflow :
  let b := run_ops (create 10)
             [OpSnapshot (mkDepthSnapshot 1
                [(10000000000, 0x1p1023%float); (9900000000, 0x1p1023%float)] [])] in
  finite_double 0x1p1023%float = true /\
  PrimFloat.is_nan (calculate_imbalance b) = true /\
  PrimFloat.leb (-1) (calculate_imbalance b) = false /\
  PrimFloat.leb (calculate_imbalance b) 1 = false.
Proof. vm_compute. repeat split; reflexivity. Qed.

(** Where no volume sum overflows the imbalance is as specified.  After any
    sequence of [apply_snapshot], [apply_update] and [clear] on a fresh book
    with [L] imbalance levels, the imbalance is
    [(bid_volume - ask_volume) / total], where the volumes are the
    left-to-right binary64 sums of the first [L] quantities of each side
    and [total] their sum; it is zero when both sides are empty and when
    the total is not positive; and whenever both volumes are finite it lies
    in [[-1, 1]]. *)
Theorem imbalance_contract (L : nat) (ops : list BookOp) :
  let b := run_ops (create L) ops in
  let bid_volume := sum_top L (bids_ b) in
  let ask_volume := sum_top L (asks_ b) in
  let total := PrimFloat.add bid_volume ask_volume in
  calculate_imbalance b =
    (if is_empty (bids_ b) && is_empty (asks_ b) then 0%float
     else if PrimFloat.leb total 0 then 0%float
          else PrimFloat.div (PrimFloat.sub bid_volume ask_volume) total) /\
  (bids_ b = [] -> asks_ b = [] -> calculate_imbalance b = 0%float) /\
  (PrimFloat.leb total 0 = true -> calculate_imbalance b = 0%float) /\
  (finite_double bid_volume = true -> finite_double ask_volume = true ->
   PrimFloat.leb (-1) (calculate_imbalance b) = true /\
   PrimFloat.leb (calculate_imbalance b) 1 = true).
Proof.
  intros b bid_volume ask_volume total.
  destruct (run_ops_invariant (create L) ops) as [[Pb Pa] HL].
  { split; constructor. }
  fold b in Pb, Pa, HL. cbn [create imbalance_levels_] in HL.
  assert (E : calculate_imbalance b =
    (if is_empty (bids_ b) && is_empty (asks_ b) then 0%float
     else if PrimFloat.leb total 0 then 0%float
          else PrimFloat.div (PrimFloat.sub bid_volume ask_volume) total)).
  { unfold calculate_imbalance. rewrite HL. reflexivity. }
  split; [exact E|]. split; [|split].
  - intros Eb Ea. rewrite E, Eb, Ea. reflexivity.
  - intros Ht. rewrite E, Ht. destruct (is_empty (bids_ b) && is_empty (asks_ b)); reflexivity.
  - intros FB FA. rewrite E.
    destruct (is_empty (bids_ b) && is_empty (asks_ b)); [split; reflexivity|].
    destruct (PrimFloat.leb total 0) eqn:Ht; [split; reflexivity|].
    apply imbalance_range_core; try assumption.
    + apply sum_top_nonneg. exact Pb.
    + apply sum_top_nonneg. exact Pa.
Qed.

End ImbalanceFacts.

(** * Further properties of the code *)

(** ** The order book as a map from price to quantity *)

Section SideLookup.
Import Book.

Variable before : FixedPrice -> FixedPrice -> bool.
Hypothesis before_irrefl : forall k, before k k = false.
Hypothesis before_trans :
  forall a b c, before a b = true -> before b c = true -> before a c = true.
Hypothesis before_total :
  forall a b, before a b = false -> before b a = false -> a = b.

Lemma find_assign_other (p k : FixedPrice) (v : Quantity) (m : list PriceLevel) :
  p <> k -> find before p (assign before k v m) = find before p m.
Proof.
  intros Hne. induction m as [|[k' v'] tl IH]; cbn [assign find].
  - destruct (before p k) eqn:E1; [reflexivity|].
    destruct (before k p) eqn:E2; [reflexivity|].
    destruct Hne. apply before_total; assumption.
  - destruct (before k k') eqn:Ekk'; cbn [find].
    + destruct (before p k) eqn:E1.
      * rewrite (before_trans p k k' E1 Ekk'). reflexivity.
      * destruct (before k p) eqn:E2; [reflexivity|].
        destruct Hne. apply before_total; assumption.
    + destruct (before k' k) eqn:Ek'k; cbn [find].
      * destruct (before p k'); [reflexivity|].
        destruct (before k' p); [exact IH | reflexivity].
      * pose proof (before_total k k' Ekk' Ek'k) as <-.
        destruct (before p k) eqn:E1; [reflexivity|].
        destruct (before k p) eqn:E2; [reflexivity|].
        destruct Hne. apply before_total; assumption.
Qed.

(** The entry found under a key is an entry of the map, and conversely. *)
Lemma find_In (p : FixedPrice) (q : Quantity) (m : list PriceLevel) :
  find before p m = Some q -> In (p, q) m.
Proof.
  induction m as [|[k' v'] tl IH]; cbn [find]; [discriminate|].
  destruct (before p k') eqn:E1; [discriminate|].
  destruct (before k' p) eqn:E2.
  - intros H. right. exact (IH H).
  - intros [= <-]. left. f_equal. symmetry. apply before_total; assumption.
Qed.

Lemma In_find (p : FixedPrice) (q : Quantity) (m : list PriceLevel) :
  ordered before m -> In (p, q) m -> find before p m = Some q.
Proof.
  intros Ho. unfold ordered in Ho.
  induction Ho as [|[k' v'] tl Hs IH Hall]; cbn [find]; [intros []|].
  intros [[= -> ->]|Hin].
  - rewrite before_irrefl. reflexivity.
  - rewrite List.Forall_forall in Hall. pose proof (Hall _ Hin) as Hk.
    unfold key_before in Hk. cbn [fst] in Hk. rewrite Hk.
    destruct (before p k') eqn:E1; [|exact (IH Hin)].
    pose proof (before_trans _ _ _ E1 Hk) as Hpp.
    rewrite before_irrefl in Hpp. discriminate.
Qed.

(** The quantity of the last entry for price [p] in a list of levels. *)
Fixpoint last_write (p : FixedPrice) (lvs : list PriceLevel) : option Quantity :=
  match lvs with
  | [] => None
  | (k, q) :: rest =>
      match last_write p rest with
      | Some q' => Some q'
      | None => if k =? p then Some q else None
      end
  end.

Lemma find_insert_positive (p : FixedPrice) (m : list PriceLevel) (lv : PriceLevel) :
  find before p (insert_positive before m lv)
  = if (fst lv =? p) && positive_qty (snd lv) then Some (snd lv)
    else find before p m.
Proof.
  destruct lv as [k q]. unfold insert_positive. cbn [fst snd].
  destruct (positive_qty q); [|rewrite andb_false_r; reflexivity].
  rewrite andb_true_r.
  destruct (Z.eqb_spec k p) as [->|Hne].
  - apply find_assign. exact before_irrefl.
  - apply find_assign_other. congruence.
Qed.

Lemma find_fold_insert_positive (p : FixedPrice) (lvs : list PriceLevel) :
  forall m,
  find before p (fold_left (insert_positive before) lvs m)
  = match last_write p (List.filter (fun lv => positive_qty (snd lv)) lvs) with
    | Some q => Some q
    | None => find before p m
    end.
Proof.
  induction lvs as [|[k q] rest IH]; intros m; cbn [fold_left List.filter].
  - reflexivity.
  - rewrite IH. rewrite find_insert_positive. cbn [fst snd].
    destruct (positive_qty q) eqn:Hq; cbn [last_write].
    + destruct (last_write p (List.filter (fun lv => positive_qty (snd lv)) rest));
        [reflexivity|].
      rewrite andb_true_r. destruct (k =? p); reflexivity.
    + rewrite andb_false_r. reflexivity.
Qed.

(** The first entry of an ordered side is before every other one. *)
Lemma ordered_head (x : PriceLevel) (tl : list PriceLevel) (y : PriceLevel) :
  ordered before (x :: tl) -> In y (x :: tl) ->
  y = x \/ before (fst x) (fst y) = true.
Proof.
  intros Ho [<-|Hin]; [left; reflexivity|]. right.
  inversion Ho as [|? ? _ Hall]; subst.
  rewrite List.Forall_forall in Hall. exact (Hall _ Hin).
Qed.

End SideLookup.

Section BookExtras.
Import Book.

(** A cached iterator that is marked valid is [begin()] of its side. *)
Definition cache_at_begin (b : OrderBook) : Prop :=
  (best_bid_valid_ b = true -> best_bid_it_ b = 0%nat) /\
  (best_ask_valid_ b = true -> best_ask_it_ b = 0%nat).

Lemma build_snapshot_cache (b : OrderBook) :
  cache_at_begin b -> cache_at_begin (snd (build_snapshot b)).
Proof.
  unfold cache_at_begin.
  destruct b as [bi ak id L bit ait [|] [|]]; destruct bi, ak; cbn;
    intros [H1 H2]; split; intros H; auto; discriminate.
Qed.

Lemma fold_bid_updates_cache (l : list PriceLevel) (b : OrderBook) :
  cache_at_begin b ->
  cache_at_begin (fold_left (fun bk lv => apply_bid_update bk (fst lv) (snd lv)) l b).
Proof.
  revert b. induction l as [|[p q] l IH]; intros b Hb; cbn [fold_left]; [exact Hb|].
  apply IH. destruct Hb as [_ H2]. unfold cache_at_begin, apply_bid_update.
  cbn [fst snd]. destruct (positive_qty q);
    [|destruct (find bid_before p (bids_ b))]; cbn; (split; [discriminate | exact H2]).
Qed.

Lemma fold_ask_updates_cache (l : list PriceLevel) (b : OrderBook) :
  cache_at_begin b ->
  cache_at_begin (fold_left (fun bk lv => apply_ask_update bk (fst lv) (snd lv)) l b).
Proof.
  revert b. induction l as [|[p q] l IH]; intros b Hb; cbn [fold_left]; [exact Hb|].
  apply IH. destruct Hb as [H1 _]. unfold cache_at_begin, apply_ask_update.
  cbn [fst snd]. destruct (positive_qty q);
    [|destruct (find ask_before p (asks_ b))]; cbn; (split; [exact H1 | discriminate]).
Qed.

Lemma apply_op_cache (b : OrderBook) (op : BookOp) :
  cache_at_begin b -> cache_at_begin (apply_op b op).
Proof.
  intros Hb. destruct op as [s|u|]; cbn [apply_op].
  - unfold apply_snapshot. apply build_snapshot_cache.
    split; cbn; discriminate.
  - unfold apply_update. apply build_snapshot_cache.
    assert (H := fold_ask_updates_cache (du_asks u) _
                   (fold_bid_updates_cache (du_bids u) b Hb)).
    destruct H as [H1 H2]. split; cbn; assumption.
  - split; cbn; discriminate.
Qed.

Lemma apply_op_sorted (b : OrderBook) (op : BookOp) :
  book_sorted b -> book_sorted (apply_op b op).
Proof.
  intros Hb. destruct op as [s|u|]; cbn [apply_op].
  - apply apply_snapshot_sorted.
  - apply apply_update_sorted; exact Hb.
  - split; constructor.
Qed.

Lemma run_ops_sorted_cache (ops : list BookOp) (b : OrderBook) :
  book_sorted b -> cache_at_begin b ->
  book_sorted (run_ops b ops) /\ cache_at_begin (run_ops b ops).
Proof.
  unfold run_ops. revert b.
  induction ops as [|op ops IH]; intros b Hs Hc; cbn [fold_left].
  - split; assumption.
  - apply IH; [apply apply_op_sorted | apply apply_op_cache]; assumption.
Qed.

(** Every book reached from a fresh one is strictly ordered on both sides,
    stores positive quantities only and has its valid cached iterators at
    [begin()]. *)
Lemma reachable_book (L : nat) (ops : list BookOp) :
  let b := run_ops (create L) ops in
  book_sorted b /\ book_positive b /\ cache_at_begin b /\ imbalance_levels_ b = L.
Proof.
  cbn zeta.
  assert (Hp : book_positive (create L)) by (split; constructor).
  destruct (run_ops_invariant (create L) ops Hp) as [Hpos HL].
  destruct (run_ops_sorted_cache ops (create L)) as [Hs Hc].
  { split; constructor. }
  { split; cbn; discriminate. }
  repeat split; try apply Hs; try apply Hpos; try apply Hc. exact HL.
Qed.

Lemma build_snapshot_id (b : OrderBook) :
  snap_last_update_id (fst (build_snapshot b)) = last_update_id_ b.
Proof.
  destruct b as [bi ak id L bit ait [|] [|]]; destruct bi, ak; reflexivity.
Qed.

(** The snapshot fields read from a book whose cache invariant holds. *)
Lemma build_snapshot_best (b : OrderBook) :
  cache_at_begin b ->
  let s := fst (build_snapshot b) in
  match bids_ b with
  | [] => best_bid s = 0%float /\ best_bid_qty s = 0%float
  | (k, q) :: _ => best_bid s = to_price k /\ best_bid_qty s = q
  end /\
  match asks_ b with
  | [] => best_ask s = 0%float /\ best_ask_qty s = 0%float
  | (k, q) :: _ => best_ask s = to_price k /\ best_ask_qty s = q
  end.
Proof.
  unfold cache_at_begin.
  destruct b as [bi ak id L bit ait bv av]. cbn [best_bid_valid_ best_ask_valid_
    best_bid_it_ best_ask_it_ bids_ asks_]. intros [H1 H2].
  destruct bv, av; try (rewrite (H1 eq_refl)); try (rewrite (H2 eq_refl));
    destruct bi as [|[kb qb] bi], ak as [|[ka qa] ak]; cbn; repeat split; reflexivity.
Qed.

Lemma build_snapshot_idem (b : OrderBook) :
  cache_at_begin b ->
  fst (build_snapshot (snd (build_snapshot b))) = fst (build_snapshot b).
Proof.
  unfold cache_at_begin.
  destruct b as [bi ak id L bit ait bv av]. cbn [best_bid_valid_ best_ask_valid_
    best_bid_it_ best_ask_it_ bids_ asks_]. intros [H1 H2].
  destruct bv, av; try (rewrite (H1 eq_refl)); try (rewrite (H2 eq_refl));
    destruct bi as [|[kb qb] bi], ak as [|[ka qa] ak]; reflexivity.
Qed.

Lemma build_snapshot_fresh_cache (bi ak : list PriceLevel) (id : SequenceId)
    (L bit ait bit' ait' : nat) :
  fst (build_snapshot (mkBook bi ak id L bit ait false false))
  = fst (build_snapshot (mkBook bi ak id L bit' ait' false false)).
Proof. destruct bi as [|[kb qb] bi], ak as [|[ka qa] ak]; reflexivity. Qed.

Lemma ordered_bids_head (k : FixedPrice) (q : Quantity) (tl : list PriceLevel)
    (k' : FixedPrice) (q' : Quantity) :
  ordered bid_before ((k, q) :: tl) -> In (k', q') ((k, q) :: tl) -> k' <= k.
Proof.
  intros Ho Hin.
  destruct (ordered_head bid_before (k, q) tl (k', q') Ho Hin) as [[= -> _]|H].
  - lia.
  - cbn [fst] in H. unfold bid_before, FixedPoint.gtb in H.
    rewrite Z.gtb_ltb in H. apply Z.ltb_lt in H. lia.
Qed.

Lemma ordered_asks_head (k : FixedPrice) (q : Quantity) (tl : list PriceLevel)
    (k' : FixedPrice) (q' : Quantity) :
  ordered ask_before ((k, q) :: tl) -> In (k', q') ((k, q) :: tl) -> k <= k'.
Proof.
  intros Ho Hin.
  destruct (ordered_head ask_before (k, q) tl (k', q') Ho Hin) as [[= -> _]|H].
  - lia.
  - cbn [fst] in H. unfold ask_before, FixedPoint.ltb in H.
    apply Z.ltb_lt in H. lia.
Qed.

Lemma ordered_NoDup (before : FixedPrice -> FixedPrice -> bool)
    (m : list PriceLevel) :
  (forall k, before k k = false) ->
  ordered before m -> List.NoDup (map fst m).
Proof.
  intros Hirr Ho. unfold ordered in Ho.
  induction Ho as [|x tl Hs IH Hall]; cbn [map]; constructor; [|exact IH].
  intros Hin. apply in_map_iff in Hin. destruct Hin as [y [Hy Hin]].
  rewrite List.Forall_forall in Hall. pose proof (Hall _ Hin) as Hk.
  unfold key_before in Hk. rewrite Hy in Hk. rewrite Hirr in Hk. discriminate.
Qed.

Lemma last_write_option (o : option Quantity) :
  match o with Some q => Some q | None => None end = o.
Proof. destruct o; reflexivity. Qed.

(** X2.  [apply_snapshot] replaces the book: whatever the book held before,
    the level found afterwards at price [p] on a side is the last entry for
    [p] among the snapshot's entries of positive quantity on that side (an
    entry of quantity zero is skipped, it does not remove an earlier entry),
    the update id is the snapshot's, and the returned metrics are those a
    fresh book with the same number of imbalance levels returns. *)
Theorem apply_snapshot_replaces_book (b : OrderBook) (s : DepthSnapshot)
    (p : FixedPrice) :
  let b' := snd (apply_snapshot b s) in
  find bid_before p (bids_ b')
  = last_write p (List.filter (fun lv => positive_qty (snd lv)) (ds_bids s)) /\
  find ask_before p (asks_ b')
  = last_write p (List.filter (fun lv => positive_qty (snd lv)) (ds_asks s)) /\
  last_update_id_ b' = last_update_id s /\
  fst (apply_snapshot b s) = fst (apply_snapshot (create (imbalance_levels_ b)) s).
Proof.
  cbn zeta.
  destruct (apply_snapshot_sides b s) as [Hb [Ha _]]. rewrite Hb, Ha.
  repeat split.
  - rewrite find_fold_insert_positive
      by (first [exact bid_before_irrefl | exact bid_before_trans
                | exact bid_before_total]).
    apply last_write_option.
  - rewrite find_fold_insert_positive
      by (first [exact ask_before_irrefl | exact ask_before_trans
                | exact ask_before_total]).
    apply last_write_option.
  - unfold apply_snapshot.
    match goal with |- last_update_id_ (snd (build_snapshot ?x)) = _ =>
      destruct (build_snapshot_sides x) as [_ [_ [H _]]]; exact H end.
  - unfold apply_snapshot. destruct b as [bi ak id L bit ait bv av].
    cbn. apply build_snapshot_fresh_cache.
Qed.

Lemma find_all_none (before : FixedPrice -> FixedPrice -> bool)
    (m : list PriceLevel) :
  (forall k, before k k = false) ->
  (forall p, find before p m = None) -> m = [].
Proof.
  intros Hirr H. destruct m as [|[k q] tl]; [reflexivity|].
  specialize (H k). cbn [find] in H. rewrite Hirr in H. discriminate.
Qed.

(** X3.  The best bid and the best ask of a snapshot are the extreme prices
    of the book: on any book reached from a fresh one, when the bid side
    holds a level the snapshot reports a stored bid level whose price no
    other bid exceeds, together with that level's quantity, and when the ask
    side holds a level it reports a stored ask level below which there is no
    other ask; a side without levels is reported as price 0 and quantity 0.
    The snapshots returned by [apply_update] and [apply_snapshot] are the
    ones [snapshot] returns on the resulting book. *)
Theorem best_prices_are_extreme (L : nat) (ops : list BookOp) :
  let b := run_ops (create L) ops in
  let s := fst (snapshot b) in
  ((forall p, find bid_before p (bids_ b) = None) ->
     best_bid s = 0%float /\ best_bid_qty s = 0%float) /\
  (forall p q, find bid_before p (bids_ b) = Some q ->
     exists k qk, find bid_before k (bids_ b) = Some qk /\
       best_bid s = to_price k /\ best_bid_qty s = qk /\ p <= k) /\
  ((forall p, find ask_before p (asks_ b) = None) ->
     best_ask s = 0%float /\ best_ask_qty s = 0%float) /\
  (forall p q, find ask_before p (asks_ b) = Some q ->
     exists k qk, find ask_before k (asks_ b) = Some qk /\
       best_ask s = to_price k /\ best_ask_qty s = qk /\ k <= p) /\
  (forall u, fst (apply_update b u) = fst (snapshot (snd (apply_update b u)))) /\
  (forall d, fst (apply_snapshot b d) = fst (snapshot (snd (apply_snapshot b d)))).
Proof.
  cbn zeta.
  destruct (reachable_book L ops) as [[Hsb Hsa] [_ [Hc _]]].
  set (b := run_ops (create L) ops) in *.
  destruct (build_snapshot_best b Hc) as [Hbid Hask]. cbn zeta in Hbid, Hask.
  unfold snapshot.
  split; [|split; [|split; [|split; [|split]]]].
  - intros Hnone.
    rewrite (find_all_none bid_before (bids_ b) bid_before_irrefl Hnone) in Hbid.
    exact Hbid.
  - intros p q Hf.
    apply (find_In bid_before bid_before_total) in Hf.
    destruct (bids_ b) as [|[k qk] tl] eqn:E; [destruct Hf|].
    destruct Hbid as [H1 H2]. exists k, qk. repeat split; try assumption.
    + cbn [find]. rewrite bid_before_irrefl. reflexivity.
    + exact (ordered_bids_head k qk tl p q Hsb Hf).
  - intros Hnone.
    rewrite (find_all_none ask_before (asks_ b) ask_before_irrefl Hnone) in Hask.
    exact Hask.
  - intros p q Hf.
    apply (find_In ask_before ask_before_total) in Hf.
    destruct (asks_ b) as [|[k qk] tl] eqn:E; [destruct Hf|].
    destruct Hask as [H1 H2]. exists k, qk. repeat split; try assumption.
    + cbn [find]. rewrite ask_before_irrefl. reflexivity.
    + exact (ordered_asks_head k qk tl p q Hsa Hf).
  - intros u. unfold apply_update. symmetry. apply build_snapshot_idem.
    assert (H := fold_ask_updates_cache (du_asks u) _
                   (fold_bid_updates_cache (du_bids u) b Hc)).
    destruct H as [H1 H2]. split; cbn; assumption.
  - intros d. unfold apply_snapshot. symmetry. apply build_snapshot_idem.
    split; cbn; discriminate.
Qed.

(** X4.  The book never holds a level of zero, negative or NaN quantity and
    never holds two levels at one price: on any book reached from a fresh
    one by snapshots, updates and clears, every level found has a quantity
    [q] with [0 < q], the prices of each side are pairwise distinct, and so
    the quantity reported for a non-empty side's best level is positive. *)
Theorem book_levels_positive_distinct (L : nat) (ops : list BookOp) :
  let b := run_ops (create L) ops in
  (forall p q, find bid_before p (bids_ b) = Some q -> PrimFloat.ltb 0%float q = true) /\
  (forall p q, find ask_before p (asks_ b) = Some q -> PrimFloat.ltb 0%float q = true) /\
  List.NoDup (map fst (bids_ b)) /\ List.NoDup (map fst (asks_ b)) /\
  (bids_ b <> [] -> PrimFloat.ltb 0%float (best_bid_qty (fst (snapshot b))) = true) /\
  (asks_ b <> [] -> PrimFloat.ltb 0%float (best_ask_qty (fst (snapshot b))) = true).
Proof.
  cbn zeta.
  destruct (reachable_book L ops) as [[Hsb Hsa] [[Hpb Hpa] [Hc _]]].
  set (b := run_ops (create L) ops) in *.
  unfold all_positive in Hpb, Hpa. rewrite List.Forall_forall in Hpb, Hpa.
  destruct (build_snapshot_best b Hc) as [Hbid Hask]. cbn zeta in Hbid, Hask.
  split; [|split; [|split; [|split; [|split]]]].
  - intros p q Hf. apply (find_In bid_before bid_before_total) in Hf.
    exact (Hpb _ Hf).
  - intros p q Hf. apply (find_In ask_before ask_before_total) in Hf.
    exact (Hpa _ Hf).
  - apply (ordered_NoDup bid_before); [exact bid_before_irrefl | exact Hsb].
  - apply (ordered_NoDup ask_before); [exact ask_before_irrefl | exact Hsa].
  - intros Hne. unfold snapshot.
    destruct (bids_ b) as [|[k qk] tl] eqn:E; [congruence|].
    destruct Hbid as [_ ->]. exact (Hpb (k, qk) (or_introl eq_refl)).
  - intros Hne. unfold snapshot.
    destruct (asks_ b) as [|[k qk] tl] eqn:E; [congruence|].
    destruct Hask as [_ ->]. exact (Hpa (k, qk) (or_introl eq_refl)).
Qed.

End BookExtras.

(** ** The engine's message handlers in sequence *)

Section EngineRuns.
Import Engine.

Lemma run_app (ms1 ms2 : list EngineMessage) :
  forall e,
  run e (ms1 ++ ms2)
  = (fst (run (fst (run e ms1)) ms2),
     snd (run e ms1) ++ snd (run (fst (run e ms1)) ms2)).
Proof.
  induction ms1 as [|m ms1 IH]; intros e; cbn [app run].
  - cbn [fst snd app]. destruct (run e ms2); reflexivity.
  - destruct (process_message e m) as [e1 out1]. rewrite IH.
    destruct (run e1 ms1) as [e2 out2]. cbn [fst snd].
    destruct (run e2 ms2) as [e3 out3]. cbn [fst snd].
    rewrite app_assoc. reflexivity.
Qed.

Lemma run_cons (e : MarketDataEngine) (m : EngineMessage) (ms : list EngineMessage) :
  run e (m :: ms)
  = (fst (run (fst (process_message e m)) ms),
     snd (process_message e m) ++ snd (run (fst (process_message e m)) ms)).
Proof.
  cbn [run]. destruct (process_message e m) as [e1 out1]. cbn [fst snd].
  destruct (run e1 ms) as [e2 out2]. reflexivity.
Qed.

Lemma handle_depth_update_gap (e : MarketDataEngine) (u : DepthUpdate) :
  sync_state_ e = Synced -> 0 < last_processed_id_ e ->
  prev_final_update_id u <> Book.last_update_id_ (order_book_ e) ->
  handle_depth_update e u
  = (mkEngine (Book.clear (order_book_ e)) (trade_flow_ e) WaitingSnapshot
              (last_processed_id_ e) (pending_alert_ e), [RequestSnapshot]).
Proof.
  intros Hs Hpos Hne. unfold handle_depth_update. rewrite Hs.
  cbn [SyncState_eqb negb]. apply Z.ltb_lt in Hpos. rewrite Hpos.
  unfold Book.has_sequence_gap. apply Z.eqb_neq in Hne. rewrite Hne. reflexivity.
Qed.

(** Depth updates that arrive while the engine is not synchronised change
    nothing. *)
Lemma run_updates_unsynced (us : list DepthUpdate) (e : MarketDataEngine) :
  sync_state_ e <> Synced -> run e (map DepthUpdateMsg us) = (e, []).
Proof.
  intros Hs. induction us as [|u us IH]; cbn [map run]; [reflexivity|].
  cbn [process_message]. unfold handle_depth_update.
  destruct (sync_state_ e) eqn:E; try congruence; cbn; rewrite IH; reflexivity.
Qed.

(** Each update names as [pu] the final id of the one before it, the first
    one the id [id]. *)
Fixpoint contiguous (id : SequenceId) (us : list DepthUpdate) : Prop :=
  match us with
  | [] => True
  | u :: rest => prev_final_update_id u = id /\ contiguous (final_update_id u) rest
  end.

Definition apply_updates (b : Book.OrderBook) (us : list DepthUpdate)
  : Book.OrderBook :=
  fold_left (fun bk u => snd (Book.apply_update bk u)) us b.

Definition final_id (id : SequenceId) (us : list DepthUpdate) : SequenceId :=
  fold_left (fun _ u => final_update_id u) us id.

Lemma run_contiguous (us : list DepthUpdate) :
  forall e,
  sync_state_ e = Synced ->
  last_processed_id_ e = Book.last_update_id_ (order_book_ e) ->
  contiguous (last_processed_id_ e) us ->
  run e (map DepthUpdateMsg us)
  = (mkEngine (apply_updates (order_book_ e) us) (trade_flow_ e) Synced
              (final_id (last_processed_id_ e) us) (pending_alert_ e), []).
Proof.
  induction us as [|u us IH]; intros e Hs Hid Hc; cbn [map run].
  - destruct e; cbn in *. subst. reflexivity.
  - destruct Hc as [Hpu Hc]. cbn [process_message]. unfold handle_depth_update.
    rewrite Hs. cbn [SyncState_eqb negb].
    assert (Hgap : Book.has_sequence_gap (order_book_ e) (first_update_id u)
                     (prev_final_update_id u) = false).
    { unfold Book.has_sequence_gap. rewrite Hpu, Hid, Z.eqb_refl. reflexivity. }
    rewrite Hgap, andb_false_r.
    rewrite IH; cbn [sync_state_ last_processed_id_ order_book_ trade_flow_
                     pending_alert_]; try reflexivity; try assumption.
    symmetry. apply apply_update_last_id.
Qed.

(** X5.  A snapshot followed by a gap-free chain of depth updates (the
    first naming the snapshot's [lastUpdateId] as [pu], each later one the
    [u] of its predecessor) is applied in full: the engine ends [Synced],
    its book is the snapshot with every update applied in order, the last
    processed id is the [u] of the last update, and no snapshot is
    requested. *)
Theorem contiguous_updates_all_applied (e : MarketDataEngine) (s : DepthSnapshot)
    (us : list DepthUpdate) :
  contiguous (last_update_id s) us ->
  run e (SnapshotMsg s :: map DepthUpdateMsg us)
  = (mkEngine
       (apply_updates (snd (Book.apply_snapshot (order_book_ e) s)) us)
       (trade_flow_ e) Synced (final_id (last_update_id s) us)
       (pending_alert_ e),
     []).
Proof.
  intros Hc. cbn [run process_message]. unfold handle_snapshot.
  rewrite run_contiguous; cbn [sync_state_ last_processed_id_ order_book_
                               trade_flow_ pending_alert_];
    try reflexivity; try assumption.
  symmetry. apply apply_snapshot_last_id.
Qed.

Lemma contiguous_updates_all_applied_witness :
  run (create 10 100 3%float)
      [SnapshotMsg (mkDepthSnapshot 1001 [(5000000000000, 1%float)] []);
       DepthUpdateMsg (mkDepthUpdate 1002 1005 1001 [(5000000000000, 0%float)] []);
       DepthUpdateMsg (mkDepthUpdate 1006 1009 1005 [] [(5000100000000, 2%float)])]
  = (mkEngine
       (apply_updates
          (snd (Book.apply_snapshot (order_book_ (create 10 100 3%float))
                  (mkDepthSnapshot 1001 [(5000000000000, 1%float)] [])))
          [mkDepthUpdate 1002 1005 1001 [(5000000000000, 0%float)] [];
           mkDepthUpdate 1006 1009 1005 [] [(5000100000000, 2%float)]])
       (trade_flow_ (create 10 100 3%float)) Synced 1009
       (pending_alert_ (create 10 100 3%float)), []).
Proof.
  apply (contiguous_updates_all_applied (create 10 100 3%float)
           (mkDepthSnapshot 1001 [(5000000000000, 1%float)] [])
           [mkDepthUpdate 1002 1005 1001 [(5000000000000, 0%float)] [];
            mkDepthUpdate 1006 1009 1005 [] [(5000100000000, 2%float)]]).
  simpl. repeat split; reflexivity.
Defined.

(** The invariant behind the gap test. *)
Definition ids_agree (e : MarketDataEngine) : Prop :=
  sync_state_ e = Synced ->
  last_processed_id_ e = Book.last_update_id_ (order_book_ e).

Lemma process_message_ids_agree (e : MarketDataEngine) (m : EngineMessage) :
  ids_agree e -> ids_agree (fst (process_message e m)).
Proof.
  unfold ids_agree. intros He.
  destruct m as [u|t|s| | |x y|]; cbn [process_message].
  - unfold handle_depth_update.
    destruct (SyncState_eqb (sync_state_ e) Synced) eqn:Es; cbn [negb]; [|exact He].
    destruct ((0 <? last_processed_id_ e)
              && Book.has_sequence_gap (order_book_ e) (first_update_id u)
                   (prev_final_update_id u)); cbn; [discriminate|].
    intros _. symmetry. apply apply_update_last_id.
  - unfold handle_agg_trade.
    destruct (Flow.process_trade (trade_flow_ e) t) as [mt fl].
    destruct (Flow.m_last_alert mt); exact He.
  - cbn. intros _. symmetry. apply apply_snapshot_last_id.
  - cbn. discriminate.
  - cbn. discriminate.
  - cbn. discriminate.
  - exact He.
Qed.

Lemma run_ids_agree (ms : list EngineMessage) :
  forall e, ids_agree e -> ids_agree (fst (run e ms)).
Proof.
  induction ms as [|m ms IH]; intros e He; cbn [run]; [exact He|].
  pose proof (process_message_ids_agree e m He) as H1.
  destruct (process_message e m) as [e1 out1]. cbn [fst] in H1.
  pose proof (IH e1 H1) as H2.
  destruct (run e1 ms) as [e2 out2]. exact H2.
Qed.

(** The trades and the other messages of a stream. *)
Definition trades_of (ms : list EngineMessage) : list AggTrade :=
  flat_map (fun m => match m with AggTradeMsg t => [t] | _ => [] end) ms.

Definition without_trades (ms : list EngineMessage) : list EngineMessage :=
  List.filter (fun m => match m with AggTradeMsg _ => false | _ => true end) ms.

Lemma process_message_split (e : MarketDataEngine) (m : EngineMessage) :
  let e' := fst (process_message e m) in
  match m with
  | AggTradeMsg t =>
      trade_flow_ e' = snd (Flow.process_trade (trade_flow_ e) t) /\
      order_book_ e' = order_book_ e /\ sync_state_ e' = sync_state_ e /\
      last_processed_id_ e' = last_processed_id_ e
  | _ => trade_flow_ e' = trade_flow_ e
  end.
Proof.
  destruct m as [u|t|s| | |x y|]; cbn [process_message]; try reflexivity.
  - unfold handle_depth_update.
    destruct (negb (SyncState_eqb (sync_state_ e) Synced)); [reflexivity|].
    destruct ((0 <? last_processed_id_ e)
              && Book.has_sequence_gap (order_book_ e) (first_update_id u)
                   (prev_final_update_id u)); reflexivity.
  - unfold handle_agg_trade.
    destruct (Flow.process_trade (trade_flow_ e) t) as [mt fl].
    destruct (Flow.m_last_alert mt); repeat split; reflexivity.
Qed.

(** The book-related part of an engine step does not read the trade flow
    or the pending alert. *)
Lemma process_message_book_part (e1 e2 : MarketDataEngine) (m : EngineMessage) :
  order_book_ e1 = order_book_ e2 -> sync_state_ e1 = sync_state_ e2 ->
  last_processed_id_ e1 = last_processed_id_ e2 ->
  match m with AggTradeMsg _ => False | _ => True end ->
  order_book_ (fst (process_message e1 m)) = order_book_ (fst (process_message e2 m)) /\
  sync_state_ (fst (process_message e1 m)) = sync_state_ (fst (process_message e2 m)) /\
  last_processed_id_ (fst (process_message e1 m))
    = last_processed_id_ (fst (process_message e2 m)).
Proof.
  intros Hb Hs Hl Hm.
  destruct m as [u|t|s| | |x y|]; cbn [process_message]; try contradiction.
  - unfold handle_depth_update. rewrite Hs, Hl, Hb.
    destruct (negb (SyncState_eqb (sync_state_ e2) Synced)); cbn [fst];
      [repeat split; assumption|].
    destruct ((0 <? last_processed_id_ e2)
              && Book.has_sequence_gap (order_book_ e2) (first_update_id u)
                   (prev_final_update_id u)); cbn; repeat split; try assumption.
  - cbn. rewrite Hb. repeat split.
  - cbn. repeat split; assumption.
  - cbn. repeat split; assumption.
  - cbn. rewrite Hb. repeat split; assumption.
  - cbn. repeat split; assumption.
Qed.

Lemma run_book_part (ms : list EngineMessage) :
  forall e1 e2,
  order_book_ e1 = order_book_ e2 -> sync_state_ e1 = sync_state_ e2 ->
  last_processed_id_ e1 = last_processed_id_ e2 ->
  order_book_ (fst (run e1 ms)) = order_book_ (fst (run e2 (without_trades ms))) /\
  sync_state_ (fst (run e1 ms)) = sync_state_ (fst (run e2 (without_trades ms))) /\
  last_processed_id_ (fst (run e1 ms))
    = last_processed_id_ (fst (run e2 (without_trades ms))).
Proof.
  induction ms as [|m ms IH]; intros e1 e2 Hb Hs Hl.
  - cbn. repeat split; assumption.
  - destruct (match m with AggTradeMsg _ => false | _ => true end) eqn:Em.
    + assert (Hw : without_trades (m :: ms) = m :: without_trades ms).
      { unfold without_trades. cbn [List.filter]. rewrite Em. reflexivity. }
      rewrite Hw. cbn [run].
      assert (Hm : match m with AggTradeMsg _ => False | _ => True end)
        by (destruct m; try exact I; discriminate).
      destruct (process_message_book_part e1 e2 m Hb Hs Hl Hm) as [H1 [H2 H3]].
      destruct (process_message e1 m) as [e1' o1].
      destruct (process_message e2 m) as [e2' o2]. cbn [fst] in H1, H2, H3.
      specialize (IH e1' e2' H1 H2 H3).
      destruct (run e1' ms) as [e1'' o1'].
      destruct (run e2' (without_trades ms)) as [e2'' o2']. exact IH.
    + destruct m as [u|t|s| | |x y|]; try discriminate.
      assert (Hw : without_trades (AggTradeMsg t :: ms) = without_trades ms)
        by reflexivity.
      rewrite Hw. cbn [run].
      pose proof (process_message_split e1 (AggTradeMsg t)) as Hsp.
      cbn zeta in Hsp. destruct Hsp as [_ [H1 [H2 H3]]].
      destruct (process_message e1 (AggTradeMsg t)) as [e1' o1]. cbn [fst] in *.
      assert (IH' := IH e1' e2 ltac:(congruence) ltac:(congruence) ltac:(congruence)).
      destruct (run e1' ms) as [e1'' o1']. exact IH'.
Qed.

Lemma run_trade_flow (ms : list EngineMessage) :
  forall e, trade_flow_ (fst (run e ms)) = process_trades (trade_flow_ e) (trades_of ms).
Proof.
  induction ms as [|m ms IH]; intros e; [reflexivity|].
  cbn [run]. pose proof (process_message_split e m) as Hsp. cbn zeta in Hsp.
  destruct (process_message e m) as [e1 o1]. cbn [fst] in Hsp.
  specialize (IH e1). destruct (run e1 ms) as [e2 o2]. cbn [fst] in *.
  rewrite IH. destruct m as [u|t|s| | |x y|]; cbn [trades_of flat_map app];
    try (rewrite Hsp; reflexivity).
  destruct Hsp as [-> _]. reflexivity.
Qed.

(** X6.  Whenever the engine is [Synced] after any sequence of messages,
    the id it last processed is the update id of its book, so the gap test
    of [handle_depth_update] compares an update's [pu] with the id of the
    last snapshot or update applied. *)
Theorem synced_ids_agree (L W : nat) (std_devs : float) (ms : list EngineMessage) :
  let e := fst (run (create L W std_devs) ms) in
  (sync_state_ e = Synced ->
     last_processed_id_ e = Book.last_update_id_ (order_book_ e)) /\
  (forall u, sync_state_ e = Synced -> 0 < last_processed_id_ e ->
     prev_final_update_id u <> last_processed_id_ e ->
     snd (process_message e (DepthUpdateMsg u)) = [RequestSnapshot]) /\
  (forall u, sync_state_ e = Synced ->
     prev_final_update_id u = last_processed_id_ e ->
     snd (process_message e (DepthUpdateMsg u)) = []).
Proof.
  cbn zeta.
  assert (H : ids_agree (fst (run (create L W std_devs) ms))).
  { apply run_ids_agree. unfold ids_agree. cbn. discriminate. }
  set (e := fst (run (create L W std_devs) ms)) in *.
  split; [exact H|]. split.
  - intros u Hs Hpos Hne. cbn [process_message]. unfold handle_depth_update.
    rewrite Hs. cbn [SyncState_eqb negb].
    apply Z.ltb_lt in Hpos. rewrite Hpos. cbn [andb].
    unfold Book.has_sequence_gap. rewrite <- (H Hs).
    apply Z.eqb_neq in Hne. rewrite Hne. reflexivity.
  - intros u Hs Heq. cbn [process_message]. unfold handle_depth_update.
    rewrite Hs. cbn [SyncState_eqb negb].
    unfold Book.has_sequence_gap. rewrite <- (H Hs), Heq, Z.eqb_refl.
    rewrite andb_false_r. reflexivity.
Qed.

(** X7.  Trade processing and book maintenance do not interfere: after any
    message sequence the trade flow is the one obtained by processing the
    sequence's trades alone, in order (it is not reset by a lost
    connection, a gap or a new snapshot), and the book, the sync state and
    the last processed id are the ones obtained from the sequence with its
    trades removed. *)
Theorem trades_and_book_independent (e : MarketDataEngine) (ms : list EngineMessage) :
  trade_flow_ (fst (run e ms)) = process_trades (trade_flow_ e) (trades_of ms) /\
  order_book_ (fst (run e ms)) = order_book_ (fst (run e (without_trades ms))) /\
  sync_state_ (fst (run e ms)) = sync_state_ (fst (run e (without_trades ms))) /\
  last_processed_id_ (fst (run e ms))
    = last_processed_id_ (fst (run e (without_trades ms))).
Proof.
  split; [apply run_trade_flow|].
  apply run_book_part; reflexivity.
Qed.

(** X8.  [last_alert] of the trade flow is never cleared by a trade, and
    [handle_agg_trade] broadcasts whenever it is set: once some trade has
    raised an alert, every later trade makes the engine broadcast an alert
    again, namely its own if it raises one and otherwise the previous one
    once more. *)
Theorem alert_rebroadcast_on_every_trade (e : MarketDataEngine) (t : AggTrade)
    (a : Alert.TradeAlert) :
  Flow.last_alert_ (trade_flow_ e) = Some a ->
  let own := Alert.check_trade (Flow.threshold_ (trade_flow_ e))
               (price t) (quantity t) (negb (is_buyer_maker t))
               (Vwap.rolling_avg_size
                  (Vwap.add_trade (Flow.vwap_ (trade_flow_ e)) (price t) (quantity t)))
               (Vwap.rolling_std_dev
                  (Vwap.add_trade (Flow.vwap_ (trade_flow_ e)) (price t) (quantity t))) in
  let a' := match own with Some x => x | None => a end in
  snd (handle_agg_trade e t) = [BroadcastAlert a'] /\
  pending_alert_ (fst (handle_agg_trade e t)) = Some a' /\
  Flow.last_alert_ (trade_flow_ (fst (handle_agg_trade e t))) = Some a'.
Proof.
  intros Ha. cbn zeta. unfold handle_agg_trade, Flow.process_trade.
  cbn [Flow.current_metrics Flow.m_last_alert Flow.last_alert_].
  rewrite Ha.
  destruct (Alert.check_trade _ _ _ _ _ _) as [x|]; cbn; repeat split; reflexivity.
Qed.

Definition quiet_trade (q : float) : EngineMessage :=
  AggTradeMsg (mkAggTrade 1 100%float q false).

Lemma alert_rebroadcast_on_every_trade_witness :
  let e := fst (run (create 10 10 2%float)
                  (map quiet_trade [1; 1; 1; 1; 1; 1; 1; 1; 100]%float)) in
  let a := Alert.mkAlert 100%float 100%float true
             (PrimFloat.div (PrimFloat.sub 100 12) (PrimFloat.sqrt 968))%float in
  Flow.last_alert_ (trade_flow_ e) = Some a /\
  snd (handle_agg_trade e (mkAggTrade 2 100%float 1%float true)) = [BroadcastAlert a].
Proof.
  cbn zeta. split; [vm_compute; reflexivity|].
  refine (let H := alert_rebroadcast_on_every_trade
            (fst (run (create 10 10 2%float)
                    (map quiet_trade [1; 1; 1; 1; 1; 1; 1; 1; 100]%float)))
            (mkAggTrade 2 100%float 1%float true)
            (Alert.mkAlert 100%float 100%float true
               (PrimFloat.div (PrimFloat.sub 100 12) (PrimFloat.sqrt 968))%float)
            _ in _).
  destruct H as [H _]. rewrite H. vm_compute. reflexivity.
  Unshelve. vm_compute. reflexivity.
Defined.

End EngineRuns.

(** ** The feed handler and the engine together *)

Section PipelineFacts.

(** The messages that reach the engine queue, in order. *)
Definition emitted (acts : list Feed.Action) : list EngineMessage :=
  flat_map (fun a => match a with Feed.Emit m => [m] | Feed.RestGet => [] end) acts.

(** The handler after a run of depth updates from the stream. *)
Definition process_depth_updates (h : Feed.FeedHandler) (us : list DepthUpdate)
  : Feed.FeedHandler * list Feed.Action :=
  fold_left (fun st u => let '(h1, out1) := Feed.process_depth_update (fst st) u in
                         (h1, snd st ++ out1)) us (h, []).

Lemma emitted_app (a b : list Feed.Action) :
  emitted (a ++ b) = emitted a ++ emitted b.
Proof. unfold emitted. apply flat_map_app. Qed.

Lemma emitted_updates (us : list DepthUpdate) :
  emitted (map emit_update us) = map DepthUpdateMsg us.
Proof. induction us as [|u us IH]; cbn; [reflexivity | f_equal; exact IH]. Qed.

Lemma process_depth_updates_waiting (us : list DepthUpdate) :
  forall h out,
  Feed.state_ h = Feed.WaitingSnapshot ->
  fold_left (fun st u => let '(h1, out1) := Feed.process_depth_update (fst st) u in
                         (h1, snd st ++ out1)) us (h, out)
  = (Feed.mkFeed Feed.WaitingSnapshot (Feed.buffered_updates_ h ++ us)
       (Feed.snapshot_requested_ h), out).
Proof.
  induction us as [|u us IH]; intros h out Hs; cbn [fold_left].
  - rewrite app_nil_r. destruct h; cbn in *; subst; reflexivity.
  - cbn [fst snd]. unfold Feed.process_depth_update. rewrite Hs.
    cbn [Feed.FeedState_eqb]. rewrite app_nil_r.
    rewrite IH by reflexivity. cbn. rewrite <- app_assoc. reflexivity.
Qed.

(** The walk emits, after what was emitted before, a suffix of the buffer. *)
Lemma walk_emits_suffix (s : DepthSnapshot) (buffer : list DepthUpdate) :
  forall out,
  exists k,
    match Feed.walk s false out buffer with
    | Feed.WalkGap out' => out' = out
    | Feed.WalkEnd false out' => out' = out
    | Feed.WalkEnd true out' => out' = out ++ map emit_update (skipn k buffer)
    end.
Proof.
  induction buffer as [|u rest IH]; intros out; cbn [Feed.walk negb].
  - exists 0%nat. reflexivity.
  - destruct (Feed.is_bridging s u).
    + exists 0%nat. rewrite walk_found. cbn [skipn map].
      rewrite <- app_assoc. reflexivity.
    + destruct (Feed.is_stale s u).
      * destruct (IH out) as [k Hk]. exists (S k). exact Hk.
      * exists 0%nat. reflexivity.
Qed.

(** X9.  From the moment the stream connects, depth updates are held back
    and nothing is emitted for them; when the snapshot response arrives the
    engine is sent the snapshot first and then a (possibly empty) final
    segment of the held-back updates in arrival order, never an update
    without the ones that arrived after it; the handler ends [Live], or in
    [WaitingSnapshot] with a new REST request issued and nothing but the
    snapshot sent. *)
Theorem buffered_updates_replayed_in_order (h : Feed.FeedHandler)
    (us : list DepthUpdate) (s : DepthSnapshot) :
  let h1 := fst (Feed.on_ws_connected h) in
  let h2 := fst (process_depth_updates h1 us) in
  let r := Feed.on_snapshot_response h2 s in
  snd (Feed.on_ws_connected h) = [Feed.Emit ConnectionRestored; Feed.RestGet] /\
  snd (process_depth_updates h1 us) = [] /\
  Feed.buffered_updates_ h2 = us /\
  Feed.buffered_updates_ (fst r) = [] /\
  ((Feed.state_ (fst r) = Feed.Live /\
    exists k, snd r = Feed.Emit (SnapshotMsg s) :: map emit_update (skipn k us)) \/
   (fst r = Feed.mkFeed Feed.WaitingSnapshot [] true /\
    snd r = [Feed.Emit (SnapshotMsg s); Feed.RestGet])).
Proof.
  cbn zeta. unfold process_depth_updates.
  assert (Hc : Feed.on_ws_connected h
               = (Feed.mkFeed Feed.WaitingSnapshot [] true,
                  [Feed.Emit ConnectionRestored; Feed.RestGet])) by reflexivity.
  rewrite Hc. cbn [fst snd].
  rewrite process_depth_updates_waiting by reflexivity. cbn [fst snd app
    Feed.buffered_updates_ Feed.snapshot_requested_].
  split; [reflexivity|]. split; [reflexivity|]. split; [reflexivity|].
  unfold Feed.on_snapshot_response, Feed.apply_snapshot.
  cbn [Feed.set_state Feed.buffered_updates_ Feed.snapshot_requested_ Feed.state_].
  destruct (walk_emits_suffix s us [Feed.Emit (SnapshotMsg s)]) as [k Hk].
  destruct (Feed.walk s false [Feed.Emit (SnapshotMsg s)] us) as [out|[|] out].
  - subst out. cbn. split; [reflexivity|]. right. split; reflexivity.
  - subst out. cbn. split; [reflexivity|]. left. split; [reflexivity|].
    exists k. reflexivity.
  - subst out. cbn. split; [reflexivity|]. left. split; [reflexivity|].
    exists (length us). rewrite skipn_all. reflexivity.
Qed.

(** X10.  The bridging update that the feed handler accepts after a
    snapshot is rejected by the engine unless its [pu] equals the
    snapshot's [lastUpdateId]: with [lastUpdateId > 0] and the emitted
    messages delivered in order, the engine applies the snapshot, finds a
    gap at the bridging update, clears the book, asks for a new snapshot
    and drops every later replayed update, while the handler has gone
    [Live]; the handler then answers the engine's request by returning to
    [WaitingSnapshot] with a new REST request. *)
Theorem bridging_update_forces_resync (h : Feed.FeedHandler)
    (e : Engine.MarketDataEngine) (s : DepthSnapshot)
    (pre rest : list DepthUpdate) (b : DepthUpdate) :
  0 < last_update_id s < U64.max ->
  Feed.buffered_updates_ h = pre ++ b :: rest ->
  Forall (fun u => final_update_id u <= last_update_id s) pre ->
  last_update_id s < final_update_id b ->
  first_update_id b <= last_update_id s + 1 ->
  prev_final_update_id b <> last_update_id s ->
  let r := Feed.on_snapshot_response h s in
  let r' := Engine.run e (emitted (snd r)) in
  fst r = Feed.mkFeed Feed.Live [] false /\
  emitted (snd r) = SnapshotMsg s :: map DepthUpdateMsg (b :: rest) /\
  Engine.sync_state_ (fst r') = Engine.WaitingSnapshot /\
  Engine.order_book_ (fst r')
    = Book.clear (snd (Book.apply_snapshot (Engine.order_book_ e) s)) /\
  snd r' = [Engine.RequestSnapshot] /\
  Feed.request_snapshot (fst r)
    = (Feed.mkFeed Feed.WaitingSnapshot [] true, [Feed.RestGet]).
Proof.
  intros Hr Hbuf Hpre Hlt HU Hpu. cbn zeta.
  assert (Hresp : Feed.on_snapshot_response h s
                  = (Feed.mkFeed Feed.Live [] false,
                     Feed.Emit (SnapshotMsg s) :: map emit_update (b :: rest))).
  { unfold Feed.on_snapshot_response, Feed.apply_snapshot.
    cbn [Feed.set_state Feed.buffered_updates_ Feed.snapshot_requested_ Feed.state_].
    rewrite Hbuf, (walk_skip_stale s pre (b :: rest)) by (try assumption; lia).
    cbn [Feed.walk negb].
    assert (Hb : Feed.is_bridging s b = true).
    { unfold Feed.is_bridging, U64.add, U64.wrap.
      rewrite Z.mod_small by (unfold U64.max in Hr; lia).
      apply andb_true_iff. split; [apply Z.leb_le; lia|].
      rewrite Z.geb_leb. apply Z.leb_le. lia. }
    rewrite Hb, walk_found. reflexivity. }
  rewrite Hresp. cbn [fst snd].
  assert (Hem : emitted (Feed.Emit (SnapshotMsg s) :: map emit_update (b :: rest))
                = SnapshotMsg s :: map DepthUpdateMsg (b :: rest)).
  { change (Feed.Emit (SnapshotMsg s) :: map emit_update (b :: rest))
      with ([Feed.Emit (SnapshotMsg s)] ++ map emit_update (b :: rest)).
    rewrite emitted_app, emitted_updates. reflexivity. }
  rewrite Hem. split; [reflexivity|]. split; [reflexivity|].
  cbn [map]. rewrite run_cons. cbn [Engine.process_message].
  unfold Engine.handle_snapshot. cbn [fst snd app].
  rewrite run_cons. cbn [Engine.process_message].
  rewrite handle_depth_update_gap;
    [| reflexivity | cbn; lia
     | cbn [Engine.order_book_]; rewrite apply_snapshot_last_id; exact Hpu].
  cbn [fst snd Engine.order_book_ Engine.trade_flow_ Engine.last_processed_id_
       Engine.pending_alert_].
  rewrite run_updates_unsynced by (cbn; discriminate).
  cbn. repeat split; reflexivity.
Qed.

Lemma bridging_update_forces_resync_witness :
  Engine.sync_state_
    (fst (Engine.run (Engine.create 10 100 3%float)
       (emitted (snd (Feed.on_snapshot_response
          (Feed.mkFeed Feed.WaitingSnapshot
             [upd 995 999 994; upd 1000 1002 999; upd 1003 1004 1002] true)
          (mkDepthSnapshot 1001 [] []))))))
  = Engine.WaitingSnapshot.
Proof.
  refine (let H := bridging_update_forces_resync
            (Feed.mkFeed Feed.WaitingSnapshot
               [upd 995 999 994; upd 1000 1002 999; upd 1003 1004 1002] true)
            (Engine.create 10 100 3%float)
            (mkDepthSnapshot 1001 [] [])
            [upd 995 999 994] [upd 1003 1004 1002] (upd 1000 1002 999)
            _ _ _ _ _ _ in _).
  - destruct H as [_ [_ [H _]]]. exact H.
  Unshelve.
  + vm_compute. split; reflexivity.
  + reflexivity.
  + constructor; [simpl; lia | constructor].
  + simpl. lia.
  + simpl. lia.
  + simpl. lia.
Defined.

End PipelineFacts.

(** ** The trade window and the alert detector *)

Section WindowFacts.
Import Vwap.

Lemma add_trades_snoc (c : VwapCalculator) (ts : list Trade) (t : Trade) :
  add_trades c (ts ++ [t]) = add_trade (add_trades c ts) (t_price t) (t_quantity t).
Proof. unfold add_trades. rewrite fold_left_app. reflexivity. Qed.

Lemma add_trade_count_field (c : VwapCalculator) (p q : float) :
  count_ c = length (trades_ c) ->
  count_ (add_trade c p q) = length (trades_ (add_trade c p q)).
Proof.
  intros Hc. unfold add_trade.
  destruct (window_size_ c <? length (trades_ c ++ [mkTrade p q]))%nat eqn:E.
  - unfold evict. cbn [trades_ count_].
    destruct (trades_ c ++ [mkTrade p q]) as [|old rest] eqn:Hd.
    { apply (f_equal (@length _)) in Hd. rewrite length_app in Hd. cbn in Hd. lia. }
    apply (f_equal (@length _)) in Hd. rewrite length_app in Hd. cbn in Hd.
    destruct (0 <? Nat.pred (S (count_ c)))%nat; cbn; lia.
  - cbn. rewrite length_app. cbn. lia.
Qed.

Lemma skipn_snoc_tail {A} (l : list A) (x : A) (k : nat) :
  (k <= length l)%nat ->
  skipn (S k) (l ++ [x]) = List.tl (skipn k l ++ [x]).
Proof.
  revert k. induction l as [|a l IH]; intros k Hk.
  - cbn in Hk. assert (k = 0%nat) by lia. subst. reflexivity.
  - destruct k as [|k]; [reflexivity|].
    cbn [app skipn] in *. cbn [length] in Hk. rewrite <- IH by lia. reflexivity.
Qed.

Lemma window_content (W : nat) (ts : list Trade) :
  trades_ (add_trades (create W) ts) = skipn (length ts - W) ts /\
  window_size_ (add_trades (create W) ts) = W /\
  count_ (add_trades (create W) ts) = length (trades_ (add_trades (create W) ts)).
Proof.
  induction ts as [|t ts IH] using rev_ind.
  - repeat split; reflexivity.
  - destruct IH as [Ht [Hw Hc]]. rewrite add_trades_snoc.
    destruct t as [tp tq]. cbn [t_price t_quantity].
    set (c := add_trades (create W) ts) in *.
    assert (Hlen : length (trades_ c) = Nat.min (length ts) W).
    { rewrite Ht, length_skipn. lia. }
    split; [|split].
    + rewrite length_app. cbn [length].
      destruct (Nat.lt_ge_cases (length ts) W) as [Hlt|Hge].
      * destruct (add_trade_within c tp tq) as [E _]; [lia|].
        rewrite E, Ht.
        replace (length ts - W)%nat with 0%nat by lia.
        replace (length ts + 1 - W)%nat with 0%nat by lia.
        reflexivity.
      * destruct (trades_ c ++ [mkTrade tp tq])
          as [|old rest] eqn:Hd.
        { apply (f_equal (@length _)) in Hd. rewrite length_app in Hd.
          cbn in Hd. lia. }
        destruct (add_trade_exceeding c tp tq old rest)
          as [E _]; [lia | exact Hd |].
        rewrite E.
        replace (length ts + 1 - W)%nat with (S (length ts - W)) by lia.
        rewrite skipn_snoc_tail by lia. rewrite <- Ht.
        rewrite Hd. reflexivity.
    + destruct (Nat.lt_ge_cases (length (trades_ c)) (window_size_ c)) as [Hlt|Hge].
      * destruct (add_trade_within c tp tq Hlt) as [_ [E _]].
        rewrite E. exact Hw.
      * destruct (trades_ c ++ [mkTrade tp tq])
          as [|old rest] eqn:Hd.
        { apply (f_equal (@length _)) in Hd. rewrite length_app in Hd.
          cbn in Hd. lia. }
        destruct (add_trade_exceeding c tp tq old rest Hge Hd)
          as [_ [E _]].
        rewrite E. exact Hw.
    + apply add_trade_count_field. exact Hc.
Qed.

(** X11.  The VWAP window holds exactly the last [W] trades: after adding
    any sequence of trades to a calculator of window size [W], the deque
    is the sequence without its first [n - W] trades, in arrival order;
    the Welford counter [count_] equals the deque's size, so [trade_count]
    is [min n W]; with [W = 0] the window is always empty. *)
Theorem window_holds_last_trades (W : nat) (ts : list Trade) :
  let c := add_trades (create W) ts in
  trades_ c = skipn (length ts - W) ts /\
  count_ c = trade_count c /\
  trade_count c = Nat.min (length ts) W /\
  (W = 0%nat -> trades_ c = []).
Proof.
  cbn zeta. destruct (window_content W ts) as [Ht [Hw Hc]].
  unfold trade_count. repeat split.
  - exact Ht.
  - exact Hc.
  - rewrite Ht, length_skipn. lia.
  - intros ->. rewrite Ht. rewrite Nat.sub_0_r. apply skipn_all.
Qed.

End WindowFacts.

Section AlertFacts.
Import Flow.

Lemma process_trades_snoc (f : TradeFlow) (ts : list AggTrade) (t : AggTrade) :
  process_trades f (ts ++ [t]) = snd (process_trade (process_trades f ts) t).
Proof. unfold process_trades. rewrite fold_left_app. reflexivity. Qed.

Definition as_trade (t : AggTrade) : Vwap.Trade := Vwap.mkTrade (price t) (quantity t).

Lemma flow_window (ts : list AggTrade) :
  forall f, vwap_ (process_trades f ts) = add_trades (vwap_ f) (map as_trade ts).
Proof.
  induction ts as [|t ts IH]; intros f; [reflexivity|].
  unfold process_trades, add_trades in *. cbn [fold_left map]. rewrite IH.
  reflexivity.
Qed.

Lemma check_trade_no_deviation (thr p q : float) (is_buy : bool) (avg : float) :
  Alert.check_trade thr p q is_buy avg 0%float = None.
Proof. reflexivity. Qed.

Lemma process_trade_last_alert (f : TradeFlow) (t : AggTrade) :
  (Vwap.count_ (Vwap.add_trade (vwap_ f) (price t) (quantity t)) < 2)%nat ->
  last_alert_ (snd (process_trade f t)) = last_alert_ f.
Proof.
  intros Hc. unfold process_trade. cbn [snd last_alert_].
  unfold Vwap.rolling_std_dev. apply Nat.ltb_lt in Hc. rewrite Hc.
  rewrite check_trade_no_deviation. reflexivity.
Qed.

(** X12.  No alert is raised before the window holds two trades: the
    standard deviation reported for fewer than two trades is 0 and
    [check_trade] then returns nothing.  So the first trade after
    construction never raises an alert, and with a window size of 0 or 1
    no trade ever does. *)
Theorem no_alert_before_two_trades (W : nat) (threshold : float)
    (ts : list AggTrade) :
  (Nat.min (length ts) W < 2)%nat ->
  last_alert_ (process_trades (create W threshold) ts) = None /\
  Vwap.rolling_std_dev (vwap_ (process_trades (create W threshold) ts)) = 0%float.
Proof.
  intros Hmin.
  assert (Hcount : forall l : list AggTrade,
            Vwap.count_ (vwap_ (process_trades (create W threshold) l))
            = Nat.min (length l) W).
  { intros l. rewrite flow_window. cbn [create vwap_].
    destruct (window_content W (map as_trade l)) as [Ht [_ Hc]].
    rewrite Hc, Ht, length_skipn, length_map. lia. }
  split.
  - induction ts as [|t ts IH] using rev_ind; [reflexivity|].
    rewrite process_trades_snoc. rewrite process_trade_last_alert.
    + apply IH. rewrite length_app in Hmin. cbn in Hmin. lia.
    + pose proof (Hcount (ts ++ [t])) as H. rewrite process_trades_snoc in H.
      unfold process_trade in H. cbn [snd vwap_] in H. rewrite H. exact Hmin.
  - unfold Vwap.rolling_std_dev. rewrite Hcount.
    apply Nat.ltb_lt in Hmin. rewrite Hmin. reflexivity.
Qed.

Lemma no_alert_before_two_trades_witness :
  last_alert_
    (process_trades (create 1 0%float)
       [mkAggTrade 1 100%float 1%float false;
        mkAggTrade 2 100%float 1000000%float false]) = None.
Proof.
  refine (let H := no_alert_before_two_trades 1 0%float
            [mkAggTrade 1 100%float 1%float false;
             mkAggTrade 2 100%float 1000000%float false] _ in _).
  - destruct H as [H _]. exact H.
  Unshelve. simpl. lia.
Defined.

End AlertFacts.

(** ** The SPSC ring for capacities of at least two *)

Section SpscMore.
Context {T : Type}.
Import Spsc.

Lemma run_refines_fifo_state (n : Z) :
  valid_capacity n -> 2 <= n ->
  forall (ops : list (Op T)) (q : SpscQueue T) (l : list T) (H : Z),
    Inv n q l H ->
    fst (run q ops) = fst (fifo_run n l ops) /\
    exists H', Inv n (snd (run q ops)) (snd (fifo_run n l ops)) H'.
Proof.
  intros Hv H2. induction ops as [|o ops IH]; intros q l H I.
  - split; [reflexivity | exists H; exact I].
  - destruct (step_refines_fifo n q l H o Hv H2 I)
      as (r & q' & l' & H' & E1 & E2 & I').
    cbn [run fifo_run]. rewrite E1, E2.
    destruct (IH q' l' H' I') as [F1 [H'' F2]].
    destruct (run q' ops), (fifo_run n l' ops). cbn [fst snd] in *.
    split; [congruence | exists H''; exact F2].
Qed.

Lemma size_approx_inv (n : Z) (q : SpscQueue T) (l : list T) (H : Z) :
  valid_capacity n -> Inv n q l H -> size_approx q = Z.of_nat (length l).
Proof.
  intros (_ & Hn & Hlt) I. destruct I as [_ Hh Ht _ Hb _ _].
  unfold size_approx, U64.sub, U64.wrap. rewrite Hh, Ht.
  rewrite <- Zminus_mod.
  replace (H + Z.of_nat (length l) - H) with (Z.of_nat (length l)) by lia.
  apply Z.mod_small. lia.
Qed.

(** X13.  For every capacity [n >= 2] accepted by the [static_assert]s the
    ring is a bounded FIFO under every schedule of [try_push] and [try_pop]
    calls, of any length (the 64-bit positions may wrap): each call returns
    what a FIFO list of at most [n] elements returns, so a push fails
    exactly when [n] elements are stored, a pop returns the oldest stored
    value or nothing when none is stored, and [size_approx] is the number
    of stored elements. *)
Theorem spsc_bounded_fifo_with_size (n : Z) (ops : list (Op T)) :
  valid_capacity n -> 2 <= n ->
  fst (run (create n) ops) = fst (fifo_run n [] ops) /\
  size_approx (snd (run (create n) ops))
    = Z.of_nat (length (snd (fifo_run n [] ops))) /\
  0 <= size_approx (snd (run (create n) ops)) <= n.
Proof.
  intros Hv H2.
  destruct (run_refines_fifo_state n Hv H2 ops (create n) [] 0 (inv_create n Hv))
    as [E [H' I]].
  pose proof (size_approx_inv n _ _ H' Hv I) as Hs.
  repeat split; try assumption; rewrite Hs; [lia|]. destruct I; assumption.
Qed.

End SpscMore.

Lemma spsc_bounded_fifo_with_size_witness :
  fst (Spsc.run (Spsc.create 2)
         [Spsc.Push 1; Spsc.Push 2; Spsc.Push 3; Spsc.Pop; Spsc.Push 4; Spsc.Pop; Spsc.Pop; Spsc.Pop])
  = fst (Spsc.fifo_run 2 []
         [Spsc.Push 1; Spsc.Push 2; Spsc.Push 3; Spsc.Pop; Spsc.Push 4; Spsc.Pop; Spsc.Pop; Spsc.Pop]).
Proof.
  refine (let H := spsc_bounded_fifo_with_size (T := Z) 2
            [Spsc.Push 1; Spsc.Push 2; Spsc.Push 3; Spsc.Pop; Spsc.Push 4;
             Spsc.Pop; Spsc.Pop; Spsc.Pop] _ _ in _).
  - destruct H as [H _]. exact H.
  Unshelve.
  + vm_compute. repeat split; reflexivity.
  + lia.
Defined.

(** ** [core/fixed_point.hpp]: [to_string] *)

Module FixedPointText.
Import FixedPoint.

Definition digit_char (d : Z) : ascii := ascii_of_nat (Z.to_nat (48 + d)).

(** The decimal digits of [v >= 0], most significant first, put in front
    of [acc]; a value below [2^(fuel+1)] has at most [fuel + 1] digits. *)
Fixpoint digits_loop (fuel : nat) (v : Z) (acc : string) : string :=
  let acc' := String (digit_char (v mod 10)) acc in
  match fuel with
  | O => acc'
  | S f => if v / 10 =? 0 then acc' else digits_loop f (v / 10) acc'
  end.

(** [std::to_string(long long)]. *)
Definition std_to_string (v : Z) : string :=
  if v <? 0 then String "-" (digits_loop (Z.to_nat (Z.log2 (- v))) (- v) "")
  else digits_loop (Z.to_nat (Z.log2 v)) v "".

(** [while (length < Decimals) frac_str = "0" + frac_str;] *)
Fixpoint pad_zeros (n : nat) (s : string) : string :=
  match n with
  | O => s
  | S n' => pad_zeros n' (String "0" s)
  end.

(** [while (!frac_str.empty() && frac_str.back() == '0') frac_str.pop_back();] *)
Fixpoint strip_zeros (s : string) : string :=
  match s with
  | EmptyString => EmptyString
  | String c r =>
      match strip_zeros r with
      | EmptyString => if Ascii.eqb c "0" then EmptyString else String c EmptyString
      | r' => String c r'
      end
  end.

(** [to_string] on the raw value; [/] and [%] truncate towards zero. *)
Definition to_string (Decimals : Z) (value : Z) : string :=
  if value =? 0 then "0"%string
  else
    let negative := value <? 0 in
    let abs_val := if negative then I64.neg value else value in
    let integer_part := Z.quot abs_val (scale Decimals) in
    let frac_part := Z.rem abs_val (scale Decimals) in
    let result := std_to_string integer_part in
    let result :=
      if frac_part >? 0 then
        let frac_str := std_to_string frac_part in
        let frac_str := pad_zeros (Z.to_nat (Decimals - strlen frac_str)) frac_str in
        (result ++ String "." (strip_zeros frac_str))%string
      else result in
    if negative then String "-" result else result.

End FixedPointText.

Section ToStringFacts.
Import FixedPoint FixedPointText.

Lemma digit_char_ok (d : Z) :
  0 <= d <= 9 -> is_digit (digit_char d) = true /\ digit_of (digit_char d) = d.
Proof.
  intros H.
  assert (C : d = 0 \/ d = 1 \/ d = 2 \/ d = 3 \/ d = 4 \/ d = 5 \/ d = 6 \/
              d = 7 \/ d = 8 \/ d = 9) by lia.
  repeat (destruct C as [->|C]; [split; reflexivity|]). subst. split; reflexivity.
Qed.

Lemma digits_value_single (c : ascii) : digits_value (String c "") = digit_of c.
Proof. reflexivity. Qed.

Lemma str_app_assoc (a b c : string) : ((a ++ b) ++ c = a ++ (b ++ c))%string.
Proof.
  induction a as [|x a IH]; [rewrite !append_nil; reflexivity|].
  rewrite !append_cons, IH. reflexivity.
Qed.

Lemma digits_loop_spec (fuel : nat) :
  forall v acc, 0 <= v < 2 ^ (Z.of_nat fuel + 1) ->
  exists s, digits_loop fuel v acc = (s ++ acc)%string /\
            all_digits s = true /\ digits_value s = v /\ 1 <= strlen s /\
            (forall k, 0 < k -> v < 10 ^ k -> strlen s <= k).
Proof.
  assert (Hone : forall v acc, 0 <= v -> v / 10 = 0 ->
            exists s, String (digit_char (v mod 10)) acc = (s ++ acc)%string /\
              all_digits s = true /\ digits_value s = v /\ 1 <= strlen s /\
              (forall k, 0 < k -> v < 10 ^ k -> strlen s <= k)).
  { intros v acc Hv Hq. exists (String (digit_char (v mod 10)) "").
    assert (Hm : v mod 10 = v).
    { pose proof (Z.div_mod v 10 ltac:(lia)) as E. rewrite Hq in E. lia. }
    assert (Hr : 0 <= v mod 10 <= 9) by (pose proof (Z.mod_pos_bound v 10); lia).
    destruct (digit_char_ok _ Hr) as [H1 H2].
    split; [reflexivity|]. split; [cbn; rewrite H1; reflexivity|].
    split; [rewrite digits_value_single, H2; exact Hm|].
    unfold strlen. cbn. split; [lia|]. intros k Hk _. lia. }
  induction fuel as [|f IH]; intros v acc Hv; cbn [digits_loop].
  - apply Hone; [lia|]. apply Z.div_small. cbn in Hv. lia.
  - destruct (v / 10 =? 0) eqn:E.
    + apply Hone; [lia|]. apply Z.eqb_eq. exact E.
    + apply Z.eqb_neq in E.
      assert (Hq : 0 <= v / 10 < 2 ^ (Z.of_nat f + 1)).
      { split; [apply Z.div_pos; lia|].
        apply Z.div_lt_upper_bound; [lia|].
        replace (Z.of_nat (S f) + 1) with (Z.of_nat f + 1 + 1) in Hv by lia.
        rewrite Z.pow_add_r in Hv by lia. lia. }
      destruct (IH (v / 10) (String (digit_char (v mod 10)) acc) Hq)
        as (s & Es & Hd & Hval & Hlen & Hk).
      assert (Hr : 0 <= v mod 10 <= 9) by (pose proof (Z.mod_pos_bound v 10); lia).
      destruct (digit_char_ok _ Hr) as [H1 H2].
      exists (s ++ String (digit_char (v mod 10)) "")%string.
      split; [|split; [|split; [|split]]].
      * rewrite Es. rewrite str_app_assoc. reflexivity.
      * rewrite all_digits_app, Hd. cbn. rewrite H1. reflexivity.
      * rewrite digits_value_app, Hval, digits_value_single, H2.
        unfold strlen. cbn [String.length]. change (10 ^ Z.of_nat 1) with 10.
        pose proof (Z.div_mod v 10 ltac:(lia)). lia.
      * rewrite strlen_app. unfold strlen at 2. cbn. lia.
      * intros k Hk0 Hvk. rewrite strlen_app. unfold strlen at 2. cbn.
        assert (Hv10 : 10 <= v).
        { destruct (Z_lt_le_dec v 10) as [Hlt|]; [|assumption].
          exfalso. apply E. apply Z.div_small. lia. }
        assert (Hk2 : 1 < k).
        { destruct (Z_lt_le_dec 1 k) as [|Hle]; [assumption|].
          assert (k = 1) by lia. subst k. change (10 ^ 1) with 10 in Hvk. lia. }
        assert (Hs : strlen s <= k - 1).
        { apply Hk; [lia|]. apply Z.div_lt_upper_bound; [lia|].
          replace k with (1 + (k - 1)) in Hvk by lia.
          rewrite Z.pow_add_r in Hvk by lia. change (10 ^ 1) with 10 in Hvk. lia. }
        lia.
Qed.

Lemma std_to_string_nonneg (v : Z) :
  0 <= v ->
  all_digits (std_to_string v) = true /\ digits_value (std_to_string v) = v /\
  1 <= strlen (std_to_string v) /\
  (forall k, 0 < k -> v < 10 ^ k -> strlen (std_to_string v) <= k).
Proof.
  intros Hv. unfold std_to_string.
  replace (v <? 0) with false by (symmetry; apply Z.ltb_ge; lia).
  assert (Hb : 0 <= v < 2 ^ (Z.of_nat (Z.to_nat (Z.log2 v)) + 1)).
  { rewrite Z2Nat.id by apply Z.log2_nonneg.
    destruct (Z.eq_dec v 0) as [->|Hne]; [cbn; lia|].
    pose proof (Z.log2_spec v ltac:(lia)) as [_ H].
    replace (Z.log2 v + 1) with (Z.succ (Z.log2 v)) by lia. lia. }
  destruct (digits_loop_spec _ v "" Hb) as (s & Es & H).
  rewrite Es, append_empty_r. exact H.
Qed.

Lemma pad_zeros_spec (n : nat) :
  forall s, all_digits s = true ->
  all_digits (pad_zeros n s) = true /\
  digits_value (pad_zeros n s) = digits_value s /\
  strlen (pad_zeros n s) = Z.of_nat n + strlen s.
Proof.
  induction n as [|n IH]; intros s Hs; cbn [pad_zeros].
  - split; [assumption|]. split; [reflexivity|]. cbn. lia.
  - destruct (IH (String "0" s)) as (H1 & H2 & H3).
    { cbn. exact Hs. }
    rewrite H1, H2, H3. split; [reflexivity|]. split; [reflexivity|].
    unfold strlen. cbn [String.length]. lia.
Qed.

Lemma strip_zeros_spec (s : string) :
  all_digits s = true ->
  all_digits (strip_zeros s) = true /\
  strlen (strip_zeros s) <= strlen s /\
  digits_value (strip_zeros s) * 10 ^ (strlen s - strlen (strip_zeros s))
  = digits_value s.
Proof.
  induction s as [|c r IH]; intros Hs.
  - cbn. repeat split; lia.
  - cbn in Hs. apply andb_true_iff in Hs. destruct Hs as [Hc Hr].
    destruct (IH Hr) as (H1 & H2 & H3). cbn [strip_zeros].
    assert (Hlen : strlen (String c r) = 1 + strlen r)
      by (unfold strlen; cbn [String.length]; lia).
    assert (Hr0 : 0 <= strlen r) by (unfold strlen; lia).
    assert (Hs0 : 0 <= strlen (strip_zeros r)) by (unfold strlen; lia).
    assert (Hcons : forall t, digits_value (String c t)
                              = digit_of c * 10 ^ strlen t + digits_value t).
    { intros t. unfold digits_value. cbn [digits_value_from].
      rewrite digits_value_from_shift. unfold digits_value. lia. }
    destruct (strip_zeros r) as [|c' r'] eqn:E.
    + assert (Hv : digits_value r = 0).
      { rewrite <- H3. cbn. reflexivity. }
      destruct (Ascii.eqb c "0") eqn:Ec.
      * apply Ascii.eqb_eq in Ec. subst c.
        split; [reflexivity|]. split; [unfold strlen; cbn; lia|].
        rewrite Hcons, Hv. reflexivity.
      * split; [cbn; rewrite Hc; reflexivity|].
        split; [unfold strlen; cbn [String.length]; lia|].
        rewrite (Hcons r), Hv, digits_value_single, Hlen.
        unfold strlen at 2. cbn [String.length].
        replace (1 + strlen r - Z.of_nat 1) with (strlen r) by lia. lia.
    + split; [cbn [all_digits]; rewrite Hc; exact H1|].
      assert (Hlen' : strlen (String c (String c' r')) = 1 + strlen (String c' r'))
        by (unfold strlen; cbn [String.length]; lia).
      split; [lia|].
      rewrite Hlen, Hlen', (Hcons r), (Hcons (String c' r')).
      replace (1 + strlen r - (1 + strlen (String c' r')))
        with (strlen r - strlen (String c' r')) by lia.
      rewrite Z.mul_add_distr_r, H3, <- Z.mul_assoc, <- Z.pow_add_r by lia.
      replace (strlen (String c' r') + (strlen r - strlen (String c' r')))
        with (strlen r) by lia.
      reflexivity.
Qed.

Lemma take_str_all (s : string) (n : nat) :
  strlen s <= Z.of_nat n -> take_str n s = s.
Proof.
  unfold strlen. revert n. induction s as [|c r IH]; intros n H.
  - destruct n; reflexivity.
  - destruct n as [|n]; [cbn in H; lia|].
    cbn [take_str]. rewrite IH; [reflexivity|]. cbn [String.length] in H. lia.
Qed.

(** The numeral that [to_string] writes. *)
Definition written (D x : Z) : numeral :=
  let a := Z.abs x in
  mkNumeral (if x <? 0 then MinusSign else NoSign)
    (std_to_string (a / 10 ^ D))
    (if a mod 10 ^ D >? 0
     then Some (strip_zeros
                  (pad_zeros (Z.to_nat (D - strlen (std_to_string (a mod 10 ^ D))))
                     (std_to_string (a mod 10 ^ D))))
     else None).

Lemma to_string_written (D x : Z) :
  0 <= D <= 18 -> I64.min < x <= I64.max ->
  to_string D x = render (written D x).
Proof.
  intros HD Hx. unfold to_string, written, render.
  cbn [n_sign n_int n_frac frac_str].
  rewrite (scale_pow D HD).
  assert (Hp : 0 < 10 ^ D) by (apply Z.pow_pos_nonneg; lia).
  destruct (Z.eqb_spec x 0) as [->|Hne].
  - cbn [Z.abs Z.ltb Z.compare sign_str].
    rewrite Z.div_0_l, Z.mod_0_l by lia. reflexivity.
  - assert (Ha : (if x <? 0 then I64.neg x else x) = Z.abs x).
    { destruct (Z.ltb_spec x 0).
      - unfold I64.neg. rewrite I64_wrap_small by (unfold I64.min, I64.max in *; lia).
        lia.
      - lia. }
    rewrite Ha.
    rewrite Z.quot_div_nonneg, Z.rem_mod_nonneg by lia.
    destruct (x <? 0); cbn [sign_str];
      destruct (Z.abs x mod 10 ^ D >? 0); cbn [frac_str];
      rewrite ?append_nil, ?append_empty_r; reflexivity.
Qed.

Lemma written_value (D x : Z) :
  0 <= D <= 18 ->
  well_formed (written D x) = true /\ scaled_trunc D (written D x) = Z.abs x.
Proof.
  intros HD. set (a := Z.abs x).
  assert (Ha : 0 <= a) by (unfold a; lia).
  assert (Hp : 0 < 10 ^ D) by (apply Z.pow_pos_nonneg; lia).
  assert (Hip : 0 <= a / 10 ^ D) by (apply Z.div_pos; lia).
  pose proof (Z.mod_pos_bound a (10 ^ D) Hp) as Hfp.
  destruct (std_to_string_nonneg (a / 10 ^ D) Hip) as (I1 & I2 & I3 & _).
  unfold well_formed, scaled_trunc, written. fold a.
  cbn [n_int n_frac frac_of].
  assert (Hne : is_empty_str (std_to_string (a / 10 ^ D)) = false).
  { destruct (std_to_string (a / 10 ^ D)); [unfold strlen in I3; cbn in I3; lia|].
    reflexivity. }
  rewrite I1, I2, Hne. cbn [andb negb].
  destruct (a mod 10 ^ D >? 0) eqn:Ef.
  - assert (Hpos : 0 < a mod 10 ^ D) by lia.
    assert (HD1 : 0 < D).
    { destruct (Z.eq_dec D 0) as [->|]; [|lia]. change (10 ^ 0) with 1 in *. lia. }
    destruct (std_to_string_nonneg (a mod 10 ^ D) ltac:(lia)) as (F1 & F2 & F3 & F4).
    specialize (F4 D HD1 ltac:(lia)).
    set (fs := std_to_string (a mod 10 ^ D)) in *.
    destruct (pad_zeros_spec (Z.to_nat (D - strlen fs)) fs F1) as (P1 & P2 & P3).
    rewrite Z2Nat.id in P3 by lia.
    set (ps := pad_zeros (Z.to_nat (D - strlen fs)) fs) in *.
    destruct (strip_zeros_spec ps P1) as (S1 & S2 & S3).
    unfold frac_of. cbn [n_frac]. rewrite S1. split; [reflexivity|].
    rewrite take_str_all by (rewrite Z2Nat.id by lia; lia).
    replace (D - strlen (strip_zeros ps)) with (strlen ps - strlen (strip_zeros ps))
      by lia.
    rewrite S3, P2, F2.
    pose proof (Z.div_mod a (10 ^ D) ltac:(lia)). lia.
  - unfold frac_of. cbn [n_frac]. split; [reflexivity|].
    assert (Hz : a mod 10 ^ D = 0) by lia.
    rewrite take_str_empty. cbn.
    pose proof (Z.div_mod a (10 ^ D) ltac:(lia)). lia.
Qed.

(** X14.  [parse] reads back what [to_string] writes: for every number of
    decimals from 0 to 18 and every raw value except [INT64_MIN] (whose
    negation overflows), parsing the string written for the value returns
    the value; so distinct values are written as distinct strings. *)
Theorem to_string_parse_round_trip (D x : Z) :
  0 <= D <= 18 -> I64.min < x <= I64.max ->
  parse D (to_string D x) = Ok x /\
  (forall y, I64.min < y <= I64.max -> to_string D y = to_string D x -> y = x).
Proof.
  intros HD Hx.
  assert (RT : forall z, I64.min < z <= I64.max -> parse D (to_string D z) = Ok z).
  { intros z Hz. rewrite (to_string_written D z HD Hz).
    destruct (written_value D z HD) as [Hwf Hv].
    rewrite parse_numeral; try assumption.
    - rewrite Hv. unfold signed, written. cbn [n_sign].
      destruct (Z.ltb_spec z 0); cbn [is_minus]; f_equal; lia.
    - rewrite Hv. unfold I64.min, I64.max in *. lia. }
  split; [apply RT; exact Hx|].
  intros y Hy E. pose proof (RT y Hy) as Ry. rewrite E, (RT x Hx) in Ry.
  congruence.
Qed.

Lemma to_string_parse_round_trip_witness :
  to_string 8 (-5000012345600) = "-50000.123456"%string /\
  parse 8 "-50000.123456" = Ok (-5000012345600).
Proof.
  split; [vm_compute; reflexivity|].
  refine (let H := to_string_parse_round_trip 8 (-5000012345600) _ _ in _).
  - destruct H as [H _]. exact H.
  Unshelve.
  + lia.
  + unfold I64.min, I64.max. lia.
Defined.

End ToStringFacts.

(** ** The order of parsed prices *)

Section ParseOrder.
Import FixedPoint.

Lemma floor_cross_le (x y p q s : Z) :
  0 < p -> 0 < q -> 0 <= s -> x * q <= y * p -> (x * s) / p <= (y * s) / q.
Proof.
  intros Hp Hq Hs E.
  rewrite <- (Z.div_mul_cancel_r (x * s) p q) by lia.
  rewrite <- (Z.div_mul_cancel_r (y * s) q p) by lia.
  replace (q * p) with (p * q) by ring.
  apply Z.div_le_mono; [lia|].
  replace (x * s * q) with (x * q * s) by ring.
  replace (y * s * p) with (y * p * s) by ring.
  apply Z.mul_le_mono_nonneg_r; assumption.
Qed.

Lemma scaled_trunc_nonneg (D : Z) (n : numeral) :
  0 <= D -> well_formed n = true -> 0 <= scaled_trunc D n.
Proof.
  intros HD Hwf. rewrite (scaled_trunc_floor D n HD Hwf).
  pose proof (numerator_nonneg n Hwf).
  apply Z.div_pos.
  - apply Z.mul_nonneg_nonneg; [assumption | apply Z.pow_nonneg; lia].
  - apply Z.pow_pos_nonneg; unfold frac_len, strlen; lia.
Qed.

Lemma scaled_trunc_le (D : Z) (a b : numeral) :
  0 <= D -> well_formed a = true -> well_formed b = true ->
  numerator a * 10 ^ frac_len b <= numerator b * 10 ^ frac_len a ->
  scaled_trunc D a <= scaled_trunc D b.
Proof.
  intros HD Ha Hb E.
  rewrite (scaled_trunc_floor D a HD Ha), (scaled_trunc_floor D b HD Hb).
  apply floor_cross_le; try assumption;
    try (apply Z.pow_pos_nonneg; unfold frac_len, strlen; lia).
  apply Z.pow_nonneg. lia.
Qed.

Lemma signed_scaled_le (D : Z) (a b : numeral) :
  0 <= D -> well_formed a = true -> well_formed b = true ->
  QArith_base.Qle (decimal_value a) (decimal_value b) ->
  signed a (scaled_trunc D a) <= signed b (scaled_trunc D b).
Proof.
  intros HD Ha Hb E.
  unfold QArith_base.Qle, decimal_value in E.
  cbn [QArith_base.Qnum QArith_base.Qden] in E.
  assert (Pa : 0 < 10 ^ frac_len a)
    by (apply Z.pow_pos_nonneg; unfold frac_len, strlen; lia).
  assert (Pb : 0 < 10 ^ frac_len b)
    by (apply Z.pow_pos_nonneg; unfold frac_len, strlen; lia).
  rewrite !Z2Pos.id in E by assumption.
  pose proof (numerator_nonneg a Ha) as Na.
  pose proof (numerator_nonneg b Hb) as Nb.
  pose proof (scaled_trunc_nonneg D a HD Ha) as Sa.
  pose proof (scaled_trunc_nonneg D b HD Hb) as Sb.
  unfold signed in *.
  destruct (is_minus (n_sign a)), (is_minus (n_sign b)).
  - assert (scaled_trunc D b <= scaled_trunc D a)
      by (apply scaled_trunc_le; try assumption; lia).
    lia.
  - lia.
  - assert (Hza : numerator a = 0) by nia.
    assert (Hzb : numerator b = 0) by nia.
    rewrite (scaled_trunc_floor D a HD Ha), (scaled_trunc_floor D b HD Hb).
    rewrite Hza, Hzb. rewrite !Z.mul_0_l, !Z.div_0_l by lia. lia.
  - apply scaled_trunc_le; try assumption; lia.
Qed.

Lemma scaled_exact (D : Z) (n : numeral) :
  0 <= D -> well_formed n = true -> frac_len n <= D ->
  scaled_trunc D n * 10 ^ frac_len n = numerator n * 10 ^ D.
Proof.
  intros HD Hwf Hf. rewrite (scaled_trunc_floor D n HD Hwf).
  assert (H0 : 0 <= frac_len n) by (unfold frac_len, strlen; lia).
  assert (E : 10 ^ D = 10 ^ (D - frac_len n) * 10 ^ frac_len n).
  { rewrite <- Z.pow_add_r by lia. f_equal. lia. }
  rewrite E, Z.mul_assoc, Z.div_mul by (apply Z.pow_nonzero; lia).
  ring.
Qed.

(** X15.  The order of parsed prices follows the order of the decimal
    values the strings denote: for two well-formed numerals in range, if
    the first denotes a value no greater than the second then its parsed
    raw value is no greater (digits beyond the [D]-th are cut off, so
    distinct values may parse to equal keys); when neither numeral has more
    than [D] fractional digits a strictly smaller value parses to a
    strictly smaller raw value. *)
Theorem parse_preserves_order (D : Z) (a b : numeral) :
  0 <= D <= 18 -> well_formed a = true -> well_formed b = true ->
  scaled_trunc D a <= I64.max -> scaled_trunc D b <= I64.max ->
  exists ka kb,
    parse D (render a) = Ok ka /\ parse D (render b) = Ok kb /\
    (QArith_base.Qle (decimal_value a) (decimal_value b) -> ka <= kb) /\
    (frac_len a <= D -> frac_len b <= D ->
     QArith_base.Qlt (decimal_value a) (decimal_value b) -> ka < kb).
Proof.
  intros HD Ha Hb Fa Fb.
  exists (signed a (scaled_trunc D a)), (signed b (scaled_trunc D b)).
  split; [apply parse_numeral; assumption|].
  split; [apply parse_numeral; assumption|].
  split; [apply signed_scaled_le; try assumption; lia|].
  intros La Lb E.
  assert (HD0 : 0 <= D) by lia.
  pose proof (scaled_exact D a HD0 Ha La) as Ea.
  pose proof (scaled_exact D b HD0 Hb Lb) as Eb.
  unfold QArith_base.Qlt, decimal_value in E.
  cbn [QArith_base.Qnum QArith_base.Qden] in E.
  assert (Pa : 0 < 10 ^ frac_len a)
    by (apply Z.pow_pos_nonneg; unfold frac_len, strlen; lia).
  assert (Pb : 0 < 10 ^ frac_len b)
    by (apply Z.pow_pos_nonneg; unfold frac_len, strlen; lia).
  assert (PD : 0 < 10 ^ D) by (apply Z.pow_pos_nonneg; lia).
  rewrite !Z2Pos.id in E by assumption.
  assert (Hsa : signed a (scaled_trunc D a) * 10 ^ frac_len a
                = signed a (numerator a) * 10 ^ D).
  { unfold signed. destruct (is_minus (n_sign a)); lia. }
  assert (Hsb : signed b (scaled_trunc D b) * 10 ^ frac_len b
                = signed b (numerator b) * 10 ^ D).
  { unfold signed. destruct (is_minus (n_sign b)); lia. }
  set (ka := signed a (scaled_trunc D a)) in *.
  set (kb := signed b (scaled_trunc D b)) in *.
  set (na := signed a (numerator a)) in *.
  set (nb := signed b (numerator b)) in *.
  assert (H : ka * (10 ^ frac_len a * 10 ^ frac_len b)
              < kb * (10 ^ frac_len a * 10 ^ frac_len b)).
  { replace (ka * (10 ^ frac_len a * 10 ^ frac_len b))
      with ((ka * 10 ^ frac_len a) * 10 ^ frac_len b) by ring.
    replace (kb * (10 ^ frac_len a * 10 ^ frac_len b))
      with ((kb * 10 ^ frac_len b) * 10 ^ frac_len a) by ring.
    rewrite Hsa, Hsb.
    replace (na * 10 ^ D * 10 ^ frac_len b) with ((na * 10 ^ frac_len b) * 10 ^ D) by ring.
    replace (nb * 10 ^ D * 10 ^ frac_len a) with ((nb * 10 ^ frac_len a) * 10 ^ D) by ring.
    apply Z.mul_lt_mono_pos_r; assumption. }
  apply Z.mul_lt_mono_pos_r in H; [exact H|]. apply Z.mul_pos_pos; assumption.
Qed.

Lemma parse_preserves_order_witness :
  exists ka kb,
    parse 8 "50000.25" = Ok ka /\ parse 8 "50000.3" = Ok kb /\ ka < kb.
Proof.
  refine (let H := parse_preserves_order 8
            (mkNumeral NoSign "50000" (Some "25"%string))
            (mkNumeral NoSign "50000" (Some "3"%string)) _ _ _ _ _ in _).
  - destruct H as (ka & kb & H1 & H2 & _ & H3). exists ka, kb.
    split; [exact H1|]. split; [exact H2|].
    apply H3; vm_compute; congruence.
  Unshelve.
  + lia.
  + reflexivity.
  + reflexivity.
  + vm_compute. discriminate.
  + vm_compute. discriminate.
Defined.

End ParseOrder.

(** ** [output/websocket_server.cpp]: [write_mutex_]

    [WebSocketSession::send] and [WebSocketSession::do_write] each guard
    their body with [std::lock_guard<std::mutex> lock(write_mutex_)], and
    [send] calls [do_write] inside its guarded scope.  The model below keeps
    track of whether the calling thread owns the mutex. *)

Module WsLocks.

Section Locks.
Variable json : Type.
Variable dump : json -> string.

(** A call returns, or it calls [lock()] on a [std::mutex] that the calling
    thread already owns: the behaviour is then undefined, and on the usual
    implementations the thread blocks for ever. *)
Inductive outcome (A : Type) : Type :=
| Returns (a : A)
| Relocks.
Arguments Returns {A} a.
Arguments Relocks {A}.

(** [std::lock_guard<std::mutex> lock(write_mutex_)] in front of [body];
    [held] tells whether the calling thread owns the mutex. *)
Definition lock_guard {A} (held : bool) (body : outcome A) : outcome A :=
  if held then Relocks else body.

(** [do_write], called with the mutex held or not. *)
Definition do_write (held : bool) (s : WsServer.WebSocketSession)
  : outcome WsServer.WebSocketSession :=
  lock_guard held (Returns (WsServer.do_write s)).

(** [send], entered without the mutex; the call of [do_write] lies inside
    the scope of the guard. *)
Definition send (message : string) (s : WsServer.WebSocketSession)
  : outcome WsServer.WebSocketSession :=
  lock_guard false
    (let s1 := WsServer.mkSession (WsServer.write_queue_ s ++ [message])
                 (WsServer.writing_ s) (WsServer.in_flight_ s) in
     if negb (WsServer.writing_ s1)
     then do_write true
            (WsServer.mkSession (WsServer.write_queue_ s1) true (WsServer.in_flight_ s1))
     else Returns s1).

(** [on_write] without error: [do_write] from the completion handler,
    which does not hold the mutex. *)
Definition on_write (s : WsServer.WebSocketSession)
  : outcome WsServer.WebSocketSession :=
  do_write false
    (WsServer.mkSession (WsServer.write_queue_ s) (WsServer.writing_ s) None).

(** The loop of [broadcast] over the sessions. *)
Fixpoint send_all (msg : string) (l : list (nat * WsServer.WebSocketSession))
  : outcome (list (nat * WsServer.WebSocketSession)) :=
  match l with
  | [] => Returns []
  | (id, s) :: rest =>
      match send msg s with
      | Relocks => Relocks
      | Returns s' =>
          match send_all msg rest with
          | Relocks => Relocks
          | Returns r => Returns ((id, s') :: r)
          end
      end
  end.

Definition broadcast (srv : WsServer.WebSocketServer) (message : json)
  : outcome WsServer.WebSocketServer :=
  match send_all (dump message) (map_to_list (WsServer.sessions_ srv)) with
  | Relocks => Relocks
  | Returns l => Returns (WsServer.mkServer (list_to_map l))
  end.

End Locks.

Arguments Returns {A} a.
Arguments Relocks {A}.

End WsLocks.

Section LockFacts.
Variable json : Type.
Variable dump : json -> string.

Lemma send_all_relocks (msg : string) (l : list (nat * WsServer.WebSocketSession))
    (id : nat) (s : WsServer.WebSocketSession) :
  In (id, s) l -> WsServer.writing_ s = false ->
  WsLocks.send_all msg l = WsLocks.Relocks.
Proof.
  intros Hin Hw. induction l as [|[id' s'] l IH]; [destruct Hin|].
  cbn [WsLocks.send_all]. destruct Hin as [[= -> ->]|Hin].
  - unfold WsLocks.send, WsLocks.lock_guard, WsLocks.do_write. cbn.
    rewrite Hw. reflexivity.
  - rewrite (IH Hin). destruct (WsLocks.send msg s'); reflexivity.
Qed.

(** X16.  [send] on a session that is not writing (a new session, or one
    whose queue has drained) calls [do_write] while it holds
    [write_mutex_], and [do_write] locks [write_mutex_] again: the call
    does not return normally.  Only a [send] to a session with a write in
    progress returns, having appended the message.  So a [broadcast] to a
    server that has just accepted a client does not return either. *)
Theorem send_relocks_write_mutex (msg : string) (s : WsServer.WebSocketSession)
    (srv : WsServer.WebSocketServer) (id : nat) (m : json) :
  WsLocks.send msg s
  = (if WsServer.writing_ s
     then WsLocks.Returns
            (WsServer.mkSession (WsServer.write_queue_ s ++ [msg]) true
               (WsServer.in_flight_ s))
     else WsLocks.Relocks) /\
  WsLocks.send msg WsServer.new_session = WsLocks.Relocks /\
  WsLocks.on_write s
  = WsLocks.Returns
      (WsServer.do_write
         (WsServer.mkSession (WsServer.write_queue_ s) (WsServer.writing_ s) None)) /\
  WsLocks.broadcast json dump (WsServer.add_session srv id) m = WsLocks.Relocks.
Proof.
  split; [|split; [|split]].
  - unfold WsLocks.send, WsLocks.lock_guard, WsLocks.do_write. cbn.
    destruct (WsServer.writing_ s) eqn:E; cbn; [|reflexivity].
    reflexivity.
  - reflexivity.
  - reflexivity.
  - unfold WsLocks.broadcast.
    rewrite (send_all_relocks (dump m) _ id WsServer.new_session); [reflexivity| |reflexivity].
    apply list_elem_of_In. apply elem_of_map_to_list.
    unfold WsServer.add_session. cbn. apply lookup_insert_eq.
Qed.

End LockFacts.

(** C8.  The first broadcast to a server that has accepted one client:
    [send] takes [write_mutex_], finds the session not writing and calls
    [do_write], which locks [write_mutex_] again.  The message is not
    enqueued "without blocking": neither [send] nor [broadcast] returns. *)
Lemma first_broadcast_never_returns :
  WsLocks.send "tick" WsServer.new_session = WsLocks.Relocks /\
  WsLocks.broadcast string (fun s => s)
    (WsServer.add_session (WsServer.mkServer ∅) 7) "tick"%string
  = WsLocks.Relocks.
Proof.
  split; [reflexivity|].
  unfold WsLocks.broadcast.
  rewrite (send_all_relocks "tick" _ 7%nat WsServer.new_session);
    [reflexivity | | reflexivity].
  apply list_elem_of_In. apply elem_of_map_to_list.
  unfold WsServer.add_session. cbn. apply lookup_insert_eq.
Qed.

(** ** Stream names: [binance/endpoints.hpp], [MessageParser::is_depth_stream],
    [FeedHandler::on_ws_message] *)

Module Streams.

(** [endpoints::ws_combined_path]: the four [+=] in order. *)
Definition ws_combined_path (symbol : string) : string :=
  (((("/stream?streams=" ++ symbol) ++ "@depth@100ms/") ++ symbol) ++ "@aggTrade")%string.

(** [haystack.compare(0, needle.size(), needle) == 0] *)
Fixpoint starts_with (needle hay : string) : bool :=
  match needle, hay with
  | EmptyString, _ => true
  | String a n', String b h' => Ascii.eqb a b && starts_with n' h'
  | String _ _, EmptyString => false
  end.

(** [hay.find(needle) != std::string_view::npos] *)
Fixpoint contains (needle hay : string) : bool :=
  starts_with needle hay
  || match hay with
     | EmptyString => false
     | String _ h' => contains needle h'
     end.

Definition is_depth_stream (stream_name : string) : bool :=
  contains "@depth" stream_name.
Definition is_agg_trade_stream (stream_name : string) : bool :=
  contains "@aggTrade" stream_name.

(** The dispatch of [on_ws_message] on the stream name of a wrapper that
    parsed: the depth test comes first. *)
Inductive Route : Set := ToDepthUpdate | ToAggTrade | Dropped.

Definition route (stream : string) : Route :=
  if is_depth_stream stream then ToDepthUpdate
  else if is_agg_trade_stream stream then ToAggTrade
  else Dropped.

End Streams.

Section StreamFacts.
Import Streams.

Fixpoint has_at (s : string) : bool :=
  match s with
  | EmptyString => false
  | String c r => Ascii.eqb c "@" || has_at r
  end.

Lemma contains_app_r (needle a b : string) :
  contains needle b = true -> contains needle (a ++ b) = true.
Proof.
  intros H. induction a as [|c a IH].
  - rewrite append_nil. exact H.
  - rewrite append_cons. cbn [contains]. rewrite IH. apply orb_true_r.
Qed.

Lemma contains_app_l (needle a b : string) :
  contains needle a = true -> contains needle (a ++ b) = true.
Proof.
  assert (Hs : forall n x, starts_with n x = true -> starts_with n (x ++ b) = true).
  { induction n as [|c n IHn]; intros x Hx; [destruct (x ++ b)%string; reflexivity|].
    destruct x as [|d x]; [discriminate|].
    rewrite append_cons. cbn [starts_with] in *.
    apply andb_true_iff in Hx. destruct Hx as [-> Hx]. cbn. apply IHn. exact Hx. }
  induction a as [|c a IH]; intros H.
  - cbn in H. rewrite orb_false_r in H. destruct needle; [|discriminate].
    destruct (("" ++ b)%string); reflexivity.
  - rewrite append_cons. cbn [contains] in *.
    apply orb_true_iff in H. destruct H as [H|H].
    + change (String c (a ++ b)) with (String c a ++ b)%string.
      rewrite (Hs _ _ H). reflexivity.
    + rewrite (IH H). apply orb_true_r.
Qed.

Lemma no_at_no_depth (symbol suffix : string) (c0 : ascii) (needle : string) :
  has_at symbol = false ->
  contains (String "@" (String c0 needle)) (symbol ++ suffix)
  = contains (String "@" (String c0 needle)) suffix.
Proof.
  intros H. induction symbol as [|c r IH].
  - rewrite append_nil. reflexivity.
  - cbn [has_at] in H. apply orb_false_iff in H. destruct H as [Hc Hr].
    rewrite append_cons. cbn [contains starts_with].
    rewrite Ascii.eqb_sym, Hc. cbn [andb orb]. apply IH. exact Hr.
Qed.

(** X17.  The two streams that [ws_combined_path] subscribes to are
    dispatched to the right handler: messages of the stream
    [<symbol>@depth@100ms] go to the depth-update path for every symbol,
    and messages of [<symbol>@aggTrade] go to the trade path for every
    symbol without an [@]; because the depth test comes first, a symbol
    that contains [@depth] has its trades dispatched as depth updates. *)
Theorem stream_routing (symbol : string) :
  ws_combined_path symbol
  = ((("/stream?streams=" ++ (symbol ++ "@depth@100ms")) ++ "/")
       ++ (symbol ++ "@aggTrade"))%string /\
  route (symbol ++ "@depth@100ms") = ToDepthUpdate /\
  (has_at symbol = false -> route (symbol ++ "@aggTrade") = ToAggTrade) /\
  (is_depth_stream symbol = true -> route (symbol ++ "@aggTrade") = ToDepthUpdate).
Proof.
  split; [|split; [|split]].
  - unfold ws_combined_path.
    rewrite !str_app_assoc. reflexivity.
  - unfold route, is_depth_stream.
    rewrite contains_app_r by reflexivity. reflexivity.
  - intros H. unfold route, is_depth_stream, is_agg_trade_stream.
    rewrite (no_at_no_depth symbol "@aggTrade" "d" "epth" H).
    rewrite contains_app_r by reflexivity. reflexivity.
  - intros H. unfold route. unfold is_depth_stream in *.
    rewrite (contains_app_l _ _ _ H). reflexivity.
Qed.

End StreamFacts.

(** ** [orderbook/order_book.cpp] with the key type it is declared with

    [order_book.hpp] declares [apply_bid_update(Price price, Quantity qty)]
    and [apply_ask_update(Price price, Quantity qty)] with [Price = double]
    ([core/types.hpp]), and the sides of [orderbook/price_level.hpp] are
    [std::map<Price, Quantity, std::greater<Price>>] and
    [std::map<Price, Quantity>]: the key of a level is a [double], and two
    keys are one key when neither compares before the other under the
    floating-point [>] (bids) or [<] (asks). *)

Module DoubleBook.

Definition Price : Type := float.
Definition PriceLevel : Type := (Price * Quantity)%type.

Section Side.
(** [before a b]: the comparator, "a is ordered before b". *)
Variable before : Price -> Price -> bool.

(** [m[k] = v]; an equivalent key that is already present is kept. *)
Fixpoint assign (k : Price) (v : Quantity) (m : list PriceLevel)
  : list PriceLevel :=
  match m with
  | [] => [(k, v)]
  | (k', v') :: tl =>
      if before k k' then (k, v) :: m
      else if before k' k then (k', v') :: assign k v tl
      else (k', v) :: tl
  end.

(** [m.find(k)], as the entry found *)
Fixpoint find (k : Price) (m : list PriceLevel) : option Quantity :=
  match m with
  | [] => None
  | (k', v') :: tl =>
      if before k k' then None
      else if before k' k then find k tl
      else Some v'
  end.

(** [m.erase(m.find(k))] when the key is present *)
Fixpoint erase (k : Price) (m : list PriceLevel) : list PriceLevel :=
  match m with
  | [] => []
  | (k', v') :: tl =>
      if before k k' then m
      else if before k' k then (k', v') :: erase k tl
      else tl
  end.
End Side.

(** [std::greater<double>] and [std::less<double>]. *)
Definition bid_before (a b : Price) : bool := PrimFloat.ltb b a.
Definition ask_before (a b : Price) : bool := PrimFloat.ltb a b.

Record OrderBook : Type := mkBook {
  bids_ : list PriceLevel;
  asks_ : list PriceLevel;
  last_update_id_ : SequenceId;
  imbalance_levels_ : nat;
  best_bid_it_ : nat;
  best_ask_it_ : nat;
  best_bid_valid_ : bool;
  best_ask_valid_ : bool
}.

Definition create (imbalance_levels : nat) : OrderBook :=
  mkBook [] [] 0 imbalance_levels 0 0 false false.

Definition set_bids (b : OrderBook) (m : list PriceLevel) : OrderBook :=
  mkBook m (asks_ b) (last_update_id_ b) (imbalance_levels_ b)
         (best_bid_it_ b) (best_ask_it_ b)
         (best_bid_valid_ b) (best_ask_valid_ b).
Definition set_asks (b : OrderBook) (m : list PriceLevel) : OrderBook :=
  mkBook (bids_ b) m (last_update_id_ b) (imbalance_levels_ b)
         (best_bid_it_ b) (best_ask_it_ b)
         (best_bid_valid_ b) (best_ask_valid_ b).
Definition set_bid_cache (b : OrderBook) (it : nat) (valid : bool) : OrderBook :=
  mkBook (bids_ b) (asks_ b) (last_update_id_ b) (imbalance_levels_ b)
         it (best_ask_it_ b) valid (best_ask_valid_ b).
Definition set_ask_cache (b : OrderBook) (it : nat) (valid : bool) : OrderBook :=
  mkBook (bids_ b) (asks_ b) (last_update_id_ b) (imbalance_levels_ b)
         (best_bid_it_ b) it (best_bid_valid_ b) valid.

Definition positive_qty (q : Quantity) : bool := PrimFloat.ltb 0%float q.

(** [apply_bid_update]: both branches end in [best_bid_valid_ = false]. *)
Definition apply_bid_update (b : OrderBook) (price : Price) (qty : Quantity)
  : OrderBook :=
  let b1 :=
    if positive_qty qty then set_bids b (assign bid_before price qty (bids_ b))
    else
      match find bid_before price (bids_ b) with
      | Some _ => set_bids b (erase bid_before price (bids_ b))
      | None => b
      end in
  set_bid_cache b1 (best_bid_it_ b1) false.

Definition apply_ask_update (b : OrderBook) (price : Price) (qty : Quantity)
  : OrderBook :=
  let b1 :=
    if positive_qty qty then set_asks b (assign ask_before price qty (asks_ b))
    else
      match find ask_before price (asks_ b) with
      | Some _ => set_asks b (erase ask_before price (asks_ b))
      | None => b
      end in
  set_ask_cache b1 (best_ask_it_ b1) false.

End DoubleBook.

(** ** The order of [double] keys *)

Section DoubleOrder.

(** The lexicographic order on triples of integers. *)
Definition lex_lt (a b : Z * Z * Z) : Prop :=
  let '(a1, a2, a3) := a in
  let '(b1, b2, b3) := b in
  a1 < b1 \/ (a1 = b1 /\ (a2 < b2 \/ (a2 = b2 /\ a3 < b3))).

Definition lex_opp (a : Z * Z * Z) : Z * Z * Z :=
  let '(a1, a2, a3) := a in (- a1, - a2, - a3).

Lemma lex_lt_irrefl (a : Z * Z * Z) : ~ lex_lt a a.
Proof. destruct a as [[a1 a2] a3]. unfold lex_lt. lia. Qed.

Lemma lex_lt_trans (a b c : Z * Z * Z) : lex_lt a b -> lex_lt b c -> lex_lt a c.
Proof.
  destruct a as [[a1 a2] a3], b as [[b1 b2] b3], c as [[c1 c2] c3].
  unfold lex_lt. lia.
Qed.

Lemma lex_lt_total (a b : Z * Z * Z) : ~ lex_lt a b -> ~ lex_lt b a -> a = b.
Proof.
  destruct a as [[a1 a2] a3], b as [[b1 b2] b3]. unfold lex_lt. intros H1 H2.
  assert (a1 = b1) by lia. assert (a2 = b2) by lia. assert (a3 = b3) by lia.
  congruence.
Qed.

Lemma lex_lt_opp (a b : Z * Z * Z) : lex_lt (lex_opp a) (lex_opp b) <-> lex_lt b a.
Proof.
  destruct a as [[a1 a2] a3], b as [[b1 b2] b3]. unfold lex_lt, lex_opp. lia.
Qed.

Lemma lex_opp_inj (a b : Z * Z * Z) : lex_opp a = lex_opp b <-> a = b.
Proof.
  destruct a as [[a1 a2] a3], b as [[b1 b2] b3]. unfold lex_opp.
  split; intros [= H1 H2 H3]; f_equal; try f_equal; lia.
Qed.

(** The place of a binary64 value in the order of [SFcompare]: sign class,
    then exponent, then mantissa (negated for negative values); both zeros
    have one place. *)
Definition rank (x : spec_float) : Z * Z * Z :=
  match x with
  | S754_zero _ => (0, 0, 0)
  | S754_infinity s => (if s then -2 else 2, 0, 0)
  | S754_nan => (0, 0, 0)
  | S754_finite s m e =>
      if s then (-1, - e, - Z.pos m) else (1, e, Z.pos m)
  end.

Definition not_nan_sf (x : spec_float) : Prop :=
  match x with S754_nan => False | _ => True end.

Lemma SFltb_rank (x y : spec_float) :
  not_nan_sf x -> not_nan_sf y ->
  (SFltb x y = true <-> lex_lt (rank x) (rank y)).
Proof.
  intros Hx Hy.
  destruct x as [sx|sx| |sx mx ex]; try contradiction;
  destruct y as [sy|sy| |sy my ey]; try contradiction;
  unfold SFltb, SFcompare, rank, lex_lt;
  try destruct sx; try destruct sy;
  try (split; intros H; [try discriminate; lia | try reflexivity; exfalso; lia]).
  - destruct (Z.compare_spec ex ey) as [E|E|E].
    + change (Pos.compare_cont Eq mx my) with (Pos.compare mx my).
      destruct (Pos.compare_spec mx my) as [F|F|F]; cbn [CompOpp];
        (split; intros H; [try discriminate; lia | try reflexivity; exfalso; lia]).
    + split; intros H; [try discriminate; lia | try reflexivity; exfalso; lia].
    + split; intros H; [try discriminate; lia | try reflexivity; exfalso; lia].
  - destruct (Z.compare_spec ex ey) as [E|E|E].
    + change (Pos.compare_cont Eq mx my) with (Pos.compare mx my).
      destruct (Pos.compare_spec mx my) as [F|F|F];
        (split; intros H; [try discriminate; lia | try reflexivity; exfalso; lia]).
    + split; intros H; [try discriminate; lia | try reflexivity; exfalso; lia].
    + split; intros H; [try discriminate; lia | try reflexivity; exfalso; lia].
Qed.

Lemma SFeqb_rank (x y : spec_float) :
  not_nan_sf x -> not_nan_sf y ->
  (SFeqb x y = true <-> rank x = rank y).
Proof.
  intros Hx Hy.
  destruct x as [sx|sx| |sx mx ex]; try contradiction;
  destruct y as [sy|sy| |sy my ey]; try contradiction;
  unfold SFeqb, SFcompare, rank;
  try destruct sx; try destruct sy;
  try (split; intros H; [try discriminate; reflexivity
                        | try reflexivity; exfalso; injection H; lia]).
  - destruct (Z.compare_spec ex ey) as [E|E|E].
    + change (Pos.compare_cont Eq mx my) with (Pos.compare mx my).
      destruct (Pos.compare_spec mx my) as [F|F|F]; cbn [CompOpp];
        (split; intros H; [try discriminate; subst; reflexivity
                          | try reflexivity; exfalso; injection H; lia]).
    + split; intros H; [discriminate | exfalso; injection H; lia].
    + split; intros H; [discriminate | exfalso; injection H; lia].
  - destruct (Z.compare_spec ex ey) as [E|E|E].
    + change (Pos.compare_cont Eq mx my) with (Pos.compare mx my).
      destruct (Pos.compare_spec mx my) as [F|F|F];
        (split; intros H; [try discriminate; subst; reflexivity
                          | try reflexivity; exfalso; injection H; lia]).
    + split; intros H; [discriminate | exfalso; injection H; lia].
    + split; intros H; [discriminate | exfalso; injection H; lia].
Qed.

(** [p == p], which fails for NaN only. *)
Definition not_nan (p : float) : Prop := PrimFloat.eqb p p = true.

Definition price_rank (p : float) : Z * Z * Z := rank (Prim2SF p).

Lemma not_nan_spec (p : float) : not_nan p -> not_nan_sf (Prim2SF p).
Proof.
  unfold not_nan. rewrite FloatAxioms.eqb_spec.
  destruct (Prim2SF p); cbn; try discriminate; exact (fun _ => I).
Qed.

Lemma ltb_rank (p q : float) :
  not_nan p -> not_nan q ->
  (PrimFloat.ltb p q = true <-> lex_lt (price_rank p) (price_rank q)).
Proof.
  intros Hp Hq. rewrite FloatAxioms.ltb_spec.
  apply SFltb_rank; apply not_nan_spec; assumption.
Qed.

Lemma eqb_rank (p q : float) :
  not_nan p -> not_nan q ->
  (PrimFloat.eqb p q = true <-> price_rank p = price_rank q).
Proof.
  intros Hp Hq. rewrite FloatAxioms.eqb_spec.
  apply SFeqb_rank; apply not_nan_spec; assumption.
Qed.

End DoubleOrder.

(** ** A [double]-keyed side as a map *)

Section DoubleSideFacts.
Import DoubleBook.

(** The comparator orders the usable keys as [rk] places them, and [same]
    is the equality test that goes with it. *)
Variable before : Price -> Price -> bool.
Variable same : Price -> Price -> bool.
Variable rk : Price -> Z * Z * Z.
Variable ok : Price -> Prop.
Hypothesis before_rk :
  forall a b, ok a -> ok b -> (before a b = true <-> lex_lt (rk a) (rk b)).
Hypothesis same_rk :
  forall a b, ok a -> ok b -> (same a b = true <-> rk a = rk b).

Definition prices_ok (m : list PriceLevel) : Prop :=
  Forall (fun lv => ok (fst lv)) m.
Definition price_before (x y : PriceLevel) : Prop := before (fst x) (fst y) = true.
Definition price_ordered (m : list PriceLevel) : Prop :=
  StronglySorted price_before m.

Lemma price_before_false (a b : Price) :
  ok a -> ok b -> (before a b = false <-> ~ lex_lt (rk a) (rk b)).
Proof.
  intros Ha Hb. rewrite <- (before_rk a b Ha Hb).
  destruct (before a b); split; congruence.
Qed.

Lemma price_before_same (a b c : Price) :
  ok a -> ok b -> ok c -> rk a = rk b ->
  before a c = before b c /\ before c a = before c b.
Proof.
  intros Ha Hb Hc E.
  pose proof (before_rk a c Ha Hc) as H1. pose proof (before_rk b c Hb Hc) as H2.
  pose proof (before_rk c a Hc Ha) as H3. pose proof (before_rk c b Hc Hb) as H4.
  rewrite E in H1, H3.
  split.
  - destruct (before a c), (before b c); try reflexivity.
    + symmetry. apply H2, H1. reflexivity.
    + apply H1, H2. reflexivity.
  - destruct (before c a), (before c b); try reflexivity.
    + symmetry. apply H4, H3. reflexivity.
    + apply H3, H4. reflexivity.
Qed.

Lemma price_before_irrefl (a : Price) : ok a -> before a a = false.
Proof.
  intros Ha. apply price_before_false; [assumption | assumption |].
  apply lex_lt_irrefl.
Qed.

Lemma price_before_trans (a b c : Price) :
  ok a -> ok b -> ok c ->
  before a b = true -> before b c = true -> before a c = true.
Proof.
  intros Ha Hb Hc H1 H2.
  apply before_rk in H1; [|assumption|assumption].
  apply before_rk in H2; [|assumption|assumption].
  apply before_rk; [assumption | assumption |].
  eapply lex_lt_trans; eassumption.
Qed.

Lemma price_before_total (a b : Price) :
  ok a -> ok b -> before a b = false -> before b a = false -> rk a = rk b.
Proof.
  intros Ha Hb H1 H2.
  apply price_before_false in H1; [|assumption|assumption].
  apply price_before_false in H2; [|assumption|assumption].
  apply lex_lt_total; assumption.
Qed.

Lemma assign_prices_ok (k : Price) (v : Quantity) (m : list PriceLevel) :
  ok k -> prices_ok m -> prices_ok (assign before k v m).
Proof.
  intros Hk HF. induction HF as [|[k' v'] tl Hx HF IH]; cbn [assign].
  - constructor; [exact Hk | constructor].
  - destruct (before k k'); [repeat constructor; assumption|].
    destruct (before k' k); constructor; assumption.
Qed.

Lemma erase_Forall_price (P : PriceLevel -> Prop) (k : Price) (m : list PriceLevel) :
  Forall P m -> Forall P (erase before k m).
Proof.
  intros HF. induction HF as [|[k' v'] tl Hx HF IH]; cbn [erase].
  - constructor.
  - destruct (before k k'); [constructor; assumption|].
    destruct (before k' k); [constructor; assumption | assumption].
Qed.

Lemma assign_after (k0 k : Price) (v : Quantity) (m : list PriceLevel) :
  before k0 k = true ->
  Forall (fun lv => before k0 (fst lv) = true) m ->
  Forall (fun lv => before k0 (fst lv) = true) (assign before k v m).
Proof.
  intros Hk HF. induction HF as [|[k' v'] tl Hx HF IH]; cbn [assign].
  - constructor; [exact Hk | constructor].
  - destruct (before k k'); [repeat constructor; assumption|].
    destruct (before k' k); constructor; assumption.
Qed.

Lemma price_ordered_assign (k : Price) (v : Quantity) (m : list PriceLevel) :
  ok k -> prices_ok m -> price_ordered m -> price_ordered (assign before k v m).
Proof.
  unfold price_ordered. intros Hk Hok H. revert Hok.
  induction H as [|[k' v'] tl Hs IH Hall]; intros Hok; cbn [assign].
  - repeat constructor.
  - inversion Hok as [|? ? Hk' Hok']; subst. cbn [fst] in Hk'.
    destruct (before k k') eqn:E1.
    + constructor; [constructor; assumption|].
      constructor; [exact E1|].
      rewrite List.Forall_forall in Hall, Hok'. apply List.Forall_forall.
      intros [k2 v2] H2. unfold price_before. cbn [fst].
      apply (price_before_trans k k' k2); try assumption.
      * exact (Hok' _ H2).
      * exact (Hall _ H2).
    + destruct (before k' k) eqn:E2.
      * constructor; [apply IH; assumption|].
        apply (assign_after k' k v tl E2 Hall).
      * constructor; assumption.
Qed.

Lemma price_ordered_erase (k : Price) (m : list PriceLevel) :
  price_ordered m -> price_ordered (erase before k m).
Proof.
  unfold price_ordered. intros H.
  induction H as [|[k' v'] tl Hs IH Hall]; cbn [erase].
  - constructor.
  - destruct (before k k'); [constructor; assumption|].
    destruct (before k' k); [|assumption].
    constructor; [assumption | apply erase_Forall_price; assumption].
Qed.

Lemma find_all_after (p : Price) (m : list PriceLevel) :
  Forall (fun lv => before p (fst lv) = true) m -> find before p m = None.
Proof.
  intros H. destruct H as [|[k' v'] tl Hx _]; cbn [find]; [reflexivity|].
  cbn [fst] in Hx. rewrite Hx. reflexivity.
Qed.

(** A write is found under every key equal to the written one. *)
Lemma find_assign_same (k p : Price) (v : Quantity) (m : list PriceLevel) :
  ok k -> ok p -> prices_ok m -> rk p = rk k ->
  find before p (assign before k v m) = Some v.
Proof.
  intros Hk Hp Hok E.
  assert (Hpk : before p k = false /\ before k p = false).
  { destruct (price_before_same p k k Hp Hk Hk E) as [H1 H2].
    rewrite H1, H2, price_before_irrefl by assumption. split; reflexivity. }
  destruct Hpk as [Hpk Hkp].
  induction Hok as [|[k' v'] tl Hk' Hok IH]; cbn [assign find].
  - rewrite Hpk, Hkp. reflexivity.
  - cbn [fst] in Hk'.
    destruct (price_before_same p k k' Hp Hk Hk' E) as [H1 H2].
    destruct (before k k') eqn:E1; cbn [find].
    + rewrite Hpk, Hkp. reflexivity.
    + destruct (before k' k) eqn:E2; cbn [find]; rewrite H1, H2; [exact IH | reflexivity].
Qed.

(** ... and leaves what is found under the other keys. *)
Lemma find_assign_diff (k p : Price) (v : Quantity) (m : list PriceLevel) :
  ok k -> ok p -> prices_ok m -> rk p <> rk k ->
  find before p (assign before k v m) = find before p m.
Proof.
  intros Hk Hp Hok Hne.
  induction Hok as [|[k' v'] tl Hk' Hok IH]; cbn [assign find].
  - destruct (before p k) eqn:E1; [reflexivity|].
    destruct (before k p) eqn:E2; [reflexivity|].
    destruct Hne. apply price_before_total; assumption.
  - cbn [fst] in Hk'. destruct (before k k') eqn:Ekk'; cbn [find].
    + destruct (before p k) eqn:E1.
      * rewrite (price_before_trans p k k' Hp Hk Hk' E1 Ekk'). reflexivity.
      * destruct (before k p) eqn:E2; [reflexivity|].
        destruct Hne. apply price_before_total; assumption.
    + destruct (before k' k) eqn:Ek'k; cbn [find].
      * destruct (before p k'); [reflexivity|].
        destruct (before k' p); [exact IH | reflexivity].
      * pose proof (price_before_total k k' Hk Hk' Ekk' Ek'k) as Ek.
        destruct (before p k') eqn:E1; [reflexivity|].
        destruct (before k' p) eqn:E2; [reflexivity|].
        destruct Hne. rewrite Ek. apply price_before_total; assumption.
Qed.

Lemma find_erase_same (k p : Price) (m : list PriceLevel) :
  ok k -> ok p -> prices_ok m -> price_ordered m -> rk p = rk k ->
  find before p (erase before k m) = None.
Proof.
  intros Hk Hp Hok Ho E. unfold price_ordered in Ho. revert Hok.
  induction Ho as [|[k' v'] tl Hs IH Hall]; intros Hok; cbn [erase find];
    [reflexivity|].
  inversion Hok as [|? ? Hk' Hok']; subst. cbn [fst] in Hk'.
  destruct (price_before_same p k k' Hp Hk Hk' E) as [H1 H2].
  destruct (before k k') eqn:E1; cbn [find].
  - rewrite H1. reflexivity.
  - destruct (before k' k) eqn:E2; cbn [find].
    + rewrite H1, H2. apply IH. exact Hok'.
    + pose proof (price_before_total k k' Hk Hk' E1 E2) as Ek.
      apply find_all_after.
      rewrite List.Forall_forall in Hall, Hok'. apply List.Forall_forall.
      intros [k2 v2] Hin. cbn [fst].
      destruct (price_before_same p k' k2 Hp Hk' (Hok' _ Hin)) as [H3 _];
        [congruence|].
      rewrite H3. exact (Hall _ Hin).
Qed.

Lemma find_erase_diff (k p : Price) (m : list PriceLevel) :
  ok k -> ok p -> prices_ok m -> price_ordered m -> rk p <> rk k ->
  find before p (erase before k m) = find before p m.
Proof.
  intros Hk Hp Hok Ho Hne. unfold price_ordered in Ho. revert Hok.
  induction Ho as [|[k' v'] tl Hs IH Hall]; intros Hok; cbn [erase find];
    [reflexivity|].
  inversion Hok as [|? ? Hk' Hok']; subst. cbn [fst] in Hk'.
  destruct (before k k') eqn:Ekk'; [reflexivity|].
  destruct (before k' k) eqn:Ek'k; cbn [find].
  - destruct (before p k'); [reflexivity|].
    destruct (before k' p); [apply IH; exact Hok' | reflexivity].
  - pose proof (price_before_total k k' Hk Hk' Ekk' Ek'k) as Ek.
    destruct (before p k') eqn:E1.
    + apply find_all_after.
      rewrite List.Forall_forall in Hall, Hok'. apply List.Forall_forall.
      intros [k2 v2] Hin. cbn [fst].
      apply (price_before_trans p k' k2 Hp Hk' (Hok' _ Hin) E1 (Hall _ Hin)).
    + destruct (before k' p) eqn:E2; [reflexivity|].
      destruct Hne. rewrite Ek. apply price_before_total; assumption.
Qed.

(** What one call [apply_bid_update(price, qty)] or
    [apply_ask_update(price, qty)] does to its side. *)
Definition price_update (m : list PriceLevel) (lv : PriceLevel)
  : list PriceLevel :=
  if positive_qty (snd lv) then assign before (fst lv) (snd lv) m
  else match find before (fst lv) m with
       | Some _ => erase before (fst lv) m
       | None => m
       end.

Lemma price_update_keeps (m : list PriceLevel) (lv : PriceLevel) :
  ok (fst lv) -> prices_ok m -> price_ordered m ->
  prices_ok (price_update m lv) /\ price_ordered (price_update m lv).
Proof.
  intros Hk Hok Ho. unfold price_update. destruct (positive_qty (snd lv)).
  - split; [apply assign_prices_ok | apply price_ordered_assign]; assumption.
  - destruct (find before (fst lv) m); [|split; assumption].
    split; [apply erase_Forall_price | apply price_ordered_erase]; assumption.
Qed.

Lemma find_price_update (p : Price) (m : list PriceLevel) (lv : PriceLevel) :
  ok p -> ok (fst lv) -> prices_ok m -> price_ordered m ->
  find before p (price_update m lv)
  = if same (fst lv) p
    then (if positive_qty (snd lv) then Some (snd lv) else None)
    else find before p m.
Proof.
  intros Hp Hk Hok Ho. destruct lv as [k q]. cbn [fst snd] in *.
  unfold price_update. cbn [fst snd].
  pose proof (same_rk k p Hk Hp) as Hs.
  destruct (same k p) eqn:Es.
  - assert (E : rk p = rk k) by (symmetry; apply Hs; reflexivity).
    destruct (positive_qty q).
    + apply find_assign_same; assumption.
    + destruct (find before k m) eqn:Ef.
      * apply find_erase_same; assumption.
      * rewrite <- Ef. clear Ef.
        induction Hok as [|[k' v'] tl Hk' Hok' IH]; cbn [find]; [reflexivity|].
        cbn [fst] in Hk'.
        destruct (price_before_same p k k' Hp Hk Hk' E) as [H1 H2].
        rewrite H1, H2.
        destruct (before k k'); [reflexivity|].
        destruct (before k' k); [|reflexivity].
        apply IH. inversion Ho; assumption.
  - assert (Hne : rk p <> rk k).
    { intros E. symmetry in E. apply Hs in E. congruence. }
    destruct (positive_qty q).
    + apply find_assign_diff; assumption.
    + destruct (find before k m); [|reflexivity].
      apply find_erase_diff; assumption.
Qed.

(** The quantity of the last entry whose price equals [p]. *)
Fixpoint last_price_write (p : Price) (lvs : list PriceLevel) : option Quantity :=
  match lvs with
  | [] => None
  | (k, q) :: rest =>
      match last_price_write p rest with
      | Some q' => Some q'
      | None => if same k p then Some q else None
      end
  end.

Lemma find_fold_price_update (p : Price) (lvs : list PriceLevel) :
  ok p -> prices_ok lvs ->
  forall m, prices_ok m -> price_ordered m ->
  find before p (fold_left price_update lvs m)
  = match last_price_write p lvs with
    | Some q => if positive_qty q then Some q else None
    | None => find before p m
    end.
Proof.
  intros Hp Hl. induction Hl as [|[k q] rest Hk Hl IH]; intros m Hok Ho;
    cbn [fold_left last_price_write]; [reflexivity|].
  cbn [fst] in Hk.
  destruct (price_update_keeps m (k, q) Hk Hok Ho) as [Hok' Ho'].
  rewrite (IH _ Hok' Ho').
  destruct (last_price_write p rest); [reflexivity|].
  rewrite (find_price_update p m (k, q) Hp Hk Hok Ho). cbn [fst snd].
  destruct (same k p); reflexivity.
Qed.

End DoubleSideFacts.

(** ** Price levels under [double] keys *)

Section DoubleBookFacts.
Import DoubleBook.

Definition bid_rank (p : Price) : Z * Z * Z := lex_opp (price_rank p).

Lemma bid_before_rank (a b : Price) :
  not_nan a -> not_nan b ->
  (bid_before a b = true <-> lex_lt (bid_rank a) (bid_rank b)).
Proof.
  intros Ha Hb. unfold bid_before, bid_rank.
  rewrite (ltb_rank b a Hb Ha). symmetry. apply lex_lt_opp.
Qed.

Lemma eqb_bid_rank (a b : Price) :
  not_nan a -> not_nan b ->
  (PrimFloat.eqb a b = true <-> bid_rank a = bid_rank b).
Proof.
  intros Ha Hb. unfold bid_rank.
  rewrite (eqb_rank a b Ha Hb). symmetry. apply lex_opp_inj.
Qed.

Lemma ask_before_rank (a b : Price) :
  not_nan a -> not_nan b ->
  (ask_before a b = true <-> lex_lt (price_rank a) (price_rank b)).
Proof. intros Ha Hb. unfold ask_before. apply ltb_rank; assumption. Qed.

(** The calls that the two loops of [apply_update] make, with the [Price]
    values they pass. *)
Definition apply_bid_updates (b : OrderBook) (lvs : list PriceLevel) : OrderBook :=
  fold_left (fun bk lv => apply_bid_update bk (fst lv) (snd lv)) lvs b.
Definition apply_ask_updates (b : OrderBook) (lvs : list PriceLevel) : OrderBook :=
  fold_left (fun bk lv => apply_ask_update bk (fst lv) (snd lv)) lvs b.

Lemma apply_bid_updates_bids (lvs : list PriceLevel) :
  forall b,
  bids_ (apply_bid_updates b lvs)
  = fold_left (price_update bid_before) lvs (bids_ b).
Proof.
  unfold apply_bid_updates.
  induction lvs as [|[p q] lvs IH]; intros b; cbn [fold_left]; [reflexivity|].
  rewrite IH. f_equal. unfold apply_bid_update, price_update. cbn [fst snd].
  destruct (positive_qty q); [reflexivity|].
  destruct (find bid_before p (bids_ b)); reflexivity.
Qed.

Lemma apply_ask_updates_asks (lvs : list PriceLevel) :
  forall b,
  asks_ (apply_ask_updates b lvs)
  = fold_left (price_update ask_before) lvs (asks_ b).
Proof.
  unfold apply_ask_updates.
  induction lvs as [|[p q] lvs IH]; intros b; cbn [fold_left]; [reflexivity|].
  rewrite IH. f_equal. unfold apply_ask_update, price_update. cbn [fst snd].
  destruct (positive_qty q); [reflexivity|].
  destruct (find ask_before p (asks_ b)); reflexivity.
Qed.

Definition no_nan_price (lvs : list PriceLevel) : Prop :=
  Forall (fun lv => not_nan (fst lv)) lvs.

Lemma fold_price_update_keeps (before same : Price -> Price -> bool)
    (rk : Price -> Z * Z * Z) (lvs : list PriceLevel) :
  (forall a b, not_nan a -> not_nan b ->
     (before a b = true <-> lex_lt (rk a) (rk b))) ->
  no_nan_price lvs ->
  forall m, prices_ok not_nan m -> price_ordered before m ->
  prices_ok not_nan (fold_left (price_update before) lvs m) /\
  price_ordered before (fold_left (price_update before) lvs m).
Proof.
  intros Hrk Hl. induction Hl as [|lv rest Hk Hl IH]; intros m Hok Ho;
    cbn [fold_left]; [split; assumption|].
  destruct (price_update_keeps before rk not_nan Hrk m lv Hk Hok Ho) as [H1 H2].
  apply IH; assumption.
Qed.

(** X1.  Calls of [apply_bid_update] and [apply_ask_update] act on their
    side as writes to a map from [double] prices to quantities, the last
    write to a price winning: when no price is NaN, the level found at price
    [p] after the calls is decided by the last call whose price equals [p]
    as a [double] (stored under its quantity when that is positive, absent
    otherwise), and is the level the side had before when no call had a
    price equal to [p]. *)
Theorem double_keys_last_write_wins (L : nat) (pre lvs : list PriceLevel)
    (p : Price) :
  not_nan p -> no_nan_price pre -> no_nan_price lvs ->
  find bid_before p
    (bids_ (apply_bid_updates (apply_bid_updates (create L) pre) lvs))
  = match last_price_write PrimFloat.eqb p lvs with
    | Some q => if positive_qty q then Some q else None
    | None => find bid_before p (bids_ (apply_bid_updates (create L) pre))
    end /\
  find ask_before p
    (asks_ (apply_ask_updates (apply_ask_updates (create L) pre) lvs))
  = match last_price_write PrimFloat.eqb p lvs with
    | Some q => if positive_qty q then Some q else None
    | None => find ask_before p (asks_ (apply_ask_updates (create L) pre))
    end.
Proof.
  intros Hp Hpre Hl. split.
  - rewrite (apply_bid_updates_bids lvs).
    assert (H : prices_ok not_nan (bids_ (apply_bid_updates (create L) pre)) /\
                price_ordered bid_before (bids_ (apply_bid_updates (create L) pre))).
    { rewrite apply_bid_updates_bids.
      apply (fold_price_update_keeps bid_before PrimFloat.eqb bid_rank pre
               bid_before_rank Hpre); constructor. }
    destruct H as [Hok Ho].
    apply (find_fold_price_update bid_before PrimFloat.eqb bid_rank not_nan
             bid_before_rank eqb_bid_rank p lvs Hp Hl _ Hok Ho).
  - rewrite (apply_ask_updates_asks lvs).
    assert (H : prices_ok not_nan (asks_ (apply_ask_updates (create L) pre)) /\
                price_ordered ask_before (asks_ (apply_ask_updates (create L) pre))).
    { rewrite apply_ask_updates_asks.
      apply (fold_price_update_keeps ask_before PrimFloat.eqb price_rank pre
               ask_before_rank Hpre); constructor. }
    destruct H as [Hok Ho].
    apply (find_fold_price_update ask_before PrimFloat.eqb price_rank not_nan
             ask_before_rank eqb_rank p lvs Hp Hl _ Hok Ho).
Qed.

(** The prices 90071992.54740992 and 90071992.54740993 as the [double]
    values of their [FixedPrice] keys: a level written at the first is
    rewritten by a call at the second. *)
Lemma double_keys_last_write_wins_witness :
  let p1 := FixedPoint.to_double kPriceDecimals 9007199254740992 in
  let p2 := FixedPoint.to_double kPriceDecimals 9007199254740993 in
  find bid_before p1
    (bids_ (apply_bid_updates (apply_bid_updates (create 5) [(p1, 1%float)])
              [(p2, 2%float)]))
  = Some 2%float.
Proof.
  cbn zeta.
  refine (let H := double_keys_last_write_wins 5
            [(FixedPoint.to_double kPriceDecimals 9007199254740992, 1%float)]
            [(FixedPoint.to_double kPriceDecimals 9007199254740993, 2%float)]
            (FixedPoint.to_double kPriceDecimals 9007199254740992) _ _ _ in _).
  - destruct H as [H _]. rewrite H. vm_compute. reflexivity.
  Unshelve.
  + vm_compute. reflexivity.
  + constructor; [vm_compute; reflexivity | constructor].
  + constructor; [vm_compute; reflexivity | constructor].
Defined.


End DoubleBookFacts.
